(** * Note-history and continuation-scheduling engine of the generative piano

    A shallow embedding of [src/assets/js/piano.js]: the key-numbering
    helpers of [PianoKey], the [Piano] constructor guard, the clock
    helpers, the active-note tracker, the continuation scheduler with its
    staleness guard, the seed-input awaiter and [rewind]; then the key
    handlers, [resetAll], [replayHistory] and the timers of the engine,
    the hotkey labels of [PianoCanvas], and the active keys of the Piano
    class at the head of the file.

    Conventions of the embedding.
    - JavaScript numbers that hold integers (key numbers, octave counts,
      millisecond time stamps returned by [new Date()]) are [Z].
    - JavaScript numbers that hold seconds, beats or velocities are exact
      rationals [Q]; the rounding of IEEE doubles is modelled apart, in
      [Double], for the tick grid and the position that [rewind] moves
      to.
    - Objects mutated through several references ([Note]) live in a store
      and are referred to by address. *)

From Stdlib Require Import ZArith QArith Qround Qabs Lqa Lia List Bool Ascii String
  Sorted.
From stdpp Require Import base list gmap pretty.

Import ListNotations.
Local Open Scope Z_scope.

(** ** JavaScript arithmetic helpers *)

Module Js.

(** [a % b] on integers: the result takes the sign of the dividend. *)
Definition rem (a b : Z) : Z := Z.rem a b.

(** [Math.floor(a / b)] for integers [a], [b]. *)
Definition floor_div (a b : Z) : Z := a / b.

(** [Array.prototype.indexOf]: position of the first occurrence, [-1]
    when absent. *)
Fixpoint indexOf_from (i : Z) (xs : list Z) (x : Z) : Z :=
  match xs with
  | [] => -1
  | y :: ys => if Z.eqb y x then i else indexOf_from (i + 1) ys x
  end.

Definition indexOf (xs : list Z) (x : Z) : Z := indexOf_from 0 xs x.

(** [Array.prototype.includes]. *)
Definition includes (xs : list Z) (x : Z) : bool :=
  existsb (Z.eqb x) xs.

(** [xs[i]]: [None] stands for [undefined] (negative or too large an
    index). *)
Definition at_index {A : Type} (xs : list A) (i : Z) : option A :=
  if Z.ltb i 0 then None else nth_error xs (Z.to_nat i).

(** *** Numbers that are not integers *)

(** Truncation toward zero (the integer part). *)
Definition trunc (q : Q) : Z := Z.quot (Qnum q) (Zpos (Qden q)).

(** [a % b] on numbers: [a - b * trunc (a / b)], with the sign of the
    dividend.  ([b = 0] gives [NaN] in JavaScript and is outside the
    model.) *)
Definition fmod (a b : Q) : Q := (a - b * inject_Z (trunc (a / b)))%Q.

Definition leb (a b : Q) : bool := Qle_bool a b.            (* a <= b *)
Definition ltb (a b : Q) : bool := negb (Qle_bool b a).     (* a < b *)
Definition geb (a b : Q) : bool := Qle_bool b a.            (* a >= b *)
Definition gtb (a b : Q) : bool := negb (Qle_bool a b).     (* a > b *)
Definition eqb (a b : Q) : bool := Qeq_bool a b.            (* a === b *)

(** [Math.max(a, b)], [Math.ceil(a)], [Math.abs(a)]. *)
Definition max (a b : Q) : Q := if Qle_bool a b then b else a.
Definition ceil (a : Q) : Z := Qceiling a.
Definition floor (a : Q) : Z := Qfloor a.
Definition abs (a : Q) : Q := Qabs a.

(** [xs.at(-1)]: the last element, [undefined] on an empty array. *)
Definition at_last {A : Type} (xs : list A) : option A := List.last (List.map Some xs) None.

(** [xs.splice(xs.indexOf(x), 1)] when [x] occurs in [xs]: the first
    occurrence is removed.  (Left unchanged here when [x] is absent;
    the source guards those calls.) *)
Fixpoint remove_first (x : nat) (xs : list nat) : list nat :=
  match xs with
  | [] => []
  | y :: ys => if Nat.eqb y x then ys else y :: remove_first x ys
  end.

(** [typeof id !== 'undefined']. *)
Definition defined {A : Type} (id : option A) : bool :=
  match id with
  | Some _ => true
  | None => false
  end.

(** Truthiness of a numeric identifier that may be [undefined]. *)
Definition truthy (id : option nat) : bool :=
  match id with
  | Some (S _) => true
  | _ => false
  end.

(** The property keys that are array indices: a decimal numeral
    without leading zero, below [2^32 - 1]. *)
Definition digit (c : ascii) : option N :=
  let n := N_of_ascii c in
  if (48 <=? n)%N && (n <=? 57)%N then Some (n - 48)%N else None.

Fixpoint numeral (acc : N) (s : string) : option N :=
  match s with
  | EmptyString => Some acc
  | String c s' =>
      match digit c with
      | Some d => numeral (acc * 10 + d)%N s'
      | None => None
      end
  end.

Definition arrayIndex (s : string) : option N :=
  match s with
  | EmptyString => None
  | String c s' =>
      if Ascii.eqb c "0" && negb (String.eqb s' EmptyString) then None
      else
        match numeral 0 s with
        | Some n => if (n <? 2 ^ 32 - 1)%N then Some n else None
        | None => None
        end
  end.

Fixpoint insertIndex (n : N) (key : string) (sorted : list (N * string))
  : list (N * string) :=
  match sorted with
  | [] => [(n, key)]
  | (m, key') :: rest =>
      if (n <? m)%N then (n, key) :: sorted
      else (m, key') :: insertIndex n key rest
  end.

(** [Object.keys(obj)] for an object literal whose properties are
    listed in [properties], without repeated key: the array indices
    come first, in ascending order, then the other keys in the order of
    the literal. *)
Definition objectKeys {V : Type} (properties : list (string * V))
  : list string :=
  let keys := List.map fst properties in
  let indices :=
    fold_left
      (fun sorted key =>
         match arrayIndex key with
         | Some n => insertIndex n key sorted
         | None => sorted
         end)
      keys [] in
  List.map snd indices
  ++ List.filter (fun key => negb (defined (arrayIndex key))) keys.

(** [obj[key]] on such a literal. *)
Definition property {V : Type} (properties : list (string * V))
           (key : string) : option V :=
  snd <$> List.find (fun kv => String.eqb (fst kv) key) properties.

(** [s.toUpperCase()] on the ASCII characters; the bytes of other
    characters are left as they are. *)
Definition upper (c : ascii) : ascii :=
  let n := N_of_ascii c in
  if (97 <=? n)%N && (n <=? 122)%N then ascii_of_N (n - 32) else c.

Fixpoint toUpperCase (s : string) : string :=
  match s with
  | EmptyString => EmptyString
  | String c s' => String (upper c) (toUpperCase s')
  end.

Inductive Error : Type := RangeError | TypeError.

End Js.

(** ** PianoKey: key numbering (piano.js, lines 536-617) *)

Module PianoKey.

Definition whiteKeyNumbers : list Z := [1; 3; 5; 6; 8; 10; 12].
Definition blackKeyNumbers : list Z := [2; 4; 7; 9; 11].
Definition midiNoteNumMiddleC : Z := 60.

Definition noteNames : list string :=
  ["C"; "C#"; "D"; "D#"; "E"; "F"; "F#"; "G"; "G#"; "A"; "A#"; "B"]%string.

Definition calcOctave (keyNum : Z) : Z :=
  Js.floor_div (keyNum + 9) 12.

Definition calcOctaveKeyNum (keyNum : Z) : Z :=
  Js.rem (keyNum + 9) 12 + 1.

Definition calcIsWhiteKey (keyNum : Z) : bool :=
  let octaveKeyNum := calcOctaveKeyNum keyNum in
  Js.includes whiteKeyNumbers octaveKeyNum.

Definition calcColourKeyNum (keyNum : Z) : Z :=
  let octave := calcOctave keyNum in
  let octaveKeyNum := calcOctaveKeyNum keyNum in
  let isWhiteKey := calcIsWhiteKey keyNum in
  if isWhiteKey
  then Js.indexOf whiteKeyNumbers octaveKeyNum + (octave * 7) - 5
  else Js.indexOf blackKeyNumbers octaveKeyNum + (octave * 5) - 4.

(** The table lookup yields [undefined] for an index outside the
    table, and arithmetic on [undefined] yields [NaN]: [None]. *)
Definition calcKeyNumFromColourKeyNum (colourKeyNum : Z) (isWhiteKey : bool)
  : option Z :=
  if isWhiteKey then
    let octave := Js.floor_div (colourKeyNum + 5) 7 in
    let octaveColourKeyNum := Js.rem (colourKeyNum + 5) 7 in
    match Js.at_index whiteKeyNumbers octaveColourKeyNum with
    | Some k => Some ((octave * 12) - 10 + k)
    | None => None
    end
  else
    let octave := Js.floor_div (colourKeyNum + 4) 5 in
    let octaveColourKeyNum := Js.rem (colourKeyNum + 4) 5 in
    match Js.at_index blackKeyNumbers octaveColourKeyNum with
    | Some k => Some ((octave * 12) - 10 + k)
    | None => None
    end.

(** Lines 611-616.  [name + pitchOctave] appends the number in decimal;
    [None] stands for a table lookup that yields [undefined]. *)
Definition calcKeyName (midiNoteNum : Z) : option string :=
  let delta := midiNoteNum - midiNoteNumMiddleC in
  let pitchOctave := Js.floor_div delta 12 + 4 in
  let index := Js.rem (Js.rem delta 12 + 12) 12 in
  match Js.at_index noteNames index with
  | Some name => Some (name +:+ pretty pitchOctave)
  | None => None
  end.

(** The object built by [new PianoKey(keyNum, midiNoteNum)]; [keyName]
    is a function of [midiNoteNum] and is left out. *)
Record t : Type := mk {
  keyNum : Z;
  midiNoteNum : Z;
  octave : Z;
  octaveKeyNum : Z;
  isWhiteKey : bool;
  colourKeyNum : Z
}.

Definition new (keyNum midiNoteNum : Z) : t :=
  {| keyNum := keyNum;
     midiNoteNum := midiNoteNum;
     octave := calcOctave keyNum;
     octaveKeyNum := calcOctaveKeyNum keyNum;
     isWhiteKey := calcIsWhiteKey keyNum;
     colourKeyNum := calcColourKeyNum keyNum |}.

(** [===] on two keys of [pianoKeys]: one object per key number. *)
#[global] Instance eq_dec : EqDecision t.
Proof. solve_decision. Defined.

(** [createPianoKeys(octaves)] (lines 27-35). *)
Definition createPianoKeys (octaves : Z) : list t :=
  let numKeys := (7 * octaves + 3) + (5 * octaves + 1) in
  let lowestMidiNote :=
    midiNoteNumMiddleC - (Js.floor_div octaves 2 * 12) - 3 in
  List.map (fun i => new (Z.of_nat i) (lowestMidiNote + Z.of_nat i))
           (seq 0 (Z.to_nat numKeys)).

End PianoKey.


(** ** Notes and the note store *)

(** [Actor.Player], [Actor.Model], [Actor.Bot]. *)
Inductive Actor : Type := Player | Model | Bot.

(** A [Note] object is referred to by its address in the store. *)
Abbreviation NoteRef := nat (only parsing).

Module Note.

(** Modelled from the spec: the [Note] class is not part of piano.js.
    The fields are those of the spec's data model, [{ keyRef, velocity,
    duration (seconds, -1 while held), time, actor, scheduleHandle?,
    isRewind }], in the order of the constructor calls at lines 674, 776
    and 955.  [key] is [None] when the caller passed [undefined] (a key
    number outside [pianoKeys]). *)
Record t : Type := mk {
  key : option PianoKey.t;
  velocity : Q;
  duration : Q;
  time : Q;
  actor : Actor;
  scheduleId : option nat;
  isRewind : bool
}.

Definition set_duration (d : Q) (n : t) : t :=
  mk (key n) (velocity n) d (time n) (actor n) (scheduleId n) (isRewind n).

Definition set_scheduleId (id : option nat) (n : t) : t :=
  mk (key n) (velocity n) (duration n) (time n) (actor n) id (isRewind n).

End Note.

Abbreviation Store := (list Note.t) (only parsing).

(** [note.time] read through the store. *)
Definition timeOf (σ : Store) (r : NoteRef) : option Q :=
  Note.time <$> σ !! r.

(** [note.time < cutoff], [note.time <= bound] and [note.time >= start];
    a comparison with [undefined] is false. *)
Definition time_lt (σ : Store) (r : NoteRef) (cutoff : Q) : bool :=
  match timeOf σ r with Some t => Js.ltb t cutoff | None => false end.

Definition time_le (σ : Store) (r : NoteRef) (bound : Q) : bool :=
  match timeOf σ r with Some t => Js.leb t bound | None => false end.

Definition time_ge (σ : Store) (r : NoteRef) (start : Q) : bool :=
  match timeOf σ r with Some t => Js.geb t start | None => false end.

(** ** History *)

Module History.

(** Modelled from the spec: the [History] class is not part of
    piano.js.  Spec, data model: [{ notes, bpm, name, startedAt,
    lastSeedNoteTime, parentHistory, isNew }]; [startedAt] only feeds
    the history drawer and is left out.  [lastSeedNoteTime] is
    [undefined] until the seed is frozen. *)
Inductive t : Type := mk {
  noteHistory : list NoteRef;
  bpm : Q;
  name : string;
  lastSeedNoteTime : option Q;
  parentHistory : option t;
  isNew : bool
}.

(** Modelled from the spec: [new History(bpm, name)] opens an empty,
    new History. *)
Definition new (bpm : Q) (name : string) : t :=
  mk [] bpm name None None true.

Definition set_noteHistory (notes : list NoteRef) (h : t) : t :=
  mk notes (bpm h) (name h) (lastSeedNoteTime h) (parentHistory h) (isNew h).

Definition set_bpm (b : Q) (h : t) : t :=
  mk (noteHistory h) b (name h) (lastSeedNoteTime h) (parentHistory h)
     (isNew h).

Definition set_lastSeedNoteTime (x : option Q) (h : t) : t :=
  mk (noteHistory h) (bpm h) (name h) x (parentHistory h) (isNew h).

Definition set_parentHistory (x : option t) (h : t) : t :=
  mk (noteHistory h) (bpm h) (name h) (lastSeedNoteTime h) x (isNew h).

(** Modelled from the spec: [copy()] "produces a new History with the
    same notes/bpm/name, [parentHistory] pointing at the original"; the
    array of notes is copied, the [Note] objects are shared.  The rewind
    target of section 4.6 reads [lastSeedNoteTime] from the branch, so
    the branch carries it. *)
Definition copy (h : t) : t :=
  mk (noteHistory h) (bpm h) (name h) (lastSeedNoteTime h) (Some h) true.

(** The longest prefix whose elements satisfy [keep]. *)
Fixpoint take_while {A : Type} (keep : A -> bool) (xs : list A) : list A :=
  match xs with
  | [] => []
  | x :: xs' => if keep x then x :: take_while keep xs' else []
  end.

(** Modelled from the spec: [add(note)] "appends, preserving sort
    order", inserting in place when the time is not increasing: the note
    goes after the notes that are not later than it. *)
Fixpoint insert_by_time (σ : Store) (note : NoteRef) (notes : list NoteRef)
  : list NoteRef :=
  match notes with
  | [] => [note]
  | x :: rest =>
      match timeOf σ x, timeOf σ note with
      | Some tx, Some tn =>
          if Js.leb tx tn then x :: insert_by_time σ note rest
          else note :: x :: rest
      | _, _ => x :: insert_by_time σ note rest
      end
  end.

Definition add (σ : Store) (note : NoteRef) (h : t) : t :=
  set_noteHistory (insert_by_time σ note (noteHistory h)) h.

Section Queries.
(** The two queries are static and work on any array of time-stamped
    entries; how an entry's time compares with a bound is a
    parameter. *)
Context {A T : Type}.

(** Modelled from the spec: [getRecentHistory(notes, start)] "returns
    the maximal suffix of notes with [time >= start], scanning from
    the end and stopping at the first earlier note", in the original
    order.  [not_before n start] reads [n.time >= start]. *)
Definition getRecentHistory (not_before : A -> T -> bool)
           (history : list A) (start : T) : list A :=
  rev (take_while (fun n => not_before n start) (rev history)).

(** Modelled from the spec: [removeHistory(notes, cutoff)] "returns
    the prefix with [time < cutoff]".  [before n cutoff] reads
    [n.time < cutoff]. *)
Definition removeHistory (before : A -> T -> bool)
           (history : list A) (cutoff : T) : list A :=
  take_while (fun n => before n cutoff) history.
End Queries.

End History.

(** ** The first Piano class: [getRecentHistory] (piano.js, lines 1288-1299) *)

Module EarlyPiano.
Section GetRecentHistory.
(** What [Tone.Time] accepts, and [Tone.Time(x).toTicks()]. *)
Variable TransportTime : Type.
Variable toTicks : TransportTime -> Z.
Variable Key : Type.

(** An entry of [noteHistory]: [{note: noteKey, position: ...}]
    (line 1258). *)
Record Played : Type := mkPlayed {
  note : Key;
  position : TransportTime
}.

(** The test of line 1292. *)
Definition not_before (h : Played) (start : TransportTime) : bool :=
  Z.leb (toTicks start) (toTicks (position h)).

(** The loop body, from index [history.length - 1] down to [0]:
    [downward] lists [history[i]], [history[i-1]], ... *)
Fixpoint scan (downward : list Played) (start : TransportTime)
  : list Played :=
  match downward with
  | [] => []
  | h :: rest =>
      if not_before h start
      then h :: scan rest start      (* recentHistory.push(h) *)
      else []                        (* break *)
  end.

Definition getRecentHistory (history : list Played)
           (start : TransportTime) : list Played :=
  scan (rev history) start.

(** The complementary test [time < cutoff] on these entries. *)
Definition before (h : Played) (cutoff : TransportTime) : bool :=
  Z.ltb (toTicks (position h)) (toTicks cutoff).

(** The entries are in non-decreasing order of time. *)
Definition sorted (history : list Played) : Prop :=
  StronglySorted
    (fun a b => toTicks (position a) <= toTicks (position b)) history.
End GetRecentHistory.

Arguments mkPlayed {TransportTime Key}.
Arguments note {TransportTime Key}.
Arguments position {TransportTime Key}.
Arguments not_before {TransportTime} toTicks {Key}.
Arguments before {TransportTime} toTicks {Key}.
Arguments scan {TransportTime} toTicks {Key}.
Arguments getRecentHistory {TransportTime} toTicks {Key}.
Arguments sorted {TransportTime} toTicks {Key}.
End EarlyPiano.

(** ** The keyboard canvas (piano.js, lines 289-533) *)

Module PianoCanvas.

Local Open Scope Q_scope.

(** What the canvas keeps for the keyboard: the octave count of its
    piano, the corner of its bounding rectangle, and the sizes that
    [drawKeyboard] stores (lines 446-453). *)
Record t : Type := mk {
  octaves : Z;
  left : Q;
  top : Q;
  whiteKeyWidth : Q;
  whiteKeyHeight : Q;
  blackKeyWidth : Q;
  blackKeyHeight : Q
}.

(** Lines 293-294. *)
Definition numWhiteKeys (c : t) : Z := 7 * octaves c + 3.
Definition numBlackKeys (c : t) : Z := 5 * octaves c + 1.

End PianoCanvas.

(** ** The keyboard of the first Piano class (piano.js, lines 1093-1382) *)

Module EarlyKeys.

(** Lines 1236-1243: the names of the notes of the keyboard, lowest
    first.  [octaveNums.at(0)] and [octaveNums.at(-1)] are [undefined]
    on a keyboard without octaves, and the sums [NaN]: [None]. *)
Definition getNotes (octaves : Z) : option (list string) :=
  let noteNames :=
    ["C"; "C#"; "D"; "D#"; "E"; "F"; "F#"; "G"; "G#"; "A"; "A#"; "B"]%string in
  let octaveNums :=
    List.map (fun x => Z.of_nat x + 4 - Js.floor_div octaves 2)
             (seq 0 (Z.to_nat octaves)) in
  match Js.at_index octaveNums 0, Js.at_last octaveNums,
        Js.at_index noteNames 0 with
  | Some lowest, Some highest, Some c =>
      let allNotes :=
        List.map (fun n => n +:+ pretty (lowest - 1))
                 (skipn (length noteNames - 3) noteNames) in
      let allNotes :=
        allNotes
        ++ concat (List.map
                     (fun o => List.map (fun n => n +:+ pretty o) noteNames)
                     octaveNums) in
      Some (allNotes ++ [c +:+ pretty (highest + 1)])
  | _, _, _ => None
  end.

End EarlyKeys.
(** ** The Piano class of lines 1-287: the active keys *)

Module Piano1.

Local Open Scope Q_scope.

(** What the sampler and the two canvases are told; the sampler gets
    the [keyName] of the key. *)
Inductive Command : Type :=
| TriggerAttack (key : PianoKey.t) (time : option Q) (velocity : Q)
| TriggerAttackRelease (key : PianoKey.t) (triggerDuration : Q)
                       (time : option Q) (velocity : Q)
| TriggerRelease (key : PianoKey.t) (time : Q)
| TriggerDraw
| AddNoteBar (keyNum : Z) (currTime : Z) (endTime : option Z) (actor : Actor)
| CanvasReleaseNote (keyNum : Z) (time : Z).

Section Engine.
(** The values of [Tone.Transport.position], and
    [Tone.Time(position).toSeconds()]. *)
Variable Position : Type.
Variable toSeconds : Position -> Q.

(** An entry of [activeKeys] (line 86).  [endTime] is [-1] for a note
    that is held down: [None]; otherwise a [Date], in milliseconds. *)
Record ActiveKey : Type := mkActiveKey {
  key : PianoKey.t;
  velocity : Q;
  startPosition : Position;
  endTime : option Z;
  actor : Actor
}.

(** [new Note(keyNum, velocity, duration, position)] (lines 74 and
    116). *)
Record Note : Type := mkNote {
  note_keyNum : Z;
  note_velocity : Q;
  note_duration : Q;
  note_position : Position
}.

(** The fields of the engine that [playNote], [releaseNote] and
    [releaseAllNotes] read and write, and the commands sent. *)
Record State : Type := mkState {
  bpm : Q;
  activeKeys : list ActiveKey;
  noteHistory : list Note;
  lastActivity : Z;
  trace : list Command
}.

(** [new Date()], [Tone.now()] and [Tone.Transport.position] when a
    method runs. *)
Record Env : Type := mkEnv {
  now : Z;
  toneNow : Q;
  transportPosition : Position
}.

Definition send (c : Command) (s : State) : State :=
  mkState (bpm s) (activeKeys s) (noteHistory s) (lastActivity s)
          (trace s ++ [c]).

(** [obj.key === pianoKey]: the keys are the objects of [pianoKeys],
    one per key number. *)
Definition is_key (pianoKey : option PianoKey.t) (obj : ActiveKey) : bool :=
  bool_decide (Some (key obj) = pianoKey).

(** [new Date(currTime)] after [setMilliseconds(getMilliseconds() + ms)]:
    the sum is truncated to an integer and replaces the milliseconds
    field. *)
Definition addMilliseconds (currTime : Z) (ms : Q) : Z :=
  let field := (currTime mod 1000)%Z in
  (currTime - field + Js.trunc (inject_Z field + ms))%Z.

(** Lines 88-91: the entry of the key is overwritten in place. *)
Fixpoint overwrite (pianoKey : option PianoKey.t) (velocity : Q)
         (startPosition : Position) (endTime : option Z) (actor : Actor)
         (entries : list ActiveKey) : list ActiveKey :=
  match entries with
  | [] => []
  | obj :: rest =>
      if is_key pianoKey obj
      then mkActiveKey (key obj) velocity startPosition endTime actor :: rest
      else obj :: overwrite pianoKey velocity startPosition endTime actor rest
  end.

(** Lines 66-99.  [pianoKey.keyName] and [pianoKey.keyNum] throw a
    [TypeError] on [undefined], before anything is changed.  The
    default of [transportPosition] is [Tone.Transport.position], which
    the caller passes here.  The numbers are exact, at a tempo other
    than 0. *)
Definition playNote (pianoKey : option PianoKey.t) (velocity duration : Q)
           (actor : Actor) (time : option Q) (transportPosition : Position)
           (e : Env) (s : State) : Js.Error + (Position * State) :=
  match pianoKey with
  | None => inl Js.TypeError
  | Some k =>
      let currTime := now e in
      let '(endTime, s1) :=
        if Js.eqb duration (-1) then
          (None,
           send (TriggerAttack k time velocity) s)
        else
          let s0 :=
            mkState (bpm s) (activeKeys s)
                    (noteHistory s
                     ++ [mkNote (PianoKey.keyNum k) velocity duration
                                transportPosition])
                    (lastActivity s) (trace s) in
          let durationMilliseconds :=
            ((duration * 60 * 1000) / (bpm s * 4)) * (9 # 10) - 15 in
          let triggerDuration := (durationMilliseconds / 1000) + (15 # 100) in
          (Some (addMilliseconds currTime durationMilliseconds),
           send (TriggerAttackRelease k triggerDuration time velocity)
                s0) in
      let entries :=
        match List.find (is_key pianoKey) (activeKeys s1) with
        | None =>
            activeKeys s1
            ++ [mkActiveKey k velocity transportPosition endTime actor]
        | Some _ =>
            overwrite pianoKey velocity transportPosition endTime actor
                      (activeKeys s1)
        end in
      let s2 :=
        mkState (bpm s1) entries (noteHistory s1) (lastActivity s1)
                (trace s1) in
      inr (transportPosition,
           send (AddNoteBar (PianoKey.keyNum k) currTime endTime actor)
                (send TriggerDraw s2))
  end.

(** [activeKeys.splice(keyIndex, 1)] at the index of the first entry of
    the key. *)
Fixpoint splice_key (pianoKey : option PianoKey.t)
         (entries : list ActiveKey) : list ActiveKey :=
  match entries with
  | [] => []
  | obj :: rest =>
      if is_key pianoKey obj then rest
      else obj :: splice_key pianoKey rest
  end.

(** Lines 101-119. *)
Definition releaseNote (pianoKey : option PianoKey.t) (e : Env) (s : State)
  : State :=
  let s1 :=
    mkState (bpm s) (activeKeys s) (noteHistory s) (now e) (trace s) in
  match List.find (is_key pianoKey) (activeKeys s1) with
  | None => s1
  | Some activeKey =>
      let k := key activeKey in
      let s2 :=
        send (TriggerRelease k (toneNow e + (1 # 10))) s1 in
      let s3 :=
        mkState (bpm s2) (splice_key pianoKey (activeKeys s2))
                (noteHistory s2) (lastActivity s2) (trace s2) in
      let s4 := send (CanvasReleaseNote (PianoKey.keyNum k) (now e)) s3 in
      match actor activeKey with
      | Player =>
          let durationSeconds :=
            toSeconds (transportPosition e)
            - toSeconds (startPosition activeKey) in
          let duration := durationSeconds * (bpm s4 / 60) * 4 in
          mkState (bpm s4) (activeKeys s4)
                  (noteHistory s4
                   ++ [mkNote (PianoKey.keyNum k) (velocity activeKey)
                              duration (startPosition activeKey)])
                  (lastActivity s4) (trace s4)
      | _ => s4
      end
  end.

(** The notes that the release of the entry [h] adds to [noteHistory]
    (lines 113-117): one for the player, none for another actor. *)
Definition released_note (e : Env) (bpm : Q) (h : ActiveKey) : list Note :=
  match actor h with
  | Player =>
      [mkNote (PianoKey.keyNum (key h)) (velocity h)
              ((toSeconds (transportPosition e) - toSeconds (startPosition h))
               * (bpm / 60) * 4)
              (startPosition h)]
  | _ => []
  end.

(** Lines 121-126. *)
Definition releaseAllNotes (e : Env) (s : State) : State :=
  let heldKeys :=
    List.filter (fun obj => negb (Js.defined (endTime obj))) (activeKeys s) in
  fold_left (fun s heldKey => releaseNote (Some (key heldKey)) e s)
            heldKeys s.

End Engine.

Arguments mkActiveKey {Position}.
Arguments key {Position}.
Arguments velocity {Position}.
Arguments startPosition {Position}.
Arguments endTime {Position}.
Arguments actor {Position}.
Arguments mkNote {Position}.
Arguments note_keyNum {Position}.
Arguments note_velocity {Position}.
Arguments note_duration {Position}.
Arguments note_position {Position}.
Arguments mkState {Position}.
Arguments bpm {Position}.
Arguments activeKeys {Position}.
Arguments noteHistory {Position}.
Arguments lastActivity {Position}.
Arguments trace {Position}.
Arguments mkEnv {Position}.
Arguments now {Position}.
Arguments toneNow {Position}.
Arguments transportPosition {Position}.
Arguments send {Position}.
Arguments is_key {Position}.
Arguments overwrite {Position}.
Arguments playNote {Position}.
Arguments splice_key {Position}.
Arguments releaseNote {Position}.
Arguments released_note {Position}.
Arguments releaseAllNotes {Position}.

End Piano1.

(** ** The engine state

    The fields of the second [Piano] class (piano.js, lines 623-1092) and
    of the objects it drives.  Drawing on the canvases, the progress bar
    and the DOM are not part of the embedding, except for the renderer
    commands of the note roll, which are recorded in [trace]; the note
    roll is taken to be bound ([bindNotesCanvas]). *)

(** What a callback scheduled on [Tone.Transport] does when it fires. *)
Inductive Callback : Type :=
| PlayNoteCb (note : NoteRef)          (* (contextTime) => this.playNote(note, contextTime) *)
| StartModelCb (glowDelayMs : Q).      (* () => this.startModel(startGlowDelay) *)

Record TransportEvent : Type := mkEvent {
  eventId : nat;
  eventTime : Q;
  callback : Callback
}.

(** What a [setInterval] or [setTimeout] timer runs. *)
Inductive TimerTask : Type :=
| SeedInputAwaiterTask
| CallModelTask
| CheckActivityTask
| StartModelTask (glowDelayMs : Q)
| UpdateContextDateTimeTask.

Record Timer : Type := mkTimer {
  timerId : nat;
  delayMs : Q;
  repeats : bool;                      (* setInterval: true, setTimeout: false *)
  task : TimerTask
}.

(** An element of the array that [model.generateNotes] resolves to. *)
Record Generated : Type := mkGenerated {
  gen_keyNum : Z;
  gen_velocity : Q;
  gen_duration : Q;
  gen_time : Q
}.

(** A call of [model.generateNotes] that has not resolved yet: its
    arguments, and the local variables of [callModel] that its
    continuation reads. *)
Record ModelCall : Type := mkModelCall {
  context : list NoteRef;
  windowStart : Q;
  windowEnd : Q;
  tickInterval : Q;
  bufferLength : Q;
  numRepeats : Z;
  selectionIdx : Z;
  initiatedTime : Z;
  scheduleImmediately : bool
}.

(** Commands sent to the sampler, the note roll and the transport. *)
Inductive Command : Type :=
| TriggerAttack (key : PianoKey.t) (contextTime velocity : Q)
| TriggerAttackRelease (key : PianoKey.t) (duration contextTime velocity : Q)
| TriggerRelease (key : PianoKey.t) (time : Q)
| AddNoteBar (key : option PianoKey.t) (duration bpm : Q) (actor : Actor)
             (isRewind : bool)
| CanvasReleaseNote (keyNum : Z) (duration : Q)
| StartGlow (delayMs : Q)
| EndGlow
| TransportStart
| TransportStop.

(** [new Date()] in milliseconds, [Tone.now()], and
    [Tone.getContext().currentTime]. *)
Record Clocks : Type := mkClocks {
  wallClock : Z;
  toneNow : Q;
  contextTime : Q
}.

Record State : Type := mkState {
  octaves : Z;
  ticksPerBeat : Q;
  pianoKeys : list PianoKey.t;
  bufferBeats : Q;
  historyWindowBeats : Q;
  defaultBPM : Q;
  bpm : Q;
  toneStarted : bool;
  lastActivity : Z;
  modelStartTime : option Z;
  currHistory : option History.t;
  allHistories : list History.t;
  activeNotes : list NoteRef;
  noteQueue : list NoteRef;
  noteBuffer : list NoteRef;
  callModelEnd : Q;
  awaitingInput : bool;
  callModelIntervalId : option nat;
  checkActivityIntervalId : option nat;
  listenerIntervalId : option nat;
  startModelScheduleId : option nat;
  store : Store;
  clocks : Clocks;
  transportSeconds : Q;
  transportEvents : list TransportEvent;
  nextEventId : nat;
  timers : list Timer;
  nextTimerId : nat;
  modelCalls : list ModelCall;
  trace : list Command
}.

(** Field updates. *)

Definition set_bpm (v : Q) (s : State) : State :=
  mkState (octaves s) (ticksPerBeat s) (pianoKeys s) (bufferBeats s)
    (historyWindowBeats s) (defaultBPM s) v (toneStarted s) (lastActivity s)
    (modelStartTime s) (currHistory s) (allHistories s) (activeNotes s)
    (noteQueue s) (noteBuffer s) (callModelEnd s) (awaitingInput s)
    (callModelIntervalId s) (checkActivityIntervalId s) (listenerIntervalId
    s) (startModelScheduleId s) (store s) (clocks s) (transportSeconds s)
    (transportEvents s) (nextEventId s) (timers s) (nextTimerId s)
    (modelCalls s) (trace s).

Definition set_toneStarted (v : bool) (s : State) : State :=
  mkState (octaves s) (ticksPerBeat s) (pianoKeys s) (bufferBeats s)
    (historyWindowBeats s) (defaultBPM s) (bpm s) v (lastActivity s)
    (modelStartTime s) (currHistory s) (allHistories s) (activeNotes s)
    (noteQueue s) (noteBuffer s) (callModelEnd s) (awaitingInput s)
    (callModelIntervalId s) (checkActivityIntervalId s) (listenerIntervalId
    s) (startModelScheduleId s) (store s) (clocks s) (transportSeconds s)
    (transportEvents s) (nextEventId s) (timers s) (nextTimerId s)
    (modelCalls s) (trace s).

Definition set_lastActivity (v : Z) (s : State) : State :=
  mkState (octaves s) (ticksPerBeat s) (pianoKeys s) (bufferBeats s)
    (historyWindowBeats s) (defaultBPM s) (bpm s) (toneStarted s) v
    (modelStartTime s) (currHistory s) (allHistories s) (activeNotes s)
    (noteQueue s) (noteBuffer s) (callModelEnd s) (awaitingInput s)
    (callModelIntervalId s) (checkActivityIntervalId s) (listenerIntervalId
    s) (startModelScheduleId s) (store s) (clocks s) (transportSeconds s)
    (transportEvents s) (nextEventId s) (timers s) (nextTimerId s)
    (modelCalls s) (trace s).

Definition set_modelStartTime (v : option Z) (s : State) : State :=
  mkState (octaves s) (ticksPerBeat s) (pianoKeys s) (bufferBeats s)
    (historyWindowBeats s) (defaultBPM s) (bpm s) (toneStarted s)
    (lastActivity s) v (currHistory s) (allHistories s) (activeNotes s)
    (noteQueue s) (noteBuffer s) (callModelEnd s) (awaitingInput s)
    (callModelIntervalId s) (checkActivityIntervalId s) (listenerIntervalId
    s) (startModelScheduleId s) (store s) (clocks s) (transportSeconds s)
    (transportEvents s) (nextEventId s) (timers s) (nextTimerId s)
    (modelCalls s) (trace s).

Definition set_currHistory (v : option History.t) (s : State) : State :=
  mkState (octaves s) (ticksPerBeat s) (pianoKeys s) (bufferBeats s)
    (historyWindowBeats s) (defaultBPM s) (bpm s) (toneStarted s)
    (lastActivity s) (modelStartTime s) v (allHistories s) (activeNotes s)
    (noteQueue s) (noteBuffer s) (callModelEnd s) (awaitingInput s)
    (callModelIntervalId s) (checkActivityIntervalId s) (listenerIntervalId
    s) (startModelScheduleId s) (store s) (clocks s) (transportSeconds s)
    (transportEvents s) (nextEventId s) (timers s) (nextTimerId s)
    (modelCalls s) (trace s).

Definition set_allHistories (v : list History.t) (s : State) : State :=
  mkState (octaves s) (ticksPerBeat s) (pianoKeys s) (bufferBeats s)
    (historyWindowBeats s) (defaultBPM s) (bpm s) (toneStarted s)
    (lastActivity s) (modelStartTime s) (currHistory s) v (activeNotes s)
    (noteQueue s) (noteBuffer s) (callModelEnd s) (awaitingInput s)
    (callModelIntervalId s) (checkActivityIntervalId s) (listenerIntervalId
    s) (startModelScheduleId s) (store s) (clocks s) (transportSeconds s)
    (transportEvents s) (nextEventId s) (timers s) (nextTimerId s)
    (modelCalls s) (trace s).

Definition set_activeNotes (v : list NoteRef) (s : State) : State :=
  mkState (octaves s) (ticksPerBeat s) (pianoKeys s) (bufferBeats s)
    (historyWindowBeats s) (defaultBPM s) (bpm s) (toneStarted s)
    (lastActivity s) (modelStartTime s) (currHistory s) (allHistories s) v
    (noteQueue s) (noteBuffer s) (callModelEnd s) (awaitingInput s)
    (callModelIntervalId s) (checkActivityIntervalId s) (listenerIntervalId
    s) (startModelScheduleId s) (store s) (clocks s) (transportSeconds s)
    (transportEvents s) (nextEventId s) (timers s) (nextTimerId s)
    (modelCalls s) (trace s).

Definition set_noteQueue (v : list NoteRef) (s : State) : State :=
  mkState (octaves s) (ticksPerBeat s) (pianoKeys s) (bufferBeats s)
    (historyWindowBeats s) (defaultBPM s) (bpm s) (toneStarted s)
    (lastActivity s) (modelStartTime s) (currHistory s) (allHistories s)
    (activeNotes s) v (noteBuffer s) (callModelEnd s) (awaitingInput s)
    (callModelIntervalId s) (checkActivityIntervalId s) (listenerIntervalId
    s) (startModelScheduleId s) (store s) (clocks s) (transportSeconds s)
    (transportEvents s) (nextEventId s) (timers s) (nextTimerId s)
    (modelCalls s) (trace s).

Definition set_noteBuffer (v : list NoteRef) (s : State) : State :=
  mkState (octaves s) (ticksPerBeat s) (pianoKeys s) (bufferBeats s)
    (historyWindowBeats s) (defaultBPM s) (bpm s) (toneStarted s)
    (lastActivity s) (modelStartTime s) (currHistory s) (allHistories s)
    (activeNotes s) (noteQueue s) v (callModelEnd s) (awaitingInput s)
    (callModelIntervalId s) (checkActivityIntervalId s) (listenerIntervalId
    s) (startModelScheduleId s) (store s) (clocks s) (transportSeconds s)
    (transportEvents s) (nextEventId s) (timers s) (nextTimerId s)
    (modelCalls s) (trace s).

Definition set_callModelEnd (v : Q) (s : State) : State :=
  mkState (octaves s) (ticksPerBeat s) (pianoKeys s) (bufferBeats s)
    (historyWindowBeats s) (defaultBPM s) (bpm s) (toneStarted s)
    (lastActivity s) (modelStartTime s) (currHistory s) (allHistories s)
    (activeNotes s) (noteQueue s) (noteBuffer s) v (awaitingInput s)
    (callModelIntervalId s) (checkActivityIntervalId s) (listenerIntervalId
    s) (startModelScheduleId s) (store s) (clocks s) (transportSeconds s)
    (transportEvents s) (nextEventId s) (timers s) (nextTimerId s)
    (modelCalls s) (trace s).

Definition set_awaitingInput (v : bool) (s : State) : State :=
  mkState (octaves s) (ticksPerBeat s) (pianoKeys s) (bufferBeats s)
    (historyWindowBeats s) (defaultBPM s) (bpm s) (toneStarted s)
    (lastActivity s) (modelStartTime s) (currHistory s) (allHistories s)
    (activeNotes s) (noteQueue s) (noteBuffer s) (callModelEnd s) v
    (callModelIntervalId s) (checkActivityIntervalId s) (listenerIntervalId
    s) (startModelScheduleId s) (store s) (clocks s) (transportSeconds s)
    (transportEvents s) (nextEventId s) (timers s) (nextTimerId s)
    (modelCalls s) (trace s).

Definition set_callModelIntervalId (v : option nat) (s : State) : State :=
  mkState (octaves s) (ticksPerBeat s) (pianoKeys s) (bufferBeats s)
    (historyWindowBeats s) (defaultBPM s) (bpm s) (toneStarted s)
    (lastActivity s) (modelStartTime s) (currHistory s) (allHistories s)
    (activeNotes s) (noteQueue s) (noteBuffer s) (callModelEnd s)
    (awaitingInput s) v (checkActivityIntervalId s) (listenerIntervalId s)
    (startModelScheduleId s) (store s) (clocks s) (transportSeconds s)
    (transportEvents s) (nextEventId s) (timers s) (nextTimerId s)
    (modelCalls s) (trace s).

Definition set_checkActivityIntervalId (v : option nat) (s : State) : State :=
  mkState (octaves s) (ticksPerBeat s) (pianoKeys s) (bufferBeats s)
    (historyWindowBeats s) (defaultBPM s) (bpm s) (toneStarted s)
    (lastActivity s) (modelStartTime s) (currHistory s) (allHistories s)
    (activeNotes s) (noteQueue s) (noteBuffer s) (callModelEnd s)
    (awaitingInput s) (callModelIntervalId s) v (listenerIntervalId s)
    (startModelScheduleId s) (store s) (clocks s) (transportSeconds s)
    (transportEvents s) (nextEventId s) (timers s) (nextTimerId s)
    (modelCalls s) (trace s).

Definition set_listenerIntervalId (v : option nat) (s : State) : State :=
  mkState (octaves s) (ticksPerBeat s) (pianoKeys s) (bufferBeats s)
    (historyWindowBeats s) (defaultBPM s) (bpm s) (toneStarted s)
    (lastActivity s) (modelStartTime s) (currHistory s) (allHistories s)
    (activeNotes s) (noteQueue s) (noteBuffer s) (callModelEnd s)
    (awaitingInput s) (callModelIntervalId s) (checkActivityIntervalId s) v
    (startModelScheduleId s) (store s) (clocks s) (transportSeconds s)
    (transportEvents s) (nextEventId s) (timers s) (nextTimerId s)
    (modelCalls s) (trace s).

Definition set_startModelScheduleId (v : option nat) (s : State) : State :=
  mkState (octaves s) (ticksPerBeat s) (pianoKeys s) (bufferBeats s)
    (historyWindowBeats s) (defaultBPM s) (bpm s) (toneStarted s)
    (lastActivity s) (modelStartTime s) (currHistory s) (allHistories s)
    (activeNotes s) (noteQueue s) (noteBuffer s) (callModelEnd s)
    (awaitingInput s) (callModelIntervalId s) (checkActivityIntervalId s)
    (listenerIntervalId s) v (store s) (clocks s) (transportSeconds s)
    (transportEvents s) (nextEventId s) (timers s) (nextTimerId s)
    (modelCalls s) (trace s).

Definition set_store (v : Store) (s : State) : State :=
  mkState (octaves s) (ticksPerBeat s) (pianoKeys s) (bufferBeats s)
    (historyWindowBeats s) (defaultBPM s) (bpm s) (toneStarted s)
    (lastActivity s) (modelStartTime s) (currHistory s) (allHistories s)
    (activeNotes s) (noteQueue s) (noteBuffer s) (callModelEnd s)
    (awaitingInput s) (callModelIntervalId s) (checkActivityIntervalId s)
    (listenerIntervalId s) (startModelScheduleId s) v (clocks s)
    (transportSeconds s) (transportEvents s) (nextEventId s) (timers s)
    (nextTimerId s) (modelCalls s) (trace s).

Definition set_clocks (v : Clocks) (s : State) : State :=
  mkState (octaves s) (ticksPerBeat s) (pianoKeys s) (bufferBeats s)
    (historyWindowBeats s) (defaultBPM s) (bpm s) (toneStarted s)
    (lastActivity s) (modelStartTime s) (currHistory s) (allHistories s)
    (activeNotes s) (noteQueue s) (noteBuffer s) (callModelEnd s)
    (awaitingInput s) (callModelIntervalId s) (checkActivityIntervalId s)
    (listenerIntervalId s) (startModelScheduleId s) (store s) v
    (transportSeconds s) (transportEvents s) (nextEventId s) (timers s)
    (nextTimerId s) (modelCalls s) (trace s).

Definition set_transportSeconds (v : Q) (s : State) : State :=
  mkState (octaves s) (ticksPerBeat s) (pianoKeys s) (bufferBeats s)
    (historyWindowBeats s) (defaultBPM s) (bpm s) (toneStarted s)
    (lastActivity s) (modelStartTime s) (currHistory s) (allHistories s)
    (activeNotes s) (noteQueue s) (noteBuffer s) (callModelEnd s)
    (awaitingInput s) (callModelIntervalId s) (checkActivityIntervalId s)
    (listenerIntervalId s) (startModelScheduleId s) (store s) (clocks s) v
    (transportEvents s) (nextEventId s) (timers s) (nextTimerId s)
    (modelCalls s) (trace s).

Definition set_transportEvents (v : list TransportEvent) (s : State) : State :=
  mkState (octaves s) (ticksPerBeat s) (pianoKeys s) (bufferBeats s)
    (historyWindowBeats s) (defaultBPM s) (bpm s) (toneStarted s)
    (lastActivity s) (modelStartTime s) (currHistory s) (allHistories s)
    (activeNotes s) (noteQueue s) (noteBuffer s) (callModelEnd s)
    (awaitingInput s) (callModelIntervalId s) (checkActivityIntervalId s)
    (listenerIntervalId s) (startModelScheduleId s) (store s) (clocks s)
    (transportSeconds s) v (nextEventId s) (timers s) (nextTimerId s)
    (modelCalls s) (trace s).

Definition set_nextEventId (v : nat) (s : State) : State :=
  mkState (octaves s) (ticksPerBeat s) (pianoKeys s) (bufferBeats s)
    (historyWindowBeats s) (defaultBPM s) (bpm s) (toneStarted s)
    (lastActivity s) (modelStartTime s) (currHistory s) (allHistories s)
    (activeNotes s) (noteQueue s) (noteBuffer s) (callModelEnd s)
    (awaitingInput s) (callModelIntervalId s) (checkActivityIntervalId s)
    (listenerIntervalId s) (startModelScheduleId s) (store s) (clocks s)
    (transportSeconds s) (transportEvents s) v (timers s) (nextTimerId s)
    (modelCalls s) (trace s).

Definition set_timers (v : list Timer) (s : State) : State :=
  mkState (octaves s) (ticksPerBeat s) (pianoKeys s) (bufferBeats s)
    (historyWindowBeats s) (defaultBPM s) (bpm s) (toneStarted s)
    (lastActivity s) (modelStartTime s) (currHistory s) (allHistories s)
    (activeNotes s) (noteQueue s) (noteBuffer s) (callModelEnd s)
    (awaitingInput s) (callModelIntervalId s) (checkActivityIntervalId s)
    (listenerIntervalId s) (startModelScheduleId s) (store s) (clocks s)
    (transportSeconds s) (transportEvents s) (nextEventId s) v (nextTimerId
    s) (modelCalls s) (trace s).

Definition set_nextTimerId (v : nat) (s : State) : State :=
  mkState (octaves s) (ticksPerBeat s) (pianoKeys s) (bufferBeats s)
    (historyWindowBeats s) (defaultBPM s) (bpm s) (toneStarted s)
    (lastActivity s) (modelStartTime s) (currHistory s) (allHistories s)
    (activeNotes s) (noteQueue s) (noteBuffer s) (callModelEnd s)
    (awaitingInput s) (callModelIntervalId s) (checkActivityIntervalId s)
    (listenerIntervalId s) (startModelScheduleId s) (store s) (clocks s)
    (transportSeconds s) (transportEvents s) (nextEventId s) (timers s) v
    (modelCalls s) (trace s).

Definition set_modelCalls (v : list ModelCall) (s : State) : State :=
  mkState (octaves s) (ticksPerBeat s) (pianoKeys s) (bufferBeats s)
    (historyWindowBeats s) (defaultBPM s) (bpm s) (toneStarted s)
    (lastActivity s) (modelStartTime s) (currHistory s) (allHistories s)
    (activeNotes s) (noteQueue s) (noteBuffer s) (callModelEnd s)
    (awaitingInput s) (callModelIntervalId s) (checkActivityIntervalId s)
    (listenerIntervalId s) (startModelScheduleId s) (store s) (clocks s)
    (transportSeconds s) (transportEvents s) (nextEventId s) (timers s)
    (nextTimerId s) v (trace s).

Definition set_trace (v : list Command) (s : State) : State :=
  mkState (octaves s) (ticksPerBeat s) (pianoKeys s) (bufferBeats s)
    (historyWindowBeats s) (defaultBPM s) (bpm s) (toneStarted s)
    (lastActivity s) (modelStartTime s) (currHistory s) (allHistories s)
    (activeNotes s) (noteQueue s) (noteBuffer s) (callModelEnd s)
    (awaitingInput s) (callModelIntervalId s) (checkActivityIntervalId s)
    (listenerIntervalId s) (startModelScheduleId s) (store s) (clocks s)
    (transportSeconds s) (transportEvents s) (nextEventId s) (timers s)
    (nextTimerId s) (modelCalls s) v.

(** ** Running a method

    A method either returns, throws (the state is the one reached at the
    throw), or leaves the model: an address that is not allocated, or
    arithmetic on [undefined]. *)

Inductive Outcome (A : Type) : Type :=
| Returns (a : A) (s : State)
| Throws (e : Js.Error) (s : State)
| OutsideModel.

Arguments Returns {A} a s.
Arguments Throws {A} e s.
Arguments OutsideModel {A}.

Definition M (A : Type) : Type := State -> Outcome A.

Definition ret {A : Type} (a : A) : M A := fun s => Returns a s.

Definition bind {A B : Type} (m : M A) (k : A -> M B) : M B :=
  fun s =>
    match m s with
    | Returns a s' => k a s'
    | Throws e s' => Throws e s'
    | OutsideModel => OutsideModel
    end.

Definition throw {A : Type} (e : Js.Error) : M A := fun s => Throws e s.
Definition outside {A : Type} : M A := fun _ => OutsideModel.
Definition get {A : Type} (f : State -> A) : M A := fun s => Returns (f s) s.
Definition modify (f : State -> State) : M unit := fun s => Returns tt (f s).

Declare Scope js_scope.
Delimit Scope js_scope with js.
Notation "x <- m ;; k" := (bind m (fun x => k))
  (at level 100, m at next level, k at level 200, right associativity)
  : js_scope.
Notation "m ;; k" := (bind m (fun _ => k))
  (at level 100, k at level 200, right associativity) : js_scope.

Local Open Scope js_scope.

(** [for (const x of xs) body(x)]. *)
Fixpoint for_each {A : Type} (xs : list A) (body : A -> M unit) : M unit :=
  match xs with
  | [] => ret tt
  | x :: xs' => body x ;; for_each xs' body
  end.

Definition when (b : bool) (m : M unit) : M unit := if b then m else ret tt.

(** The state a handler leaves behind. *)
Definition state_after {A : Type} (o : Outcome A) : option State :=
  match o with
  | Returns _ s => Some s
  | Throws _ s => Some s
  | OutsideModel => None
  end.

(** *** The store, the transport, the timers *)

Definition emit (c : Command) : M unit :=
  modify (fun s => set_trace (trace s ++ [c]) s).

Definition deref (r : NoteRef) : M Note.t :=
  fun s =>
    match store s !! r with
    | Some n => Returns n s
    | None => OutsideModel
    end.

Definition update_note (r : NoteRef) (f : Note.t -> Note.t) : M unit :=
  modify (fun s => set_store (alter f r (store s)) s).

(** [new Note(key, velocity, duration, time, actor, scheduleId, isRewind)]. *)
Definition newNote (key : option PianoKey.t) (velocity duration time : Q)
           (actor : Actor) (scheduleId : option nat) (isRewind : bool)
  : M NoteRef :=
  fun s =>
    Returns (length (store s))
            (set_store
               (store s ++
                [Note.mk key velocity duration time actor scheduleId isRewind])
               s).

Definition same_id (id : option nat) (n : nat) : bool :=
  match id with
  | Some i => Nat.eqb i n
  | None => false
  end.

(** [Tone.Transport.scheduleOnce(callback, time)]. *)
Definition transportScheduleOnce (cb : Callback) (time : Q) : M nat :=
  fun s =>
    let id := nextEventId s in
    Returns id
      (set_nextEventId (S id)
         (set_transportEvents (transportEvents s ++ [mkEvent id time cb]) s)).

(** [Tone.Transport.clear(id)]. *)
Definition transportClear (id : option nat) : M unit :=
  modify (fun s =>
    set_transportEvents
      (List.filter (fun e => negb (same_id id (eventId e)))
                   (transportEvents s)) s).

(** [Tone.Transport.cancel()]: the events from time 0 on are removed. *)
Definition transportCancel : M unit :=
  modify (fun s =>
    set_transportEvents
      (List.filter (fun e => Js.ltb (eventTime e) 0) (transportEvents s)) s).

(** [setInterval(task, delay)] and [setTimeout(task, delay)]. *)
Definition setTimer (repeats : bool) (task : TimerTask) (delay : Q) : M nat :=
  fun s =>
    let id := nextTimerId s in
    Returns id
      (set_nextTimerId (S id)
         (set_timers (timers s ++ [mkTimer id delay repeats task]) s)).

Definition setInterval := setTimer true.
Definition setTimeout := setTimer false.

(** [clearInterval(id)] and [clearTimeout(id)]. *)
Definition clearTimer (id : option nat) : M unit :=
  modify (fun s =>
    set_timers
      (List.filter (fun t => negb (same_id id (timerId t))) (timers s)) s).

(** [pianoKey.keyName]: a [TypeError] on [undefined]. *)
Definition keyName_of (pianoKey : option PianoKey.t) : M PianoKey.t :=
  match pianoKey with
  | Some k => ret k
  | None => throw Js.TypeError
  end.

(** ** The second Piano class (piano.js, lines 623-1092) *)

Module Piano.
Section Engine.

Local Open Scope Q_scope.

(** [PianoAudio.detectBpm(notes, minBpm, maxBpm)], the tempo-estimation
    collaborator. *)
Variable detectBpm : list Note.t -> Q -> Q -> Q.

(** Lines 628-650: the fields a new engine starts with, and the timer
    that the constructor registers.  [clocks0] gives the clocks;
    [callModelEnd] is [undefined] until its first assignment, which
    every path performs before reading it, and starts here at [0].
    [pianoAudio.bpm] starts at the default tempo handed to
    [new PianoAudio].  Line 650 sets the interval that runs
    [updateContextDateTime] every second; its identifier is not kept.
    The identifiers of the timers are numbered from this one on. *)
Definition fields (octaves : Z) (ticksPerBeat : Q) (clocks0 : Clocks)
  : State :=
  {| octaves := octaves;
     ticksPerBeat := ticksPerBeat;
     pianoKeys := PianoKey.createPianoKeys octaves;
     bufferBeats := 6;
     historyWindowBeats := 42;
     defaultBPM := 80;
     bpm := 80;
     toneStarted := false;
     lastActivity := wallClock clocks0;
     modelStartTime := None;
     currHistory := None;
     allHistories := [];
     activeNotes := [];
     noteQueue := [];
     noteBuffer := [];
     callModelEnd := 0;
     awaitingInput := false;
     callModelIntervalId := None;
     checkActivityIntervalId := None;
     listenerIntervalId := None;
     startModelScheduleId := None;
     store := [];
     clocks := clocks0;
     transportSeconds := 0;
     transportEvents := [];
     nextEventId := 0;
     timers := [mkTimer 1 1000 true UpdateContextDateTimeTask];
     nextTimerId := 2;
     modelCalls := [];
     trace := [] |}.

(** Lines 624-651. *)
Definition constructor (octaves : Z) (ticksPerBeat : Q) (clocks0 : Clocks)
  : Js.Error + State :=
  if (octaves <? 1)%Z || (octaves >? 7)%Z then inl Js.RangeError
  else inr (fields octaves ticksPerBeat clocks0).

(** Lines 653-660. *)
Definition beatsToSeconds (s : State) (beats : Q) : Q :=
  (beats / bpm s) * 60.

Definition getInterval (s : State) : Q :=
  beatsToSeconds s (1 / ticksPerBeat s).

(** Lines 662-668, in exact arithmetic.  The doubles of the source round
    the difference and the sum of line 667, so that a [time] on the grid
    of half ticks can come back as it is (at 52 bpm and 4 ticks per
    beat [roundToOffset(2.451923076923077)] is its argument): of the
    order of [time] and the result, exact arithmetic tells what holds
    where no rounding occurs, as on the quarters of a second at 60
    bpm.  [Double.roundToOffset] is the same function on doubles. *)
Definition roundToOffset (s : State) (time : Q) : Q :=
  let interval := beatsToSeconds s (1 / ticksPerBeat s) in
  let remainder := Js.fmod (time + (interval / 2)) interval in
  time - remainder + interval.

(** [note.key === pianoKey] on the note at address [r]. *)
Definition has_key (σ : Store) (pianoKey : option PianoKey.t) (r : NoteRef)
  : bool :=
  match σ !! r with
  | Some n => bool_decide (Note.key n = pianoKey)
  | None => false
  end.

(** Lines 730-746. *)
Definition releaseNote (pianoKey : option PianoKey.t) (triggerTime : Q)
  : M unit :=
  s <- get id ;;
  match List.find (has_key (store s) pianoKey) (activeNotes s) with
  | None => ret tt
  | Some activeNote =>
      modify (set_activeNotes (Js.remove_first activeNote (activeNotes s))) ;;
      n <- deref activeNote ;;
      let finalDuration := triggerTime - Note.time n in
      if Js.gtb (Js.abs (Note.duration n - finalDuration)) (1 # 1000) then
        k <- keyName_of pianoKey ;;
        now <- get (fun s => toneNow (clocks s)) ;;
        emit (TriggerRelease k (now + (1 # 10))) ;;
        update_note activeNote (Note.set_duration finalDuration) ;;
        emit (CanvasReleaseNote (PianoKey.keyNum k) finalDuration)
      else ret tt
  end.

(** [this.currHistory.add(note)]; a [TypeError] when [currHistory] is
    [null]. *)
Definition currHistory_add (note : NoteRef) : M unit :=
  s <- get id ;;
  match currHistory s with
  | None => throw Js.TypeError
  | Some h => modify (set_currHistory (Some (History.add (store s) note h)))
  end.

(** Lines 704-728. *)
Definition playNote (note : NoteRef) (contextTime : Q) : M unit :=
  n <- deref note ;;
  releaseNote (Note.key n) (Note.time n) ;;
  n <- deref note ;;
  k <- keyName_of (Note.key n) ;;
  (if Js.eqb (Note.duration n) (-1)
   then emit (TriggerAttack k contextTime (Note.velocity n))
   else
     let triggerDuration := Note.duration n + (15 # 100) in
     emit (TriggerAttackRelease k triggerDuration contextTime
                                (Note.velocity n))) ;;
  modify (fun s => set_activeNotes (activeNotes s ++ [note]) s) ;;
  currHistory_add note ;;
  b <- get bpm ;;
  emit (AddNoteBar (Note.key n) (Note.duration n) b (Note.actor n)
                   (Note.isRewind n)) ;;
  modify (fun s => set_noteQueue (Js.remove_first note (noteQueue s)) s).

(** Lines 748-753; the trigger time of each release is the default
    [Tone.Transport.seconds]. *)
Definition releaseActive (note : NoteRef) : M unit :=
  n <- deref note ;;
  t <- get transportSeconds ;;
  releaseNote (Note.key n) t.

Definition releaseAllNotes : M unit :=
  active <- get activeNotes ;;
  for_each active releaseActive.

(** Lines 755-758. *)
Definition scheduleNote (note : NoteRef) : M unit :=
  n <- deref note ;;
  id <- transportScheduleOnce (PlayNoteCb note) (Note.time n) ;;
  update_note note (Note.set_scheduleId (Some id)) ;;
  modify (fun s => set_noteQueue (noteQueue s ++ [note]) s).

(** Lines 760-771: [callModel] up to its [await].  The function is
    [async]: a [TypeError] on a [null] [currHistory] rejects its
    promise and nothing is thrown to the caller. *)
Definition callModel_call (scheduleImmediately : bool) : M unit :=
  s <- get id ;;
  let initiatedTime := wallClock (clocks s) in
  let start :=
    Js.max (callModelEnd s - beatsToSeconds s (historyWindowBeats s))
           (- getInterval s / 2) in
  match currHistory s with
  | None => ret tt
  | Some h =>
      let history :=
        History.getRecentHistory (time_ge (store s))
                                 (History.noteHistory h) start in
      let queued :=
        History.getRecentHistory (time_ge (store s)) (noteQueue s) start in
      let numRepeats := 3%Z in
      let selectionIdx := 1%Z in
      modify (set_modelCalls
                (modelCalls s ++
                 [mkModelCall (history ++ queued) start (callModelEnd s)
                              (getInterval s)
                              (bufferBeats s * ticksPerBeat s)
                              numRepeats selectionIdx
                              initiatedTime scheduleImmediately]))
  end.

(** Lines 773-784: [callModel] after its [await], on the result
    [generated] of the call [c]. *)
Definition applyGenerated (c : ModelCall) (gen : Generated) : M unit :=
  keys <- get pianoKeys ;;
  note <- newNote (Js.at_index keys (gen_keyNum gen))
                  (gen_velocity gen) (gen_duration gen)
                  (gen_time gen) Model None false ;;
  if scheduleImmediately c
  then scheduleNote note
  else modify (fun s => set_noteBuffer (noteBuffer s ++ [note]) s).

Definition callModel_resume (c : ModelCall) (generated : list Generated)
  : M unit :=
  s <- get id ;;
  match modelStartTime s with
  | Some started =>
      if (initiatedTime c >=? started)%Z then
        for_each generated (applyGenerated c) ;;
        modify (fun s =>
          set_callModelEnd
            (callModelEnd s + beatsToSeconds s (bufferBeats s)) s)
      else ret tt
  | None => ret tt
  end.

(** Lines 814-829. *)
Definition clearScheduled (note : NoteRef) : M unit :=
  n <- deref note ;;
  transportClear (Note.scheduleId n).

Definition stopModel : M unit :=
  emit EndGlow ;;
  queue <- get noteQueue ;;
  for_each queue clearScheduled ;;
  modify (set_noteQueue []) ;;
  modify (set_noteBuffer []) ;;
  modify (set_modelStartTime None) ;;
  (id <- get callModelIntervalId ;;
   when (Js.defined id) (clearTimer id)) ;;
  (id <- get checkActivityIntervalId ;;
   when (Js.defined id) (clearTimer id)).

(** Lines 981-1028.  The list item of the history drawer is DOM work;
    its length label reads [history.noteHistory.at(-1).time], a
    [TypeError] on a History without notes. *)
Definition addToHistoryList (history : option History.t) : M unit :=
  match history with
  | None => ret tt
  | Some h =>
      if negb (History.isNew h) then ret tt
      else
        modify (fun s => set_allHistories (allHistories s ++ [h]) s) ;;
        match Js.at_last (History.noteHistory h) with
        | None => throw Js.TypeError
        | Some _ => ret tt
        end
  end.

(** Lines 831-847. *)
Definition resetAll : M unit :=
  releaseAllNotes ;;
  stopModel ;;
  transportCancel ;;
  emit TransportStop ;;
  h <- get currHistory ;;
  addToHistoryList h ;;
  modify (set_currHistory None) ;;
  modify (set_activeNotes []) ;;
  modify (set_toneStarted false) ;;
  (id <- get listenerIntervalId ;;
   when (Js.defined id) (clearTimer id)).

(** Lines 787-793. *)
Definition checkActivity : M unit :=
  s <- get id ;;
  let timeout := (5 * 60 * 1000)%Z in
  if (wallClock (clocks s) - lastActivity s >? timeout)%Z
  then resetAll
  else ret tt.

(** Lines 795-805. *)
Definition startModel (glowDelayMs : Q) : M unit :=
  now <- get (fun s => wallClock (clocks s)) ;;
  modify (set_modelStartTime (Some now)) ;;
  callModel_call true ;;
  (id <- get callModelIntervalId ;;
   when (Js.truthy id) (clearTimer id)) ;;
  (id <- get checkActivityIntervalId ;;
   when (Js.truthy id) (clearTimer id)) ;;
  period <- get (fun s => beatsToSeconds s (bufferBeats s) * 1000) ;;
  id <- setInterval CallModelTask period ;;
  modify (set_callModelIntervalId (Some id)) ;;
  id <- setInterval CheckActivityTask 5000 ;;
  modify (set_checkActivityIntervalId (Some id)) ;;
  emit (StartGlow glowDelayMs).

(** Lines 807-812. *)
Definition scheduleStartModel (lastNoteTime : Q) : M unit :=
  modify (fun s => set_callModelEnd (roundToOffset s lastNoteTime) s) ;;
  s <- get id ;;
  let startGlowDelay := beatsToSeconds s (bufferBeats s) * 1000 in
  _ <- transportScheduleOnce
         (StartModelCb startGlowDelay)
         (Js.max 0 (callModelEnd s - beatsToSeconds s (bufferBeats s))) ;;
  ret tt.

(** Lines 849-860; [pianoAudio.setBPM] stores the tempo. *)
Definition seedInputListener : M unit :=
  modify (fun s => set_bpm (defaultBPM s) s) ;;
  modify (fun s =>
    set_currHistory (Some (History.new (bpm s) "Player Prompt")) s) ;;
  modify (set_awaitingInput true) ;;
  id <- setInterval SeedInputAwaiterTask 50 ;;
  modify (set_listenerIntervalId (Some id)).

(** The [Note] objects of an array of addresses. *)
Definition notes_of (σ : Store) (rs : list NoteRef) : list Note.t :=
  omap (fun r => σ !! r) rs.

(** Lines 862-906. *)
Definition seedInputAwaiter : M unit :=
  s <- get id ;;
  let currTime := wallClock (clocks s) in
  let inputWaitTime := 1500%Z in
  match modelStartTime s with
  | None =>
      if (currTime - lastActivity s >=? inputWaitTime)%Z
         && (length (activeNotes s) =? 0)%nat
      then
        match currHistory s with
        | None => throw Js.TypeError
        | Some h =>
            let detected :=
              detectBpm (notes_of (store s) (History.noteHistory h))
                        52 100 in
            modify (set_bpm detected) ;;
            modify (set_currHistory (Some (History.set_bpm detected h))) ;;
            match Js.at_last (History.noteHistory h) with
            | None => throw Js.TypeError
            | Some lastNote =>
                n <- deref lastNote ;;
                modify (set_currHistory
                  (Some (History.set_lastSeedNoteTime
                           (Some (Note.time n))
                           (History.set_bpm detected h)))) ;;
                modify (fun s =>
                  set_callModelEnd (roundToOffset s (Note.time n)) s) ;;
                modify (set_modelStartTime (Some currTime)) ;;
                callModel_call false
            end
        end
      else ret tt
  | Some _ =>
      if (currTime - lastActivity s <? inputWaitTime)%Z then
        stopModel
      else if (currTime - lastActivity s >=? inputWaitTime * 3)%Z then
        modify (fun s =>
          set_transportSeconds
            (callModelEnd s - beatsToSeconds s (bufferBeats s)) s) ;;
        buffer <- get noteBuffer ;;
        for_each buffer scheduleNote ;;
        modify (set_noteBuffer []) ;;
        startModel 0 ;;
        modify (set_awaitingInput false) ;;
        id <- get listenerIntervalId ;;
        clearTimer id
      else ret tt
  end.

(** The bodies of the three loops of [rewind] (lines 946-948, 954-957
    and 965-970). *)
Definition commitQueued (note : NoteRef) : M unit :=
  s <- get id ;;
  if time_le (store s) note (callModelEnd s)
  then currHistory_add note
  else ret tt.

Definition replayNote (note : NoteRef) : M unit :=
  n <- deref note ;;
  newNote <- newNote (Note.key n) (Note.velocity n) (Note.duration n)
                     (Note.time n) (Note.actor n) None true ;;
  scheduleNote newNote.

Definition redrawNote (note : NoteRef) : M unit :=
  n <- deref note ;;
  b <- get bpm ;;
  emit (AddNoteBar (Note.key n) (Note.duration n) b (Note.actor n) true).

(** Lines 924-979. *)
Definition rewind : M bool :=
  s <- get id ;;
  if negb (toneStarted s) || awaitingInput s then ret false
  else
    let queuedNotes := noteQueue s in
    addToHistoryList (currHistory s) ;;
    stopModel ;;
    modify (set_activeNotes []) ;;
    h <- get currHistory ;;
    match h with
    | None => throw Js.TypeError
    | Some h => modify (set_currHistory (Some (History.copy h)))
    end ;;
    s <- get id ;;
    let secondsToRewind := 8 in
    let secondsToReplay := 3 in
    let replayTimesteps :=
      Js.ceil (ticksPerBeat s * secondsToReplay * bpm s / 60) in
    let replaySeconds :=
      beatsToSeconds s (inject_Z replayTimesteps / ticksPerBeat s) in
    match currHistory s ≫= History.lastSeedNoteTime with
    | None => outside
    | Some lastSeedNoteTime =>
        let newTransportSeconds :=
          roundToOffset s
            (Js.max (transportSeconds s - secondsToRewind)
                    (lastSeedNoteTime - replaySeconds)) in
        modify (set_transportSeconds newTransportSeconds) ;;
        modify (set_callModelEnd (newTransportSeconds + replaySeconds)) ;;
        for_each queuedNotes commitQueued ;;
        s <- get id ;;
        match currHistory s with
        | None => throw Js.TypeError
        | Some h =>
            let replayNotes :=
              History.removeHistory (time_lt (store s))
                (History.getRecentHistory (time_ge (store s))
                   (History.noteHistory h) newTransportSeconds)
                (callModelEnd s) in
            let kept :=
              History.removeHistory (time_lt (store s))
                (History.noteHistory h) newTransportSeconds in
            modify (set_currHistory (Some (History.set_noteHistory kept h))) ;;
            for_each replayNotes replayNote ;;
            s <- get id ;;
            match currHistory s with
            | None => throw Js.TypeError
            | Some h =>
                let redrawSeconds := 6 in
                let redrawNotes :=
                  History.getRecentHistory (time_ge (store s))
                    (History.noteHistory h)
                    (newTransportSeconds - redrawSeconds) in
                for_each redrawNotes redrawNote
            end ;;
            let startModelDelayMs := 800 in
            (id <- get startModelScheduleId ;;
             when (Js.truthy id) (clearTimer id)) ;;
            id <- setTimeout
                    (StartModelTask
                       (replaySeconds * 1000 - startModelDelayMs))
                    startModelDelayMs ;;
            modify (set_startModelScheduleId (Some id)) ;;
            ret true
        end
    end.

(** Modelled from the spec: [PianoAudio] is not part of piano.js.
    [startTone()] starts the transport on the first key press after
    idle and tells whether it did; [setBPM(bpm)] stores the tempo. *)
Definition startTone : M bool :=
  s <- get id ;;
  if toneStarted s then ret false
  else
    modify (set_toneStarted true) ;;
    emit TransportStart ;;
    ret true.

Definition setBPM (b : Q) : M unit := modify (set_bpm b).

(** Lines 670-676. *)
Definition keyPressed (keyNum : Z) : M unit :=
  started <- startTone ;;
  when started seedInputListener ;;
  s <- get id ;;
  note <- newNote (Js.at_index (pianoKeys s) keyNum) (8 # 10) (-1)
                  (transportSeconds s) Player None false ;;
  playNote note (contextTime (clocks s)) ;;
  modify (fun s => set_lastActivity (wallClock (clocks s)) s).

(** [PianoKeyMap.keyMap] (line 621). *)
Definition keyMap : list (string * Z) :=
  [("q", 15); ("2", 16); ("w", 17); ("3", 18); ("e", 19); ("r", 20);
   ("5", 21); ("t", 22); ("6", 23); ("y", 24); ("7", 25); ("u", 26);
   ("i", 27); ("9", 28); ("o", 29); ("0", 30); ("p", 31); ("[", 32);
   ("=", 33); ("]", 34); ("a", 35); ("z", 36); ("s", 37); ("x", 38);
   ("c", 39); ("f", 40); ("v", 41); ("g", 42); ("b", 43); ("n", 44);
   ("j", 45); ("m", 46); ("k", 47); (",", 48); ("l", 49); (".", 50);
   ("/", 51)]%Z%string.

Definition keyMap_lookup (key : string) : option Z :=
  snd <$> List.find (fun kv => String.eqb (fst kv) key) keyMap.

(** Lines 678-694. *)
Definition keyDown (repeat : bool) (key : string) : M unit :=
  if repeat then ret tt
  else
    modify (fun s => set_lastActivity (wallClock (clocks s)) s) ;;
    when (String.eqb key " ") resetAll ;;
    when (String.eqb key "ArrowLeft" || String.eqb key "Backspace")
         (_ <- rewind ;; ret tt) ;;
    match keyMap_lookup key with
    | Some keyNum => keyPressed keyNum
    | None => ret tt
    end.

(** Lines 696-702. *)
Definition keyUp (key : string) : M unit :=
  modify (fun s => set_lastActivity (wallClock (clocks s)) s) ;;
  match keyMap_lookup key with
  | Some keyNum =>
      s <- get id ;;
      releaseNote (Js.at_index (pianoKeys s) keyNum) (transportSeconds s)
  | None => ret tt
  end.

(** Lines 1030-1045. *)
Definition replayHistory (idx : Z) : M unit :=
  resetAll ;;
  s <- get id ;;
  match Js.at_index (allHistories s) idx with
  | None => throw Js.TypeError
  | Some history =>
      modify (set_currHistory
                (Some (History.new (History.bpm history)
                                   (History.name history)))) ;;
      match Js.at_last (History.noteHistory history) with
      | None => throw Js.TypeError
      | Some lastNote =>
          last <- deref lastNote ;;
          modify (set_currHistory
            (Some (History.set_parentHistory (Some history)
                     (History.set_lastSeedNoteTime (Some (Note.time last))
                        (History.new (History.bpm history)
                                     (History.name history)))))) ;;
          setBPM (History.bpm history) ;;
          _ <- startTone ;;
          for_each (History.noteHistory history) replayNote ;;
          scheduleStartModel (Note.time last)
      end
  end.

(** Lines 1088-1091.  [contextDateTime] is read only by [playNote], for
    the start time of the note bar that it draws (lines 720-723), which
    the command [AddNoteBar] leaves out: the fields kept here do not
    change. *)
Definition updateContextDateTime : M unit := ret tt.

(** What a timer runs, and what a transport callback runs. *)
Definition run_task (t : TimerTask) : M unit :=
  match t with
  | SeedInputAwaiterTask => seedInputAwaiter
  | CallModelTask => callModel_call true
  | CheckActivityTask => checkActivity
  | StartModelTask glowDelayMs => startModel glowDelayMs
  | UpdateContextDateTimeTask => updateContextDateTime
  end.

Definition run_callback (cb : Callback) (contextTime : Q) : M unit :=
  match cb with
  | PlayNoteCb note => playNote note contextTime
  | StartModelCb glowDelayMs => startModel glowDelayMs
  end.

(** *** What happens to the engine

    The browser and the performer drive the engine: key events, timers
    and transport callbacks that fire, model calls that resolve, the
    replay of an archived History, and time that passes.  ([playExample]
    and the shared-link methods go through the string codec of the
    model, which piano.js does not contain, and are left out.) *)
Inductive Input : Type :=
| KeyDown (repeat : bool) (key : string)
| KeyUp (key : string)
| TimerFires (timer : nat)
| TransportFires (event : nat) (contextTime : Q)
| ModelResolves (index : nat) (generated : list Generated)
| ReplayHistory (idx : Z)
| Elapse (now : Clocks) (transportNow : Q).

Definition handle (i : Input) : M unit :=
  match i with
  | KeyDown repeat key => keyDown repeat key
  | KeyUp key => keyUp key
  | TimerFires timer =>
      s <- get id ;;
      match List.find (fun t => Nat.eqb (timerId t) timer) (timers s) with
      | None => ret tt
      | Some t =>
          when (negb (repeats t)) (clearTimer (Some timer)) ;;
          run_task (task t)
      end
  | TransportFires event contextTime =>
      s <- get id ;;
      match List.find (fun e => Nat.eqb (eventId e) event)
                      (transportEvents s) with
      | None => ret tt
      | Some e =>
          transportClear (Some event) ;;
          run_callback (callback e) contextTime
      end
  | ModelResolves index generated =>
      s <- get id ;;
      match modelCalls s !! index with
      | None => ret tt
      | Some c =>
          modify (set_modelCalls (delete index (modelCalls s))) ;;
          callModel_resume c generated
      end
  | ReplayHistory idx => replayHistory idx
  | Elapse now transportNow =>
      modify (set_clocks now) ;;
      modify (set_transportSeconds transportNow)
  end.

(** The states the engine can be in: those the constructor returns and
    those a handler leaves behind, whether it returned or threw. *)
Inductive reachable : State -> Prop :=
| reachable_new (octaves : Z) (ticksPerBeat : Q) (clocks0 : Clocks)
                (s : State) :
    constructor octaves ticksPerBeat clocks0 = inr s ->
    reachable s
| reachable_step (i : Input) (s s' : State) :
    reachable s ->
    state_after (handle i s) = Some s' ->
    reachable s'.

End Engine.
End Piano.

(** ** The hotkey labels of the keyboard canvas (piano.js, lines 393-405) *)

Module HotkeyLabels.

(** Line 399: the first key of [this.piano.keyMap], in the order of
    [Object.keys], whose value is [keyNum]; no value is [undefined] or
    [NaN]. *)
Definition hotkeyOf (keyNum : option Z) : option string :=
  List.find
    (fun key =>
       match Js.property Piano.keyMap key, keyNum with
       | Some value, Some keyNum => (value =? keyNum)%Z
       | _, _ => false
       end)
    (Js.objectKeys Piano.keyMap).

(** Lines 393-405: the properties of the object [hotkeyMap], for the
    indices [i] from [0] up. *)
Definition getHotkeyMap (c : PianoCanvas.t) (isWhite : bool)
  : list (Z * string) :=
  let numKeys :=
    if isWhite then PianoCanvas.numWhiteKeys c
    else PianoCanvas.numBlackKeys c in
  omap
    (fun i =>
       let keyNum := PianoKey.calcKeyNumFromColourKeyNum i isWhite in
       match hotkeyOf keyNum with
       | Some hotkey => Some (i, Js.toUpperCase hotkey)
       | None => None
       end)
    (Z.of_nat <$> seq 0 (Z.to_nat numKeys)).

End HotkeyLabels.

(** ** The tick grid and the rewind target in double arithmetic *)

Module Double.

Local Open Scope Z_scope.

(** The exponent [e] of a positive rational [n / d]:
    [2^e <= n / d < 2^(e + 1)]. *)
Definition exponent (n d : positive) : Z :=
  let e0 := Z.log2 (Zpos n) - Z.log2 (Zpos d) in
  let above :=
    if 0 <=? e0 then Z.shiftl (Zpos d) e0 <=? Zpos n
    else Zpos d <=? Z.shiftl (Zpos n) (- e0) in
  if above then e0 else e0 - 1.

(** The integer nearest to [num / den], the even one of two that are
    equally near. *)
Definition nearest_even (num den : Z) : Z :=
  let q := num / den in
  let r := num mod den in
  match 2 * r ?= den with
  | Lt => q
  | Gt => q + 1
  | Eq => if Z.even q then q else q + 1
  end.

(** The double nearest to a positive rational: 53 binary digits from
    the leading one on. *)
Definition round_pos (n d : positive) : Q :=
  let shift := 52 - exponent n d in
  if 0 <=? shift
  then Qred (nearest_even (Z.shiftl (Zpos n) shift) (Zpos d)
             # Z.to_pos (Z.shiftl 1 shift))
  else inject_Z (Z.shiftl (nearest_even (Zpos n) (Z.shiftl (Zpos d) (- shift)))
                          (- shift)).

(** The double nearest to [q], ties to even.  Doubles are the rationals
    that [round] leaves as they are; the numbers at hand are far from
    the ends of the range of the exponent, which is left unbounded. *)
Definition round (q : Q) : Q :=
  match Qnum q with
  | Z0 => 0%Q
  | Zpos n => round_pos n (Qden q)
  | Zneg n => Qopp (round_pos n (Qden q))
  end.

Local Open Scope Q_scope.

(** [a + b], [a - b], [a * b] and [a / b] on doubles. *)
Definition add (a b : Q) : Q := round (a + b).
Definition sub (a b : Q) : Q := round (a - b).
Definition mul (a b : Q) : Q := round (a * b).
Definition div (a b : Q) : Q := round (a / b).

(** [a % b] on doubles is exact. *)
Definition rem (a b : Q) : Q := Qred (Js.fmod a b).

(** Lines 653-655. *)
Definition beatsToSeconds (bpm beats : Q) : Q := mul (div beats bpm) 60.

(** Lines 657-660. *)
Definition getInterval (bpm ticksPerBeat : Q) : Q :=
  beatsToSeconds bpm (div 1 ticksPerBeat).

(** Lines 662-668. *)
Definition roundToOffset (bpm ticksPerBeat time : Q) : Q :=
  let interval := beatsToSeconds bpm (div 1 ticksPerBeat) in
  let remainder := rem (add time (div interval 2)) interval in
  add (sub time remainder) interval.

(** Lines 935-938 of [rewind]. *)
Definition replaySeconds (bpm ticksPerBeat : Q) : Q :=
  let secondsToReplay := 3 in
  let replayTimesteps :=
    Js.ceil (div (mul (mul ticksPerBeat secondsToReplay) bpm) 60) in
  beatsToSeconds bpm (div (inject_Z replayTimesteps) ticksPerBeat).

(** Line 941 of [rewind], for the transport at [now]. *)
Definition newTransportSeconds (bpm ticksPerBeat now lastSeedNoteTime : Q)
  : Q :=
  let secondsToRewind := 8 in
  roundToOffset bpm ticksPerBeat
    (Js.max (sub now secondsToRewind)
            (sub lastSeedNoteTime (replaySeconds bpm ticksPerBeat))).

End Double.

(** ** Sample engines and inputs *)

(** An engine with four octaves and four ticks per beat, at 60 bpm: the
    tick interval is a quarter of a second. *)
Definition quarter_second_ticks : State :=
  set_bpm 60%Q (Piano.fields 4 4%Q (mkClocks 0 0%Q 0%Q)).


(** Two notes of the first Piano class, stamped in ticks: key 40 at
    tick 0, then key 42 at tick 192. *)
Definition two_played : list (EarlyPiano.Played Z nat) :=
  [EarlyPiano.mkPlayed 40%nat 0%Z; EarlyPiano.mkPlayed 42%nat 192%Z].

(** A tempo estimator that always answers 60 bpm. *)
Definition sample_detectBpm (notes : list Note.t) (minBpm maxBpm : Q) : Q :=
  60%Q.

(** A new engine with four octaves and four ticks per beat. *)
Definition new_engine : State := Piano.fields 4 4%Q (mkClocks 0 0%Q 0%Q).

(** The state after a sequence of inputs. *)
Definition after (inputs : list Piano.Input) (s : State) : State :=
  fold_left
    (fun s i => default s (state_after (Piano.handle sample_detectBpm i s)))
    inputs s.

(** The performer holds the key [q] (key 15) from half a second on, ... *)
Definition key_held : State :=
  after [Piano.Elapse (mkClocks 100 1%Q 1%Q) (1 # 2)%Q;
         Piano.KeyDown false "q"] new_engine.

(** ... releases it after half a second, and stays idle: 1.6 s later
    the awaiter issues the first model call, which resolves to two
    notes, buffered ... *)
Definition two_generated : list Generated :=
  [mkGenerated 20 (1 # 2)%Q (1 # 2)%Q 3%Q;
   mkGenerated 22 (1 # 2)%Q (1 # 2)%Q 4%Q].

Definition model_pending : State :=
  after [Piano.Elapse (mkClocks 600 1%Q 1%Q) 1%Q;
         Piano.KeyUp "q";
         Piano.Elapse (mkClocks 2200 2%Q 2%Q) 2%Q;
         Piano.TimerFires 2;
         Piano.ModelResolves 0 two_generated] key_held.

(** ... 4.6 s after the release the awaiter confirms the seed and starts
    the scheduler ... *)
Definition model_active : State :=
  after [Piano.Elapse (mkClocks 5200 5%Q 5%Q) 5%Q;
         Piano.TimerFires 2] model_pending.

(** ... and the first generated note (key 20, half a second long, at
    3 s) is played. *)
Definition model_note_sounding : State :=
  after [Piano.TransportFires 0 (51 # 10)%Q] model_active.

(** The pending engine, 4.6 s after the last activity. *)
Definition pending_and_idle : State :=
  after [Piano.Elapse (mkClocks 5200 5%Q 5%Q) 5%Q] model_pending.

(** The engine with the first generated note sounding, at 20 s on the
    transport. *)
Definition model_later : State :=
  after [Piano.Elapse (mkClocks 20000 20%Q 20%Q) 20%Q] model_note_sounding.

(** The engine 1.6 s after the performer released the key [q], before
    the awaiter runs. *)
Definition seed_played : State :=
  after [Piano.Elapse (mkClocks 600 1%Q 1%Q) 1%Q;
         Piano.KeyUp "q";
         Piano.Elapse (mkClocks 2200 2%Q 2%Q) 2%Q] key_held.

(** The performer then rewinds with the left arrow. *)
Definition rewound : State :=
  after [Piano.KeyDown false "ArrowLeft"] model_later.

(** The Piano class of lines 1-287, with transport positions counted
    in whole seconds. *)
Definition early_seconds (position : Z) : Q := inject_Z position.

Definition early_env (now position : Z) : Piano1.Env Z :=
  Piano1.mkEnv now (inject_Z position) position.

(** An engine at 80 bpm on which the model has played key 20 for four
    sixteenth notes at position 1 and the player holds key 15 since
    position 2. *)
Definition early_playing : Piano1.State Z :=
  Piano1.mkState 80%Q
    [Piano1.mkActiveKey (PianoKey.new 20 53) (1 # 2)%Q 1%Z (Some 1650%Z) Model;
     Piano1.mkActiveKey (PianoKey.new 15 48) (8 # 10)%Q 2%Z None Player]
    [Piano1.mkNote 20%Z (1 # 2)%Q 4%Q 1%Z] 2000%Z [].

(** The engine of [model_later] after [rewind], with the first call of
    the scheduler still awaiting the model ... *)
Definition model_rewound : State :=
  default model_later (state_after (Piano.rewind model_later)).

(** ... and a second later, when the timeout of [rewind] has started the
    model again. *)
Definition model_restarted : State :=
  after [Piano.Elapse (mkClocks 21000 21%Q 21%Q) 21%Q;
         Piano.TimerFires 5] model_rewound.

(** ** The keyboard *)

(** The colour-relative numbers of the white keys, or of the black keys,
    of a keyboard, in the order of the keys. *)
Definition colourKeyNums (isWhiteKey : bool) (keys : list PianoKey.t)
  : list Z :=
  PianoKey.colourKeyNum
    <$> List.filter (fun k => Bool.eqb (PianoKey.isWhiteKey k) isWhiteKey) keys.

(** ** The active notes *)

(** Every active note is a note of a piano key. *)
Definition keyed (s : State) : Prop :=
  Forall (fun r => exists n k, store s !! r = Some n /\ Note.key n = Some k)
         (activeNotes s).


(** [s'] differs from [s] at most in the active set, the notes and the
    commands sent. *)
Definition notes_only (s s' : State) : Prop :=
  s' = set_trace (trace s')
         (set_store (store s') (set_activeNotes (activeNotes s') s)).

(** ** Rewinding *)

(** The replay length that [rewind] computes (piano.js, lines 936-938):
    three seconds, rounded up to a whole number of ticks at the current
    tempo. *)
Definition replaySeconds (s : State) : Q :=
  let secondsToReplay := 3%Q in
  let replayTimesteps :=
    Js.ceil (ticksPerBeat s * secondsToReplay * bpm s / 60)%Q in
  Piano.beatsToSeconds s (inject_Z replayTimesteps / ticksPerBeat s)%Q.

(** The transport position that [rewind] moves to (line 941), for the
    last seed note time [lastSeedNoteTime]. *)
Definition rewindTarget (s : State) (lastSeedNoteTime : Q) : Q :=
  let secondsToRewind := 8%Q in
  Piano.roundToOffset s
    (Js.max (transportSeconds s - secondsToRewind)
            (lastSeedNoteTime - replaySeconds s))%Q.

(** [rewind] from line 942 on, as a function of the new transport
    position, of the replay length and of the copy of the queue taken at
    line 928. *)
Definition rewindTo (newTransportSeconds replaySeconds : Q)
           (queuedNotes : list NoteRef) : M bool :=
  modify (set_transportSeconds newTransportSeconds) ;;
  modify (set_callModelEnd (newTransportSeconds + replaySeconds)%Q) ;;
  for_each queuedNotes Piano.commitQueued ;;
  s <- get id ;;
  match currHistory s with
  | None => throw Js.TypeError
  | Some h =>
      let replayNotes :=
        History.removeHistory (time_lt (store s))
          (History.getRecentHistory (time_ge (store s))
             (History.noteHistory h) newTransportSeconds)
          (callModelEnd s) in
      let kept :=
        History.removeHistory (time_lt (store s))
          (History.noteHistory h) newTransportSeconds in
      modify (set_currHistory (Some (History.set_noteHistory kept h))) ;;
      for_each replayNotes Piano.replayNote ;;
      s <- get id ;;
      match currHistory s with
      | None => throw Js.TypeError
      | Some h =>
          let redrawSeconds := 6%Q in
          let redrawNotes :=
            History.getRecentHistory (time_ge (store s))
              (History.noteHistory h)
              (newTransportSeconds - redrawSeconds)%Q in
          for_each redrawNotes Piano.redrawNote
      end ;;
      let startModelDelayMs := 800%Q in
      (id <- get startModelScheduleId ;;
       when (Js.truthy id) (clearTimer id)) ;;
      id <- setTimeout
              (StartModelTask
                 (replaySeconds * 1000 - startModelDelayMs)%Q)
              startModelDelayMs ;;
      modify (set_startModelScheduleId (Some id)) ;;
      ret true
  end.

(** ** Timers *)

(** Two tasks of the same kind: the same method is run. *)
Definition same_task (a b : TimerTask) : bool :=
  match a, b with
  | SeedInputAwaiterTask, SeedInputAwaiterTask => true
  | CallModelTask, CallModelTask => true
  | CheckActivityTask, CheckActivityTask => true
  | StartModelTask _, StartModelTask _ => true
  | UpdateContextDateTimeTask, UpdateContextDateTimeTask => true
  | _, _ => false
  end.

(** The field in which the engine keeps the identifier of the timer of
    a task: [listenerIntervalId] (line 859), [callModelIntervalId] and
    [checkActivityIntervalId] (lines 802-803), [startModelScheduleId]
    (line 976); it keeps none for the interval of the constructor
    (line 650). *)
Definition recorded_id (s : State) (task : TimerTask) : option nat :=
  match task with
  | SeedInputAwaiterTask => listenerIntervalId s
  | CallModelTask => callModelIntervalId s
  | CheckActivityTask => checkActivityIntervalId s
  | StartModelTask _ => startModelScheduleId s
  | UpdateContextDateTimeTask => None
  end.

(** The interval that the constructor registers (line 650). *)
Definition context_timer : Timer :=
  mkTimer 1 1000 true UpdateContextDateTimeTask.

(** The live timers [ts] against the identifiers [rec] kept for them:
    the interval of the constructor is live; every other live timer is
    the one kept for its task, with an identifier after the
    constructor's and below the next one; the identifiers are distinct;
    the identifiers kept come after the constructor's; and while tone
    has not started no timer runs the seed awaiter. *)
Definition timers_ok (rec : TimerTask -> option nat) (next : nat)
           (started : bool) (ts : list Timer) : Prop :=
  (2 <= next)%nat
  /\ In context_timer ts
  /\ Forall (fun t => t = context_timer
                      \/ ((2 <= timerId t < next)%nat
                          /\ rec (task t) = Some (timerId t))) ts
  /\ List.NoDup (List.map timerId ts)
  /\ (forall k i, rec k = Some i -> (2 <= i)%nat)
  /\ (started = false ->
      Forall (fun t => same_task SeedInputAwaiterTask (task t) = false) ts).

Definition timers_inv (s : State) : Prop :=
  timers_ok (recorded_id s) (nextTimerId s) (toneStarted s) (timers s).

(** What the methods that set and clear no timer leave alone. *)
Definition timers_frame (s s' : State) : Prop :=
  timers s' = timers s /\ nextTimerId s' = nextTimerId s
  /\ toneStarted s' = toneStarted s
  /\ listenerIntervalId s' = listenerIntervalId s
  /\ callModelIntervalId s' = callModelIntervalId s
  /\ checkActivityIntervalId s' = checkActivityIntervalId s
  /\ startModelScheduleId s' = startModelScheduleId s.

(** ** Invariants of the engine state *)

(** The active set holds at most one note per piano key. *)
Definition one_entry_per_key (s : State) : Prop :=
  forall pianoKey : option PianoKey.t,
    (length (List.filter (Piano.has_key (store s) pianoKey) (activeNotes s))
     <= 1)%nat.

(** The notes of an array of addresses are allocated. *)
Definition allocated (σ : Store) (notes : list NoteRef) : Prop :=
  Forall (fun r => (r < length σ)%nat) notes.

(** A store after some allocations and updates of [duration] and
    [scheduleId]: the notes there before are still there, with the same
    key, velocity, time, actor and rewind mark. *)
Definition same_identity (n n' : Note.t) : Prop :=
  Note.key n' = Note.key n /\ Note.velocity n' = Note.velocity n
  /\ Note.time n' = Note.time n /\ Note.actor n' = Note.actor n
  /\ Note.isRewind n' = Note.isRewind n.

Definition store_extends (σ σ' : Store) : Prop :=
  forall r n, σ !! r = Some n -> exists n', σ' !! r = Some n' /\ same_identity n n'.

(** A method either returns or throws in a state related by [R] to the
    one it started in. *)
Definition respects {A : Type} (R : State -> State -> Prop) (m : M A) : Prop :=
  forall s,
    match m s with
    | Returns _ s' => R s s'
    | Throws _ s' => R s s'
    | OutsideModel => True
    end.

(** What the methods that do not touch the active set do to it and to
    the store. *)
Definition tracker_frame (s s' : State) : Prop :=
  activeNotes s' = activeNotes s /\ store_extends (store s) (store s').

(** The invariant of the active-note tracker. *)
Definition tracker_inv (s : State) : Prop :=
  one_entry_per_key s /\ allocated (store s) (activeNotes s).

Definition keeps (I : State -> Prop) (s s' : State) : Prop := I s -> I s'.

(** After [releaseNote(pianoKey)] no active note has that key. *)
Definition released (k : option PianoKey.t) (s s' : State) : Prop :=
  tracker_inv s ->
  tracker_inv s'
  /\ List.filter (Piano.has_key (store s') k) (activeNotes s') = []
  /\ store_extends (store s) (store s').


(** [note] is the one active note of its key. *)
Definition registered (note : NoteRef) (s : State) : Prop :=
  exists n,
    store s !! note = Some n
    /\ List.filter (Piano.has_key (store s) (Note.key n)) (activeNotes s)
       = [note].

(** ** The loops, as functions of the state *)

(** The transport events left by the loop of [stopModel]. *)
Definition clear_all (σ : Store) (queue : list NoteRef)
           (events : list TransportEvent) : list TransportEvent :=
  fold_left
    (fun events note =>
       match σ !! note with
       | Some n =>
           List.filter
             (fun e => negb (same_id (Note.scheduleId n) (eventId e))) events
       | None => events
       end)
    queue events.

(** The state after [scheduleNote(note)], for the note [n] at [note]. *)
Definition scheduled (note : NoteRef) (n : Note.t) (s : State) : State :=
  set_noteQueue (noteQueue s ++ [note])
    (set_store
       (alter (Note.set_scheduleId (Some (nextEventId s))) note (store s))
       (set_nextEventId (S (nextEventId s))
          (set_transportEvents
             (transportEvents s
              ++ [mkEvent (nextEventId s) (Note.time n) (PlayNoteCb note)])
             s))).

Definition schedule_one (s : State) (note : NoteRef) : State :=
  match store s !! note with
  | Some n => scheduled note n s
  | None => s
  end.

(** The state after [stopModel()]. *)
Definition stopped (s : State) : State :=
  let s1 := set_trace (trace s ++ [EndGlow]) s in
  let s2 :=
    set_transportEvents
      (clear_all (store s) (noteQueue s) (transportEvents s)) s1 in
  let s3 := set_modelStartTime None (set_noteBuffer [] (set_noteQueue [] s2)) in
  let s4 :=
    if Js.defined (callModelIntervalId s3)
    then set_timers
           (List.filter
              (fun t => negb (same_id (callModelIntervalId s3) (timerId t)))
              (timers s3)) s3
    else s3 in
  if Js.defined (checkActivityIntervalId s4)
  then set_timers
         (List.filter
            (fun t => negb (same_id (checkActivityIntervalId s4) (timerId t)))
            (timers s4)) s4
  else s4.

(** The state after [addToHistoryList(history)] returns. *)
Definition archived (h : History.t) (s : State) : State :=
  if History.isNew h then set_allHistories (allHistories s ++ [h]) s else s.

(** The History after the first loop of [rewind]: the queued notes that
    are not later than [callModelEnd] are added. *)
Definition commit_all (σ : Store) (callModelEnd : Q) (queued : list NoteRef)
           (h : History.t) : History.t :=
  fold_left
    (fun h note =>
       if time_le σ note callModelEnd then History.add σ note h else h)
    queued h.

(** The copy of the note [n] that [rewind] and [replayHistory] make. *)
Definition rewind_copy (n : Note.t) : Note.t :=
  Note.mk (Note.key n) (Note.velocity n) (Note.duration n) (Note.time n)
          (Note.actor n) None true.

(** The state after one turn of the second loop of [rewind]. *)
Definition replay_one (s : State) (note : NoteRef) : State :=
  match store s !! note with
  | Some n =>
      scheduled (length (store s)) (rewind_copy n)
                (set_store (store s ++ [rewind_copy n]) s)
  | None => s
  end.

(** The state after one turn of the third loop of [rewind]. *)
Definition redraw_one (s : State) (note : NoteRef) : State :=
  match store s !! note with
  | Some n =>
      set_trace
        (trace s ++ [AddNoteBar (Note.key n) (Note.duration n) (bpm s)
                                (Note.actor n) true]) s
  | None => s
  end.

(** [note'] is a copy of [note], marked as a rewind, with a callback on
    the timeline at the time of [note]. *)
Definition replayed (σ σ' : Store) (events : list TransportEvent)
           (note' note : NoteRef) : Prop :=
  exists n id,
    σ !! note = Some n
    /\ σ' !! note'
       = Some (Note.set_scheduleId (Some id) (rewind_copy n))
    /\ In (mkEvent id (Note.time n) (PlayNoteCb note')) events.

(** The notes of a History are allocated and in non-decreasing order of
    time. *)
Definition time_order (σ : Store) (a b : NoteRef) : Prop :=
  forall ta tb, timeOf σ a = Some ta -> timeOf σ b = Some tb -> (ta <= tb)%Q.

Definition sorted_by_time (σ : Store) (notes : list NoteRef) : Prop :=
  allocated σ notes /\ StronglySorted (time_order σ) notes.

(** ** More states after a method *)

(** *** Model results *)

(** The note that [callModel] makes of an element of the result of the
    model (line 776). *)
Definition generated_note (keys : list PianoKey.t) (gen : Generated)
  : Note.t :=
  Note.mk (Js.at_index keys (gen_keyNum gen)) (gen_velocity gen)
          (gen_duration gen) (gen_time gen) Model None false.

(** The state after one turn of the loop of [callModel] (lines
    775-782). *)
Definition apply_one (c : ModelCall) (s : State) (gen : Generated) : State :=
  let note := length (store s) in
  let n := generated_note (pianoKeys s) gen in
  let s1 := set_store (store s ++ [n]) s in
  if scheduleImmediately c then scheduled note n s1
  else set_noteBuffer (noteBuffer s1 ++ [note]) s1.

(** The note made of the [i]-th element of a result, once the loop has
    run: [scheduleNote] sets its [scheduleId]. *)
Definition made (sched : bool) (keys : list PianoKey.t) (firstEvent : nat)
           (i : nat) (gen : Generated) : Note.t :=
  if sched
  then Note.set_scheduleId (Some (firstEvent + i)%nat)
                           (generated_note keys gen)
  else generated_note keys gen.

(** The callback that [scheduleNote] registers for it. *)
Definition made_event (firstNote firstEvent : nat) (i : nat)
           (gen : Generated) : TransportEvent :=
  mkEvent (firstEvent + i) (gen_time gen) (PlayNoteCb (firstNote + i)).

(** *** Stale results of the model *)

(** What the methods that neither stop nor start the model leave alone;
    the calls that await the model are kept, and [callModel] adds
    one. *)
Definition model_frame (s s' : State) : Prop :=
  modelStartTime s' = modelStartTime s
  /\ clocks s' = clocks s
  /\ exists issued, modelCalls s' = modelCalls s ++ issued.

(** What a method that runs while the wall clock reads [now] does to
    [modelStartTime]: nothing, or it sets it to [null] (line 820) or to
    [now] (lines 796 and 880). *)
Definition model_step (now : Z) (s s' : State) : Prop :=
  wallClock (clocks s) = now ->
  clocks s' = clocks s
  /\ (exists issued, modelCalls s' = modelCalls s ++ issued)
  /\ (modelStartTime s' = modelStartTime s
      \/ modelStartTime s' = None
      \/ modelStartTime s' = Some now).

(** A method that returns [a] does so in a state of [P a]. *)
Definition returns_in {A : Type} (P : A -> State -> Prop) (m : M A) : Prop :=
  forall s,
    match m s with
    | Returns a s' => P a s'
    | Throws _ _ => True
    | OutsideModel => True
    end.

(** The model is started between [s] and [s']: [modelStartTime] holds a
    date that it did not hold before. *)
Definition starts_model (s s' : State) : Prop :=
  exists started,
    modelStartTime s' = Some started /\ modelStartTime s <> Some started.

(** The engine goes from [s] to [s'], and whenever it starts the model
    on the way the wall clock reads later than [t]. *)
Inductive run_after (detectBpm : list Note.t -> Q -> Q -> Q) (t : Z)
  : State -> State -> Prop :=
| run_after_refl (s : State) : run_after detectBpm t s s
| run_after_step (i : Piano.Input) (s s' s'' : State) :
    run_after detectBpm t s s' ->
    state_after (Piano.handle detectBpm i s') = Some s'' ->
    (starts_model s' s'' -> (t < wallClock (clocks s'))%Z) ->
    run_after detectBpm t s s''.

(** *** The notes that the engine keeps *)

(** The current History is in non-decreasing order of time, and its
    notes, the queued notes and the buffered notes are notes of the
    store. *)
Definition notes_inv (s : State) : Prop :=
  (forall h, currHistory s = Some h ->
             sorted_by_time (store s) (History.noteHistory h))
  /\ allocated (store s) (noteQueue s)
  /\ allocated (store s) (noteBuffer s).

(** The same, with [note] a note of the store. *)
Definition notes_inv_with (note : NoteRef) (s : State) : Prop :=
  notes_inv s /\ (note < length (store s))%nat.

(** What the methods that leave the notes of the History, the queue and
    the buffer alone do. *)
Definition notes_frame (s s' : State) : Prop :=
  History.noteHistory <$> currHistory s'
  = History.noteHistory <$> currHistory s
  /\ noteQueue s' = noteQueue s
  /\ noteBuffer s' = noteBuffer s
  /\ store_extends (store s) (store s').

(** * Properties *)

(** Unfolds the plumbing of the monad. *)
Ltac monad :=
  cbv beta iota delta [bind get modify ret throw outside when emit deref
                       update_note keyName_of id].

(** Reads the fields of an updated state. *)
Ltac fields :=
  cbn [
    octaves ticksPerBeat pianoKeys bufferBeats historyWindowBeats
    defaultBPM bpm toneStarted lastActivity modelStartTime currHistory
    allHistories activeNotes noteQueue noteBuffer callModelEnd
    awaitingInput callModelIntervalId checkActivityIntervalId
    listenerIntervalId startModelScheduleId store clocks transportSeconds
    transportEvents nextEventId timers nextTimerId modelCalls trace
    set_bpm set_toneStarted set_lastActivity set_modelStartTime
    set_currHistory set_allHistories set_activeNotes set_noteQueue
    set_noteBuffer set_callModelEnd set_awaitingInput
    set_callModelIntervalId set_checkActivityIntervalId
    set_listenerIntervalId set_startModelScheduleId set_store set_clocks
    set_transportSeconds set_transportEvents set_nextEventId set_timers
    set_nextTimerId set_modelCalls set_trace ].

Tactic Notation "fields" "in" hyp(H) :=
  cbn [
    octaves ticksPerBeat pianoKeys bufferBeats historyWindowBeats
    defaultBPM bpm toneStarted lastActivity modelStartTime currHistory
    allHistories activeNotes noteQueue noteBuffer callModelEnd
    awaitingInput callModelIntervalId checkActivityIntervalId
    listenerIntervalId startModelScheduleId store clocks transportSeconds
    transportEvents nextEventId timers nextTimerId modelCalls trace
    set_bpm set_toneStarted set_lastActivity set_modelStartTime
    set_currHistory set_allHistories set_activeNotes set_noteQueue
    set_noteBuffer set_callModelEnd set_awaitingInput
    set_callModelIntervalId set_checkActivityIntervalId
    set_listenerIntervalId set_startModelScheduleId set_store set_clocks
    set_transportSeconds set_transportEvents set_nextEventId set_timers
    set_nextTimerId set_modelCalls set_trace ] in H.

(** ** Key numbering *)

Example colour_key_0 : PianoKey.calcColourKeyNum 0 = 0.
Proof. reflexivity. Qed.

Example colour_key_roundtrip_40 :
  PianoKey.calcKeyNumFromColourKeyNum
    (PianoKey.calcColourKeyNum 40) (PianoKey.calcIsWhiteKey 40) = Some 40.
Proof. reflexivity. Qed.

(** Evaluates the closed table lookups of the goal. *)
Ltac eval_tables :=
  repeat match goal with
  | |- context [Js.includes ?l ?x] =>
      let v := eval vm_compute in (Js.includes l x) in
      change (Js.includes l x) with v
  | |- context [Js.indexOf ?l ?x] =>
      let v := eval vm_compute in (Js.indexOf l x) in
      change (Js.indexOf l x) with v
  | |- context [Js.at_index ?l ?x] =>
      let v := eval vm_compute in (Js.at_index l x) in
      change (Js.at_index l x) with v
  end; cbv beta iota.

Lemma calcKeyNumFromColourKeyNum_white (q i : Z) :
  0 <= q -> 0 <= i < 7 ->
  PianoKey.calcKeyNumFromColourKeyNum (i + q * 7 - 5) true
  = option_map (fun k => q * 12 - 10 + k)
               (Js.at_index PianoKey.whiteKeyNumbers i).
Proof.
  intros Hq Hi. unfold PianoKey.calcKeyNumFromColourKeyNum, Js.rem, Js.floor_div.
  replace (i + q * 7 - 5 + 5) with (i + q * 7) by lia.
  rewrite Z.rem_mod_nonneg by lia.
  rewrite Z_mod_plus_full, Z_div_plus_full by lia.
  rewrite (Z.mod_small i 7), (Z.div_small i 7) by lia.
  destruct (Js.at_index PianoKey.whiteKeyNumbers i); reflexivity.
Qed.

Lemma calcKeyNumFromColourKeyNum_black (q i : Z) :
  0 <= q -> 0 <= i < 5 ->
  PianoKey.calcKeyNumFromColourKeyNum (i + q * 5 - 4) false
  = option_map (fun k => q * 12 - 10 + k)
               (Js.at_index PianoKey.blackKeyNumbers i).
Proof.
  intros Hq Hi. unfold PianoKey.calcKeyNumFromColourKeyNum, Js.rem, Js.floor_div.
  replace (i + q * 5 - 4 + 4) with (i + q * 5) by lia.
  rewrite Z.rem_mod_nonneg by lia.
  rewrite Z_mod_plus_full, Z_div_plus_full by lia.
  rewrite (Z.mod_small i 5), (Z.div_small i 5) by lia.
  destruct (Js.at_index PianoKey.blackKeyNumbers i); reflexivity.
Qed.

(** Every residue of [keyNum + 9] modulo 12 maps back to itself. *)
Lemma roundtrip_by_residue (q r : Z) :
  0 <= q -> 0 <= r < 12 ->
  PianoKey.calcKeyNumFromColourKeyNum
    (PianoKey.calcColourKeyNum (12 * q + r - 9))
    (PianoKey.calcIsWhiteKey (12 * q + r - 9)) = Some (12 * q + r - 9).
Proof.
  intros Hq Hr.
  unfold PianoKey.calcColourKeyNum, PianoKey.calcIsWhiteKey,
    PianoKey.calcOctaveKeyNum, PianoKey.calcOctave, Js.rem, Js.floor_div.
  replace (12 * q + r - 9 + 9) with (r + q * 12) by lia.
  rewrite Z.rem_mod_nonneg by lia.
  rewrite Z_mod_plus_full, Z_div_plus_full by lia.
  rewrite (Z.mod_small r 12), (Z.div_small r 12) by lia.
  replace (0 + q) with q by lia.
  assert (Hcases : r = 0 \/ r = 1 \/ r = 2 \/ r = 3 \/ r = 4 \/ r = 5 \/
                   r = 6 \/ r = 7 \/ r = 8 \/ r = 9 \/ r = 10 \/ r = 11)
    by lia.
  repeat (destruct Hcases as [-> | Hcases]); try subst r; eval_tables;
    first [ rewrite calcKeyNumFromColourKeyNum_white by lia
          | rewrite calcKeyNumFromColourKeyNum_black by lia ];
    eval_tables; cbn [option_map]; f_equal; lia.
Qed.

(** C10. For every key number [keyNum >= 0], mapping it to its colour and
    colour-relative index and back is the identity:
    [calcKeyNumFromColourKeyNum (calcColourKeyNum keyNum)
    (calcIsWhiteKey keyNum)] returns [keyNum]. *)
Theorem key_numbering_round_trip (keyNum : Z) :
  0 <= keyNum ->
  PianoKey.calcKeyNumFromColourKeyNum
    (PianoKey.calcColourKeyNum keyNum) (PianoKey.calcIsWhiteKey keyNum)
  = Some keyNum.
Proof.
  intros Hk.
  pose proof (Z.div_mod (keyNum + 9) 12 ltac:(lia)) as Hdm.
  pose proof (Z.mod_pos_bound (keyNum + 9) 12 ltac:(lia)) as Hb.
  assert (Hq : 0 <= (keyNum + 9) / 12) by (apply Z.div_pos; lia).
  assert (E : keyNum = 12 * ((keyNum + 9) / 12) + (keyNum + 9) mod 12 - 9)
    by lia.
  rewrite E. apply roundtrip_by_residue; assumption.
Qed.

Lemma key_numbering_round_trip_witness :
  0 <= 27 /\
  PianoKey.calcKeyNumFromColourKeyNum
    (PianoKey.calcColourKeyNum 27) (PianoKey.calcIsWhiteKey 27) = Some 27.
Proof. split; [lia | apply (key_numbering_round_trip 27); lia]. Defined.

(** ** Construction *)

Example constructor_rejects_0 :
  Piano.constructor 0 4 (mkClocks 0 0 0) = inl Js.RangeError.
Proof. reflexivity. Qed.

Example constructor_rejects_8 :
  Piano.constructor 8 4 (mkClocks 0 0 0) = inl Js.RangeError.
Proof. reflexivity. Qed.

Example constructor_accepts_7 :
  match Piano.constructor 7 4 (mkClocks 0 0 0) with
  | inr s => octaves s = 7 /\ length (pianoKeys s) = 88%nat
  | inl _ => False
  end.
Proof. split; reflexivity. Qed.

(** C9. The constructor throws a [RangeError] if and only if [octaves] is
    less than 1 or greater than 7; for [octaves] in [1, 7] it returns an
    engine with that octave count, so every engine it returns has its
    octave count in [1, 7]. *)
Theorem constructor_fail_fast (n : Z) (ticksPerBeat : Q) (clocks0 : Clocks) :
  (Piano.constructor n ticksPerBeat clocks0 = inl Js.RangeError
   <-> (n < 1 \/ n > 7))
  /\ ((1 <= n <= 7)
      <-> exists s, Piano.constructor n ticksPerBeat clocks0 = inr s
                    /\ octaves s = n)
  /\ (forall s, Piano.constructor n ticksPerBeat clocks0 = inr s ->
                1 <= octaves s <= 7).
Proof.
  unfold Piano.constructor.
  destruct (n <? 1) eqn:Hlo; [| destruct (n >? 7) eqn:Hhi ]; cbn [orb].
  - apply Z.ltb_lt in Hlo. split; [| split].
    + split; [intros _; lia | reflexivity].
    + split; [lia | intros (s & Hs & _); discriminate].
    + intros s Hs. discriminate.
  - rewrite Z.gtb_ltb in Hhi. apply Z.ltb_lt in Hhi. split; [| split].
    + split; [intros _; lia | reflexivity].
    + split; [lia | intros (s & Hs & _); discriminate].
    + intros s Hs. discriminate.
  - rewrite Z.gtb_ltb in Hhi. apply Z.ltb_ge in Hhi. apply Z.ltb_ge in Hlo.
    split; [| split].
    + split; [discriminate | lia].
    + split; [intros _; eexists; split; reflexivity | lia].
    + intros s [= <-]. cbn. lia.
Qed.

(** ** The clock *)

Local Open Scope Q_scope.

Example getInterval_quarter :
  Qred (Piano.getInterval quarter_second_ticks) = 1 # 4.
Proof. reflexivity. Qed.

Example roundToOffset_10 :
  Qred (Piano.roundToOffset quarter_second_ticks 10) = 81 # 8.
Proof. reflexivity. Qed.

(** The integer part of a number that is not negative is its floor. *)
Lemma trunc_nonneg (q : Q) :
  0 <= q -> inject_Z (Js.trunc q) <= q /\ q < inject_Z (Js.trunc q) + 1.
Proof.
  intros Hq. unfold Js.trunc.
  assert (Hn : (0 <= Qnum q)%Z).
  { destruct q as [n d]. unfold Qle in Hq. cbn in *. lia. }
  rewrite Z.quot_div_nonneg by lia.
  replace (Qnum q / Z.pos (Qden q))%Z with (Qfloor q) by (destruct q; reflexivity).
  split; [apply Qfloor_le |].
  pose proof (Qlt_floor q) as H. rewrite inject_Z_plus in H. exact H.
Qed.

Lemma trunc_opp (q : Q) : Js.trunc (- q) = (- Js.trunc q)%Z.
Proof.
  unfold Js.trunc. destruct q as [n d]. cbn.
  apply Z.quot_opp_l. lia.
Qed.

Lemma trunc_within_one (q : Q) :
  q - 1 < inject_Z (Js.trunc q) /\ inject_Z (Js.trunc q) < q + 1.
Proof.
  destruct (Qlt_le_dec q 0) as [Hneg | Hpos].
  - assert (H0 : 0 <= - q) by lra.
    destruct (trunc_nonneg _ H0) as [H1 H2].
    rewrite trunc_opp, inject_Z_opp in H1, H2. lra.
  - destruct (trunc_nonneg _ Hpos) as [H1 H2]. lra.
Qed.

(** [a % b] for a positive divisor: the quotient is an integer and the
    remainder is smaller than the divisor; it is not negative when the
    dividend is not. *)
Lemma fmod_spec (a b : Q) :
  0 < b ->
  a == b * inject_Z (Js.trunc (a / b)) + Js.fmod a b
  /\ - b < Js.fmod a b < b
  /\ (0 <= a -> 0 <= Js.fmod a b).
Proof.
  intros Hb. unfold Js.fmod.
  assert (Ha : a == b * (a / b)) by (field; lra).
  pose proof (trunc_within_one (a / b)) as [H1 H2].
  set (k := inject_Z (Js.trunc (a / b))) in *.
  set (q := a / b) in *.
  split; [ring |].
  split; [split; nra |].
  intros Hpos.
  assert (Hq : 0 <= q).
  { unfold q. apply Qle_shift_div_l; lra. }
  destruct (trunc_nonneg _ Hq) as [H3 H4]. fold k in H3, H4. nra.
Qed.

(** [lra] does not read [x / 2]. *)
Ltac halves := unfold Qdiv in *; change (/ 2) with (1 # 2) in *.

Lemma getInterval_pos (s : State) :
  0 < bpm s -> 0 < ticksPerBeat s -> 0 < Piano.getInterval s.
Proof.
  intros Hb Ht. unfold Piano.getInterval, Piano.beatsToSeconds.
  assert (H1 : 0 < 1 / ticksPerBeat s).
  { apply Qlt_shift_div_l; lra. }
  assert (H2 : 0 < 1 / ticksPerBeat s / bpm s).
  { apply Qlt_shift_div_l; lra. }
  lra.
Qed.

Lemma beatsToSeconds_nonneg (s : State) (beats : Q) :
  0 < bpm s -> 0 <= beats -> 0 <= Piano.beatsToSeconds s beats.
Proof.
  intros Hb Hx. unfold Piano.beatsToSeconds.
  assert (H : 0 <= beats / bpm s) by (apply Qle_shift_div_l; lra).
  lra.
Qed.

(** [roundToOffset] in terms of the tick interval. *)
Lemma roundToOffset_unfold (s : State) (t : Q) :
  Piano.roundToOffset s t
  = t - Js.fmod (t + Piano.getInterval s / 2) (Piano.getInterval s)
    + Piano.getInterval s.
Proof. reflexivity. Qed.

(** [roundToOffset] always moves forward, and lands half a tick after a
    multiple of the tick interval. *)
Lemma roundToOffset_gt (s : State) (t : Q) :
  0 < bpm s -> 0 < ticksPerBeat s -> t < Piano.roundToOffset s t.
Proof.
  intros Hb Ht. rewrite roundToOffset_unfold.
  pose proof (getInterval_pos s Hb Ht) as Hi.
  destruct (fmod_spec (t + Piano.getInterval s / 2) _ Hi) as (_ & [_ H] & _).
  lra.
Qed.

Lemma roundToOffset_congruent (s : State) (t : Q) :
  0 < bpm s -> 0 < ticksPerBeat s ->
  exists k : Z,
    Piano.roundToOffset s t - Piano.getInterval s / 2
    == inject_Z k * Piano.getInterval s.
Proof.
  intros Hb Ht. rewrite roundToOffset_unfold.
  pose proof (getInterval_pos s Hb Ht) as Hi.
  destruct (fmod_spec (t + Piano.getInterval s / 2) _ Hi) as (H & _ & _).
  exists (Js.trunc ((t + Piano.getInterval s / 2) / Piano.getInterval s)).
  rewrite (Qmult_comm (inject_Z _)).
  set (k := inject_Z _) in *. set (r := Js.fmod _ _) in *.
  set (i := Piano.getInterval s) in *.
  set (ik := i * k) in *. clearbody ik r. clear k. clearbody i.
  halves. lra.
Qed.

(** From half a tick before zero on, it moves forward by at most one
    tick. *)
Lemma roundToOffset_le (s : State) (t : Q) :
  0 < bpm s -> 0 < ticksPerBeat s ->
  - (Piano.getInterval s / 2) <= t ->
  Piano.roundToOffset s t <= t + Piano.getInterval s.
Proof.
  intros Hb Ht Hnn. rewrite roundToOffset_unfold.
  pose proof (getInterval_pos s Hb Ht) as Hi.
  destruct (fmod_spec (t + Piano.getInterval s / 2) _ Hi) as (_ & _ & H).
  assert (H0 : 0 <= t + Piano.getInterval s / 2) by (halves; lra).
  specialize (H H0). lra.
Qed.

(** C2 (the code departs from the claim below half a tick before zero).
    The claim: for every time [t] and every positive tick interval,
    [t < roundToOffset(t) <= t + tickInterval], and [roundToOffset(t) -
    tickInterval/2] is a multiple of the tick interval.  At 60 bpm with
    four ticks per beat the tick interval is 1/4 s, and at [t = -2] the
    code returns [-13/8]: half a tick after a multiple of the interval,
    but later than [t + tickInterval = -7/4]. *)
Theorem roundToOffset_negative_time_overshoots :
  Piano.getInterval quarter_second_ticks == 1 # 4
  /\ Piano.roundToOffset quarter_second_ticks (-2) == - (13 # 8)
  /\ ~ (Piano.roundToOffset quarter_second_ticks (-2)
        <= -2 + Piano.getInterval quarter_second_ticks).
Proof.
  split; [reflexivity | split; [reflexivity |]].
  intros H. vm_compute in H. apply H. reflexivity.
Qed.

(** ** The history queries *)

Section TakeWhile.
Context {A : Type}.
Implicit Types (keep : A -> bool) (xs ys : list A).

Lemma take_while_app_all keep xs ys :
  Forall (fun x => keep x = true) xs ->
  History.take_while keep (xs ++ ys) = xs ++ History.take_while keep ys.
Proof.
  induction 1 as [| x xs Hx _ IH]; [reflexivity |].
  cbn. rewrite Hx, IH. reflexivity.
Qed.

Lemma take_while_none keep xs :
  Forall (fun x => keep x = false) xs -> History.take_while keep xs = [].
Proof. destruct 1 as [| x xs Hx _]; [reflexivity |]. cbn. now rewrite Hx. Qed.

Lemma take_while_all keep xs :
  Forall (fun x => keep x = true) xs -> History.take_while keep xs = xs.
Proof.
  intros H. rewrite <- (app_nil_r xs) at 1.
  rewrite take_while_app_all by assumption. cbn. apply app_nil_r.
Qed.

Lemma filter_all keep xs :
  Forall (fun x => keep x = true) xs -> List.filter keep xs = xs.
Proof.
  induction 1 as [| x xs Hx _ IH]; [reflexivity |].
  cbn. now rewrite Hx, IH.
Qed.

Lemma filter_none keep xs :
  Forall (fun x => keep x = false) xs -> List.filter keep xs = [].
Proof.
  induction 1 as [| x xs Hx _ IH]; [reflexivity |].
  cbn. now rewrite Hx, IH.
Qed.

(** A list cut in two, the first part before the bound and the second
    part not: the two queries return the two parts. *)
Lemma queries_on_cut {T : Type} (before not_before : A -> T -> bool)
      (bound : T) xs ys :
  Forall (fun x => before x bound = true /\ not_before x bound = false) xs ->
  Forall (fun x => before x bound = false /\ not_before x bound = true) ys ->
  History.removeHistory before (xs ++ ys) bound = xs
  /\ History.getRecentHistory not_before (xs ++ ys) bound = ys
  /\ List.filter (fun x => before x bound) (xs ++ ys) = xs
  /\ List.filter (fun x => not_before x bound) (xs ++ ys) = ys.
Proof.
  intros Hxs Hys.
  assert (Hxb : Forall (fun x => before x bound = true) xs)
    by (eapply List.Forall_impl; [| exact Hxs]; cbn; tauto).
  assert (Hxn : Forall (fun x => not_before x bound = false) xs)
    by (eapply List.Forall_impl; [| exact Hxs]; cbn; tauto).
  assert (Hyb : Forall (fun x => before x bound = false) ys)
    by (eapply List.Forall_impl; [| exact Hys]; cbn; tauto).
  assert (Hyn : Forall (fun x => not_before x bound = true) ys)
    by (eapply List.Forall_impl; [| exact Hys]; cbn; tauto).
  unfold History.removeHistory, History.getRecentHistory.
  repeat split.
  - rewrite take_while_app_all by assumption.
    rewrite take_while_none by assumption. apply app_nil_r.
  - rewrite rev_app_distr.
    rewrite take_while_app_all by (apply List.Forall_rev; assumption).
    rewrite take_while_none by (apply List.Forall_rev; assumption).
    rewrite app_nil_r. apply rev_involutive.
  - rewrite List.filter_app, filter_all, filter_none by assumption.
    apply app_nil_r.
  - rewrite List.filter_app, filter_none, filter_all by assumption.
    reflexivity.
Qed.
End TakeWhile.

Section EarlyGetRecentHistory.
Context {TransportTime Key : Type} (toTicks : TransportTime -> Z).
Implicit Types (history : list (EarlyPiano.Played TransportTime Key))
         (start : TransportTime).

(** The loop stops at the first entry that is earlier than [start]. *)
Lemma scan_take_while history start :
  EarlyPiano.scan toTicks history start
  = History.take_while (fun h => EarlyPiano.not_before toTicks h start)
                       history.
Proof.
  induction history as [| h rest IH]; [reflexivity |].
  cbn. rewrite IH. reflexivity.
Qed.

Lemma getRecentHistory_rev history start :
  EarlyPiano.getRecentHistory toTicks history start
  = rev (History.getRecentHistory (EarlyPiano.not_before toTicks)
                                  history start).
Proof.
  unfold EarlyPiano.getRecentHistory, History.getRecentHistory.
  rewrite scan_take_while. symmetry. apply rev_involutive.
Qed.

(** A sorted history is cut in two by any bound. *)
Lemma sorted_cut history start :
  EarlyPiano.sorted toTicks history ->
  exists xs ys,
    history = xs ++ ys
    /\ Forall (fun h => EarlyPiano.before toTicks h start = true
                        /\ EarlyPiano.not_before toTicks h start = false) xs
    /\ Forall (fun h => EarlyPiano.before toTicks h start = false
                        /\ EarlyPiano.not_before toTicks h start = true) ys.
Proof.
  unfold EarlyPiano.sorted, EarlyPiano.before, EarlyPiano.not_before.
  induction 1 as [| h rest Hrest IH Hh].
  - exists [], []. repeat split; constructor.
  - destruct (Z.ltb_spec (toTicks (EarlyPiano.position h)) (toTicks start))
      as [Hlt | Hge].
    + destruct IH as (xs & ys & -> & Hxs & Hys).
      exists (h :: xs), ys. repeat split; try assumption.
      constructor; [| assumption].
      split; [apply Z.ltb_lt | apply Z.leb_gt]; assumption.
    + exists [], (h :: rest). repeat split; [constructor |].
      constructor.
      * split; [apply Z.ltb_ge | apply Z.leb_le]; assumption.
      * eapply List.Forall_impl; [| exact Hh]. cbn. intros a Ha.
        split; [apply Z.ltb_ge | apply Z.leb_le]; lia.
Qed.
End EarlyGetRecentHistory.

Example getRecentHistory_two_played :
  EarlyPiano.getRecentHistory (fun t : Z => t) two_played 0%Z
  = [EarlyPiano.mkPlayed 42%nat 192%Z; EarlyPiano.mkPlayed 40%nat 0%Z].
Proof. reflexivity. Qed.

Section EngineQueries.
Variables (σ : Store) (start : Q).

Lemma time_lt_true (r : NoteRef) :
  time_lt σ r start = true <-> exists t, timeOf σ r = Some t /\ (t < start)%Q.
Proof.
  unfold time_lt. destruct (timeOf σ r) as [t |].
  - unfold Js.ltb. rewrite negb_true_iff. split.
    + intros H. exists t. split; [reflexivity |].
      apply Qnot_le_lt. rewrite <- Qle_bool_iff. congruence.
    + intros (t' & [= <-] & H). apply not_true_is_false.
      rewrite Qle_bool_iff. lra.
  - split; [discriminate | intros (t & E & _); discriminate E].
Qed.

Lemma time_ge_true (r : NoteRef) :
  time_ge σ r start = true <-> exists t, timeOf σ r = Some t /\ (start <= t)%Q.
Proof.
  unfold time_ge. destruct (timeOf σ r) as [t |].
  - unfold Js.geb. rewrite Qle_bool_iff. split.
    + intros H. exists t. split; [reflexivity | exact H].
    + intros (t' & [= <-] & H). exact H.
  - split; [discriminate | intros (t & E & _); discriminate E].
Qed.

(** On a note of the store exactly one of [time < start] and
    [time >= start] holds. *)
Lemma time_lt_ge (r : NoteRef) :
  (r < length σ)%nat -> time_lt σ r start = negb (time_ge σ r start).
Proof.
  intros Hr. apply lookup_lt_is_Some_2 in Hr as [n Hn].
  unfold time_lt, time_ge, timeOf. rewrite Hn. reflexivity.
Qed.

(** A history in order of time is cut in two by any bound. *)
Lemma sorted_by_time_cut (notes : list NoteRef) :
  sorted_by_time σ notes ->
  exists xs ys,
    notes = xs ++ ys
    /\ Forall (fun r => time_lt σ r start = true
                        /\ time_ge σ r start = false) xs
    /\ Forall (fun r => time_lt σ r start = false
                        /\ time_ge σ r start = true) ys.
Proof.
  intros [Halloc Hsorted].
  induction Hsorted as [| r rest Hrest IH Hr].
  - exists [], []. repeat split; constructor.
  - inversion Halloc as [| ? ? Hlen Hrest_alloc]; subst.
    destruct (time_ge σ r start) eqn:Hge.
    + exists [], (r :: rest). split; [reflexivity |].
      split; [constructor |].
      apply time_ge_true in Hge as (t & Ht & Hle).
      rewrite List.Forall_forall in Hr, Hrest_alloc.
      apply List.Forall_forall. intros r' [<- | Hin].
      * rewrite time_lt_ge by exact Hlen.
        assert (E : time_ge σ r start = true)
          by (apply time_ge_true; eauto).
        rewrite E. split; reflexivity.
      * pose proof (Hrest_alloc r' Hin) as Hlen'.
        rewrite time_lt_ge by exact Hlen'.
        apply lookup_lt_is_Some_2 in Hlen' as [n' Hn'].
        assert (Ht' : timeOf σ r' = Some (Note.time n'))
          by (unfold timeOf; rewrite Hn'; reflexivity).
        assert (E : time_ge σ r' start = true).
        { apply time_ge_true. exists (Note.time n'). split; [exact Ht' |].
          pose proof (Hr r' Hin t (Note.time n') Ht Ht'). lra. }
        rewrite E. split; reflexivity.
    + destruct (IH Hrest_alloc) as (xs & ys & -> & Hxs & Hys).
      exists (r :: xs), ys. split; [reflexivity |].
      split; [| exact Hys]. constructor; [| exact Hxs].
      rewrite time_lt_ge by exact Hlen. rewrite Hge. split; reflexivity.
Qed.
End EngineQueries.

(** C6.  For every History whose notes are in non-decreasing order of
    time and every [start]: [getRecentHistory] returns exactly the notes
    with [time >= start], a suffix of the input in its original order;
    [removeHistory] with the same bound returns exactly the notes with
    [time < start], the prefix before that suffix; the prefix followed
    by the suffix is the input, and no note is in both.  Both are
    functions of the sequence they are given: [rewind] reads
    [noteHistory] again at line 952 after the call of line 951. *)
Theorem recent_and_removed_partition
        (σ : Store) (notes : list NoteRef) (start : Q) :
  sorted_by_time σ notes ->
  let recent := History.getRecentHistory (time_ge σ) notes start in
  let removed := History.removeHistory (time_lt σ) notes start in
  removed ++ recent = notes
  /\ Forall (fun r => exists t, timeOf σ r = Some t /\ (start <= t)%Q) recent
  /\ Forall (fun r => exists t, timeOf σ r = Some t /\ (t < start)%Q) removed
  /\ recent = List.filter (fun r => time_ge σ r start) notes
  /\ removed = List.filter (fun r => time_lt σ r start) notes
  /\ (forall r, In r removed -> In r recent -> False).
Proof.
  intros Hsorted recent removed. subst recent removed.
  destruct (sorted_by_time_cut σ start notes Hsorted)
    as (xs & ys & -> & Hxs & Hys).
  destruct (queries_on_cut (time_lt σ) (time_ge σ) start xs ys Hxs Hys)
    as (-> & -> & -> & ->).
  split; [reflexivity |].
  split; [| split; [| repeat split]].
  - eapply List.Forall_impl; [| exact Hys].
    intros r [_ H]. apply time_ge_true, H.
  - eapply List.Forall_impl; [| exact Hxs].
    intros r [H _]. apply time_lt_true, H.
  - intros r Hx Hy. rewrite List.Forall_forall in Hxs, Hys.
    destruct (Hxs r Hx) as [H1 _]. destruct (Hys r Hy) as [H2 _].
    congruence.
Qed.

Lemma recent_and_removed_partition_witness :
  sorted_by_time (store model_note_sounding) [0%nat; 1%nat]
  /\ History.getRecentHistory (time_ge (store model_note_sounding))
                              [0%nat; 1%nat] 1
     = [1%nat]
  /\ History.removeHistory (time_lt (store model_note_sounding))
                           [0%nat; 1%nat] 1
     = [0%nat].
Proof.
  assert (H0 : timeOf (store model_note_sounding) 0%nat = Some (1 # 2)%Q)
    by (vm_compute; reflexivity).
  assert (H1 : timeOf (store model_note_sounding) 1%nat = Some 3%Q)
    by (vm_compute; reflexivity).
  assert (Hlen : length (store model_note_sounding) = 3%nat)
    by (vm_compute; reflexivity).
  assert (H : sorted_by_time (store model_note_sounding) [0%nat; 1%nat]).
  { split.
    - unfold allocated. rewrite Hlen. repeat constructor.
    - constructor; [constructor; [constructor | constructor] |].
      constructor; [| constructor].
      intros ta tb Ha Hb. rewrite H0 in Ha. rewrite H1 in Hb.
      injection Ha as <-. injection Hb as <-. vm_compute. discriminate. }
  split; [exact H |].
  destruct (recent_and_removed_partition (store model_note_sounding)
              [0%nat; 1%nat] 1 H) as (_ & _ & _ & Hrecent & Hremoved & _).
  split.
  - rewrite Hrecent. vm_compute. reflexivity.
  - rewrite Hremoved. vm_compute. reflexivity.
Defined.

(** ** The active-note tracker *)

Lemma gtb_true (a b : Q) : Js.gtb a b = true <-> b < a.
Proof.
  unfold Js.gtb. rewrite negb_true_iff.
  split; intros H.
  - apply Qnot_le_lt. rewrite <- Qle_bool_iff. congruence.
  - apply not_true_is_false. rewrite Qle_bool_iff. lra.
Qed.

Lemma gtb_false (a b : Q) : Js.gtb a b = false <-> a <= b.
Proof.
  unfold Js.gtb. rewrite negb_false_iff. apply Qle_bool_iff.
Qed.

Lemma has_key_allocated (σ : Store) (k : option PianoKey.t) (r : NoteRef) :
  Piano.has_key σ k r = true ->
  exists n, σ !! r = Some n /\ Note.key n = k.
Proof.
  unfold Piano.has_key. destruct (σ !! r) as [n |]; [| discriminate].
  intros H. apply bool_decide_eq_true in H. eauto.
Qed.

(** C7. For an active note with recorded duration [d], released at
    [triggerTime] with [finalDuration = triggerTime - note.time]: the note
    leaves the active set either way, and no other note of the store is
    touched; if [|d - finalDuration| <= 0.001] no command is sent and the
    note in the store still has duration [d]; if
    [|d - finalDuration| > 0.001] a release command is sent to the
    sampler and the note in the store has duration [finalDuration], its
    other fields as before.  The current History is the same list of
    addresses as before, so its entry for the note is the note
    overwritten in place. *)
Theorem releaseNote_epsilon_rule
        (s : State) (k : PianoKey.t) (triggerTime : Q)
        (activeNote : NoteRef) (n : Note.t) :
  List.find (Piano.has_key (store s) (Some k)) (activeNotes s)
  = Some activeNote ->
  store s !! activeNote = Some n ->
  let finalDuration := triggerTime - Note.time n in
  exists s',
    Piano.releaseNote (Some k) triggerTime s = Returns tt s'
    /\ activeNotes s' = Js.remove_first activeNote (activeNotes s)
    /\ currHistory s' = currHistory s
    /\ length (store s') = length (store s)
    /\ (forall r, r <> activeNote -> store s' !! r = store s !! r)
    /\ (Qabs (Note.duration n - finalDuration) <= 1 # 1000 ->
        trace s' = trace s /\ store s' = store s
        /\ Note.duration <$> store s' !! activeNote
           = Some (Note.duration n))
    /\ (1 # 1000 < Qabs (Note.duration n - finalDuration) ->
        trace s'
        = trace s ++ [TriggerRelease k (toneNow (clocks s) + (1 # 10));
                      CanvasReleaseNote (PianoKey.keyNum k) finalDuration]
        /\ store s' !! activeNote
           = Some (Note.mk (Note.key n) (Note.velocity n) finalDuration
                           (Note.time n) (Note.actor n) (Note.scheduleId n)
                           (Note.isRewind n))
        /\ Note.duration <$> store s' !! activeNote = Some finalDuration).
Proof.
  intros Hfind Hn finalDuration.
  unfold Piano.releaseNote. monad. rewrite Hfind. monad.
  fields. rewrite Hn. monad.
  fold finalDuration. unfold Js.abs.
  destruct (Js.gtb (Qabs (Note.duration n - finalDuration)) (1 # 1000))
    eqn:Hcmp.
  - apply gtb_true in Hcmp. monad. fields.
    eexists. split; [reflexivity |]. fields.
    split; [reflexivity |]. split; [reflexivity |].
    split; [apply length_alter |].
    split; [intros r Hr; apply list_lookup_alter_ne; congruence |].
    split; [intros; lra |]. intros _.
    split; [rewrite <- app_assoc; reflexivity |].
    rewrite list_lookup_alter_eq, Hn. split; reflexivity.
  - apply gtb_false in Hcmp. monad.
    eexists. split; [reflexivity |]. fields.
    repeat (split; [reflexivity |]).
    split; [intros _; rewrite Hn; repeat split |]. intros; lra.
Qed.

Example model_note_sounding_active :
  activeNotes model_note_sounding = [1%nat]
  /\ (History.noteHistory <$> currHistory model_note_sounding)
     = Some [0%nat; 1%nat].
Proof. split; reflexivity. Qed.

Lemma releaseNote_epsilon_rule_witness :
  List.find (Piano.has_key (store model_note_sounding)
                           (Some (PianoKey.new 20 53)))
            (activeNotes model_note_sounding) = Some 1%nat
  /\ Note.duration <$> store model_note_sounding !! 1%nat = Some (1 # 2)
  /\ Note.time <$> store model_note_sounding !! 1%nat = Some 3
  /\ (exists s',
        Piano.releaseNote (Some (PianoKey.new 20 53)) (7001 # 2000)
                          model_note_sounding = Returns tt s'
        /\ activeNotes s' = []
        /\ trace s' = trace model_note_sounding
        /\ Note.duration <$> store s' !! 1%nat = Some (1 # 2))
  /\ (exists s',
        Piano.releaseNote (Some (PianoKey.new 20 53)) 4
                          model_note_sounding = Returns tt s'
        /\ activeNotes s' = []
        /\ trace s'
           = trace model_note_sounding
             ++ [TriggerRelease (PianoKey.new 20 53)
                   (toneNow (clocks model_note_sounding) + (1 # 10));
                 CanvasReleaseNote 20 1]
        /\ Note.duration <$> store s' !! 1%nat = Some 1).
Proof.
  assert (Hfind :
    List.find (Piano.has_key (store model_note_sounding)
                             (Some (PianoKey.new 20 53)))
              (activeNotes model_note_sounding) = Some 1%nat)
    by (vm_compute; reflexivity).
  assert (Hn :
    store model_note_sounding !! 1%nat
    = Some (Note.mk (Some (PianoKey.new 20 53)) (1 # 2) (1 # 2) 3 Model
                    (Some 0%nat) false))
    by (vm_compute; reflexivity).
  split; [exact Hfind |].
  split; [rewrite Hn; reflexivity |]. split; [rewrite Hn; reflexivity |].
  split.
  - destruct (releaseNote_epsilon_rule model_note_sounding
                (PianoKey.new 20 53) (7001 # 2000) 1%nat _ Hfind Hn)
      as (s' & Hr & Ha & _ & _ & _ & Hle & _).
    exists s'. split; [exact Hr |]. split; [rewrite Ha; reflexivity |].
    destruct Hle as (Ht & _ & Hd); [vm_compute; discriminate |].
    split; [exact Ht | exact Hd].
  - destruct (releaseNote_epsilon_rule model_note_sounding
                (PianoKey.new 20 53) 4 1%nat _ Hfind Hn)
      as (s' & Hr & Ha & _ & _ & _ & _ & Hgt).
    exists s'. split; [exact Hr |]. split; [rewrite Ha; reflexivity |].
    destruct Hgt as (Ht & _ & Hd); [vm_compute; reflexivity |].
    split; [exact Ht | exact Hd].
Defined.

(** ** Reasoning about methods *)

Section Respects.
Context (R : State -> State -> Prop) `{!Reflexive R} `{!Transitive R}.

Lemma respects_ret {A} (a : A) : respects R (ret a).
Proof. intros s. cbn. reflexivity. Qed.

Lemma respects_throw {A} (e : Js.Error) : respects R (@throw A e).
Proof. intros s. cbn. reflexivity. Qed.

Lemma respects_outside {A} : respects R (@outside A).
Proof. intros s. exact I. Qed.

Lemma respects_get {A} (f : State -> A) : respects R (get f).
Proof. intros s. cbn. reflexivity. Qed.

Lemma respects_modify (f : State -> State) :
  (forall s, R s (f s)) -> respects R (modify f).
Proof. intros H s. cbn. apply H. Qed.

Lemma respects_bind {A B} (m : M A) (k : A -> M B) :
  respects R m -> (forall a, respects R (k a)) -> respects R (bind m k).
Proof.
  intros Hm Hk s. unfold bind. specialize (Hm s).
  destruct (m s) as [a s1 | e s1 |]; [| exact Hm | exact I].
  specialize (Hk a s1).
  destruct (k a s1) as [b s2 | e s2 |]; [| | exact I];
    etransitivity; eassumption.
Qed.

Lemma respects_when (b : bool) (m : M unit) :
  respects R m -> respects R (when b m).
Proof. intros H. destruct b; [exact H | apply respects_ret]. Qed.

Lemma respects_for_each {A} (xs : list A) (body : A -> M unit) :
  (forall x, respects R (body x)) -> respects R (for_each xs body).
Proof.
  intros H. induction xs as [| x xs IH]; cbn [for_each].
  - apply respects_ret.
  - apply respects_bind; [apply H | intros _; exact IH].
Qed.
End Respects.

Lemma respects_weaken {A} (R R' : State -> State -> Prop) (m : M A) :
  (forall s s', R s s' -> R' s s') -> respects R m -> respects R' m.
Proof.
  intros H Hm s. specialize (Hm s).
  destruct (m s); [apply H, Hm | apply H, Hm | exact I].
Qed.

(** Splits a method into its calls. *)
Ltac respects_step :=
  lazymatch goal with
  | |- respects _ (bind _ _) =>
      apply respects_bind; try exact _; [| intros ?]
  | |- respects _ (ret _) => apply respects_ret; exact _
  | |- respects _ (throw _) => apply respects_throw; exact _
  | |- respects _ outside => apply respects_outside
  | |- respects _ (get _) => apply respects_get; exact _
  | |- respects _ (when _ _) => apply respects_when; try exact _
  | |- respects _ (for_each _ _) =>
      apply respects_for_each; try exact _; intros ?
  | |- respects _ (match ?x with _ => _ end) => destruct x
  | |- respects _ (if ?x then _ else _) => destruct x
  | |- respects _ (let _ := _ in _) => cbv zeta
  end.

(** *** The store only grows *)

Lemma same_identity_refl (n : Note.t) : same_identity n n.
Proof. repeat split. Qed.

Lemma same_identity_trans (a b c : Note.t) :
  same_identity a b -> same_identity b c -> same_identity a c.
Proof.
  unfold same_identity. intros (? & ? & ? & ? & ?) (? & ? & ? & ? & ?).
  repeat split; congruence.
Qed.

#[global] Instance store_extends_refl : Reflexive store_extends.
Proof. intros σ r n H. exists n. split; [exact H | apply same_identity_refl]. Qed.

#[global] Instance store_extends_trans : Transitive store_extends.
Proof.
  intros a b c Hab Hbc r n H.
  destruct (Hab r n H) as (n1 & H1 & I1).
  destruct (Hbc r n1 H1) as (n2 & H2 & I2).
  exists n2. split; [exact H2 | eapply same_identity_trans; eassumption].
Qed.

Lemma store_extends_alter (σ : Store) (f : Note.t -> Note.t) (r : NoteRef) :
  (forall n, same_identity n (f n)) -> store_extends σ (alter f r σ).
Proof.
  intros Hf r' n H. destruct (decide (r = r')) as [<- | Hne].
  - exists (f n). rewrite list_lookup_alter_eq, H. split; [reflexivity | apply Hf].
  - exists n. rewrite list_lookup_alter_ne by assumption.
    split; [exact H | apply same_identity_refl].
Qed.

Lemma store_extends_app (σ : Store) (ns : list Note.t) :
  store_extends σ (σ ++ ns).
Proof.
  intros r n H. exists n. split; [| apply same_identity_refl].
  apply lookup_app_l_Some. exact H.
Qed.

Lemma store_extends_length (σ σ' : Store) (r : NoteRef) :
  store_extends σ σ' -> (r < length σ)%nat -> (r < length σ')%nat.
Proof.
  intros H Hr. apply lookup_lt_is_Some_2 in Hr as [n Hn].
  destruct (H r n Hn) as (n' & Hn' & _).
  eapply lookup_lt_Some. exact Hn'.
Qed.

Lemma store_extends_has_key (σ σ' : Store) (k : option PianoKey.t) (r : NoteRef) :
  store_extends σ σ' -> (r < length σ)%nat ->
  Piano.has_key σ' k r = Piano.has_key σ k r.
Proof.
  intros H Hr. apply lookup_lt_is_Some_2 in Hr as [n Hn].
  destruct (H r n Hn) as (n' & Hn' & Hk & _).
  unfold Piano.has_key. rewrite Hn, Hn', Hk. reflexivity.
Qed.

Lemma store_extends_timeOf (σ σ' : Store) (r : NoteRef) (t : Q) :
  store_extends σ σ' -> timeOf σ r = Some t -> timeOf σ' r = Some t.
Proof.
  unfold timeOf. intros H Ht.
  destruct (σ !! r) as [n |] eqn:Hn; [| discriminate].
  destruct (H r n Hn) as (n' & -> & _ & _ & Htime & _).
  cbn in *. congruence.
Qed.

Lemma filter_ext_allocated (σ σ' : Store) (k : option PianoKey.t)
      (notes : list NoteRef) :
  store_extends σ σ' -> allocated σ notes ->
  List.filter (Piano.has_key σ' k) notes = List.filter (Piano.has_key σ k) notes.
Proof.
  intros H. induction 1 as [| r rs Hr _ IH]; [reflexivity |].
  cbn. rewrite IH, (store_extends_has_key σ σ' k r H Hr). reflexivity.
Qed.

(** *** The frame of the active-note tracker *)

#[global] Instance tracker_frame_refl : Reflexive tracker_frame.
Proof. intros s. split; reflexivity. Qed.

#[global] Instance tracker_frame_trans : Transitive tracker_frame.
Proof.
  intros a b c [H1 H2] [H3 H4]. split; [congruence |].
  etransitivity; eassumption.
Qed.

#[global] Instance keeps_refl (I : State -> Prop) : Reflexive (keeps I).
Proof. intros s H. exact H. Qed.

#[global] Instance keeps_trans (I : State -> Prop) : Transitive (keeps I).
Proof. intros a b c H1 H2 H. apply H2, H1, H. Qed.

Lemma tracker_frame_keeps (s s' : State) :
  tracker_frame s s' -> keeps tracker_inv s s'.
Proof.
  intros [Ha Hs] [Hone Halloc]. split.
  - intros k. rewrite Ha.
    rewrite (filter_ext_allocated _ _ k _ Hs Halloc). apply Hone.
  - unfold allocated in *. rewrite Ha.
    eapply List.Forall_impl; [| exact Halloc].
    intros r Hr. eapply store_extends_length; eassumption.
Qed.

Create HintDb frame discriminated.

(** A field update that leaves the active set and the store alone. *)
Ltac frame_modify :=
  apply respects_modify; intros ?; split; fields; reflexivity.

Ltac frame_auto :=
  repeat first
    [ solve [auto with frame nocore]
    | frame_modify
    | respects_step ].

Lemma frame_emit (c : Command) : respects tracker_frame (emit c).
Proof. unfold emit. frame_modify. Qed.

Lemma frame_deref (r : NoteRef) : respects tracker_frame (deref r).
Proof. intros s. unfold deref. destruct (store s !! r); [reflexivity | exact I]. Qed.

Lemma frame_update_duration (r : NoteRef) (d : Q) :
  respects tracker_frame (update_note r (Note.set_duration d)).
Proof.
  unfold update_note. apply respects_modify. intros s. split; fields.
  - reflexivity.
  - apply store_extends_alter. intros n. repeat split.
Qed.

Lemma frame_update_scheduleId (r : NoteRef) (id : option nat) :
  respects tracker_frame (update_note r (Note.set_scheduleId id)).
Proof.
  unfold update_note. apply respects_modify. intros s. split; fields.
  - reflexivity.
  - apply store_extends_alter. intros n. repeat split.
Qed.

Lemma frame_newNote key velocity duration time actor scheduleId isRewind :
  respects tracker_frame
    (newNote key velocity duration time actor scheduleId isRewind).
Proof. intros s. unfold newNote. split; fields; [reflexivity |]. apply store_extends_app. Qed.

Lemma frame_transportScheduleOnce (cb : Callback) (time : Q) :
  respects tracker_frame (transportScheduleOnce cb time).
Proof. intros s. unfold transportScheduleOnce. split; fields; reflexivity. Qed.

Lemma frame_transportClear (id : option nat) :
  respects tracker_frame (transportClear id).
Proof. unfold transportClear. frame_modify. Qed.

Lemma frame_transportCancel : respects tracker_frame transportCancel.
Proof. unfold transportCancel. frame_modify. Qed.

Lemma frame_setTimer (repeats : bool) (task : TimerTask) (delay : Q) :
  respects tracker_frame (setTimer repeats task delay).
Proof. intros s. unfold setTimer. split; fields; reflexivity. Qed.

Lemma frame_clearTimer (id : option nat) : respects tracker_frame (clearTimer id).
Proof. unfold clearTimer. frame_modify. Qed.

Lemma frame_keyName_of (k : option PianoKey.t) :
  respects tracker_frame (keyName_of k).
Proof. unfold keyName_of. frame_auto. Qed.

#[global] Hint Resolve frame_emit frame_deref frame_update_duration
  frame_update_scheduleId frame_newNote frame_transportScheduleOnce
  frame_transportClear frame_transportCancel frame_setTimer frame_clearTimer
  frame_keyName_of : frame.

Lemma frame_scheduleNote (note : NoteRef) :
  respects tracker_frame (Piano.scheduleNote note).
Proof. unfold Piano.scheduleNote. frame_auto. Qed.
#[global] Hint Resolve frame_scheduleNote : frame.

Lemma frame_currHistory_add (note : NoteRef) :
  respects tracker_frame (Piano.currHistory_add note).
Proof. unfold Piano.currHistory_add. frame_auto. Qed.
#[global] Hint Resolve frame_currHistory_add : frame.

Lemma frame_callModel_call (b : bool) :
  respects tracker_frame (Piano.callModel_call b).
Proof. unfold Piano.callModel_call. frame_auto. Qed.
#[global] Hint Resolve frame_callModel_call : frame.

Lemma frame_callModel_resume (c : ModelCall) (generated : list Generated) :
  respects tracker_frame (Piano.callModel_resume c generated).
Proof. unfold Piano.callModel_resume, Piano.applyGenerated. frame_auto. Qed.
#[global] Hint Resolve frame_callModel_resume : frame.

Lemma frame_stopModel : respects tracker_frame Piano.stopModel.
Proof. unfold Piano.stopModel, Piano.clearScheduled. frame_auto. Qed.
#[global] Hint Resolve frame_stopModel : frame.

Lemma frame_addToHistoryList (h : option History.t) :
  respects tracker_frame (Piano.addToHistoryList h).
Proof. unfold Piano.addToHistoryList. frame_auto. Qed.
#[global] Hint Resolve frame_addToHistoryList : frame.

Lemma frame_startModel (glowDelayMs : Q) :
  respects tracker_frame (Piano.startModel glowDelayMs).
Proof. unfold Piano.startModel, setInterval. frame_auto. Qed.
#[global] Hint Resolve frame_startModel : frame.

Lemma frame_scheduleStartModel (t : Q) :
  respects tracker_frame (Piano.scheduleStartModel t).
Proof. unfold Piano.scheduleStartModel. frame_auto. Qed.
#[global] Hint Resolve frame_scheduleStartModel : frame.

Lemma frame_seedInputListener : respects tracker_frame Piano.seedInputListener.
Proof. unfold Piano.seedInputListener, setInterval. frame_auto. Qed.
#[global] Hint Resolve frame_seedInputListener : frame.

Lemma frame_seedInputAwaiter detectBpm :
  respects tracker_frame (Piano.seedInputAwaiter detectBpm).
Proof. unfold Piano.seedInputAwaiter. frame_auto. Qed.
#[global] Hint Resolve frame_seedInputAwaiter : frame.

Lemma frame_startTone : respects tracker_frame Piano.startTone.
Proof. unfold Piano.startTone. frame_auto. Qed.

Lemma frame_setBPM (b : Q) : respects tracker_frame (Piano.setBPM b).
Proof. unfold Piano.setBPM. frame_auto. Qed.
#[global] Hint Resolve frame_startTone frame_setBPM : frame.

(** *** Removing the first occurrence *)

Lemma remove_first_filter_true (p : nat -> bool) (r : nat) (l : list nat) :
  p r = true ->
  List.filter p (Js.remove_first r l) = Js.remove_first r (List.filter p l).
Proof.
  intros Hr. induction l as [| x l IH]; [reflexivity |].
  cbn. destruct (Nat.eqb_spec x r) as [-> | Hne].
  - rewrite Hr. cbn. now rewrite Nat.eqb_refl.
  - cbn. destruct (p x); [| exact IH].
    cbn. apply Nat.eqb_neq in Hne. rewrite Hne, IH. reflexivity.
Qed.

Lemma remove_first_filter_false (p : nat -> bool) (r : nat) (l : list nat) :
  p r = false -> List.filter p (Js.remove_first r l) = List.filter p l.
Proof.
  intros Hr. induction l as [| x l IH]; [reflexivity |].
  cbn. destruct (Nat.eqb_spec x r) as [-> | Hne].
  - now rewrite Hr.
  - cbn. now rewrite IH.
Qed.

Lemma remove_first_Forall (P : nat -> Prop) (r : nat) (l : list nat) :
  Forall P l -> Forall P (Js.remove_first r l).
Proof.
  induction 1 as [| x l Hx Hl IH]; [constructor |].
  cbn. destruct (x =? r)%nat; [exact Hl | constructor; assumption].
Qed.

Lemma find_filter_head {A : Type} (p : A -> bool) (l : list A) (r : A) :
  List.find p l = Some r ->
  p r = true /\ exists rest, List.filter p l = r :: rest.
Proof.
  induction l as [| x l IH]; [discriminate |].
  cbn. destruct (p x) eqn:Hx.
  - intros [= <-]. split; [exact Hx | eauto].
  - exact IH.
Qed.

Lemma find_none_filter {A : Type} (p : A -> bool) (l : list A) :
  List.find p l = None -> List.filter p l = [].
Proof.
  induction l as [| x l IH]; [reflexivity |].
  cbn. destruct (p x); [discriminate | exact IH].
Qed.

(** *** Releasing and playing keep the invariant *)

Lemma has_key_unique (σ : Store) (k k' : option PianoKey.t) (r : NoteRef) :
  Piano.has_key σ k r = true -> k' <> k -> Piano.has_key σ k' r = false.
Proof.
  unfold Piano.has_key. destruct (σ !! r) as [n |]; [| discriminate].
  intros H Hne. apply bool_decide_eq_true in H.
  apply bool_decide_eq_false. congruence.
Qed.

(** Taking the first active note of a key out of the active set. *)
Lemma remove_active_inv (s : State) (k : option PianoKey.t) (r : NoteRef) :
  tracker_inv s ->
  List.find (Piano.has_key (store s) k) (activeNotes s) = Some r ->
  let s' := set_activeNotes (Js.remove_first r (activeNotes s)) s in
  tracker_inv s'
  /\ List.filter (Piano.has_key (store s') k) (activeNotes s') = [].
Proof.
  intros [Hone Halloc] Hfind s'. subst s'. fields.
  destruct (find_filter_head _ _ _ Hfind) as [Hr [rest Hrest]].
  assert (Hnil : rest = []).
  { specialize (Hone k). rewrite Hrest in Hone. cbn in Hone.
    destruct rest; [reflexivity | cbn in Hone; lia]. }
  subst rest.
  split; [split |].
  - intros k'. fields.
    destruct (decide (k' = k)) as [-> | Hne].
    + rewrite remove_first_filter_true, Hrest by assumption.
      cbn. rewrite Nat.eqb_refl. cbn. lia.
    + rewrite remove_first_filter_false
        by (eapply has_key_unique; eassumption).
      apply Hone.
  - unfold allocated in *. fields. apply remove_first_Forall. exact Halloc.
  - rewrite remove_first_filter_true, Hrest by assumption.
    cbn. now rewrite Nat.eqb_refl.
Qed.

Lemma released_frame (k : option PianoKey.t) (s1 s2 s3 : State) :
  released k s1 s2 -> tracker_frame s2 s3 -> released k s1 s3.
Proof.
  intros H12 [Ha Hs] HI. destruct (H12 HI) as (HI2 & Hnil & Hext).
  split; [| split].
  - apply (tracker_frame_keeps s2 s3); [split |]; assumption.
  - rewrite Ha. rewrite (filter_ext_allocated _ _ k _ Hs (proj2 HI2)).
    exact Hnil.
  - etransitivity; eassumption.
Qed.

Lemma releaseNote_released (k : option PianoKey.t) (t : Q) :
  forall s,
    match Piano.releaseNote k t s with
    | Returns _ s' => released k s s'
    | Throws _ s' => released k s s'
    | OutsideModel => True
    end.
Proof.
  intros s. unfold Piano.releaseNote. monad.
  destruct (List.find _ _) as [r |] eqn:Hfind; monad.
  - fields.
    set (s1 := set_activeNotes _ s).
    assert (H1 : released k s s1).
    { intros HI. destruct (remove_active_inv s k r HI Hfind) as [HI1 Hnil].
      split; [exact HI1 | split; [exact Hnil | reflexivity]]. }
    destruct (store s !! r) as [n |] eqn:Hn; [| exact I].
    destruct (Js.gtb _ _); [| exact H1].
    destruct k as [k |]; [| exact H1].
    eapply released_frame; [exact H1 |]. subst s1.
    split; fields; [reflexivity |].
    apply store_extends_alter. intros ?; repeat split.
  - intros HI. split; [exact HI | split; [| reflexivity]].
    apply find_none_filter. exact Hfind.
Qed.

Lemma keeps_releaseNote (k : option PianoKey.t) (t : Q) :
  respects (keeps tracker_inv) (Piano.releaseNote k t).
Proof.
  intros s. pose proof (releaseNote_released k t s) as H.
  destruct (Piano.releaseNote k t s); try exact I; intros HI; apply (H HI).
Qed.

Create HintDb keeps discriminated.

(** A method of the frame keeps the invariant. *)
Lemma frame_keeps_inv {A} (m : M A) :
  respects tracker_frame m -> respects (keeps tracker_inv) m.
Proof. apply respects_weaken. exact tracker_frame_keeps. Qed.

Lemma keeps_clear_active :
  respects (keeps tracker_inv) (modify (set_activeNotes [])).
Proof.
  apply respects_modify. intros s _. split.
  - intros k. fields. cbn. lia.
  - unfold allocated. fields. constructor.
Qed.

#[global] Hint Resolve keeps_releaseNote keeps_clear_active : keeps.

Ltac keeps_auto :=
  repeat first
    [ solve [auto with keeps nocore]
    | solve [apply frame_keeps_inv; auto with frame nocore]
    | solve [apply frame_keeps_inv; frame_modify]
    | respects_step ].

(** Registering a note whose key has no active note. *)
Lemma push_active_inv (s : State) (note : NoteRef) (n : Note.t) :
  tracker_inv s ->
  store s !! note = Some n ->
  List.filter (Piano.has_key (store s) (Note.key n)) (activeNotes s) = [] ->
  tracker_inv (set_activeNotes (activeNotes s ++ [note]) s).
Proof.
  intros [Hone Halloc] Hn Hnil. split.
  - intros k. fields. rewrite List.filter_app, length_app. cbn.
    destruct (Piano.has_key (store s) k note) eqn:Hk.
    + destruct (has_key_allocated _ _ _ Hk) as (n' & Hn' & <-).
      assert (n' = n) by congruence. subst n'.
      rewrite Hnil. cbn. lia.
    + specialize (Hone k). cbn. lia.
  - unfold allocated in *. fields. apply Forall_app. split; [exact Halloc |].
    constructor; [| constructor]. eapply lookup_lt_Some. exact Hn.
Qed.

Lemma registered_frame (note : NoteRef) (s s' : State) :
  tracker_inv s -> registered note s -> tracker_frame s s' ->
  registered note s'.
Proof.
  intros [_ Halloc] (n & Hn & Hone) [Ha Hs].
  destruct (Hs note n Hn) as (n' & Hn' & Hkey & _).
  exists n'. split; [exact Hn' |].
  rewrite Ha, Hkey, (filter_ext_allocated _ _ _ _ Hs Halloc). exact Hone.
Qed.

(** [playNote(note)] keeps the invariant, and when it returns [note] is
    the one active note of its key. *)
Lemma playNote_registers (note : NoteRef) (contextTime : Q) (s : State) :
  tracker_inv s ->
  match Piano.playNote note contextTime s with
  | Returns _ s' => tracker_inv s' /\ registered note s'
  | Throws _ s' => tracker_inv s'
  | OutsideModel => True
  end.
Proof.
  intros HI. unfold Piano.playNote.
  unfold bind at 1. unfold deref at 1.
  destruct (store s !! note) as [n |] eqn:Hn; [| exact I].
  unfold bind at 1.
  pose proof (releaseNote_released (Note.key n) (Note.time n) s) as Hrel.
  destruct (Piano.releaseNote (Note.key n) (Note.time n) s)
    as [[] s1 | e s1 |]; [| apply (Hrel HI) | exact I].
  unfold bind at 1. unfold deref at 1.
  destruct (store s1 !! note) as [n1 |] eqn:Hn1; [| exact I].
  unfold bind at 1. unfold keyName_of at 1.
  destruct (Note.key n1) as [k |] eqn:Hk1; [| apply (Hrel HI)].
  cbv beta iota delta [ret].
  (* the sampler command *)
  unfold bind at 1.
  set (attack := if Js.eqb _ _ then _ else _).
  assert (Hattack : respects tracker_frame attack)
    by (subst attack; frame_auto).
  specialize (Hattack s1).
  destruct (attack s1) as [[] s2 | e s2 |];
    [| destruct (Hrel HI) as (HI1 & _);
       apply (tracker_frame_keeps s1 s2 Hattack HI1) | exact I].
  destruct (released_frame _ _ _ _ Hrel Hattack HI) as (HI2 & Hnil & Hext).
  (* the note is registered *)
  unfold bind at 1. unfold modify at 1.
  set (s3 := set_activeNotes _ s2).
  destruct (Hext note n Hn) as (n2 & Hn2 & Hkey & _).
  assert (HI3 : tracker_inv s3).
  { subst s3. eapply push_active_inv; [exact HI2 | exact Hn2 |].
    rewrite Hkey. exact Hnil. }
  assert (Hreg : registered note s3).
  { exists n2. subst s3. fields. split; [exact Hn2 |].
    rewrite List.filter_app, Hkey, Hnil. cbn.
    unfold Piano.has_key. rewrite Hn2.
    rewrite bool_decide_eq_true_2 by congruence. reflexivity. }
  match goal with
  | |- match ?rest s3 with _ => _ end =>
      assert (Hrest : respects tracker_frame rest) by frame_auto;
      specialize (Hrest s3); destruct (rest s3)
  end; try exact I.
  - split; [apply (tracker_frame_keeps s3); assumption |].
    eapply registered_frame; eassumption.
  - apply (tracker_frame_keeps s3); assumption.
Qed.

Lemma keeps_playNote (note : NoteRef) (contextTime : Q) :
  respects (keeps tracker_inv) (Piano.playNote note contextTime).
Proof.
  intros s. pose proof (playNote_registers note contextTime s) as H.
  destruct (Piano.playNote note contextTime s); try exact I;
    intros HI; apply (H HI).
Qed.
#[global] Hint Resolve keeps_playNote : keeps.

Lemma keeps_releaseAllNotes : respects (keeps tracker_inv) Piano.releaseAllNotes.
Proof. unfold Piano.releaseAllNotes, Piano.releaseActive. keeps_auto. Qed.
#[global] Hint Resolve keeps_releaseAllNotes : keeps.

Lemma keeps_resetAll : respects (keeps tracker_inv) Piano.resetAll.
Proof. unfold Piano.resetAll. keeps_auto. Qed.
#[global] Hint Resolve keeps_resetAll : keeps.

Lemma keeps_checkActivity : respects (keeps tracker_inv) Piano.checkActivity.
Proof. unfold Piano.checkActivity. keeps_auto. Qed.

Lemma keeps_rewind : respects (keeps tracker_inv) Piano.rewind.
Proof.
  unfold Piano.rewind, Piano.commitQueued, Piano.replayNote,
    Piano.redrawNote, setTimeout.
  keeps_auto.
Qed.

Lemma keeps_keyPressed (keyNum : Z) :
  respects (keeps tracker_inv) (Piano.keyPressed keyNum).
Proof. unfold Piano.keyPressed. keeps_auto. Qed.
#[global] Hint Resolve keeps_checkActivity keeps_rewind keeps_keyPressed : keeps.

Lemma keeps_keyDown (repeat : bool) (key : string) :
  respects (keeps tracker_inv) (Piano.keyDown repeat key).
Proof. unfold Piano.keyDown. keeps_auto. Qed.

Lemma keeps_keyUp (key : string) : respects (keeps tracker_inv) (Piano.keyUp key).
Proof. unfold Piano.keyUp. keeps_auto. Qed.

Lemma keeps_replayHistory (idx : Z) :
  respects (keeps tracker_inv) (Piano.replayHistory idx).
Proof. unfold Piano.replayHistory, Piano.replayNote. keeps_auto. Qed.
#[global] Hint Resolve keeps_keyDown keeps_keyUp keeps_replayHistory : keeps.

Lemma keeps_handle detectBpm (i : Piano.Input) :
  respects (keeps tracker_inv) (Piano.handle detectBpm i).
Proof.
  destruct i; cbn [Piano.handle]; try solve [keeps_auto].
  - (* a timer fires *)
    keeps_auto. unfold Piano.run_task. keeps_auto.
  - (* a transport callback fires *)
    keeps_auto. unfold Piano.run_callback. keeps_auto.
Qed.

Lemma tracker_inv_reachable detectBpm (s : State) :
  Piano.reachable detectBpm s -> tracker_inv s.
Proof.
  induction 1 as [n tpb c s Hnew | i s s' _ IH Hstep].
  - unfold Piano.constructor in Hnew.
    destruct (_ || _); [discriminate |]. injection Hnew as <-.
    split; [intros k; cbn; lia | constructor].
  - pose proof (keeps_handle detectBpm i s) as H.
    destruct (Piano.handle detectBpm i s); cbn in Hstep;
      try discriminate; injection Hstep as <-; apply H, IH.
Qed.

Lemma reachable_after detectBpm (inputs : list Piano.Input) (s : State) :
  Piano.reachable detectBpm s ->
  Piano.reachable detectBpm
    (fold_left
       (fun s i => default s (state_after (Piano.handle detectBpm i s)))
       inputs s).
Proof.
  revert s. induction inputs as [| i inputs IH]; intros s Hs; [exact Hs |].
  cbn [fold_left]. apply IH.
  destruct (state_after (Piano.handle detectBpm i s)) as [s' |] eqn:Hstep.
  - cbn. eapply Piano.reachable_step; eassumption.
  - exact Hs.
Qed.

Lemma reachable_new_engine detectBpm : Piano.reachable detectBpm new_engine.
Proof. apply (Piano.reachable_new detectBpm 4 4 (mkClocks 0 0 0)). reflexivity. Qed.

(** C8. In every state the engine can reach, the active set holds at most
    one note per piano key.  In particular [releaseNote] on a key without
    active note returns without any effect; after [releaseNote] no active
    note has the key; and after [playNote(note)] returns, [note] is the
    one active note of its key: the active note of that key, if any, was
    released first. *)
Theorem active_set_one_entry_per_key detectBpm (s : State) :
  Piano.reachable detectBpm s ->
  one_entry_per_key s
  /\ (forall pianoKey triggerTime,
        List.find (Piano.has_key (store s) pianoKey) (activeNotes s) = None ->
        Piano.releaseNote pianoKey triggerTime s = Returns tt s)
  /\ (forall pianoKey triggerTime s',
        state_after (Piano.releaseNote pianoKey triggerTime s) = Some s' ->
        one_entry_per_key s'
        /\ List.filter (Piano.has_key (store s') pianoKey) (activeNotes s')
           = [])
  /\ (forall note contextTime s',
        Piano.playNote note contextTime s = Returns tt s' ->
        one_entry_per_key s' /\ registered note s').
Proof.
  intros Hreach. pose proof (tracker_inv_reachable _ _ Hreach) as HI.
  split; [exact (proj1 HI) |]. split; [| split].
  - intros k t Hfind. unfold Piano.releaseNote. monad.
    rewrite Hfind. reflexivity.
  - intros k t s' Hs'.
    pose proof (releaseNote_released k t s) as H.
    destruct (Piano.releaseNote k t s); cbn in Hs'; try discriminate;
      injection Hs' as <-; destruct (H HI) as ([H1 _] & H2 & _);
      split; assumption.
  - intros note ct s' Hs'.
    pose proof (playNote_registers note ct s HI) as H.
    rewrite Hs' in H. destruct H as [[H1 _] H2]. split; assumption.
Qed.

Example key_held_active : activeNotes key_held = [0%nat].
Proof. reflexivity. Qed.

Lemma active_set_one_entry_per_key_witness :
  Piano.reachable sample_detectBpm key_held /\ one_entry_per_key key_held.
Proof.
  assert (H : Piano.reachable sample_detectBpm key_held)
    by (apply reachable_after, reachable_new_engine).
  split; [exact H |].
  exact (proj1 (active_set_one_entry_per_key sample_detectBpm key_held H)).
Defined.

(** ** The staleness guard *)

Lemma callModel_resume_stale (s : State) (c : ModelCall)
      (generated : list Generated) :
  match modelStartTime s with
  | None => True
  | Some started => (initiatedTime c < started)%Z
  end ->
  Piano.callModel_resume c generated s = Returns tt s.
Proof.
  intros H. unfold Piano.callModel_resume. monad.
  destruct (modelStartTime s) as [started |]; [| reflexivity].
  destruct (Z.geb_spec (initiatedTime c) started); [lia | reflexivity].
Qed.

Example model_pending_buffer :
  noteBuffer model_pending = [1%nat; 2%nat]
  /\ modelStartTime model_pending = Some 2200%Z
  /\ noteQueue model_pending = [].
Proof. repeat split. Qed.

(** ** Running a method step by step *)

Lemma bind_returns {A B} (m : M A) (k : A -> M B) (s s1 : State) (a : A) :
  m s = Returns a s1 -> bind m k s = k a s1.
Proof. intros H. unfold bind. now rewrite H. Qed.

Lemma bind_get {A B} (f : State -> A) (k : A -> M B) (s : State) :
  bind (get f) k s = k (f s) s.
Proof. reflexivity. Qed.

Lemma bind_modify {B} (f : State -> State) (k : unit -> M B) (s : State) :
  bind (modify f) k s = k tt (f s).
Proof. reflexivity. Qed.

Lemma bind_ret {A B} (a : A) (k : A -> M B) (s : State) :
  bind (ret a) k s = k a s.
Proof. reflexivity. Qed.

Lemma bind_emit {B} (c : Command) (k : unit -> M B) (s : State) :
  bind (emit c) k s = k tt (set_trace (trace s ++ [c]) s).
Proof. reflexivity. Qed.

Lemma bind_assoc {A B C} (m : M A) (k1 : A -> M B) (k2 : B -> M C)
      (s : State) :
  bind (bind m k1) k2 s = bind m (fun a => bind (k1 a) k2) s.
Proof. unfold bind. destruct (m s); reflexivity. Qed.

Lemma bind_when {B} (b : bool) (m : M unit) (k : unit -> M B) (s : State) :
  bind (when b m) k s = if b then bind m k s else k tt s.
Proof. destruct b; reflexivity. Qed.

Lemma bind_setTimer {B} (repeats : bool) (task : TimerTask) (delay : Q)
      (k : nat -> M B) (s : State) :
  bind (setTimer repeats task delay) k s
  = k (nextTimerId s)
      (set_nextTimerId (S (nextTimerId s))
         (set_timers (timers s ++ [mkTimer (nextTimerId s) delay repeats task])
                     s)).
Proof. reflexivity. Qed.

Lemma bind_clearTimer {B} (id : option nat) (k : unit -> M B) (s : State) :
  bind (clearTimer id) k s
  = k tt (set_timers
            (List.filter (fun t => negb (same_id id (timerId t))) (timers s))
            s).
Proof. reflexivity. Qed.

(** Runs the first calls of a method, as far as their effect is known. *)
Ltac exec :=
  repeat first
    [ rewrite bind_get
    | rewrite bind_modify
    | rewrite bind_ret
    | rewrite bind_emit
    | rewrite bind_assoc
    | rewrite bind_when
    | rewrite bind_setTimer
    | rewrite bind_clearTimer
    | progress cbv beta delta [id]
    | lazymatch goal with
      | |- context [(let x := _ in _) _] => progress cbv beta zeta
      | |- (let x := _ in _) = _ => progress cbv beta zeta
      end ].

Lemma for_each_clearScheduled (queue : list NoteRef) (s : State) :
  allocated (store s) queue ->
  for_each queue Piano.clearScheduled s
  = Returns tt
      (set_transportEvents
         (clear_all (store s) queue (transportEvents s)) s).
Proof.
  revert s. induction queue as [| r queue IH]; intros s Halloc.
  - cbn. unfold ret. f_equal. destruct s; reflexivity.
  - apply Forall_cons in Halloc as [Hr Hq].
    apply lookup_lt_is_Some_2 in Hr as [n Hn].
    cbn [for_each]. erewrite bind_returns; cycle 1.
    { unfold Piano.clearScheduled, deref, bind. rewrite Hn.
      unfold transportClear, modify. reflexivity. }
    rewrite IH by exact Hq. fields.
    unfold clear_all. cbn [fold_left]. rewrite Hn. reflexivity.
Qed.

Lemma stopModel_stopped (s : State) :
  allocated (store s) (noteQueue s) ->
  Piano.stopModel s = Returns tt (stopped s).
Proof.
  intros Halloc. unfold Piano.stopModel. exec.
  erewrite bind_returns; cycle 1.
  { apply for_each_clearScheduled. exact Halloc. }
  unfold clearTimer, stopped. monad. fields.
  destruct (callModelIntervalId s) as [i |]; cbn [Js.defined]; fields;
    destruct (checkActivityIntervalId s) as [j |]; cbn [Js.defined];
    reflexivity.
Qed.

Lemma scheduleNote_scheduled (note : NoteRef) (n : Note.t) (s : State) :
  store s !! note = Some n ->
  Piano.scheduleNote note s = Returns tt (scheduled note n s).
Proof.
  intros Hn. unfold Piano.scheduleNote.
  erewrite bind_returns; cycle 1.
  { unfold deref. rewrite Hn. reflexivity. }
  erewrite bind_returns; cycle 1.
  { unfold transportScheduleOnce. reflexivity. }
  unfold update_note. exec. unfold modify. reflexivity.
Qed.

Lemma allocated_scheduled (notes : list NoteRef) (note : NoteRef)
      (n : Note.t) (s : State) :
  allocated (store s) notes -> allocated (store (scheduled note n s)) notes.
Proof.
  unfold allocated, scheduled. fields. rewrite length_alter. exact id.
Qed.

Lemma for_each_scheduleNote (notes : list NoteRef) (s : State) :
  allocated (store s) notes ->
  for_each notes Piano.scheduleNote s
  = Returns tt (fold_left schedule_one notes s).
Proof.
  revert s. induction notes as [| r notes IH]; intros s Halloc;
    [reflexivity |].
  apply Forall_cons in Halloc as [Hr Hq].
  apply lookup_lt_is_Some_2 in Hr as [n Hn].
  cbn [for_each fold_left].
  erewrite bind_returns by (apply scheduleNote_scheduled; exact Hn).
  unfold schedule_one at 2. rewrite Hn.
  apply IH. apply allocated_scheduled. exact Hq.
Qed.

(** *** Scheduling a list of notes *)

Lemma fold_schedule_unchanged {A} (f : State -> A) (notes : list NoteRef)
      (s : State) :
  (forall s r n, f (scheduled r n s) = f s) ->
  f (fold_left schedule_one notes s) = f s.
Proof.
  intros Hf. revert s. induction notes as [| r notes IH]; intros s;
    [reflexivity |].
  cbn [fold_left]. rewrite IH. unfold schedule_one.
  destruct (store s !! r); [apply Hf | reflexivity].
Qed.

Lemma fold_schedule_allocated (notes more : list NoteRef) (s : State) :
  allocated (store s) more ->
  allocated (store (fold_left schedule_one notes s)) more.
Proof.
  revert s. induction notes as [| r notes IH]; intros s H; [exact H |].
  cbn [fold_left]. apply IH. unfold schedule_one.
  destruct (store s !! r); [apply allocated_scheduled |]; exact H.
Qed.

Lemma fold_schedule_noteQueue (notes : list NoteRef) (s : State) :
  allocated (store s) notes ->
  noteQueue (fold_left schedule_one notes s) = noteQueue s ++ notes.
Proof.
  revert s. induction notes as [| r notes IH]; intros s Halloc.
  - cbn. now rewrite app_nil_r.
  - apply Forall_cons in Halloc as [Hr Hq].
    apply lookup_lt_is_Some_2 in Hr as [n Hn].
    cbn [fold_left]. unfold schedule_one at 2. rewrite Hn.
    rewrite IH by (apply allocated_scheduled; exact Hq).
    unfold scheduled. fields. now rewrite <- app_assoc.
Qed.

Lemma fold_schedule_events_kept (notes : list NoteRef) (s : State)
      (e : TransportEvent) :
  In e (transportEvents s) ->
  In e (transportEvents (fold_left schedule_one notes s)).
Proof.
  revert s. induction notes as [| r notes IH]; intros s H; [exact H |].
  cbn [fold_left]. apply IH. unfold schedule_one.
  destruct (store s !! r); [| exact H].
  unfold scheduled. fields. apply in_or_app. now left.
Qed.

Lemma fold_schedule_store (notes : list NoteRef) (s : State) :
  store_extends (store s) (store (fold_left schedule_one notes s)).
Proof.
  revert s. induction notes as [| r notes IH]; intros s; [reflexivity |].
  cbn [fold_left]. etransitivity; [| apply IH].
  unfold schedule_one. destruct (store s !! r); [| reflexivity].
  unfold scheduled. fields. apply store_extends_alter.
  intros ?; repeat split.
Qed.

(** Every note of the list gets a callback at its own time. *)
Lemma fold_schedule_events (notes : list NoteRef) (s : State) (r : NoteRef) :
  allocated (store s) notes ->
  In r notes ->
  exists n id,
    store s !! r = Some n
    /\ In (mkEvent id (Note.time n) (PlayNoteCb r))
          (transportEvents (fold_left schedule_one notes s)).
Proof.
  revert s. induction notes as [| x notes IH]; intros s Halloc Hin;
    [destruct Hin |].
  apply Forall_cons in Halloc as [Hx Hq].
  apply lookup_lt_is_Some_2 in Hx as [nx Hnx].
  cbn [fold_left]. unfold schedule_one at 2. rewrite Hnx.
  destruct Hin as [<- | Hin].
  - exists nx, (nextEventId s). split; [exact Hnx |].
    apply fold_schedule_events_kept. unfold scheduled. fields.
    apply in_or_app. right. now left.
  - destruct (IH (scheduled x nx s) (allocated_scheduled _ _ _ _ Hq) Hin)
      as (n' & id & Hn' & He).
    unfold scheduled in Hn'. fields in Hn'.
    destruct (decide (x = r)) as [-> | Hne].
    + rewrite list_lookup_alter_eq, Hnx in Hn'. injection Hn' as <-.
      exists nx, id. split; [exact Hnx | exact He].
    + rewrite list_lookup_alter_ne in Hn' by exact Hne.
      exists n', id. split; [exact Hn' | exact He].
Qed.

(** ** The seed-input awaiter *)

Lemma same_id_differs (id : option nat) (n : nat) :
  (forall l, id = Some l -> l <> n) -> negb (same_id id n) = true.
Proof.
  intros H. destruct id as [l |]; [| reflexivity].
  cbn. apply negb_true_iff, Nat.eqb_neq, H. reflexivity.
Qed.

Lemma same_id_differs_inv (id : option nat) (n : nat) :
  negb (same_id id n) = true -> id <> Some n.
Proof.
  destruct id as [l |]; [| discriminate].
  cbn. intros H [= ->]. rewrite Nat.eqb_refl in H. discriminate.
Qed.

(** C5. With a model cycle started ([modelStartTime] not [null]): when
    no input activity occurred for [3 * 1500] ms, the awaiter sets the
    transport position to [callModelEnd - bufferDuration], schedules every
    note of the pending buffer on the timeline (each is queued, with a
    callback at its own time), empties the buffer and starts the
    scheduler: [modelStartTime] is the current time, a model call is
    issued at once (when there is a current History) and a [callModel]
    timer runs every [bufferDuration] seconds; the awaiter's own timer is
    stopped.  When activity occurred less than 1500 ms ago, the awaiter
    runs [stopModel]: the buffer and the queue are emptied and
    [modelStartTime] is [null], so that the result of any call in flight
    is dropped. *)
Theorem seed_confirm_or_abort detectBpm (s : State) (started : Z) :
  modelStartTime s = Some started ->
  let idle := (wallClock (clocks s) - lastActivity s)%Z in
  let bufferDuration := Piano.beatsToSeconds s (bufferBeats s) in
  ((1500 * 3 <= idle)%Z ->
   allocated (store s) (noteBuffer s) ->
   (forall l, listenerIntervalId s = Some l -> (l < nextTimerId s)%nat) ->
   exists s',
     Piano.seedInputAwaiter detectBpm s = Returns tt s'
     /\ transportSeconds s' = callModelEnd s - bufferDuration
     /\ noteQueue s' = noteQueue s ++ noteBuffer s
     /\ (forall r, In r (noteBuffer s) ->
           exists n id,
             store s !! r = Some n
             /\ In (mkEvent id (Note.time n) (PlayNoteCb r))
                   (transportEvents s'))
     /\ noteBuffer s' = []
     /\ modelStartTime s' = Some (wallClock (clocks s))
     /\ (exists id,
           callModelIntervalId s' = Some id
           /\ In (mkTimer id (bufferDuration * 1000) true CallModelTask)
                 (timers s'))
     /\ (currHistory s <> None ->
         exists c,
           In c (modelCalls s')
           /\ initiatedTime c = wallClock (clocks s)
           /\ scheduleImmediately c = true
           /\ windowEnd c = callModelEnd s)
     /\ awaitingInput s' = false
     /\ (forall t, In t (timers s') -> listenerIntervalId s <> Some (timerId t)))
  /\ ((idle < 1500)%Z ->
      allocated (store s) (noteQueue s) ->
      exists s',
        Piano.seedInputAwaiter detectBpm s = Returns tt s'
        /\ s' = stopped s
        /\ modelStartTime s' = None
        /\ noteBuffer s' = []
        /\ noteQueue s' = []
        /\ (forall c generated,
              Piano.callModel_resume c generated s' = Returns tt s')).
Proof.
  intros Hstarted idle bufferDuration. split.
  - intros Hidle Halloc Hfresh.
    unfold Piano.seedInputAwaiter. exec. rewrite Hstarted. fold idle.
    destruct (Z.ltb_spec idle 1500); [lia |].
    destruct (Z.geb_spec idle (1500 * 3)); [| lia].
    exec. fields.
    erewrite bind_returns; cycle 1.
    { apply for_each_scheduleNote. fields. exact Halloc. }
    exec.
    set (s1 := set_transportSeconds _ s).
    assert (Halloc1 : allocated (store s1) (noteBuffer s)) by exact Halloc.
    pose proof (fold_schedule_noteQueue _ s1 Halloc1) as Equeue.
    pose proof (fun r => fold_schedule_events _ s1 r Halloc1) as Eevents.
    assert (Efields :
      let s2 := fold_left schedule_one (noteBuffer s) s1 in
      currHistory s2 = currHistory s
      /\ callModelIntervalId s2 = callModelIntervalId s
      /\ checkActivityIntervalId s2 = checkActivityIntervalId s
      /\ listenerIntervalId s2 = listenerIntervalId s
      /\ timers s2 = timers s
      /\ nextTimerId s2 = nextTimerId s
      /\ clocks s2 = clocks s
      /\ callModelEnd s2 = callModelEnd s
      /\ bpm s2 = bpm s
      /\ bufferBeats s2 = bufferBeats s
      /\ transportSeconds s2 = transportSeconds s1)
      by (cbv zeta; repeat split;
          (rewrite fold_schedule_unchanged by reflexivity); reflexivity).
    cbv zeta in Efields.
    set (s2 := fold_left schedule_one (noteBuffer s) s1) in *.
    destruct Efields as (E1 & E2 & E3 & E4 & E5 & E6 & E7 & E8 & E9 & E10 & E11).
    clearbody s2.
    unfold Piano.startModel, Piano.callModel_call, setInterval, setTimer,
      clearTimer, Piano.beatsToSeconds. monad. fields.
    rewrite ?E1, ?E2, ?E3, ?E4, ?E5, ?E6, ?E7, ?E8, ?E9, ?E10.
    destruct (currHistory s) as [h |];
      destruct (callModelIntervalId s) as [[| i] |];
      destruct (checkActivityIntervalId s) as [[| j] |];
      repeat (progress
                (fields;
                 rewrite ?E1, ?E2, ?E3, ?E4, ?E5, ?E6, ?E7, ?E8, ?E9, ?E10;
                 cbv beta iota delta [Js.truthy]));
      (eexists; split; [reflexivity |]); fields;
      rewrite ?E1, ?E2, ?E3, ?E4, ?E5, ?E6, ?E7, ?E8, ?E9, ?E10, ?E11;
      (split; [reflexivity |]);
      (split; [exact Equeue |]);
      (split; [exact Eevents |]);
      (split; [reflexivity |]);
      (split; [reflexivity |]);
      (split; [eexists; split; [reflexivity |];
               apply List.filter_In; split;
               [ repeat (apply in_or_app; first [right; now left | left])
               | apply same_id_differs; intros l Hl;
                 specialize (Hfresh l Hl); cbn; lia ] |]);
      (split; [intros Hh;
               first [ congruence
                     | eexists; split;
                       [apply in_or_app; right; left; reflexivity
                       | repeat split] ] |]);
      (split; [reflexivity |]);
      intros t Ht; apply List.filter_In in Ht as [_ Ht];
      apply same_id_differs_inv; exact Ht.
  - intros Hidle Halloc.
    unfold Piano.seedInputAwaiter. exec. rewrite Hstarted. fold idle.
    destruct (Z.ltb_spec idle 1500); [| lia].
    exists (stopped s). split; [apply stopModel_stopped; exact Halloc |].
    split; [reflexivity |].
    assert (Hnone : modelStartTime (stopped s) = None).
    { unfold stopped. cbv zeta. fields.
      destruct (callModelIntervalId s); cbn [Js.defined]; fields;
        destruct (checkActivityIntervalId s); reflexivity. }
    split; [exact Hnone |].
    split; [| split].
    + unfold stopped. cbv zeta. fields.
      destruct (callModelIntervalId s); cbn [Js.defined]; fields;
        destruct (checkActivityIntervalId s); reflexivity.
    + unfold stopped. cbv zeta. fields.
      destruct (callModelIntervalId s); cbn [Js.defined]; fields;
        destruct (checkActivityIntervalId s); reflexivity.
    + intros c generated. apply callModel_resume_stale.
      rewrite Hnone. exact I.
Qed.

Example pending_and_idle_state :
  modelStartTime pending_and_idle = Some 2200%Z
  /\ noteBuffer pending_and_idle = [1%nat; 2%nat]
  /\ (wallClock (clocks pending_and_idle) - lastActivity pending_and_idle
      = 4600)%Z.
Proof. repeat split. Qed.

Lemma seed_confirm_or_abort_witness :
  modelStartTime pending_and_idle = Some 2200%Z
  /\ exists s',
       Piano.seedInputAwaiter sample_detectBpm pending_and_idle
       = Returns tt s'
       /\ noteQueue s' = [1%nat; 2%nat]
       /\ noteBuffer s' = [].
Proof.
  assert (H : modelStartTime pending_and_idle = Some 2200%Z)
    by (vm_compute; reflexivity).
  assert (Hbuffer : noteBuffer pending_and_idle = [1%nat; 2%nat])
    by (vm_compute; reflexivity).
  assert (Hqueue : noteQueue pending_and_idle = [])
    by (vm_compute; reflexivity).
  assert (Hlistener : listenerIntervalId pending_and_idle = Some 2%nat)
    by (vm_compute; reflexivity).
  split; [exact H |].
  destruct (proj1 (seed_confirm_or_abort sample_detectBpm pending_and_idle
                     2200%Z H))
    as (s' & Hr & _ & Hq & _ & Hb & _).
  - vm_compute. discriminate.
  - rewrite Hbuffer. unfold allocated.
    repeat (constructor; [vm_compute; lia |]). constructor.
  - rewrite Hlistener. intros l [= <-]. vm_compute. lia.
  - exists s'. split; [exact Hr |].
    rewrite Hqueue, Hbuffer in Hq. split; [exact Hq | exact Hb].
Defined.

(** ** Rewind *)

Lemma fold_left_unchanged {A X} (f : State -> A) (step : State -> X -> State)
      (xs : list X) (s : State) :
  (forall s x, f (step s x) = f s) -> f (fold_left step xs s) = f s.
Proof.
  intros Hf. revert s. induction xs as [| x xs IH]; intros s; [reflexivity |].
  cbn [fold_left]. now rewrite IH.
Qed.

Lemma at_last_app {A} (l : list A) (x : A) : Js.at_last (l ++ [x]) = Some x.
Proof.
  unfold Js.at_last. rewrite List.map_app. cbn [List.map]. apply last_last.
Qed.

Lemma addToHistoryList_archived (h : History.t) (s : State) :
  History.isNew h = false \/ History.noteHistory h <> [] ->
  Piano.addToHistoryList (Some h) s = Returns tt (archived h s).
Proof.
  intros H. unfold Piano.addToHistoryList, archived.
  destruct (History.isNew h); cbn [negb]; [| reflexivity].
  destruct H as [H | H]; [discriminate |].
  exec.
  destruct (History.noteHistory h) as [| x l _] using rev_ind; [congruence |].
  rewrite at_last_app. reflexivity.
Qed.

Lemma for_each_commitQueued (queued : list NoteRef) (h : History.t)
      (s : State) :
  currHistory s = Some h ->
  for_each queued Piano.commitQueued s
  = Returns tt
      (set_currHistory
         (Some (commit_all (store s) (callModelEnd s) queued h)) s).
Proof.
  revert h s. induction queued as [| r queued IH]; intros h s Hh.
  - cbn. unfold ret. rewrite <- Hh. destruct s; reflexivity.
  - cbn [for_each]. unfold commit_all. cbn [fold_left].
    destruct (time_le (store s) r (callModelEnd s)) eqn:Hle.
    + erewrite bind_returns; cycle 1.
      { unfold Piano.commitQueued. exec. rewrite Hle.
        unfold Piano.currHistory_add. exec. rewrite Hh.
        unfold modify. reflexivity. }
      erewrite IH by (fields; reflexivity). fields. reflexivity.
    + erewrite bind_returns; cycle 1.
      { unfold Piano.commitQueued. exec. rewrite Hle. reflexivity. }
      erewrite IH by exact Hh. reflexivity.
Qed.

Lemma replayNote_replayed (note : NoteRef) (n : Note.t) (s : State) :
  store s !! note = Some n ->
  Piano.replayNote note s = Returns tt (replay_one s note).
Proof.
  intros Hn. unfold Piano.replayNote, replay_one. rewrite Hn.
  erewrite bind_returns; cycle 1.
  { unfold deref. rewrite Hn. reflexivity. }
  erewrite bind_returns; cycle 1.
  { unfold newNote. reflexivity. }
  apply scheduleNote_scheduled. fields.
  apply list_lookup_middle. reflexivity.
Qed.

Lemma allocated_replay_one (notes : list NoteRef) (s : State) (r : NoteRef) :
  allocated (store s) notes -> allocated (store (replay_one s r)) notes.
Proof.
  unfold allocated, replay_one. intros H.
  destruct (store s !! r); [| exact H].
  unfold scheduled. fields. rewrite length_alter, length_app. cbn.
  eapply List.Forall_impl; [| exact H]. cbn. intros; lia.
Qed.

Lemma for_each_replayNote (notes : list NoteRef) (s : State) :
  allocated (store s) notes ->
  for_each notes Piano.replayNote s
  = Returns tt (fold_left replay_one notes s).
Proof.
  revert s. induction notes as [| r notes IH]; intros s Halloc;
    [reflexivity |].
  apply Forall_cons in Halloc as [Hr Hq].
  apply lookup_lt_is_Some_2 in Hr as [n Hn].
  cbn [for_each fold_left].
  erewrite bind_returns by (eapply replayNote_replayed; exact Hn).
  apply IH. apply allocated_replay_one. exact Hq.
Qed.

Lemma for_each_redrawNote (notes : list NoteRef) (s : State) :
  allocated (store s) notes ->
  for_each notes Piano.redrawNote s
  = Returns tt (fold_left redraw_one notes s).
Proof.
  revert s. induction notes as [| r notes IH]; intros s Halloc;
    [reflexivity |].
  apply Forall_cons in Halloc as [Hr Hq].
  apply lookup_lt_is_Some_2 in Hr as [n Hn].
  cbn [for_each fold_left].
  erewrite bind_returns; cycle 1.
  { unfold Piano.redrawNote, deref, bind. rewrite Hn. unfold get, emit, modify.
    reflexivity. }
  unfold redraw_one at 2. rewrite Hn. apply IH.
  fields. exact Hq.
Qed.

(** *** What the queries and [add] keep *)

Lemma take_while_Forall {A} (P : A -> Prop) (keep : A -> bool) (l : list A) :
  Forall P l -> Forall P (History.take_while keep l).
Proof.
  induction 1 as [| x l Hx _ IH]; [constructor |].
  cbn. destruct (keep x); constructor; assumption.
Qed.

Lemma removeHistory_Forall {A T} (P : A -> Prop) (before : A -> T -> bool)
      (l : list A) (cutoff : T) :
  Forall P l -> Forall P (History.removeHistory before l cutoff).
Proof. apply take_while_Forall. Qed.

Lemma getRecentHistory_Forall {A T} (P : A -> Prop)
      (not_before : A -> T -> bool) (l : list A) (start : T) :
  Forall P l -> Forall P (History.getRecentHistory not_before l start).
Proof.
  intros H. unfold History.getRecentHistory.
  apply List.Forall_rev, take_while_Forall, List.Forall_rev, H.
Qed.

Lemma insert_by_time_In (σ : Store) (note x : NoteRef) (l : list NoteRef) :
  In x (History.insert_by_time σ note l) <-> note = x \/ In x l.
Proof.
  induction l as [| y l IH]; cbn.
  - split; [intros [H | []]; auto | intros [H | []]; auto].
  - destruct (timeOf σ y) as [ty |]; [destruct (timeOf σ note) as [tn |] |];
      [destruct (Js.leb ty tn) | |]; cbn; rewrite ?IH; tauto.
Qed.

Lemma insert_by_time_Forall (P : NoteRef -> Prop) (σ : Store)
      (note : NoteRef) (l : list NoteRef) :
  P note -> Forall P l -> Forall P (History.insert_by_time σ note l).
Proof.
  intros Hn Hl. apply List.Forall_forall. intros x Hx.
  apply insert_by_time_In in Hx as [<- | Hx]; [exact Hn |].
  rewrite List.Forall_forall in Hl. auto.
Qed.

Lemma commit_all_noteHistory_Forall (P : NoteRef -> Prop) (σ : Store) (c : Q)
      (queued : list NoteRef) (h : History.t) :
  Forall P queued -> Forall P (History.noteHistory h) ->
  Forall P (History.noteHistory (commit_all σ c queued h)).
Proof.
  intros Hq. revert h. induction Hq as [| r queued Hr _ IH]; intros h Hh;
    [exact Hh |].
  unfold commit_all. cbn [fold_left]. apply IH.
  destruct (time_le σ r c); [| exact Hh].
  cbn. apply insert_by_time_Forall; assumption.
Qed.

Lemma commit_all_In (σ : Store) (c : Q) (queued : list NoteRef)
      (h : History.t) (x : NoteRef) :
  In x (History.noteHistory h)
  \/ (In x queued /\ time_le σ x c = true) ->
  In x (History.noteHistory (commit_all σ c queued h)).
Proof.
  revert h. induction queued as [| r queued IH]; intros h H.
  - destruct H as [H | [[] _]]. exact H.
  - unfold commit_all. cbn [fold_left]. apply IH.
    destruct H as [H | [[<- | H] Hle]].
    + left. destruct (time_le σ r c); [| exact H].
      cbn. apply insert_by_time_In. now right.
    + left. rewrite Hle. cbn. apply insert_by_time_In. now left.
    + right. split; assumption.
Qed.

(** *** The replay loop *)

Lemma Forall2_impl_Forall {A B} (P : B -> Prop) (R R' : A -> B -> Prop)
      (xs : list A) (ys : list B) :
  Forall P ys -> Forall2 R xs ys ->
  (forall x y, P y -> R x y -> R' x y) ->
  Forall2 R' xs ys.
Proof.
  intros HP HR Himp. induction HR as [| x y xs ys Hxy _ IH]; [constructor |].
  apply Forall_cons in HP as [Hy HP]. constructor; auto.
Qed.

Lemma replay_one_fields (s : State) (r : NoteRef) (n : Note.t) :
  store s !! r = Some n ->
  store (replay_one s r)
  = store s ++ [Note.set_scheduleId (Some (nextEventId s)) (rewind_copy n)]
  /\ noteQueue (replay_one s r) = noteQueue s ++ [length (store s)]
  /\ transportEvents (replay_one s r)
     = transportEvents s
       ++ [mkEvent (nextEventId s) (Note.time n)
                   (PlayNoteCb (length (store s)))].
Proof.
  intros Hn. unfold replay_one. rewrite Hn. unfold scheduled. fields.
  repeat split.
  apply list_eq. intros i.
  destruct (decide (i = length (store s))) as [-> | Hne].
  - rewrite list_lookup_alter_eq, !list_lookup_middle by reflexivity.
    reflexivity.
  - rewrite list_lookup_alter_ne by congruence.
    destruct (decide (i < length (store s))%nat) as [Hlt | Hge].
    + now rewrite !lookup_app_l by exact Hlt.
    + rewrite !lookup_ge_None_2; [reflexivity | |];
        rewrite length_app; cbn; lia.
Qed.

Lemma replay_fold (notes : list NoteRef) (s : State) :
  allocated (store s) notes ->
  let s' := fold_left replay_one notes s in
  exists news ext evs,
    noteQueue s' = noteQueue s ++ news
    /\ store s' = store s ++ ext
    /\ transportEvents s' = transportEvents s ++ evs
    /\ Forall2 (replayed (store s) (store s') (transportEvents s')) news notes.
Proof.
  revert s. induction notes as [| r notes IH]; intros s Halloc; cbv zeta.
  - exists [], [], []. cbn. rewrite !app_nil_r. repeat split. constructor.
  - pose proof Halloc as Halloc0.
    apply Forall_cons in Halloc as [Hr Hq].
    apply lookup_lt_is_Some_2 in Hr as [n Hn].
    destruct (replay_one_fields s r n Hn) as (Es & Eq & Ee).
    cbn [fold_left].
    destruct (IH (replay_one s r) (allocated_replay_one _ _ _ Hq))
      as (news & ext & evs & Hq' & Hs' & He' & Hall).
    cbv zeta in Hq', Hs', He', Hall.
    set (s' := fold_left replay_one notes (replay_one s r)) in *.
    rewrite Eq in Hq'. rewrite Es in Hs'. rewrite Ee in He'.
    rewrite <- app_assoc in Hq', Hs', He'.
    eexists _, _, _. split; [exact Hq' |]. split; [exact Hs' |].
    split; [exact He' |].
    constructor.
    + exists n, (nextEventId s). split; [exact Hn |]. split.
      * rewrite Hs'. apply list_lookup_middle. reflexivity.
      * rewrite He'. apply in_or_app. right. now left.
    + eapply Forall2_impl_Forall; [exact Hq | exact Hall |].
      intros x y Hy (n' & id & H1 & H2 & H3).
      exists n', id. split; [| split; assumption].
      rewrite Es in H1. rewrite lookup_app_l in H1 by exact Hy. exact H1.
Qed.
(** ** Stale results of the model *)

Local Open Scope Q_scope.

#[global] Instance model_frame_refl : Reflexive model_frame.
Proof.
  intros s. split; [reflexivity |]. split; [reflexivity |].
  exists []. symmetry. apply app_nil_r.
Qed.

#[global] Instance model_frame_trans : Transitive model_frame.
Proof.
  intros a b c (H1 & H2 & l1 & H3) (K1 & K2 & l2 & K3).
  split; [congruence |]. split; [congruence |].
  exists (l1 ++ l2). rewrite K3, H3. symmetry. apply app_assoc.
Qed.

#[global] Instance model_step_refl (now : Z) : Reflexive (model_step now).
Proof.
  intros s _. split; [reflexivity |].
  split; [exists []; symmetry; apply app_nil_r | left; reflexivity].
Qed.

#[global] Instance model_step_trans (now : Z) : Transitive (model_step now).
Proof.
  intros a b c H K Hnow.
  destruct (H Hnow) as (H1 & (l1 & H2) & H3).
  destruct K as (K1 & (l2 & K2) & K3); [rewrite H1; exact Hnow |].
  split; [congruence |]. split.
  - exists (l1 ++ l2). rewrite K2, H2. symmetry. apply app_assoc.
  - destruct K3 as [K3 | [K3 | K3]]; rewrite K3; auto.
Qed.

Lemma model_frame_step (now : Z) (s s' : State) :
  model_frame s s' -> model_step now s s'.
Proof.
  intros (H1 & H2 & H3) _. split; [exact H2 |]. split; [exact H3 |].
  left. exact H1.
Qed.

(** *** The methods that neither stop nor start the model *)

Create HintDb mframe discriminated.

Ltac mframe_modify :=
  apply respects_modify; intros ?; unfold model_frame; fields;
  split; [reflexivity |]; split; [reflexivity |];
  exists []; symmetry; apply app_nil_r.

Ltac mframe_auto :=
  repeat first
    [ solve [auto with mframe nocore]
    | mframe_modify
    | respects_step ].

Ltac mframe_now :=
  unfold model_frame; fields;
  split; [reflexivity |]; split; [reflexivity |];
  exists []; symmetry; apply app_nil_r.

Lemma mframe_emit (c : Command) : respects model_frame (emit c).
Proof. unfold emit. mframe_modify. Qed.

Lemma mframe_deref (r : NoteRef) : respects model_frame (deref r).
Proof.
  intros s. unfold deref. destruct (store s !! r); [reflexivity | exact I].
Qed.

Lemma mframe_update_note (r : NoteRef) (f : Note.t -> Note.t) :
  respects model_frame (update_note r f).
Proof. unfold update_note. mframe_modify. Qed.

Lemma mframe_newNote key velocity duration time actor scheduleId isRewind :
  respects model_frame
    (newNote key velocity duration time actor scheduleId isRewind).
Proof. intros s. unfold newNote. mframe_now. Qed.

Lemma mframe_transportScheduleOnce (cb : Callback) (time : Q) :
  respects model_frame (transportScheduleOnce cb time).
Proof. intros s. unfold transportScheduleOnce. mframe_now. Qed.

Lemma mframe_transportClear (id : option nat) :
  respects model_frame (transportClear id).
Proof. unfold transportClear. mframe_modify. Qed.

Lemma mframe_transportCancel : respects model_frame transportCancel.
Proof. unfold transportCancel. mframe_modify. Qed.

Lemma mframe_setTimer (r : bool) (k : TimerTask) (d : Q) :
  respects model_frame (setTimer r k d).
Proof. intros s. unfold setTimer. mframe_now. Qed.

Lemma mframe_setInterval (k : TimerTask) (d : Q) :
  respects model_frame (setInterval k d).
Proof. apply mframe_setTimer. Qed.

Lemma mframe_setTimeout (k : TimerTask) (d : Q) :
  respects model_frame (setTimeout k d).
Proof. apply mframe_setTimer. Qed.

Lemma mframe_clearTimer (id : option nat) :
  respects model_frame (clearTimer id).
Proof. unfold clearTimer. mframe_modify. Qed.

Lemma mframe_keyName_of (k : option PianoKey.t) :
  respects model_frame (keyName_of k).
Proof. unfold keyName_of. mframe_auto. Qed.

#[global] Hint Resolve mframe_emit mframe_deref mframe_update_note
  mframe_newNote mframe_transportScheduleOnce mframe_transportClear
  mframe_transportCancel mframe_setInterval mframe_setTimeout
  mframe_clearTimer mframe_keyName_of : mframe.

Lemma mframe_releaseNote (k : option PianoKey.t) (t : Q) :
  respects model_frame (Piano.releaseNote k t).
Proof. unfold Piano.releaseNote. mframe_auto. Qed.
#[global] Hint Resolve mframe_releaseNote : mframe.

Lemma mframe_currHistory_add (note : NoteRef) :
  respects model_frame (Piano.currHistory_add note).
Proof. unfold Piano.currHistory_add. mframe_auto. Qed.
#[global] Hint Resolve mframe_currHistory_add : mframe.

Lemma mframe_playNote (note : NoteRef) (contextTime : Q) :
  respects model_frame (Piano.playNote note contextTime).
Proof. unfold Piano.playNote. mframe_auto. Qed.
#[global] Hint Resolve mframe_playNote : mframe.

Lemma mframe_releaseAllNotes : respects model_frame Piano.releaseAllNotes.
Proof. unfold Piano.releaseAllNotes, Piano.releaseActive. mframe_auto. Qed.
#[global] Hint Resolve mframe_releaseAllNotes : mframe.

Lemma mframe_scheduleNote (note : NoteRef) :
  respects model_frame (Piano.scheduleNote note).
Proof. unfold Piano.scheduleNote. mframe_auto. Qed.
#[global] Hint Resolve mframe_scheduleNote : mframe.

(** [callModel] up to its [await] adds the call to those that await the
    model. *)
Lemma mframe_callModel_call (b : bool) :
  respects model_frame (Piano.callModel_call b).
Proof.
  intros s. unfold Piano.callModel_call. rewrite bind_get.
  cbv beta zeta delta [id].
  destruct (currHistory s); [| exact (model_frame_refl s)].
  unfold modify, model_frame. fields.
  split; [reflexivity |]. split; [reflexivity |]. eexists. reflexivity.
Qed.
#[global] Hint Resolve mframe_callModel_call : mframe.

Lemma mframe_callModel_resume (c : ModelCall) (generated : list Generated) :
  respects model_frame (Piano.callModel_resume c generated).
Proof. unfold Piano.callModel_resume, Piano.applyGenerated. mframe_auto. Qed.
#[global] Hint Resolve mframe_callModel_resume : mframe.

Lemma mframe_addToHistoryList (h : option History.t) :
  respects model_frame (Piano.addToHistoryList h).
Proof. unfold Piano.addToHistoryList. mframe_auto. Qed.
#[global] Hint Resolve mframe_addToHistoryList : mframe.

Lemma mframe_scheduleStartModel (t : Q) :
  respects model_frame (Piano.scheduleStartModel t).
Proof. unfold Piano.scheduleStartModel. mframe_auto. Qed.
#[global] Hint Resolve mframe_scheduleStartModel : mframe.

Lemma mframe_setBPM (b : Q) : respects model_frame (Piano.setBPM b).
Proof. unfold Piano.setBPM. mframe_auto. Qed.
#[global] Hint Resolve mframe_setBPM : mframe.

Lemma mframe_rewind_loops (note : NoteRef) :
  respects model_frame (Piano.commitQueued note)
  /\ respects model_frame (Piano.replayNote note)
  /\ respects model_frame (Piano.redrawNote note)
  /\ respects model_frame (Piano.clearScheduled note).
Proof.
  unfold Piano.commitQueued, Piano.replayNote, Piano.redrawNote,
    Piano.clearScheduled.
  repeat split; mframe_auto.
Qed.

Lemma mframe_commitQueued (note : NoteRef) :
  respects model_frame (Piano.commitQueued note).
Proof. apply mframe_rewind_loops. Qed.

Lemma mframe_replayNote (note : NoteRef) :
  respects model_frame (Piano.replayNote note).
Proof. apply mframe_rewind_loops. Qed.

Lemma mframe_redrawNote (note : NoteRef) :
  respects model_frame (Piano.redrawNote note).
Proof. apply mframe_rewind_loops. Qed.

Lemma mframe_clearScheduled (note : NoteRef) :
  respects model_frame (Piano.clearScheduled note).
Proof. apply mframe_rewind_loops. Qed.
#[global] Hint Resolve mframe_commitQueued mframe_replayNote
  mframe_redrawNote mframe_clearScheduled : mframe.

Lemma mframe_startTone : respects model_frame Piano.startTone.
Proof. unfold Piano.startTone. mframe_auto. Qed.

Lemma mframe_seedInputListener : respects model_frame Piano.seedInputListener.
Proof. unfold Piano.seedInputListener. mframe_auto. Qed.
#[global] Hint Resolve mframe_startTone mframe_seedInputListener : mframe.

Lemma mframe_keyPressed (keyNum : Z) :
  respects model_frame (Piano.keyPressed keyNum).
Proof. unfold Piano.keyPressed. mframe_auto. Qed.
#[global] Hint Resolve mframe_keyPressed : mframe.

Lemma mframe_keyUp (key : string) : respects model_frame (Piano.keyUp key).
Proof. unfold Piano.keyUp. mframe_auto. Qed.
#[global] Hint Resolve mframe_keyUp : mframe.

(** *** The methods that stop and start the model *)

Create HintDb mstep discriminated.

Section ModelStep.
Variable now : Z.

Lemma mstep_frame {A} (m : M A) :
  respects model_frame m -> respects (model_step now) m.
Proof. apply respects_weaken. apply model_frame_step. Qed.

(** What is read from the state is read while the clock reads [now]. *)
Lemma mstep_get {A B} (f : State -> A) (k : A -> M B) :
  (forall s, wallClock (clocks s) = now ->
             respects (model_step now) (k (f s))) ->
  respects (model_step now) (bind (get f) k).
Proof.
  intros H s. rewrite bind_get.
  destruct (Z.eq_dec (wallClock (clocks s)) now) as [E | N].
  - apply (H s E s).
  - destruct (k (f s) s); try exact I; intros E; contradiction.
Qed.

(** Line 820. *)
Lemma mstep_stopped :
  respects (model_step now) (modify (set_modelStartTime None)).
Proof.
  apply respects_modify. intros s _. fields.
  split; [reflexivity |].
  split; [exists []; symmetry; apply app_nil_r | right; left; reflexivity].
Qed.

(** Lines 796 and 880. *)
Lemma mstep_started :
  respects (model_step now) (modify (set_modelStartTime (Some now))).
Proof.
  apply respects_modify. intros s _. fields.
  split; [reflexivity |].
  split; [exists []; symmetry; apply app_nil_r | right; right; reflexivity].
Qed.
End ModelStep.

#[global] Hint Resolve mstep_stopped mstep_started : mstep.

Ltac mstep_auto :=
  repeat first
    [ solve [auto with mstep nocore]
    | solve [apply mstep_frame; auto with mframe nocore]
    | solve [apply mstep_frame; mframe_modify]
    | respects_step ].

Lemma mstep_stopModel (now : Z) : respects (model_step now) Piano.stopModel.
Proof. unfold Piano.stopModel. mstep_auto. Qed.
#[global] Hint Resolve mstep_stopModel : mstep.

Lemma mstep_startModel (now : Z) (glowDelayMs : Q) :
  respects (model_step now) (Piano.startModel glowDelayMs).
Proof.
  unfold Piano.startModel. apply mstep_get. intros s E. rewrite E.
  mstep_auto.
Qed.
#[global] Hint Resolve mstep_startModel : mstep.

Lemma mstep_resetAll (now : Z) : respects (model_step now) Piano.resetAll.
Proof. unfold Piano.resetAll. mstep_auto. Qed.
#[global] Hint Resolve mstep_resetAll : mstep.

Lemma mstep_checkActivity (now : Z) :
  respects (model_step now) Piano.checkActivity.
Proof. unfold Piano.checkActivity. mstep_auto. Qed.
#[global] Hint Resolve mstep_checkActivity : mstep.

Lemma mstep_rewind (now : Z) : respects (model_step now) Piano.rewind.
Proof. unfold Piano.rewind. mstep_auto. Qed.
#[global] Hint Resolve mstep_rewind : mstep.

Lemma mstep_keyDown (now : Z) (repeat : bool) (key : string) :
  respects (model_step now) (Piano.keyDown repeat key).
Proof. unfold Piano.keyDown. mstep_auto. Qed.

Lemma mstep_seedInputAwaiter (now : Z) detectBpm :
  respects (model_step now) (Piano.seedInputAwaiter detectBpm).
Proof.
  unfold Piano.seedInputAwaiter. apply mstep_get. intros s E.
  cbv beta zeta delta [id]. rewrite E. mstep_auto.
Qed.

Lemma mstep_replayHistory (now : Z) (idx : Z) :
  respects (model_step now) (Piano.replayHistory idx).
Proof. unfold Piano.replayHistory. mstep_auto. Qed.
#[global] Hint Resolve mstep_keyDown mstep_seedInputAwaiter
  mstep_replayHistory : mstep.

Lemma mstep_run_task (now : Z) detectBpm (k : TimerTask) :
  respects (model_step now) (Piano.run_task detectBpm k).
Proof. unfold Piano.run_task, Piano.updateContextDateTime. mstep_auto. Qed.

Lemma mstep_run_callback (now : Z) (cb : Callback) (contextTime : Q) :
  respects (model_step now) (Piano.run_callback cb contextTime).
Proof. unfold Piano.run_callback. mstep_auto. Qed.
#[global] Hint Resolve mstep_run_task mstep_run_callback : mstep.

Lemma mstep_handle (now : Z) detectBpm (i : Piano.Input) :
  (forall c t, i <> Piano.Elapse c t) ->
  (forall index generated, i <> Piano.ModelResolves index generated) ->
  respects (model_step now) (Piano.handle detectBpm i).
Proof.
  intros Hi Hm. destruct i; cbn [Piano.handle]; try solve [mstep_auto].
  - exfalso. eapply Hm. reflexivity.
  - exfalso. eapply Hi. reflexivity.
Qed.

(** A handler leaves [modelStartTime] as it is, or sets it to [null] or
    to what the wall clock reads. *)
Lemma handle_modelStartTime detectBpm (i : Piano.Input) (s s' : State) :
  state_after (Piano.handle detectBpm i s) = Some s' ->
  modelStartTime s' = modelStartTime s
  \/ modelStartTime s' = None
  \/ modelStartTime s' = Some (wallClock (clocks s)).
Proof.
  intros Hstep.
  assert (Hcases : (exists c t, i = Piano.Elapse c t)
                   \/ (exists index generated,
                         i = Piano.ModelResolves index generated)
                   \/ ((forall c t, i <> Piano.Elapse c t)
                       /\ forall index generated,
                            i <> Piano.ModelResolves index generated)).
  { destruct i;
      first [ solve [right; right; split; discriminate]
            | solve [right; left; eauto]
            | solve [left; eauto] ]. }
  destruct Hcases as [(c & t & ->) | [(index & generated & ->) | [Hi Hm]]].
  - cbn in Hstep. injection Hstep as <-. left. reflexivity.
  - left. cbn [Piano.handle] in Hstep. rewrite bind_get in Hstep.
    cbv beta delta [id] in Hstep.
    destruct (modelCalls s !! index) as [c |].
    + rewrite bind_modify in Hstep.
      pose proof (mframe_callModel_resume c generated
                    (set_modelCalls (delete index (modelCalls s)) s)) as H.
      destruct (Piano.callModel_resume c generated _) as [[] s1 | e s1 |];
        cbn in Hstep; try discriminate; injection Hstep as <-;
        destruct H as [H _]; exact H.
    + cbn in Hstep. injection Hstep as <-. reflexivity.
  - pose proof (mstep_handle (wallClock (clocks s)) detectBpm i Hi Hm s) as H.
    destruct (Piano.handle detectBpm i s) as [[] s1 | e s1 |];
      cbn in Hstep; try discriminate; injection Hstep as <-;
      destruct (H eq_refl) as (_ & _ & H3); exact H3.
Qed.

(** *** After the model is stopped *)

Lemma returns_in_bind_r {A B} (P : B -> State -> Prop) (m : M A)
      (k : A -> M B) :
  (forall a, returns_in P (k a)) -> returns_in P (bind m k).
Proof.
  intros H s. unfold bind. destruct (m s) as [a s1 | |]; try exact I.
  apply H.
Qed.

Lemma returns_in_frame {A B} (m : M A) (k : A -> M B) :
  returns_in (fun _ s => modelStartTime s = None) m ->
  (forall a, respects model_frame (k a)) ->
  returns_in (fun _ s => modelStartTime s = None) (bind m k).
Proof.
  intros Hm Hk s. unfold bind. specialize (Hm s).
  destruct (m s) as [a s1 | |]; try exact I.
  specialize (Hk a s1). destruct (k a s1) as [b s2 | |]; try exact I.
  destruct Hk as [E _]. rewrite E. exact Hm.
Qed.

(** Line 820: [stopModel] leaves [modelStartTime] at [null]. *)
Lemma stopModel_stops :
  returns_in (fun _ s => modelStartTime s = None) Piano.stopModel.
Proof.
  unfold Piano.stopModel.
  do 5 (apply returns_in_bind_r; intros ?).
  apply returns_in_frame.
  - intros s. reflexivity.
  - intros _. mframe_auto.
Qed.

Lemma resetAll_stops :
  returns_in (fun _ s => modelStartTime s = None) Piano.resetAll.
Proof.
  unfold Piano.resetAll. apply returns_in_bind_r. intros _.
  apply returns_in_frame; [exact stopModel_stops |].
  intros _. mframe_auto.
Qed.

(** [rewind] stops the model at line 931 and starts it again only from
    the timeout of line 976. *)
Lemma rewind_stops :
  returns_in (fun b s => b = true -> modelStartTime s = None) Piano.rewind.
Proof.
  intros s. unfold Piano.rewind. rewrite bind_get. cbv beta delta [id].
  destruct (negb (toneStarted s) || awaitingInput s).
  - intros E. discriminate E.
  - cbv zeta.
    match goal with
    | |- match ?m s with _ => _ end =>
        assert (H : returns_in (fun _ s => modelStartTime s = None) m)
    end.
    { apply returns_in_bind_r. intros _.
      apply returns_in_frame; [exact stopModel_stops |].
      intros _. mframe_auto. }
    specialize (H s).
    match goal with
    | |- match ?m s with _ => _ end => destruct (m s); try exact I
    end.
    intros _. exact H.
Qed.

(** While the model is started only at later readings of the clock,
    [modelStartTime] is [null] or later than [t]. *)
Lemma run_after_later detectBpm (t : Z) (s s' : State) :
  run_after detectBpm t s s' ->
  match modelStartTime s with
  | None => True
  | Some started => (t < started)%Z
  end ->
  match modelStartTime s' with
  | None => True
  | Some started => (t < started)%Z
  end.
Proof.
  induction 1 as [s | i s s' s'' _ IH Hstep Hlater]; intros Hs; [exact Hs |].
  specialize (IH Hs).
  destruct (handle_modelStartTime _ _ _ _ Hstep) as [E | [E | E]];
    rewrite E; [exact IH | exact I |].
  destruct (decide (modelStartTime s' = Some (wallClock (clocks s'))))
    as [E' | N].
  - rewrite E' in IH. exact IH.
  - apply Hlater. exists (wallClock (clocks s')). split; assumption.
Qed.

(** C1.  A call of the model is issued and awaits its result; the engine
    is then stopped, reset or rewound; whatever happens next, provided
    that the wall clock reads later than at the call's issue whenever
    the model is started again: when the result arrives, [callModel]
    returns without an error and changes nothing - no note is created,
    scheduled, queued or buffered, and the current History and
    [callModelEnd] are as they were; all that is left of the call is
    that it no longer awaits the model.  On the way, [stopModel] sets
    [modelStartTime] to [null], the call goes on awaiting the model, and
    every start of the model records the reading of the wall clock, so
    that [modelStartTime] is [null] or later than the call's issue when
    the result arrives.  (The clock is read in whole milliseconds, and
    the test of line 774 lets through a call that was issued in the very
    millisecond in which the model was started.) *)
Theorem stale_model_result_is_dropped detectBpm
        (s s1 s2 : State) (c : ModelCall) (index : nat)
        (generated : list Generated) :
  In c (modelCalls s) ->
  (Piano.stopModel s = Returns tt s1
   \/ Piano.resetAll s = Returns tt s1
   \/ Piano.rewind s = Returns true s1) ->
  run_after detectBpm (initiatedTime c) s1 s2 ->
  modelCalls s2 !! index = Some c ->
  modelStartTime s1 = None
  /\ In c (modelCalls s1)
  /\ (modelStartTime s2 = None
      \/ exists started,
           modelStartTime s2 = Some started
           /\ (initiatedTime c < started)%Z)
  /\ Piano.callModel_resume c generated s2 = Returns tt s2
  /\ Piano.handle detectBpm (Piano.ModelResolves index generated) s2
     = Returns tt (set_modelCalls (delete index (modelCalls s2)) s2).
Proof.
  intros Hissued Hstop Hrun Hpending.
  assert (H1 : modelStartTime s1 = None
               /\ exists issued, modelCalls s1 = modelCalls s ++ issued).
  { destruct Hstop as [Hstop | [Hstop | Hstop]].
    - pose proof (stopModel_stops s) as Hnull.
      pose proof (mstep_stopModel (wallClock (clocks s)) s) as Hcalls.
      rewrite Hstop in Hnull, Hcalls.
      split; [exact Hnull | apply (Hcalls eq_refl)].
    - pose proof (resetAll_stops s) as Hnull.
      pose proof (mstep_resetAll (wallClock (clocks s)) s) as Hcalls.
      rewrite Hstop in Hnull, Hcalls.
      split; [exact Hnull | apply (Hcalls eq_refl)].
    - pose proof (rewind_stops s) as Hnull.
      pose proof (mstep_rewind (wallClock (clocks s)) s) as Hcalls.
      rewrite Hstop in Hnull, Hcalls.
      split; [exact (Hnull eq_refl) | apply (Hcalls eq_refl)]. }
  destruct H1 as [Hnull (issued & Hcalls)].
  assert (Hlater : match modelStartTime s2 with
                   | None => True
                   | Some started => (initiatedTime c < started)%Z
                   end).
  { apply (run_after_later _ _ _ _ Hrun). rewrite Hnull. exact I. }
  split; [exact Hnull |].
  split; [rewrite Hcalls; apply List.in_or_app; left; exact Hissued |].
  split; [| split].
  - destruct (modelStartTime s2) as [started |]; [right | left; reflexivity].
    exists started. split; [reflexivity | exact Hlater].
  - apply callModel_resume_stale, Hlater.
  - cbn [Piano.handle]. rewrite bind_get. cbv beta delta [id].
    rewrite Hpending, bind_modify.
    apply callModel_resume_stale. exact Hlater.
Qed.

Lemma stale_model_result_is_dropped_witness :
  exists c,
    modelCalls model_later = [c]
    /\ initiatedTime c = 5200%Z
    /\ Piano.rewind model_later = Returns true model_rewound
    /\ modelStartTime model_rewound = None
    /\ modelStartTime model_restarted = Some 21000%Z
    /\ modelCalls model_restarted !! 0%nat = Some c
    /\ Piano.handle sample_detectBpm (Piano.ModelResolves 0 two_generated)
                    model_restarted
       = Returns tt
           (set_modelCalls (delete 0%nat (modelCalls model_restarted))
                           model_restarted).
Proof.
  assert (Hc : exists c,
             modelCalls model_later = [c]
             /\ initiatedTime c = 5200%Z
             /\ modelCalls model_restarted !! 0%nat = Some c)
    by (vm_compute; eexists; repeat split).
  destruct Hc as (c & Hcalls & Htime & Hpending).
  assert (Hrewind : Piano.rewind model_later = Returns true model_rewound)
    by (vm_compute; reflexivity).
  assert (Hrestarted : modelStartTime model_restarted = Some 21000%Z)
    by (vm_compute; reflexivity).
  assert (Hrun : run_after sample_detectBpm (initiatedTime c)
                           model_rewound model_restarted).
  { rewrite Htime.
    apply run_after_step
      with (i := Piano.TimerFires 5)
           (s' := after [Piano.Elapse (mkClocks 21000 21 21) 21]
                        model_rewound).
    - apply run_after_step
        with (i := Piano.Elapse (mkClocks 21000 21 21) 21)
             (s' := model_rewound).
      + apply run_after_refl.
      + vm_compute. reflexivity.
      + intros (started & H1 & _). vm_compute in H1. discriminate H1.
    - vm_compute. reflexivity.
    - intros _. vm_compute. reflexivity. }
  exists c.
  destruct (stale_model_result_is_dropped sample_detectBpm model_later
              model_rewound model_restarted c 0%nat two_generated)
    as (H1 & _ & _ & _ & H5).
  - rewrite Hcalls. left. reflexivity.
  - right. right. exact Hrewind.
  - exact Hrun.
  - exact Hpending.
  - split; [exact Hcalls |]. split; [exact Htime |].
    split; [exact Hrewind |]. split; [exact H1 |].
    split; [exact Hrestarted |]. split; [exact Hpending |]. exact H5.
Defined.

(** The premise on the clock is needed.  The test of line 774 lets a
    call through that was issued in the millisecond in which the model
    was started, as it must for the call that [startModel] itself issues
    at line 797.  Were the model started again in the very millisecond of
    an earlier call, the result of that call would pass as well: here
    the scheduler issues its first call while the clock reads 5200, the
    performer rewinds, and the timeout of [rewind] is made to run with
    the clock still at 5200, which takes 800 ms in a browser; the two
    notes of the result of the first call are then scheduled. *)
Example restart_in_the_millisecond_of_the_call :
  let s :=
    after [Piano.KeyDown false "ArrowLeft"; Piano.TimerFires 5]
          model_active in
  List.map initiatedTime (modelCalls model_active) = [5200%Z]
  /\ List.map initiatedTime (modelCalls s) = [5200%Z; 5200%Z]
  /\ modelStartTime s = Some 5200%Z
  /\ noteQueue s = [3%nat]
  /\ noteQueue (after [Piano.ModelResolves 0 two_generated] s)
     = [3%nat; 4%nat; 5%nat].
Proof. vm_compute. repeat split. Qed.

(** ** The states that the loops and [stopModel] leave *)

Local Open Scope Q_scope.

Lemma stopped_unchanged {A} (f : State -> A) (s : State) :
  (forall s v, f (set_trace v s) = f s) ->
  (forall s v, f (set_transportEvents v s) = f s) ->
  (forall s v, f (set_noteQueue v s) = f s) ->
  (forall s v, f (set_noteBuffer v s) = f s) ->
  (forall s v, f (set_modelStartTime v s) = f s) ->
  (forall s v, f (set_timers v s) = f s) ->
  f (stopped s) = f s.
Proof.
  intros H1 H2 H3 H4 H5 H6. unfold stopped. cbv zeta.
  repeat match goal with
         | |- context [if ?b then _ else _] => destruct b
         end;
    rewrite ?H6, ?H5, ?H4, ?H3, ?H2, ?H1; reflexivity.
Qed.

Lemma archived_unchanged {A} (f : State -> A) (h : History.t) (s : State) :
  (forall s v, f (set_allHistories v s) = f s) ->
  f (archived h s) = f s.
Proof. intros H. unfold archived. destruct (History.isNew h); [apply H | reflexivity]. Qed.

(** Reads a field through [stopped] and [archived]. *)
Ltac through_stop :=
  repeat match goal with
         | |- context [?f (stopped ?s0)] =>
             rewrite (stopped_unchanged f s0) by (intros; reflexivity)
         | |- context [?f (archived ?h0 ?s0)] =>
             rewrite (archived_unchanged f h0 s0) by (intros; reflexivity)
         end.

(** Brings the fields of the state back to those of the state at the
    start. *)
Ltac normalise :=
  repeat (progress (fields; through_stop)).

Lemma stopped_cleared (s : State) :
  noteQueue (stopped s) = [] /\ noteBuffer (stopped s) = []
  /\ modelStartTime (stopped s) = None.
Proof.
  unfold stopped. cbv zeta.
  repeat match goal with
         | |- context [if ?b then _ else _] => destruct b
         end; repeat split.
Qed.

Lemma fold_replay_allocated (notes more : list NoteRef) (s : State) :
  allocated (store s) more ->
  allocated (store (fold_left replay_one notes s)) more.
Proof.
  revert s. induction notes as [| r notes IH]; intros s H; [exact H |].
  cbn [fold_left]. apply IH, allocated_replay_one, H.
Qed.

(** Reads a field through the loops of [rewind]. *)
Ltac through_loops :=
  repeat match goal with
         | |- context [?f (fold_left replay_one ?xs ?s0)] =>
             rewrite (fold_left_unchanged f replay_one xs s0)
               by (intros ? ?; unfold replay_one, scheduled;
                   destruct (store _ !! _); reflexivity)
         | |- context [?f (fold_left redraw_one ?xs ?s0)] =>
             rewrite (fold_left_unchanged f redraw_one xs s0)
               by (intros ? ?; unfold redraw_one;
                   destruct (store _ !! _); reflexivity)
         end.

Lemma stopped_events (s : State) :
  transportEvents (stopped s)
  = clear_all (store s) (noteQueue s) (transportEvents s).
Proof.
  unfold stopped. cbv zeta. fields.
  destruct (callModelIntervalId s); cbn [Js.defined]; fields;
    destruct (checkActivityIntervalId s); reflexivity.
Qed.

Lemma stopped_trace (s : State) : trace (stopped s) = trace s ++ [EndGlow].
Proof.
  unfold stopped. cbv zeta. fields.
  destruct (callModelIntervalId s); cbn [Js.defined]; fields;
    destruct (checkActivityIntervalId s); reflexivity.
Qed.

Lemma same_id_false (id : option nat) (n : nat) :
  same_id id n = false <-> id <> Some n.
Proof.
  destruct id as [l |]; cbn; [| split; [discriminate | reflexivity]].
  rewrite Nat.eqb_neq. split; [congruence |].
  intros H E. apply H. now rewrite E.
Qed.

Lemma stopped_timers (s : State) (t : Timer) :
  In t (timers (stopped s))
  <-> In t (timers s)
      /\ callModelIntervalId s <> Some (timerId t)
      /\ checkActivityIntervalId s <> Some (timerId t).
Proof.
  unfold stopped. cbv zeta. fields.
  destruct (callModelIntervalId s) as [i |] eqn:Ei;
    destruct (checkActivityIntervalId s) as [j |] eqn:Ej;
    cbn [Js.defined]; fields; rewrite ?Ei, ?Ej; cbn [Js.defined]; fields;
    rewrite ?List.filter_In, ?negb_true_iff, ?same_id_false;
    intuition congruence.
Qed.

Lemma filter_no_id {A} (f : A -> nat) (l : list A) :
  List.filter (fun t => negb (same_id None (f t))) l = l.
Proof.
  induction l as [| x l IH]; [reflexivity |].
  cbn [List.filter]. change (negb (same_id None (f x))) with true.
  cbv iota. f_equal. exact IH.
Qed.

(** The state after [stopModel()], field by field. *)
Lemma stopped_fields (s : State) :
  stopped s
  = set_timers
      (List.filter
         (fun t => negb (same_id (checkActivityIntervalId s) (timerId t)))
         (List.filter
            (fun t => negb (same_id (callModelIntervalId s) (timerId t)))
            (timers s)))
      (set_modelStartTime None
         (set_noteBuffer []
            (set_noteQueue []
               (set_transportEvents
                  (clear_all (store s) (noteQueue s) (transportEvents s))
                  (set_trace (trace s ++ [EndGlow]) s))))).
Proof.
  destruct s as [? ? ? ? ? ? ? ? ? ? ? ? ? ? ? ? ? ci ki ? ? ? ? ? ? ? ? ? ? ?].
  destruct ci as [i |]; destruct ki as [j |];
    cbn [callModelIntervalId checkActivityIntervalId];
    rewrite ?filter_no_id; vm_compute; reflexivity.
Qed.

Lemma stopped_state (s : State) :
  exists events timers',
    stopped s
    = set_timers timers'
        (set_modelStartTime None
           (set_noteBuffer []
              (set_noteQueue []
                 (set_transportEvents events
                    (set_trace (trace s ++ [EndGlow]) s)))))
    /\ events = clear_all (store s) (noteQueue s) (transportEvents s)
    /\ (forall t,
          In t timers'
          <-> In t (timers s)
              /\ callModelIntervalId s <> Some (timerId t)
              /\ checkActivityIntervalId s <> Some (timerId t)).
Proof.
  eexists _, _. split; [apply stopped_fields |]. split; [reflexivity |].
  intros t. rewrite !List.filter_In, !negb_true_iff, !same_id_false. tauto.
Qed.

(** The state after [addToHistoryList(h)] returns, field by field. *)
Lemma archived_state (h : History.t) (s : State) :
  archived h s
  = set_allHistories
      (allHistories s ++ (if History.isNew h then [h] else [])) s.
Proof.
  unfold archived. destruct (History.isNew h); [reflexivity |].
  rewrite app_nil_r. destruct s; reflexivity.
Qed.

(** * The keyboard *)

Local Open Scope Z_scope.

(** ** Key names *)

Example calcKeyName_middle_C : PianoKey.calcKeyName 60 = Some "C4"%string.
Proof. reflexivity. Qed.

Example calcKeyName_lowest_A : PianoKey.calcKeyName 21 = Some "A0"%string.
Proof. reflexivity. Qed.

Example calcKeyName_below_zero : PianoKey.calcKeyName (-1) = Some "B-2"%string.
Proof. reflexivity. Qed.

Lemma calcKeyName_index (m : Z) :
  Js.rem (Js.rem (m - PianoKey.midiNoteNumMiddleC) 12 + 12) 12 = m mod 12.
Proof.
  unfold Js.rem, PianoKey.midiNoteNumMiddleC.
  pose proof (Z.rem_bound_abs (m - 60) 12 ltac:(lia)) as Hb.
  pose proof (Z.quot_rem' (m - 60) 12) as Hq.
  rewrite Z.rem_mod_nonneg by lia.
  replace (Z.rem (m - 60) 12 + 12) with (m + (- 4 - (m - 60) ÷ 12) * 12) by lia.
  apply Z_mod_plus_full.
Qed.

Lemma calcKeyName_unfold (m : Z) :
  PianoKey.calcKeyName m
  = option_map (fun name => name +:+ pretty (m / 12 - 1))
               (Js.at_index PianoKey.noteNames (m mod 12)).
Proof.
  unfold PianoKey.calcKeyName. cbv zeta. rewrite calcKeyName_index.
  unfold Js.floor_div, PianoKey.midiNoteNumMiddleC.
  replace ((m - 60) / 12 + 4) with (m / 12 - 1).
  - destruct (Js.at_index PianoKey.noteNames (m mod 12)); reflexivity.
  - replace (m - 60) with (m + (-5) * 12) by lia.
    rewrite Z_div_plus_full by lia. lia.
Qed.

Lemma at_index_lookup {A} (xs : list A) (i : Z) :
  0 <= i -> Js.at_index xs i = xs !! Z.to_nat i.
Proof.
  intros Hi. unfold Js.at_index.
  destruct (Z.ltb_spec i 0) as [? | _]; [lia |].
  revert xs. induction (Z.to_nat i) as [| n IH]; intros [| x xs];
    try reflexivity.
  cbn. apply IH.
Qed.

(** X1.  The key name of every integer MIDI note number [m], also below
    middle C where [%] is negative, is the pitch class at index
    [m mod 12] of [noteNames] followed by the octave number
    [m / 12 - 1] in decimal: the lookup is never [undefined]. *)
Theorem calcKeyName_scientific_pitch (m : Z) :
  exists name,
    PianoKey.noteNames !! Z.to_nat (m mod 12) = Some name
    /\ PianoKey.calcKeyName m = Some (name +:+ pretty (m / 12 - 1)).
Proof.
  rewrite calcKeyName_unfold.
  pose proof (Z.mod_pos_bound m 12 ltac:(lia)) as Hb.
  rewrite at_index_lookup by lia.
  assert (Hlt : (Z.to_nat (m mod 12) < length PianoKey.noteNames)%nat)
    by (cbn; lia).
  apply lookup_lt_is_Some_2 in Hlt as [name Hname].
  exists name. split; [exact Hname |].
  rewrite Hname. reflexivity.
Qed.

(** The decimal form of a number does not start with a sharp sign. *)
Lemma pretty_N_go_ne_sharp (x : N) (s : string) :
  (forall s', s <> String "#"%char s') ->
  forall s', pretty_N_go x s <> String "#"%char s'.
Proof.
  revert s. induction (N.lt_wf_0 x) as [x _ IH]. intros s Hs s'.
  destruct (decide (x = 0%N)) as [-> | Hx].
  - rewrite pretty_N_go_0. apply Hs.
  - rewrite pretty_N_go_step by lia.
    apply IH.
    + apply N.div_lt; lia.
    + intros s''. 
      pose proof (N.mod_upper_bound x 10 ltac:(lia)) as Hm.
      destruct (x `mod` 10)%N as [| p]; [cbn; congruence |].
      do 4 (try destruct p as [p | p |]); cbn; try congruence; lia.
Qed.

Lemma pretty_Z_ne_sharp (z : Z) (s : string) : pretty z <> String "#"%char s.
Proof.
  destruct z as [| p | p].
  - discriminate.
  - change (pretty (Z.pos p)) with (pretty (N.pos p)).
    unfold pretty, pretty_N. 
    destruct (decide (N.pos p = 0%N)) as [? | _]; [discriminate |].
    apply pretty_N_go_ne_sharp. discriminate.
  - discriminate.
Qed.

Lemma noteNames_prefix_free (r r' : Z) (name name' p p' : string) :
  0 <= r < 12 -> 0 <= r' < 12 ->
  Js.at_index PianoKey.noteNames r = Some name ->
  Js.at_index PianoKey.noteNames r' = Some name' ->
  (forall s, p <> String "#"%char s) -> (forall s, p' <> String "#"%char s) ->
  name +:+ p = name' +:+ p' -> r = r' /\ p = p'.
Proof.
  intros Hr Hr' Hn Hn' Hp Hp' H.
  assert (C : r = 0 \/ r = 1 \/ r = 2 \/ r = 3 \/ r = 4 \/ r = 5 \/ r = 6
              \/ r = 7 \/ r = 8 \/ r = 9 \/ r = 10 \/ r = 11) by lia.
  assert (C' : r' = 0 \/ r' = 1 \/ r' = 2 \/ r' = 3 \/ r' = 4 \/ r' = 5
               \/ r' = 6 \/ r' = 7 \/ r' = 8 \/ r' = 9 \/ r' = 10 \/ r' = 11)
    by lia.
  clear Hr Hr'.
  repeat (destruct C as [-> | C]); try subst r; vm_compute in Hn;
    injection Hn as <-;
    repeat (destruct C' as [-> | C']); try subst r'; vm_compute in Hn';
    injection Hn' as <-; cbv beta iota delta [append] in H;
    try (injection H as H; try discriminate); cbv beta iota delta [append] in H;
    first [ split; [reflexivity | congruence]
          | exfalso; eapply Hp; eassumption
          | exfalso; eapply Hp'; symmetry; eassumption
          | idtac ].
Qed.

(** X2.  No two integer MIDI note numbers share a key name. *)
Theorem calcKeyName_injective (m m' : Z) :
  PianoKey.calcKeyName m = PianoKey.calcKeyName m' -> m = m'.
Proof.
  rewrite !calcKeyName_unfold.
  pose proof (Z.mod_pos_bound m 12 ltac:(lia)) as Hb.
  pose proof (Z.mod_pos_bound m' 12 ltac:(lia)) as Hb'.
  destruct (Js.at_index PianoKey.noteNames (m mod 12)) as [name |] eqn:E;
    destruct (Js.at_index PianoKey.noteNames (m' mod 12)) as [name' |] eqn:E';
    cbn [option_map]; intros H; try discriminate.
  - injection H as H.
    destruct (noteNames_prefix_free _ _ _ _ _ _ Hb Hb' E E'
                (pretty_Z_ne_sharp _) (pretty_Z_ne_sharp _) H) as [Hr Hq].
    apply pretty_Z_inj in Hq.
    rewrite (Z.div_mod m 12), (Z.div_mod m' 12) by lia. lia.
  - rewrite at_index_lookup in E by lia.
    apply lookup_ge_None in E. cbn in E. lia.
Qed.

Lemma calcKeyName_injective_witness :
  PianoKey.calcKeyName 61 = Some "C#4"%string /\ 61 = 61.
Proof.
  split; [reflexivity |].
  apply (calcKeyName_injective 61 61). reflexivity.
Defined.

(** ** The keys of the keyboard *)

Lemma colour_to_key_white (q i : Z) :
  0 <= q -> 0 <= i < 7 -> (q = 0 -> 5 <= i) ->
  exists k,
    PianoKey.calcKeyNumFromColourKeyNum (i + q * 7 - 5) true = Some k
    /\ 0 <= k
    /\ PianoKey.calcIsWhiteKey k = true
    /\ PianoKey.calcColourKeyNum k = i + q * 7 - 5.
Proof.
  intros Hq Hi H0. rewrite calcKeyNumFromColourKeyNum_white by assumption.
  assert (C : i = 0 \/ i = 1 \/ i = 2 \/ i = 3 \/ i = 4 \/ i = 5 \/ i = 6)
    by lia.
  repeat (destruct C as [-> | C]); try subst i; eval_tables;
    cbn [option_map]; (eexists; split; [reflexivity |]);
    (split; [lia |]);
    unfold PianoKey.calcColourKeyNum, PianoKey.calcIsWhiteKey,
      PianoKey.calcOctaveKeyNum, PianoKey.calcOctave, Js.rem, Js.floor_div;
    match goal with
    | |- context [(q * 12 - 10 + ?w + 9)] =>
        replace (q * 12 - 10 + w + 9) with ((w - 1) + q * 12) by lia
    end;
    rewrite Z.rem_mod_nonneg by lia;
    rewrite Z_mod_plus_full, Z_div_plus_full by lia;
    cbn [Z.sub Z.opp Z.add Z.pos_sub Z.succ_double Z.pred_double Z.double
         Pos.pred_double];
    match goal with
    | |- context [?a mod 12] =>
        rewrite (Z.mod_small a 12), (Z.div_small a 12) by lia
    end;
    eval_tables; (split; [reflexivity | lia]).
Qed.

Lemma colour_to_key_black (q i : Z) :
  0 <= q -> 0 <= i < 5 -> (q = 0 -> 4 <= i) ->
  exists k,
    PianoKey.calcKeyNumFromColourKeyNum (i + q * 5 - 4) false = Some k
    /\ 0 <= k
    /\ PianoKey.calcIsWhiteKey k = false
    /\ PianoKey.calcColourKeyNum k = i + q * 5 - 4.
Proof.
  intros Hq Hi H0. rewrite calcKeyNumFromColourKeyNum_black by assumption.
  assert (C : i = 0 \/ i = 1 \/ i = 2 \/ i = 3 \/ i = 4) by lia.
  repeat (destruct C as [-> | C]); try subst i; eval_tables;
    cbn [option_map]; (eexists; split; [reflexivity |]);
    (split; [lia |]);
    unfold PianoKey.calcColourKeyNum, PianoKey.calcIsWhiteKey,
      PianoKey.calcOctaveKeyNum, PianoKey.calcOctave, Js.rem, Js.floor_div;
    match goal with
    | |- context [(q * 12 - 10 + ?w + 9)] =>
        replace (q * 12 - 10 + w + 9) with ((w - 1) + q * 12) by lia
    end;
    rewrite Z.rem_mod_nonneg by lia;
    rewrite Z_mod_plus_full, Z_div_plus_full by lia;
    cbn [Z.sub Z.opp Z.add Z.pos_sub Z.succ_double Z.pred_double Z.double
         Pos.pred_double];
    match goal with
    | |- context [?a mod 12] =>
        rewrite (Z.mod_small a 12), (Z.div_small a 12) by lia
    end;
    eval_tables; (split; [reflexivity | lia]).
Qed.

(** X3.  Every colour-relative key number [colourKeyNum >= 0] of either
    colour maps to a key number [keyNum >= 0] of that colour whose
    colour-relative number is [colourKeyNum] again. *)
Theorem colour_numbering_round_trip (colourKeyNum : Z) (isWhiteKey : bool) :
  0 <= colourKeyNum ->
  exists keyNum,
    PianoKey.calcKeyNumFromColourKeyNum colourKeyNum isWhiteKey = Some keyNum
    /\ 0 <= keyNum
    /\ PianoKey.calcIsWhiteKey keyNum = isWhiteKey
    /\ PianoKey.calcColourKeyNum keyNum = colourKeyNum.
Proof.
  intros Hc. destruct isWhiteKey.
  - pose proof (Z.div_mod (colourKeyNum + 5) 7 ltac:(lia)) as Hdm.
    pose proof (Z.mod_pos_bound (colourKeyNum + 5) 7 ltac:(lia)) as Hb.
    assert (Hq : 0 <= (colourKeyNum + 5) / 7) by (apply Z.div_pos; lia).
    assert (E : colourKeyNum
                = (colourKeyNum + 5) mod 7 + (colourKeyNum + 5) / 7 * 7 - 5)
      by lia.
    destruct (colour_to_key_white ((colourKeyNum + 5) / 7)
                ((colourKeyNum + 5) mod 7) Hq Hb ltac:(lia))
      as (k & H1 & H2 & H3 & H4).
    rewrite <- E in H1, H4. exists k. auto.
  - pose proof (Z.div_mod (colourKeyNum + 4) 5 ltac:(lia)) as Hdm.
    pose proof (Z.mod_pos_bound (colourKeyNum + 4) 5 ltac:(lia)) as Hb.
    assert (Hq : 0 <= (colourKeyNum + 4) / 5) by (apply Z.div_pos; lia).
    assert (E : colourKeyNum
                = (colourKeyNum + 4) mod 5 + (colourKeyNum + 4) / 5 * 5 - 4)
      by lia.
    destruct (colour_to_key_black ((colourKeyNum + 4) / 5)
                ((colourKeyNum + 4) mod 5) Hq Hb ltac:(lia))
      as (k & H1 & H2 & H3 & H4).
    rewrite <- E in H1, H4. exists k. auto.
Qed.

Lemma colour_numbering_round_trip_witness :
  0 <= 3
  /\ exists keyNum,
       PianoKey.calcKeyNumFromColourKeyNum 3 false = Some keyNum
       /\ 0 <= keyNum
       /\ PianoKey.calcIsWhiteKey keyNum = false
       /\ PianoKey.calcColourKeyNum keyNum = 3.
Proof. split; [lia | apply (colour_numbering_round_trip 3 false); lia]. Defined.

Lemma createPianoKeys_length (octaves : Z) :
  0 <= octaves ->
  Z.of_nat (length (PianoKey.createPianoKeys octaves)) = 12 * octaves + 4.
Proof.
  intros H. unfold PianoKey.createPianoKeys. cbv zeta.
  rewrite length_map, length_seq. lia.
Qed.

Lemma createPianoKeys_at (octaves keyNum : Z) :
  0 <= octaves -> 0 <= keyNum < 12 * octaves + 4 ->
  Js.at_index (PianoKey.createPianoKeys octaves) keyNum
  = Some (PianoKey.new keyNum (60 - (octaves / 2) * 12 - 3 + keyNum)).
Proof.
  intros Ho Hk. unfold Js.at_index.
  destruct (Z.ltb_spec keyNum 0) as [Hneg | _]; [lia |].
  unfold PianoKey.createPianoKeys. cbv zeta.
  rewrite nth_error_map, nth_error_seq.
  destruct (Nat.ltb_spec (Z.to_nat keyNum)
              (Z.to_nat (7 * octaves + 3 + (5 * octaves + 1))));
    [| lia].
  cbn [option_map Nat.add]. rewrite Z2Nat.id by lia. reflexivity.
Qed.

Lemma createPianoKeys_at_none (octaves keyNum : Z) :
  0 <= octaves -> 12 * octaves + 4 <= keyNum ->
  Js.at_index (PianoKey.createPianoKeys octaves) keyNum = None.
Proof.
  intros Ho Hk. unfold Js.at_index.
  destruct (Z.ltb_spec keyNum 0) as [? | _]; [lia |].
  apply nth_error_None.
  pose proof (createPianoKeys_length octaves Ho). lia.
Qed.

(** X4.  On a keyboard of [octaves >= 0] octaves, [pianoKeys[keyNum]] is
    defined exactly for [0 <= keyNum < 12 * octaves + 4]; it is the key
    with that very key number, whose MIDI note number is [keyNum] above
    that of the lowest key, three semitones and [floor(octaves / 2)]
    octaves below middle C. *)
Theorem createPianoKeys_index (octaves keyNum : Z) :
  0 <= octaves ->
  Js.at_index (PianoKey.createPianoKeys octaves) keyNum
  = if (0 <=? keyNum) && (keyNum <? 12 * octaves + 4)
    then Some (PianoKey.new keyNum (60 - (octaves / 2) * 12 - 3 + keyNum))
    else None.
Proof.
  intros Ho.
  destruct (Z.leb_spec 0 keyNum) as [Hpos | Hneg]; cbn [andb].
  - destruct (Z.ltb_spec keyNum (12 * octaves + 4)) as [Hlt | Hge].
    + apply createPianoKeys_at; lia.
    + unfold Js.at_index.
      destruct (Z.ltb_spec keyNum 0) as [? | _]; [lia |].
      apply nth_error_None.
      pose proof (createPianoKeys_length octaves Ho). lia.
  - unfold Js.at_index.
    destruct (Z.ltb_spec keyNum 0) as [_ | ?]; [reflexivity | lia].
Qed.

Lemma createPianoKeys_index_witness :
  0 <= 7
  /\ Js.at_index (PianoKey.createPianoKeys 7) 87
     = Some (PianoKey.new 87 108)
  /\ Js.at_index (PianoKey.createPianoKeys 7) 88 = None.
Proof.
  split; [lia |]. split.
  - rewrite (createPianoKeys_index 7 87) by lia. reflexivity.
  - rewrite (createPianoKeys_index 7 88) by lia. reflexivity.
Defined.

(** X5.  On every keyboard that the constructor accepts, the white keys
    taken in order carry the colour-relative numbers 0, 1, ...,
    [7 * octaves + 2] and the black keys 0, 1, ..., [5 * octaves]: the
    [7 * octaves + 3] white and [5 * octaves + 1] black keys that the
    canvas draws. *)
Theorem createPianoKeys_colours (octaves : Z) :
  1 <= octaves <= 7 ->
  colourKeyNums true (PianoKey.createPianoKeys octaves)
  = Z.of_nat <$> seq 0 (Z.to_nat (7 * octaves + 3))
  /\ colourKeyNums false (PianoKey.createPianoKeys octaves)
     = Z.of_nat <$> seq 0 (Z.to_nat (5 * octaves + 1)).
Proof.
  intros H.
  assert (C : octaves = 1 \/ octaves = 2 \/ octaves = 3 \/ octaves = 4
              \/ octaves = 5 \/ octaves = 6 \/ octaves = 7) by lia.
  repeat (destruct C as [-> | C]); try subst octaves;
    (split; vm_compute; reflexivity).
Qed.

Lemma createPianoKeys_colours_witness :
  1 <= 4 <= 7
  /\ colourKeyNums false (PianoKey.createPianoKeys 4)
     = Z.of_nat <$> seq 0 21.
Proof.
  split; [lia |].
  exact (proj2 (createPianoKeys_colours 4 ltac:(lia))).
Defined.

Lemma keyMap_lookup_In (key : string) (keyNum : Z) :
  Piano.keyMap_lookup key = Some keyNum -> In (key, keyNum) Piano.keyMap.
Proof.
  unfold Piano.keyMap_lookup. intros H.
  destruct (List.find _ Piano.keyMap) as [[k n] |] eqn:E; [| discriminate].
  injection H as <-. apply List.find_some in E as [Hin Heq].
  cbn in Heq. apply String.eqb_eq in Heq. subst k. exact Hin.
Qed.

Lemma keyMap_range (key : string) (keyNum : Z) :
  In (key, keyNum) Piano.keyMap -> 15 <= keyNum <= 51.
Proof.
  intros H.
  assert (HF : Forall (fun kv => 15 <= snd kv <= 51) Piano.keyMap)
    by (repeat constructor; cbn; lia).
  rewrite List.Forall_forall in HF. exact (HF _ H).
Qed.

Lemma NoDup_snd_inj {A B} (l : list (A * B)) (a a' : A) (b : B) :
  List.NoDup (List.map snd l) -> In (a, b) l -> In (a', b) l -> a = a'.
Proof.
  induction l as [| [x y] l IH]; intros Hnd H1 H2; [destruct H1 |].
  cbn in Hnd. apply List.NoDup_cons_iff in Hnd as [Hnotin Hnd].
  destruct H1 as [H1 | H1], H2 as [H2 | H2].
  - congruence.
  - exfalso. apply Hnotin. injection H1 as -> ->.
    apply (List.in_map snd) in H2. exact H2.
  - exfalso. apply Hnotin. injection H2 as -> ->.
    apply (List.in_map snd) in H1. exact H1.
  - apply IH; assumption.
Qed.

(** X6.  Every hotkey of the key map names a key number between 15 and
    51, which is a key of every keyboard of four octaves or more, and no
    two hotkeys name the same key. *)
Theorem hotkeys_on_keyboard (octaves : Z) (key : string) (keyNum : Z) :
  4 <= octaves ->
  Piano.keyMap_lookup key = Some keyNum ->
  (exists k, Js.at_index (PianoKey.createPianoKeys octaves) keyNum = Some k
             /\ PianoKey.keyNum k = keyNum)
  /\ (forall key', Piano.keyMap_lookup key' = Some keyNum -> key' = key).
Proof.
  intros Ho Hk. apply keyMap_lookup_In in Hk.
  pose proof (keyMap_range _ _ Hk) as Hr. split.
  - rewrite createPianoKeys_at by lia.
    eexists. split; reflexivity.
  - intros key' Hk'. apply keyMap_lookup_In in Hk'.
    eapply NoDup_snd_inj; [| exact Hk' | exact Hk].
    let l := eval vm_compute in (List.map snd Piano.keyMap) in
    change (List.NoDup l).
    repeat (constructor; [cbn; lia |]). constructor.
Qed.

Lemma hotkeys_on_keyboard_witness :
  4 <= 4
  /\ Piano.keyMap_lookup "/" = Some 51
  /\ exists k, Js.at_index (PianoKey.createPianoKeys 4) 51 = Some k
               /\ PianoKey.keyNum k = 51.
Proof.
  split; [lia |]. split; [reflexivity |].
  exact (proj1 (hotkeys_on_keyboard 4 "/" 51 ltac:(lia) eq_refl)).
Defined.

(** * The note names of the first Piano class *)

Local Open Scope Z_scope.

Example getNotes_one_octave :
  EarlyKeys.getNotes 1
  = Some ["A3"; "A#3"; "B3"; "C4"; "C#4"; "D4"; "D#4"; "E4"; "F4"; "F#4";
          "G4"; "G#4"; "A4"; "A#4"; "B4"; "C5"]%string.
Proof. reflexivity. Qed.

Example getNotes_no_octave : EarlyKeys.getNotes 0 = None.
Proof. reflexivity. Qed.

(** X11.  On every keyboard that the constructor accepts, the note names
    that the first Piano class lists with [getNotes] are, key by key,
    the key names that [calcKeyName] gives to the MIDI note numbers of
    [createPianoKeys]: the two generations of the class name the
    [12 * octaves + 4] keys alike. *)
Theorem getNotes_names_the_keys (octaves : Z) :
  1 <= octaves <= 7 ->
  exists names,
    EarlyKeys.getNotes octaves = Some names
    /\ Z.of_nat (length names) = 12 * octaves + 4
    /\ mapM (fun k => PianoKey.calcKeyName (PianoKey.midiNoteNum k))
            (PianoKey.createPianoKeys octaves)
       = Some names.
Proof.
  intros H.
  assert (C : octaves = 1 \/ octaves = 2 \/ octaves = 3 \/ octaves = 4
              \/ octaves = 5 \/ octaves = 6 \/ octaves = 7) by lia.
  repeat (destruct C as [-> | C]); try subst octaves;
    (eexists; split; [vm_compute; reflexivity |]);
    (split; vm_compute; reflexivity).
Qed.

Lemma getNotes_names_the_keys_witness :
  1 <= 7 <= 7
  /\ exists names,
       EarlyKeys.getNotes 7 = Some names
       /\ Z.of_nat (length names) = 88
       /\ mapM (fun k => PianoKey.calcKeyName (PianoKey.midiNoteNum k))
               (PianoKey.createPianoKeys 7)
          = Some names.
Proof. split; [lia | apply (getNotes_names_the_keys 7); lia]. Defined.

(** * The history scan of the first Piano class *)

Lemma take_while_split {A : Type} (keep : A -> bool) (l : list A) :
  exists rest,
    l = History.take_while keep l ++ rest
    /\ Forall (fun x => keep x = true) (History.take_while keep l)
    /\ (rest = [] \/ exists e r, rest = e :: r /\ keep e = false).
Proof.
  induction l as [| x l (rest & E & Hall & Hrest)].
  - exists []. repeat split; [constructor | left; reflexivity].
  - cbn. destruct (keep x) eqn:Hx.
    + exists rest. split; [cbn; f_equal; exact E |].
      split; [constructor; assumption | exact Hrest].
    + exists (x :: l). split; [reflexivity |].
      split; [constructor | right; eauto].
Qed.

(** X30.  [getRecentHistory] of the first Piano class (lines 1288-1299)
    scans [history] from its end and stops at the first entry whose
    position is before [start]: it returns the entries after that one,
    all of them not before [start], the most recent first.  On a history
    in non-decreasing order of position these are exactly the entries
    that are not before [start], in reverse order. *)
Theorem early_getRecentHistory_most_recent_first
        {TransportTime Key : Type} (toTicks : TransportTime -> Z)
        (history : list (EarlyPiano.Played TransportTime Key))
        (start : TransportTime) :
  let recent := EarlyPiano.getRecentHistory toTicks history start in
  (exists earlier,
     history = earlier ++ rev recent
     /\ Forall (fun h => (toTicks start <= toTicks (EarlyPiano.position h))%Z)
               recent
     /\ (earlier = []
         \/ exists e before_e,
              earlier = before_e ++ [e]
              /\ (toTicks (EarlyPiano.position e) < toTicks start)%Z))
  /\ (EarlyPiano.sorted toTicks history ->
      recent
      = rev (List.filter
               (fun h => EarlyPiano.not_before toTicks h start) history)).
Proof.
  intros recent. subst recent. split.
  - unfold EarlyPiano.getRecentHistory. rewrite scan_take_while.
    destruct (take_while_split
                (fun h => EarlyPiano.not_before toTicks h start)
                (rev history)) as (rest & E & Hall & Hrest).
    exists (rev rest). split; [| split].
    + rewrite <- rev_app_distr, <- E. symmetry. apply rev_involutive.
    + eapply List.Forall_impl; [| exact Hall].
      intros h Hh. apply Z.leb_le. exact Hh.
    + destruct Hrest as [-> | (e & r & -> & He)]; [left; reflexivity |].
      right. exists e, (rev r). split; [reflexivity |].
      apply Z.leb_gt. exact He.
  - intros Hsorted.
    destruct (sorted_cut toTicks history start Hsorted)
      as (xs & ys & -> & Hxs & Hys).
    rewrite getRecentHistory_rev.
    destruct (queries_on_cut (EarlyPiano.before toTicks)
                             (EarlyPiano.not_before toTicks) start xs ys
                             Hxs Hys) as (_ & -> & _ & ->).
    reflexivity.
Qed.

Lemma early_getRecentHistory_most_recent_first_witness :
  EarlyPiano.sorted (fun t : Z => t) two_played
  /\ EarlyPiano.getRecentHistory (fun t : Z => t) two_played 0%Z
     = rev two_played.
Proof.
  assert (H : EarlyPiano.sorted (fun t : Z => t) two_played)
    by (repeat constructor; cbn; lia).
  split; [exact H |].
  exact (proj2 (early_getRecentHistory_most_recent_first
                  (fun t : Z => t) two_played 0%Z) H).
Defined.

(** * More of the engine *)

Local Open Scope Q_scope.

(** ** Stopping the model *)

Lemma clear_all_In (σ : Store) (queue : list NoteRef)
      (events : list TransportEvent) (e : TransportEvent) :
  In e (clear_all σ queue events)
  <-> In e events
      /\ (forall note n, In note queue -> σ !! note = Some n ->
                         Note.scheduleId n <> Some (eventId e)).
Proof.
  unfold clear_all. revert events.
  induction queue as [| r queue IH]; intros events; cbn [fold_left].
  - split; [intros H; split; [exact H | intros ? ? []] | tauto].
  - rewrite IH. destruct (σ !! r) as [m |] eqn:Hm.
    + rewrite List.filter_In, negb_true_iff, same_id_false. split.
      * intros [[Hin Hne] Hq]. split; [exact Hin |].
        intros note n [<- | Hnote] Hn; [congruence | eauto].
      * intros [Hin Hq]. split; [split; [exact Hin |] |].
        -- apply (Hq r m); [left; reflexivity | exact Hm].
        -- intros note n Hnote. apply Hq. right. exact Hnote.
    + split.
      * intros [Hin Hq]. split; [exact Hin |].
        intros note n [<- | Hnote] Hn; [congruence | eauto].
      * intros [Hin Hq]. split; [exact Hin |].
        intros note n Hnote. apply Hq. right. exact Hnote.
Qed.

(** X13.  When the queued notes are allocated, [stopModel] returns;
    afterwards the queue and the buffer are empty and [modelStartTime] is
    [null]; the transport keeps exactly the events that are not the
    scheduled callback of a queued note, and the timers exactly those
    that are neither the model-call interval nor the activity-check
    interval; the notes, the active set, the current History and
    [callModelEnd] are untouched, and the glow is ended. *)
Theorem stopModel_clears_the_schedule (s : State) :
  allocated (store s) (noteQueue s) ->
  exists s',
    Piano.stopModel s = Returns tt s'
    /\ noteQueue s' = [] /\ noteBuffer s' = [] /\ modelStartTime s' = None
    /\ (forall e,
          In e (transportEvents s')
          <-> In e (transportEvents s)
              /\ (forall note n,
                    In note (noteQueue s) -> store s !! note = Some n ->
                    Note.scheduleId n <> Some (eventId e)))
    /\ (forall t,
          In t (timers s')
          <-> In t (timers s)
              /\ callModelIntervalId s <> Some (timerId t)
              /\ checkActivityIntervalId s <> Some (timerId t))
    /\ store s' = store s /\ activeNotes s' = activeNotes s
    /\ currHistory s' = currHistory s /\ callModelEnd s' = callModelEnd s
    /\ trace s' = trace s ++ [EndGlow].
Proof.
  intros Halloc. exists (stopped s).
  split; [apply stopModel_stopped; exact Halloc |].
  destruct (stopped_cleared s) as (Hq & Hb & Hm).
  split; [exact Hq |]. split; [exact Hb |]. split; [exact Hm |].
  split; [intros e; rewrite stopped_events; apply clear_all_In |].
  split; [apply stopped_timers |].
  split; [through_stop; reflexivity |].
  split; [through_stop; reflexivity |].
  split; [through_stop; reflexivity |].
  split; [through_stop; reflexivity |].
  apply stopped_trace.
Qed.

Lemma stopModel_clears_the_schedule_witness :
  noteQueue model_active = [1%nat; 2%nat]
  /\ exists s',
       Piano.stopModel model_active = Returns tt s'
       /\ noteQueue s' = [] /\ transportEvents s' = [].
Proof.
  split; [vm_compute; reflexivity |].
  assert (Halloc : allocated (store model_active) (noteQueue model_active))
    by (vm_compute; repeat constructor).
  destruct (stopModel_clears_the_schedule model_active Halloc)
    as (s' & Hrun & Hq & _ & _ & He & _).
  exists s'. split; [exact Hrun |]. split; [exact Hq |].
  destruct (transportEvents s') as [| e es]; [reflexivity | exfalso].
  destruct (proj1 (He e) (or_introl eq_refl)) as [Hin Hne].
  assert (Ev : transportEvents model_active
               = [mkEvent 0 3 (PlayNoteCb 1); mkEvent 1 4 (PlayNoteCb 2)])
    by (vm_compute; reflexivity).
  rewrite Ev in Hin.
  destruct Hin as [<- | [<- | []]].
  - eapply (Hne 1%nat); [vm_compute; auto | vm_compute; reflexivity |].
    reflexivity.
  - eapply (Hne 2%nat); [vm_compute; auto | vm_compute; reflexivity |].
    reflexivity.
Defined.

(** ** Releasing the active notes *)

Lemma notes_only_refl (s : State) : notes_only s s.
Proof. unfold notes_only. destruct s; reflexivity. Qed.

Lemma notes_only_trans (s1 s2 s3 : State) :
  notes_only s1 s2 -> notes_only s2 s3 -> notes_only s1 s3.
Proof.
  unfold notes_only. intros H12 H23. rewrite H23. fields.
  rewrite H12. reflexivity.
Qed.

Lemma releaseNote_found (k : PianoKey.t) (t : Q) (r : NoteRef) (s : State) :
  List.find (Piano.has_key (store s) (Some k)) (activeNotes s) = Some r ->
  exists s',
    Piano.releaseNote (Some k) t s = Returns tt s'
    /\ activeNotes s' = Js.remove_first r (activeNotes s)
    /\ store_extends (store s) (store s')
    /\ notes_only s s'.
Proof.
  intros Hfind.
  destruct (find_filter_head _ _ _ Hfind) as [Hr _].
  apply has_key_allocated in Hr as (n & Hn & _).
  unfold Piano.releaseNote. monad. rewrite Hfind. monad.
  fields. rewrite Hn. monad.
  destruct (Js.gtb _ _); monad; fields;
    (eexists; split; [reflexivity |]); fields;
    repeat split; try reflexivity.
  apply store_extends_alter. intros ?; repeat split.
Qed.

Lemma keyed_extends (s s' : State) (l : list NoteRef) :
  store_extends (store s) (store s') ->
  Forall (fun r => exists n k, store s !! r = Some n /\ Note.key n = Some k) l ->
  Forall (fun r => exists n k, store s' !! r = Some n /\ Note.key n = Some k) l.
Proof.
  intros Hext. apply List.Forall_impl. intros r (n & k & Hn & Hk).
  destruct (Hext r n Hn) as (n' & Hn' & Hk' & _).
  exists n', k. split; [exact Hn' | congruence].
Qed.

Lemma releaseActive_all (l : list NoteRef) (s : State) :
  tracker_inv s -> keyed s -> activeNotes s = l ->
  exists s',
    for_each l Piano.releaseActive s = Returns tt s'
    /\ activeNotes s' = []
    /\ store_extends (store s) (store s')
    /\ notes_only s s'.
Proof.
  revert s. induction l as [| r l IH]; intros s HI Hkeyed Hact.
  - exists s. split; [reflexivity |]. split; [exact Hact |].
    split; [reflexivity | apply notes_only_refl].
  - unfold keyed in Hkeyed. rewrite Hact in Hkeyed.
    pose proof Hkeyed as Hall.
    apply Forall_cons in Hkeyed as [(n & k & Hn & Hk) Hl].
    assert (Hfind : List.find (Piano.has_key (store s) (Some k))
                              (activeNotes s) = Some r).
    { rewrite Hact. cbn. unfold Piano.has_key at 1. rewrite Hn, Hk.
      rewrite bool_decide_eq_true_2 by reflexivity. reflexivity. }
    destruct (releaseNote_found k (transportSeconds s) r s Hfind)
      as (s1 & Hrun & Hact1 & Hext & Hno).
    assert (HI1 : tracker_inv s1).
    { pose proof (keeps_releaseNote (Some k) (transportSeconds s) s) as HK.
      rewrite Hrun in HK. exact (HK HI). }
    assert (Hact1' : activeNotes s1 = l).
    { rewrite Hact1, Hact. cbn. rewrite Nat.eqb_refl. reflexivity. }
    destruct (IH s1 HI1) as (s' & Hrun' & Hnil & Hext' & Hno').
    + unfold keyed. rewrite Hact1'. eapply keyed_extends; eassumption.
    + exact Hact1'.
    + exists s'. split.
      * cbn [for_each]. erewrite bind_returns; [exact Hrun' |].
        unfold Piano.releaseActive.
        erewrite bind_returns by (unfold deref; rewrite Hn; reflexivity).
        rewrite bind_get, Hk. exact Hrun.
      * split; [exact Hnil |]. split; [etransitivity; eassumption |].
        eapply notes_only_trans; eassumption.
Qed.

Lemma keyed_allocated (s : State) :
  keyed s -> allocated (store s) (activeNotes s).
Proof.
  apply List.Forall_impl. intros r (n & _ & Hn & _).
  eapply lookup_lt_Some. exact Hn.
Qed.

(** X14.  When the active set holds at most one note per key and every
    active note has a piano key, [releaseAllNotes] returns and leaves no
    active note; it deallocates no note and changes no note's key,
    velocity, time or actor, and apart from the active set, the notes
    and the commands sent it leaves the engine as it is. *)
Theorem releaseAllNotes_empties_the_active_set (s : State) :
  one_entry_per_key s -> keyed s ->
  exists s',
    Piano.releaseAllNotes s = Returns tt s'
    /\ activeNotes s' = []
    /\ store_extends (store s) (store s')
    /\ notes_only s s'.
Proof.
  intros Hone Hk. unfold Piano.releaseAllNotes. rewrite bind_get.
  apply releaseActive_all; [| exact Hk | reflexivity].
  split; [exact Hone | apply keyed_allocated, Hk].
Qed.

Lemma releaseAllNotes_empties_the_active_set_witness :
  activeNotes key_held = [0%nat]
  /\ exists s',
       Piano.releaseAllNotes key_held = Returns tt s'
       /\ activeNotes s' = [].
Proof.
  split; [vm_compute; reflexivity |].
  assert (Hone : one_entry_per_key key_held).
  { apply (tracker_inv_reachable sample_detectBpm).
    apply reachable_after, reachable_new_engine. }
  assert (Hk : keyed key_held).
  { unfold keyed.
    assert (E : activeNotes key_held = [0%nat]) by (vm_compute; reflexivity).
    rewrite E. constructor; [| constructor].
    exists (Note.mk (Some (PianoKey.new 15 48)) (8 # 10) (-1) (1 # 2) Player
                    None false), (PianoKey.new 15 48).
    split; vm_compute; reflexivity. }
  destruct (releaseAllNotes_empties_the_active_set key_held Hone Hk)
    as (s' & Hrun & Hnil & _).
  exists s'. split; assumption.
Defined.

(** ** Resetting the engine *)

Lemma allocated_extends (σ σ' : Store) (l : list NoteRef) :
  store_extends σ σ' -> allocated σ l -> allocated σ' l.
Proof.
  intros H. apply List.Forall_impl. intros r Hr.
  eapply store_extends_length; eassumption.
Qed.


Lemma resetAll_tail (hist : option History.t) (s2 : State) :
  (forall h, hist = Some h ->
             History.isNew h = false \/ History.noteHistory h <> []) ->
  exists s',
    (Piano.addToHistoryList hist;;
     modify (set_currHistory None);;
     modify (set_activeNotes []);;
     modify (set_toneStarted false);;
     id <- get listenerIntervalId;; when (Js.defined id) (clearTimer id)) s2
    = Returns tt s'
    /\ toneStarted s' = false /\ currHistory s' = None
    /\ activeNotes s' = []
    /\ noteQueue s' = noteQueue s2 /\ noteBuffer s' = noteBuffer s2
    /\ modelStartTime s' = modelStartTime s2
    /\ transportEvents s' = transportEvents s2
    /\ timers s'
       = List.filter
           (fun t => negb (same_id (listenerIntervalId s2) (timerId t)))
           (timers s2)
    /\ allHistories s'
       = allHistories s2
         ++ match hist with
            | Some h => if History.isNew h then [h] else []
            | None => []
            end
    /\ store s' = store s2
    /\ awaitingInput s' = awaitingInput s2
    /\ transportSeconds s' = transportSeconds s2.
Proof.
  intros Harch.
  assert (Hs3 : exists s3,
             Piano.addToHistoryList hist s2 = Returns tt s3
             /\ s3 = set_allHistories
                       (allHistories s2
                        ++ match hist with
                           | Some h => if History.isNew h then [h] else []
                           | None => []
                           end) s2).
  { destruct hist as [h |].
    - rewrite addToHistoryList_archived by (apply Harch; reflexivity).
      eexists. split; [reflexivity |]. unfold archived.
      destruct (History.isNew h); [reflexivity |].
      rewrite app_nil_r. destruct s2; reflexivity.
    - eexists. split; [reflexivity |]. rewrite app_nil_r.
      destruct s2; reflexivity. }
  destruct Hs3 as (s3 & Hrun3 & ->).
  erewrite bind_returns by exact Hrun3.
  clear Hrun3. exec. fields.
  destruct (listenerIntervalId s2) as [l |] eqn:Els; cbn [Js.defined]; exec;
    (eexists; split; [reflexivity |]); fields; repeat split.
  rewrite List.filter_ext with (g := fun _ => true) by reflexivity.
  clear. induction (timers s2) as [| t ts IH]; [reflexivity |].
  cbn. rewrite <- IH. reflexivity.
Qed.

(** What [resetAll] leaves behind. *)
Lemma resetAll_runs (s : State) :
  one_entry_per_key s -> keyed s ->
  allocated (store s) (noteQueue s) ->
  (forall h, currHistory s = Some h ->
             History.isNew h = false \/ History.noteHistory h <> []) ->
  exists s',
    Piano.resetAll s = Returns tt s'
    /\ toneStarted s' = false /\ currHistory s' = None
    /\ activeNotes s' = [] /\ noteQueue s' = [] /\ noteBuffer s' = []
    /\ modelStartTime s' = None
    /\ (forall e, In e (transportEvents s') -> eventTime e < 0)
    /\ (forall t,
          In t (timers s')
          <-> In t (timers s)
              /\ callModelIntervalId s <> Some (timerId t)
              /\ checkActivityIntervalId s <> Some (timerId t)
              /\ listenerIntervalId s <> Some (timerId t))
    /\ allHistories s'
       = allHistories s
         ++ match currHistory s with
            | Some h => if History.isNew h then [h] else []
            | None => []
            end
    /\ store_extends (store s) (store s')
    /\ awaitingInput s' = awaitingInput s
    /\ transportSeconds s' = transportSeconds s.
Proof.
  intros Hone Hk Hq Harch.
  assert (HI : tracker_inv s) by (split; [exact Hone | apply keyed_allocated, Hk]).
  destruct (releaseActive_all (activeNotes s) s HI Hk eq_refl)
    as (s1 & Hrun1 & Hact1 & Hext1 & Hno1).
  assert (Eq : noteQueue s1 = noteQueue s) by (rewrite Hno1; reflexivity).
  assert (Eh : currHistory s1 = currHistory s) by (rewrite Hno1; reflexivity).
  assert (Ee : transportEvents s1 = transportEvents s)
    by (rewrite Hno1; reflexivity).
  assert (Et : timers s1 = timers s) by (rewrite Hno1; reflexivity).
  assert (Ec : callModelIntervalId s1 = callModelIntervalId s)
    by (rewrite Hno1; reflexivity).
  assert (Ek : checkActivityIntervalId s1 = checkActivityIntervalId s)
    by (rewrite Hno1; reflexivity).
  assert (El : listenerIntervalId s1 = listenerIntervalId s)
    by (rewrite Hno1; reflexivity).
  assert (Ea : allHistories s1 = allHistories s)
    by (rewrite Hno1; reflexivity).
  assert (Ew : awaitingInput s1 = awaitingInput s)
    by (rewrite Hno1; reflexivity).
  assert (Ep : transportSeconds s1 = transportSeconds s)
    by (rewrite Hno1; reflexivity).
  clear Hno1.
  unfold Piano.resetAll.
  erewrite bind_returns; cycle 1.
  { unfold Piano.releaseAllNotes. rewrite bind_get. exact Hrun1. }
  erewrite bind_returns; cycle 1.
  { apply stopModel_stopped. rewrite Eq.
    eapply allocated_extends; eassumption. }
  destruct (stopped_state s1) as (ev & tm & -> & Hev & Htm).
  unfold transportCancel. exec. fields. rewrite Eh.
  set (s2 := set_trace _ _).
  destruct (resetAll_tail (currHistory s) s2 Harch)
    as (s' & Hrun & T1 & T2 & T3 & T4 & T5 & T6 & T7 & T8 & T9 & T10 & T11
        & T12).
  subst s2. exists s'. split; [exact Hrun |]. fields in T4. fields in T5.
  fields in T6. fields in T7. fields in T8. fields in T9. fields in T10.
  fields in T11. fields in T12.
  repeat (split; [assumption |]).
  split.
  { intros e He. rewrite T7 in He. apply List.filter_In in He as [_ He].
    unfold Js.ltb in He. apply negb_true_iff in He.
    apply Qnot_le_lt. rewrite <- Qle_bool_iff. congruence. }
  split.
  { intros t. rewrite T8, El, List.filter_In, negb_true_iff, same_id_false,
      Htm, Et, Ec, Ek. tauto. }
  split; [rewrite T9, Ea; reflexivity |].
  split; [rewrite T10; exact Hext1 |].
  split; [rewrite T11; exact Ew | rewrite T12; exact Ep].
Qed.

(** X15.  When the active set holds at most one note per key, every
    active note has a piano key, the queued notes are allocated and the
    current History, if any, is archived already or has a note,
    [resetAll] returns; afterwards the tone is marked as not started,
    there is no current History, no active, queued or buffered note and
    no model cycle; every event left on the transport lies before time
    0; the timers left are those that are none of the three intervals of
    the engine; and the History that was current has been appended to
    the archive if it was new. *)
Theorem resetAll_resets (s : State) :
  one_entry_per_key s -> keyed s ->
  allocated (store s) (noteQueue s) ->
  (forall h, currHistory s = Some h ->
             History.isNew h = false \/ History.noteHistory h <> []) ->
  exists s',
    Piano.resetAll s = Returns tt s'
    /\ toneStarted s' = false /\ currHistory s' = None
    /\ activeNotes s' = [] /\ noteQueue s' = [] /\ noteBuffer s' = []
    /\ modelStartTime s' = None
    /\ (forall e, In e (transportEvents s') -> eventTime e < 0)
    /\ (forall t,
          In t (timers s')
          <-> In t (timers s)
              /\ callModelIntervalId s <> Some (timerId t)
              /\ checkActivityIntervalId s <> Some (timerId t)
              /\ listenerIntervalId s <> Some (timerId t))
    /\ allHistories s'
       = allHistories s
         ++ match currHistory s with
            | Some h => if History.isNew h then [h] else []
            | None => []
            end
    /\ store_extends (store s) (store s').
Proof.
  intros Hone Hk Hq Harch.
  destruct (resetAll_runs s Hone Hk Hq Harch)
    as (s' & Hrun & H1 & H2 & H3 & H4 & H5 & H6 & H7 & H8 & H9 & H10 & _).
  exists s'. repeat (split; [assumption |]). exact H10.
Qed.

Lemma resetAll_resets_witness :
  toneStarted model_active = true
  /\ exists s',
       Piano.resetAll model_active = Returns tt s'
       /\ toneStarted s' = false /\ currHistory s' = None
       /\ noteQueue s' = [] /\ length (allHistories s') = 1%nat.
Proof.
  split; [vm_compute; reflexivity |].
  assert (Hone : one_entry_per_key model_active).
  { apply (tracker_inv_reachable sample_detectBpm).
    do 3 apply reachable_after. apply reachable_new_engine. }
  assert (Ea : activeNotes model_active = []) by (vm_compute; reflexivity).
  assert (Hk : keyed model_active).
  { unfold keyed. rewrite Ea. constructor. }
  assert (Hq : allocated (store model_active) (noteQueue model_active))
    by (vm_compute; repeat constructor).
  assert (Eh : History.noteHistory <$> currHistory model_active
               = Some [0%nat]) by (vm_compute; reflexivity).
  assert (Ei : History.isNew <$> currHistory model_active = Some true)
    by (vm_compute; reflexivity).
  assert (El : allHistories model_active = []) by (vm_compute; reflexivity).
  assert (Harch : forall h, currHistory model_active = Some h ->
                            History.isNew h = false
                            \/ History.noteHistory h <> []).
  { intros h Hh. rewrite Hh in Eh. cbn in Eh. right.
    intros Hnil. rewrite Hnil in Eh. discriminate Eh. }
  destruct (resetAll_resets model_active Hone Hk Hq Harch)
    as (s' & Hrun & H1 & H2 & _ & H4 & _ & _ & _ & _ & H9 & _).
  exists s'. repeat (split; [assumption |]).
  rewrite H9, El.
  destruct (currHistory model_active) as [h |]; [| discriminate Ei].
  cbn in Ei. injection Ei as ->. reflexivity.
Defined.

(** X16.  When the current History is new and has no note,
    [resetAll] throws a [TypeError] half-way, in the history drawer's
    length label: the model is stopped and the empty History is in the
    archive, but the tone is still marked as started if it was, the
    History is still the current one and the interval of the seed
    listener is not cleared. *)
Theorem resetAll_aborts_on_an_empty_new_History (s : State) (h : History.t) :
  one_entry_per_key s -> keyed s ->
  allocated (store s) (noteQueue s) ->
  currHistory s = Some h ->
  History.isNew h = true -> History.noteHistory h = [] ->
  exists s',
    Piano.resetAll s = Throws Js.TypeError s'
    /\ toneStarted s' = toneStarted s
    /\ currHistory s' = Some h
    /\ allHistories s' = allHistories s ++ [h]
    /\ listenerIntervalId s' = listenerIntervalId s
    /\ (forall t, In t (timers s) ->
                  listenerIntervalId s = Some (timerId t) ->
                  callModelIntervalId s <> Some (timerId t) ->
                  checkActivityIntervalId s <> Some (timerId t) ->
                  In t (timers s'))
    /\ noteQueue s' = [] /\ modelStartTime s' = None.
Proof.
  intros Hone Hk Hq Hh Hnew Hnil.
  assert (HI : tracker_inv s) by (split; [exact Hone | apply keyed_allocated, Hk]).
  destruct (releaseActive_all (activeNotes s) s HI Hk eq_refl)
    as (s1 & Hrun1 & Hact1 & Hext1 & Hno1).
  assert (Eq : noteQueue s1 = noteQueue s) by (rewrite Hno1; reflexivity).
  assert (Eh : currHistory s1 = currHistory s) by (rewrite Hno1; reflexivity).
  assert (Et : timers s1 = timers s) by (rewrite Hno1; reflexivity).
  assert (El : listenerIntervalId s1 = listenerIntervalId s)
    by (rewrite Hno1; reflexivity).
  assert (Ea : allHistories s1 = allHistories s)
    by (rewrite Hno1; reflexivity).
  assert (Es : toneStarted s1 = toneStarted s)
    by (rewrite Hno1; reflexivity).
  assert (Ec : callModelIntervalId s1 = callModelIntervalId s)
    by (rewrite Hno1; reflexivity).
  assert (Ek : checkActivityIntervalId s1 = checkActivityIntervalId s)
    by (rewrite Hno1; reflexivity).
  clear Hno1.
  unfold Piano.resetAll.
  erewrite bind_returns; cycle 1.
  { unfold Piano.releaseAllNotes. rewrite bind_get. exact Hrun1. }
  erewrite bind_returns; cycle 1.
  { apply stopModel_stopped. rewrite Eq.
    eapply allocated_extends; eassumption. }
  destruct (stopped_state s1) as (ev & tm & -> & Hev & Htm).
  unfold transportCancel. exec. fields. rewrite Eh, Hh.
  unfold Piano.addToHistoryList. rewrite Hnew. cbn [negb].
  exec. rewrite Hnil. cbn [Js.at_last List.map List.last].
  unfold bind, throw.
  eexists. split; [reflexivity |]. fields.
  repeat (split; [first [assumption | reflexivity | congruence] |]).
  split; [| split; reflexivity].
  intros t Hin _ Hc Hk'. apply Htm. rewrite Et, Ec, Ek. tauto.
Qed.

Lemma resetAll_aborts_on_an_empty_new_History_witness :
  exists s',
    Piano.resetAll
      (set_currHistory (Some (History.new 80 "Shared Piece"))
         (set_toneStarted true new_engine))
    = Throws Js.TypeError s'
    /\ toneStarted s' = true
    /\ allHistories s' = [History.new 80 "Shared Piece"].
Proof.
  destruct (resetAll_aborts_on_an_empty_new_History
              (set_currHistory (Some (History.new 80 "Shared Piece"))
                 (set_toneStarted true new_engine))
              (History.new 80 "Shared Piece"))
    as (s' & Hrun & H1 & _ & H3 & _).
  - intros k. cbn. lia.
  - constructor.
  - constructor.
  - reflexivity.
  - reflexivity.
  - reflexivity.
  - exists s'. split; [exact Hrun |]. split; [exact H1 | exact H3].
Defined.

(** ** Pressing and releasing a key *)

Lemma releaseNote_idle (k : option PianoKey.t) (t : Q) (s : State) :
  List.find (Piano.has_key (store s) k) (activeNotes s) = None ->
  Piano.releaseNote k t s = Returns tt s.
Proof.
  intros Hfind. unfold Piano.releaseNote. rewrite bind_get.
  cbv beta delta [id]. rewrite Hfind. reflexivity.
Qed.

(** The state after [playNote(note)] when no note of the key is active. *)
Lemma playNote_fresh (note : NoteRef) (n : Note.t) (k : PianoKey.t)
      (h : History.t) (contextTime : Q) (s : State) :
  store s !! note = Some n -> Note.key n = Some k ->
  List.find (Piano.has_key (store s) (Some k)) (activeNotes s) = None ->
  currHistory s = Some h ->
  Piano.playNote note contextTime s
  = Returns tt
      (set_noteQueue (Js.remove_first note (noteQueue s))
         (set_trace
            (trace s
             ++ [if Js.eqb (Note.duration n) (-1)
                 then TriggerAttack k contextTime (Note.velocity n)
                 else TriggerAttackRelease k (Note.duration n + (15 # 100))
                                           contextTime (Note.velocity n);
                 AddNoteBar (Some k) (Note.duration n) (bpm s)
                            (Note.actor n) (Note.isRewind n)])
            (set_currHistory (Some (History.add (store s) note h))
               (set_activeNotes (activeNotes s ++ [note]) s)))).
Proof.
  intros Hn Hk Hfind Hh. unfold Piano.playNote.
  erewrite bind_returns by (unfold deref; rewrite Hn; reflexivity).
  rewrite Hk.
  erewrite bind_returns by (apply releaseNote_idle; exact Hfind).
  erewrite bind_returns by (unfold deref; rewrite Hn; reflexivity).
  rewrite Hk. unfold keyName_of. rewrite bind_ret.
  unfold Piano.currHistory_add.
  destruct (Js.eqb (Note.duration n) (-1)); exec; fields; rewrite Hh; exec;
    unfold modify; fields; rewrite <- app_assoc; reflexivity.
Qed.

Lemma keyMap_not_control (key : string) (keyNum : Z) :
  Piano.keyMap_lookup key = Some keyNum ->
  String.eqb key " " = false
  /\ String.eqb key "ArrowLeft" || String.eqb key "Backspace" = false.
Proof.
  intros H. apply keyMap_lookup_In in H.
  assert (HF : Forall (fun kv => String.eqb (fst kv) " " = false
                                 /\ String.eqb (fst kv) "ArrowLeft"
                                    || String.eqb (fst kv) "Backspace"
                                    = false) Piano.keyMap)
    by (repeat constructor).
  rewrite List.Forall_forall in HF. exact (HF _ H).
Qed.

Lemma remove_first_app_fresh (r : nat) (l : list nat) :
  ~ In r l -> Js.remove_first r (l ++ [r]) = l.
Proof.
  induction l as [| x l IH]; intros Hnot; cbn.
  - now rewrite Nat.eqb_refl.
  - destruct (Nat.eqb_spec x r) as [-> | _].
    + exfalso. apply Hnot. left. reflexivity.
    + rewrite IH; [reflexivity |]. intros Hin. apply Hnot. right. exact Hin.
Qed.

Lemma find_app_fresh (σ : Store) (n : Note.t) (k : PianoKey.t)
      (l : list NoteRef) :
  allocated σ l ->
  List.find (Piano.has_key σ (Some k)) l = None ->
  Note.key n = Some k ->
  List.find (Piano.has_key (σ ++ [n]) (Some k)) (l ++ [length σ])
  = Some (length σ).
Proof.
  intros Halloc Hfind Hk.
  induction Halloc as [| r l Hr _ IH]; cbn.
  - unfold Piano.has_key. rewrite lookup_app_r by lia.
    rewrite Nat.sub_diag. cbn. rewrite bool_decide_eq_true_2 by exact Hk.
    reflexivity.
  - cbn in Hfind.
    assert (E : Piano.has_key (σ ++ [n]) (Some k) r
                = Piano.has_key σ (Some k) r).
    { unfold Piano.has_key. rewrite lookup_app_l by exact Hr. reflexivity. }
    rewrite E. destruct (Piano.has_key σ (Some k) r); [discriminate |].
    apply IH. exact Hfind.
Qed.

Lemma find_none_app_store (σ : Store) (ns : list Note.t)
      (k : option PianoKey.t) (l : list NoteRef) :
  allocated σ l ->
  List.find (Piano.has_key σ k) l = None ->
  List.find (Piano.has_key (σ ++ ns) k) l = None.
Proof.
  intros Halloc Hfind.
  induction Halloc as [| r l Hr _ IH]; [reflexivity |].
  cbn in *.
  assert (E : Piano.has_key (σ ++ ns) k r = Piano.has_key σ k r).
  { unfold Piano.has_key. rewrite lookup_app_l by exact Hr. reflexivity. }
  rewrite E. destruct (Piano.has_key σ k r); [discriminate |].
  apply IH. exact Hfind.
Qed.

(** [keyPressed] after [startTone] and the seed listener: the note is
    created and played. *)
Lemma keyPressed_plays (keyNum : Z) (k : PianoKey.t) (h : History.t)
      (x : State) :
  Js.at_index (pianoKeys x) keyNum = Some k ->
  currHistory x = Some h ->
  allocated (store x) (activeNotes x) ->
  List.find (Piano.has_key (store x) (Some k)) (activeNotes x) = None ->
  let note := length (store x) in
  let pressed :=
    Note.mk (Some k) (8 # 10) (-1) (transportSeconds x) Player None false in
  (s <- get id ;;
   note <- newNote (Js.at_index (pianoKeys s) keyNum) (8 # 10) (-1)
                   (transportSeconds s) Player None false ;;
   Piano.playNote note (contextTime (clocks s)) ;;
   modify (fun s => set_lastActivity (wallClock (clocks s)) s)) x
  = Returns tt
      (set_lastActivity (wallClock (clocks x))
         (set_noteQueue (Js.remove_first note (noteQueue x))
            (set_trace
               (trace x
                ++ [TriggerAttack k (contextTime (clocks x)) (8 # 10);
                    AddNoteBar (Some k) (-1) (bpm x) Player false])
               (set_currHistory
                  (Some (History.add (store x ++ [pressed]) note h))
                  (set_activeNotes (activeNotes x ++ [note])
                     (set_store (store x ++ [pressed]) x)))))).
Proof.
  intros Hk Hh Hactive Hidle note pressed.
  exec. rewrite Hk.
  unfold newNote at 1. unfold bind at 1. fields.
  erewrite bind_returns; cycle 1.
  { eapply (playNote_fresh _ pressed k h); fields.
    - rewrite lookup_app_r by lia. rewrite Nat.sub_diag. reflexivity.
    - reflexivity.
    - apply find_none_app_store; assumption.
    - exact Hh. }
  unfold modify. fields. reflexivity.
Qed.

Lemma seedInputListener_runs (s : State) :
  Piano.seedInputListener s
  = Returns tt
      (set_listenerIntervalId (Some (nextTimerId s))
         (set_nextTimerId (S (nextTimerId s))
            (set_timers
               (timers s
                ++ [mkTimer (nextTimerId s) 50 true SeedInputAwaiterTask])
               (set_awaitingInput true
                  (set_currHistory
                     (Some (History.new (defaultBPM s) "Player Prompt"))
                     (set_bpm (defaultBPM s) s)))))).
Proof.
  unfold Piano.seedInputListener, setInterval. exec. fields.
  unfold modify. reflexivity.
Qed.

Section PressRelease.
Variable detectBpm : list Note.t -> Q -> Q -> Q.
Variables (s : State) (key : string) (keyNum : Z) (k : PianoKey.t)
          (h : History.t) (now' : Clocks) (t' : Q).
Hypothesis Hkey : Piano.keyMap_lookup key = Some keyNum.
Hypothesis Hk : Js.at_index (pianoKeys s) keyNum = Some k.
Hypothesis Hstarted : toneStarted s = true.
Hypothesis Hhistory : currHistory s = Some h.
Hypothesis Hactive : allocated (store s) (activeNotes s).
Hypothesis Hidle :
  List.find (Piano.has_key (store s) (Some k)) (activeNotes s) = None.
Hypothesis Hlater : transportSeconds s <= t'.

Let note : NoteRef := length (store s).
Let pressed : Note.t :=
  Note.mk (Some k) (8 # 10) (-1) (transportSeconds s) Player None false.

Lemma keyDown_runs :
  Piano.keyDown false key s
  = Returns tt
      (set_lastActivity (wallClock (clocks s))
         (set_noteQueue (Js.remove_first note (noteQueue s))
            (set_trace
               (trace s
                ++ [TriggerAttack k (contextTime (clocks s)) (8 # 10);
                    AddNoteBar (Some k) (-1) (bpm s) Player false])
               (set_currHistory
                  (Some (History.add (store s ++ [pressed]) note h))
                  (set_activeNotes (activeNotes s ++ [note])
                     (set_store (store s ++ [pressed])
                        (set_lastActivity (wallClock (clocks s)) s))))))).
Proof.
  destruct (keyMap_not_control _ _ Hkey) as [Hsp Harr].
  unfold Piano.keyDown. exec. rewrite Hsp, Harr. exec. rewrite Hkey.
  unfold Piano.keyPressed, Piano.startTone. exec. fields.
  rewrite Hstarted. exec. fields. rewrite Hk.
  unfold newNote at 1. unfold bind at 1. fields.
  erewrite bind_returns; cycle 1.
  { eapply (playNote_fresh _ pressed k h); fields.
    - rewrite lookup_app_r by lia. rewrite Nat.sub_diag. reflexivity.
    - reflexivity.
    - apply find_none_app_store; assumption.
    - exact Hhistory. }
  unfold modify. fields. reflexivity.
Qed.

(** X17.  On an engine whose tone is started and that has a current
    History, pressing a hotkey whose piano key has no active note, then
    letting time pass to the transport position [t'], not earlier than
    the press, then releasing the hotkey: the three handlers return; the
    press allocates one note of that key, held ([duration = -1]), stamped
    with the transport position of the press, and makes it active; after
    the release the active set is what it was, the note's duration is
    [t'] minus the position of the press, the History has the note
    inserted, the sampler got one attack and one release for the key,
    and the last activity is the time of the release. *)
Theorem press_and_release :
  exists s1 s2 s3,
    Piano.keyDown false key s = Returns tt s1
    /\ Piano.handle detectBpm (Piano.Elapse now' t') s1 = Returns tt s2
    /\ Piano.keyUp key s2 = Returns tt s3
    /\ activeNotes s1 = activeNotes s ++ [note]
    /\ store s1 !! note = Some pressed
    /\ activeNotes s3 = activeNotes s
    /\ store s3
       = store s
         ++ [Note.set_duration (t' - transportSeconds s) pressed]
    /\ currHistory s3
       = Some (History.add (store s ++ [pressed]) note h)
    /\ trace s3
       = trace s
         ++ [TriggerAttack k (contextTime (clocks s)) (8 # 10);
             AddNoteBar (Some k) (-1) (bpm s) Player false;
             TriggerRelease k (toneNow now' + (1 # 10));
             CanvasReleaseNote (PianoKey.keyNum k)
                               (t' - transportSeconds s)]
    /\ lastActivity s3 = wallClock now'.
Proof.
  eexists _, _, _. split; [apply keyDown_runs |].
  split; [reflexivity |].
  assert (Hfresh : ~ In note (activeNotes s)).
  { intros Hin. unfold allocated in Hactive.
    rewrite List.Forall_forall in Hactive. specialize (Hactive _ Hin).
    subst note. lia. }
  assert (Hfind :
    List.find (Piano.has_key (store s ++ [pressed]) (Some k))
              (activeNotes s ++ [note]) = Some note)
    by (apply find_app_fresh; [assumption | assumption | reflexivity]).
  assert (Hn : (store s ++ [pressed]) !! note = Some pressed).
  { subst note. rewrite lookup_app_r by lia. rewrite Nat.sub_diag.
    reflexivity. }
  assert (Hgt : Js.gtb (Js.abs (-1 - (t' - transportSeconds s))) (1 # 1000)
                = true).
  { apply gtb_true. unfold Js.abs.
    rewrite Qabs_neg by lra. lra. }
  split.
  { unfold Piano.keyUp. exec. rewrite Hkey. exec. fields. rewrite Hk.
    unfold Piano.releaseNote. exec. fields. rewrite Hfind. exec.
    unfold deref at 1. unfold bind at 1. fields. rewrite Hn.
    change (Note.duration pressed) with (-1).
    change (Note.time pressed) with (transportSeconds s).
    rewrite Hgt. unfold keyName_of. exec. fields.
    unfold update_note. exec. unfold emit, modify. fields. reflexivity. }
  fields.
  split; [reflexivity |]. split; [exact Hn |].
  split; [apply remove_first_app_fresh; exact Hfresh |].
  split.
  { subst note. rewrite alter_app_r_alt by lia. rewrite Nat.sub_diag.
    reflexivity. }
  split; [reflexivity |].
  split; [| reflexivity].
  rewrite <- !app_assoc. reflexivity.
Qed.
End PressRelease.

Lemma press_and_release_witness :
  exists s1 s2 s3,
    Piano.keyDown false "w" model_active = Returns tt s1
    /\ Piano.handle sample_detectBpm (Piano.Elapse (mkClocks 6000 6 6) 6) s1
       = Returns tt s2
    /\ Piano.keyUp "w" s2 = Returns tt s3
    /\ activeNotes s1 = [3%nat]
    /\ activeNotes s3 = []
    /\ Note.duration <$> store s3 !! 3%nat
       = Some (6 - transportSeconds model_active).
Proof.
  assert (Hh : exists h, currHistory model_active = Some h)
    by (vm_compute; eexists; reflexivity).
  destruct Hh as [h Hh].
  assert (Ea : activeNotes model_active = []) by (vm_compute; reflexivity).
  assert (El : length (store model_active) = 3%nat)
    by (vm_compute; reflexivity).
  destruct (press_and_release sample_detectBpm model_active "w" 17
              (PianoKey.new 17 50) h (mkClocks 6000 6 6) 6)
    as (s1 & s2 & s3 & H1 & H2 & H3 & H4 & _ & H6 & H7 & _).
  - vm_compute. reflexivity.
  - vm_compute. reflexivity.
  - vm_compute. reflexivity.
  - exact Hh.
  - rewrite Ea. constructor.
  - rewrite Ea. reflexivity.
  - vm_compute. discriminate.
  - exists s1, s2, s3. rewrite Ea, El in H4. rewrite Ea in H6.
    repeat (split; [assumption |]).
    rewrite H7. rewrite lookup_app_r by lia. rewrite El. reflexivity.
Defined.

(** X18.  On an engine whose tone is not started, pressing a hotkey
    whose piano key has no active note starts the tone and the seed
    listener: the tempo is the default tempo, the current History is a
    new History named "Player Prompt" whose only note is the held note
    of the key, the engine awaits input, and one interval of 50 ms that
    runs the seed awaiter is registered under [listenerIntervalId]. *)
Theorem first_key_press_starts_listening
        (s : State) (key : string) (keyNum : Z) (k : PianoKey.t) :
  Piano.keyMap_lookup key = Some keyNum ->
  Js.at_index (pianoKeys s) keyNum = Some k ->
  toneStarted s = false ->
  allocated (store s) (activeNotes s) ->
  List.find (Piano.has_key (store s) (Some k)) (activeNotes s) = None ->
  let note := length (store s) in
  let pressed :=
    Note.mk (Some k) (8 # 10) (-1) (transportSeconds s) Player None false in
  exists s',
    Piano.keyDown false key s = Returns tt s'
    /\ toneStarted s' = true /\ awaitingInput s' = true
    /\ bpm s' = defaultBPM s
    /\ currHistory s'
       = Some (History.set_noteHistory [note]
                 (History.new (defaultBPM s) "Player Prompt"))
    /\ listenerIntervalId s' = Some (nextTimerId s)
    /\ timers s'
       = timers s ++ [mkTimer (nextTimerId s) 50 true SeedInputAwaiterTask]
    /\ store s' = store s ++ [pressed]
    /\ activeNotes s' = activeNotes s ++ [note]
    /\ trace s'
       = trace s
         ++ [TransportStart;
             TriggerAttack k (contextTime (clocks s)) (8 # 10);
             AddNoteBar (Some k) (-1) (defaultBPM s) Player false]
    /\ lastActivity s' = wallClock (clocks s).
Proof.
  intros Hkey Hk Hstarted Hactive Hidle note pressed.
  destruct (keyMap_not_control _ _ Hkey) as [Hsp Harr].
  unfold Piano.keyDown. exec. rewrite Hsp, Harr. exec. rewrite Hkey.
  unfold Piano.keyPressed, Piano.startTone. exec. fields.
  rewrite Hstarted. exec.
  erewrite bind_returns by apply seedInputListener_runs.
  rewrite (keyPressed_plays keyNum k
             (History.new (defaultBPM s) "Player Prompt"));
    [| exact Hk | reflexivity | exact Hactive | exact Hidle].
  eexists. split; [reflexivity |]. fields.
  repeat (split; [reflexivity |]).
  split; [| reflexivity]. rewrite <- app_assoc. reflexivity.
Qed.

Lemma first_key_press_starts_listening_witness :
  exists s',
    Piano.keyDown false "q" new_engine = Returns tt s'
    /\ toneStarted s' = true /\ awaitingInput s' = true
    /\ History.noteHistory <$> currHistory s' = Some [0%nat]
    /\ listenerIntervalId s' = Some 2%nat.
Proof.
  destruct (first_key_press_starts_listening new_engine "q" 15
              (PianoKey.new 15 48))
    as (s' & H1 & H2 & H3 & _ & H5 & H6 & _).
  - reflexivity.
  - reflexivity.
  - reflexivity.
  - constructor.
  - reflexivity.
  - exists s'. repeat (split; [assumption |]).
    split; [rewrite H5; reflexivity | exact H6].
Defined.

(** ** A hotkey beyond the keyboard *)

Lemma keyPressed_undefined_key (keyNum : Z) (x : State) :
  Js.at_index (pianoKeys x) keyNum = None ->
  activeNotes x = [] ->
  (s <- get id ;;
   note <- newNote (Js.at_index (pianoKeys s) keyNum) (8 # 10) (-1)
                   (transportSeconds s) Player None false ;;
   Piano.playNote note (contextTime (clocks s)) ;;
   modify (fun s => set_lastActivity (wallClock (clocks s)) s)) x
  = Throws Js.TypeError
      (set_store
         (store x
          ++ [Note.mk None (8 # 10) (-1) (transportSeconds x) Player None
                      false]) x).
Proof.
  intros Hk Hact. exec. rewrite Hk.
  unfold newNote at 1. unfold bind at 1.
  set (n := Note.mk None _ _ _ _ _ _). set (x1 := set_store _ x).
  assert (Hn : store x1 !! length (store x) = Some n).
  { subst x1. fields. rewrite lookup_app_r by lia.
    rewrite Nat.sub_diag. reflexivity. }
  assert (Ha : activeNotes x1 = []) by (subst x1; exact Hact).
  clearbody x1.
  unfold Piano.playNote.
  unfold bind at 1.
  erewrite bind_returns by (unfold deref; rewrite Hn; reflexivity).
  erewrite bind_returns
    by (apply releaseNote_idle; rewrite Ha; reflexivity).
  erewrite bind_returns by (unfold deref; rewrite Hn; reflexivity).
  reflexivity.
Qed.

Lemma keyDown_undefined_key (s : State) (key : string) (keyNum : Z) :
  toneStarted s = false -> activeNotes s = [] ->
  Piano.keyMap_lookup key = Some keyNum ->
  Js.at_index (pianoKeys s) keyNum = None ->
  exists s',
    Piano.keyDown false key s = Throws Js.TypeError s'
    /\ toneStarted s' = true /\ awaitingInput s' = true
    /\ activeNotes s' = []
    /\ currHistory s' = Some (History.new (defaultBPM s) "Player Prompt")
    /\ timers s'
       = timers s ++ [mkTimer (nextTimerId s) 50 true SeedInputAwaiterTask]
    /\ listenerIntervalId s' = Some (nextTimerId s).
Proof.
  intros Hstarted Hact Hkey Hk.
  destruct (keyMap_not_control _ _ Hkey) as [Hsp Harr].
  unfold Piano.keyDown. exec. rewrite Hsp, Harr. exec. rewrite Hkey.
  unfold Piano.keyPressed, Piano.startTone. exec. fields.
  rewrite Hstarted. exec.
  erewrite bind_returns by apply seedInputListener_runs.
  rewrite keyPressed_undefined_key; [| exact Hk | exact Hact].
  eexists. split; [reflexivity |]. fields. repeat split. exact Hact.
Qed.

(** X19.  On a new engine, a hotkey whose key number is not on the
    keyboard (there are such hotkeys on every keyboard of three octaves
    or fewer) makes [keyDown] throw a [TypeError]: the tone and the seed
    listener are started, with a new, empty "Player Prompt" History and
    the awaiter's interval, set next to the interval of the constructor
    (the one live timer of a new engine) and kept in
    [listenerIntervalId], but no note is played or recorded. *)
Theorem hotkey_beyond_the_keyboard_throws
        (octaves : Z) (ticksPerBeat : Q) (clocks0 : Clocks) (s : State)
        (key : string) (keyNum : Z) :
  Piano.constructor octaves ticksPerBeat clocks0 = inr s ->
  Piano.keyMap_lookup key = Some keyNum ->
  (12 * octaves + 4 <= keyNum)%Z ->
  exists s',
    Piano.keyDown false key s = Throws Js.TypeError s'
    /\ toneStarted s' = true /\ awaitingInput s' = true
    /\ activeNotes s' = []
    /\ currHistory s' = Some (History.new 80 "Player Prompt")
    /\ timers s = [mkTimer 1 1000 true UpdateContextDateTimeTask]
    /\ timers s'
       = timers s ++ [mkTimer (nextTimerId s) 50 true SeedInputAwaiterTask]
    /\ listenerIntervalId s' = Some (nextTimerId s).
Proof.
  intros Hnew Hkey Hbeyond. unfold Piano.constructor in Hnew.
  destruct ((octaves <? 1)%Z || (octaves >? 7)%Z) eqn:Hrange;
    [discriminate |].
  injection Hnew as <-.
  apply orb_false_iff in Hrange as [Hlo _]. apply Z.ltb_ge in Hlo.
  destruct (keyDown_undefined_key
              (Piano.fields octaves ticksPerBeat clocks0) key keyNum)
    as (s' & H1 & H2 & H3 & H4 & H5 & H6 & H7);
    [reflexivity | reflexivity | exact Hkey | |].
  - change (pianoKeys _) with (PianoKey.createPianoKeys octaves).
    rewrite createPianoKeys_at_none by lia. reflexivity.
  - exists s'. repeat (split; [assumption |]).
    split; [reflexivity |]. split; assumption.
Qed.

Lemma hotkey_beyond_the_keyboard_throws_witness :
  exists s',
    Piano.keyDown false "/" (Piano.fields 3 4 (mkClocks 0 0 0))
    = Throws Js.TypeError s'
    /\ toneStarted s' = true /\ awaitingInput s' = true
    /\ List.map task (timers s')
       = [UpdateContextDateTimeTask; SeedInputAwaiterTask].
Proof.
  destruct (hotkey_beyond_the_keyboard_throws 3 4 (mkClocks 0 0 0)
              (Piano.fields 3 4 (mkClocks 0 0 0)) "/" 51)
    as (s' & H1 & H2 & H3 & _ & _ & H6 & H7 & _).
  - reflexivity.
  - reflexivity.
  - lia.
  - exists s'. repeat (split; [assumption |]).
    rewrite H7, H6. reflexivity.
Defined.
(** * The rewind, step by step *)

Local Open Scope Q_scope.



Lemma rewind_rewindTo (s : State) :
  Piano.rewind s
  = if negb (toneStarted s) || awaitingInput s then Returns false s
    else
      (Piano.addToHistoryList (currHistory s) ;;
       Piano.stopModel ;;
       modify (set_activeNotes []) ;;
       (h <- get currHistory ;;
        match h with
        | None => throw Js.TypeError
        | Some h => modify (set_currHistory (Some (History.copy h)))
        end) ;;
       s' <- get id ;;
       match currHistory s' ≫= History.lastSeedNoteTime with
       | None => outside
       | Some lastSeedNoteTime =>
           rewindTo (rewindTarget s' lastSeedNoteTime) (replaySeconds s')
                    (noteQueue s)
       end) s.
Proof.
  unfold Piano.rewind. rewrite bind_get. cbv beta delta [id].
  destruct (negb (toneStarted s) || awaitingInput s); reflexivity.
Qed.

Lemma replaySeconds_ext (s s' : State) :
  bpm s' = bpm s -> ticksPerBeat s' = ticksPerBeat s ->
  replaySeconds s' = replaySeconds s.
Proof.
  intros Hb Ht. unfold replaySeconds, Piano.beatsToSeconds.
  rewrite Hb, Ht. reflexivity.
Qed.

Lemma rewindTarget_ext (s s' : State) (t : Q) :
  bpm s' = bpm s -> ticksPerBeat s' = ticksPerBeat s ->
  transportSeconds s' = transportSeconds s ->
  rewindTarget s' t = rewindTarget s t.
Proof.
  intros Hb Ht Hs. unfold rewindTarget.
  rewrite (replaySeconds_ext s s' Hb Ht), Hs.
  unfold Piano.roundToOffset, Piano.beatsToSeconds.
  rewrite Hb, Ht. reflexivity.
Qed.

Section RewindTo.
Variables (x : State) (target rs : Q) (queued : list NoteRef)
          (hc : History.t).
Hypothesis Hh : currHistory x = Some hc.
Hypothesis Hqueued : allocated (store x) queued.
Hypothesis Hnotes : allocated (store x) (History.noteHistory hc).
Hypothesis Hempty : noteQueue x = [].

Let committed : History.t := commit_all (store x) (target + rs) queued hc.
Let kept : list NoteRef :=
  History.removeHistory (time_lt (store x)) (History.noteHistory committed)
                        target.
Let replayNotes : list NoteRef :=
  History.removeHistory (time_lt (store x))
    (History.getRecentHistory (time_ge (store x))
       (History.noteHistory committed) target)
    (target + rs).

Lemma committed_allocated :
  allocated (store x) (History.noteHistory committed).
Proof.
  apply commit_all_noteHistory_Forall; [exact Hqueued | exact Hnotes].
Qed.

Lemma rewindTo_runs :
  exists s',
    rewindTo target rs queued x = Returns true s'
    /\ transportSeconds s' = target
    /\ callModelEnd s' = target + rs
    /\ currHistory s' = Some (History.set_noteHistory kept committed)
    /\ Forall2 (replayed (store x) (store s') (transportEvents s'))
               (noteQueue s') replayNotes
    /\ store_extends (store x) (store s')
    /\ modelStartTime s' = modelStartTime x
    /\ activeNotes s' = activeNotes x
    /\ noteBuffer s' = noteBuffer x
    /\ allHistories s' = allHistories x
    /\ toneStarted s' = toneStarted x
    /\ startModelScheduleId s' = Some (nextTimerId x)
    /\ timers s'
       = List.filter
           (fun t => negb (Js.truthy (startModelScheduleId x)
                           && same_id (startModelScheduleId x) (timerId t)))
           (timers x)
         ++ [mkTimer (nextTimerId x) 800 false
                     (StartModelTask (rs * 1000 - 800))].
Proof.
  assert (Hreplay : allocated (store x) replayNotes).
  { apply removeHistory_Forall, getRecentHistory_Forall, committed_allocated. }
  assert (Hkept : allocated (store x) kept).
  { apply removeHistory_Forall, committed_allocated. }
  unfold rewindTo. exec.
  erewrite bind_returns; cycle 1.
  { apply for_each_commitQueued with (h := hc). exact Hh. }
  fields. fold committed. exec. fields. fold kept replayNotes. exec.
  erewrite bind_returns; cycle 1.
  { apply for_each_replayNote. fields. exact Hreplay. }
  set (s5 := set_currHistory (Some (History.set_noteHistory kept committed)) _).
  assert (Estore5 : store s5 = store x) by reflexivity.
  assert (Equeue5 : noteQueue s5 = []) by exact Hempty.
  assert (Hreplay5 : allocated (store s5) replayNotes) by exact Hreplay.
  destruct (replay_fold replayNotes s5 Hreplay5)
    as (news & ext & evs & Hq & Hs & He & Hall).
  cbv zeta in Hq, Hs, He, Hall.
  set (sr := fold_left replay_one replayNotes s5) in *.
  assert (Fr : currHistory sr = Some (History.set_noteHistory kept committed)
               /\ transportSeconds sr = target
               /\ callModelEnd sr = target + rs
               /\ modelStartTime sr = modelStartTime x
               /\ activeNotes sr = activeNotes x
               /\ noteBuffer sr = noteBuffer x
               /\ allHistories sr = allHistories x
               /\ toneStarted sr = toneStarted x
               /\ startModelScheduleId sr = startModelScheduleId x
               /\ timers sr = timers x
               /\ nextTimerId sr = nextTimerId x
               /\ allocated (store sr) kept).
  { repeat split; try (subst sr; through_loops; reflexivity).
    subst sr. apply fold_replay_allocated. exact Hkept. }
  destruct Fr as (R1 & R2 & R3 & R4 & R5 & R6 & R7 & R8 & R9 & R10 & R11 & R12).
  rewrite Equeue5 in Hq. cbn [app] in Hq. rewrite Estore5 in Hs, Hall.
  change (transportEvents s5) with (transportEvents x) in He.
  clearbody sr. clear s5 Estore5 Equeue5 Hreplay5.
  exec. rewrite R1. cbn [History.noteHistory History.set_noteHistory].
  erewrite bind_returns; cycle 1.
  { apply for_each_redrawNote. apply getRecentHistory_Forall. exact R12. }
  set (sd := fold_left redraw_one _ sr).
  assert (Fd : store sd = store sr /\ transportEvents sd = transportEvents sr
               /\ noteQueue sd = noteQueue sr
               /\ currHistory sd = currHistory sr
               /\ transportSeconds sd = transportSeconds sr
               /\ callModelEnd sd = callModelEnd sr
               /\ modelStartTime sd = modelStartTime sr
               /\ activeNotes sd = activeNotes sr
               /\ noteBuffer sd = noteBuffer sr
               /\ allHistories sd = allHistories sr
               /\ toneStarted sd = toneStarted sr
               /\ startModelScheduleId sd = startModelScheduleId sr
               /\ timers sd = timers sr
               /\ nextTimerId sd = nextTimerId sr).
  { repeat split; subst sd; through_loops; reflexivity. }
  destruct Fd as (D1 & D2 & D3 & D4 & D5 & D6 & D7 & D8 & D9 & D10 & D11
                  & D12 & D13 & D14).
  clearbody sd.
  exec. unfold setTimeout. rewrite D12, R9.
  assert (Hext : store_extends (store x) (store sr)).
  { rewrite Hs. apply store_extends_app. }
  destruct (Js.truthy (startModelScheduleId x)) eqn:Htr; exec;
    (eexists; split; [reflexivity |]); fields;
    rewrite ?D1, ?D2, ?D3, ?D4, ?D5, ?D6, ?D7, ?D8, ?D9, ?D10, ?D11, ?D13,
      ?D14, ?R1, ?R2, ?R3, ?R4, ?R5, ?R6, ?R7, ?R8, ?R10, ?R11, ?Hq;
    cbn [andb]; repeat (split; [first [reflexivity | assumption] |]).
  - reflexivity.
  - rewrite List.filter_ext with (g := fun _ => true) by reflexivity.
    f_equal. clear. induction (timers x) as [| t ts IH]; [reflexivity |].
    cbn. rewrite <- IH. reflexivity.
Qed.
End RewindTo.

Section Rewind.
Variables (s : State) (h : History.t) (lastSeedNoteTime : Q).
Hypothesis Hstarted : toneStarted s = true.
Hypothesis Hawaiting : awaitingInput s = false.
Hypothesis Hhistory : currHistory s = Some h.
Hypothesis Hseed : History.lastSeedNoteTime h = Some lastSeedNoteTime.
Hypothesis Harchive : History.isNew h = false \/ History.noteHistory h <> [].
Hypothesis Hqueue : allocated (store s) (noteQueue s).
Hypothesis Hnotes : allocated (store s) (History.noteHistory h).

Let target : Q := rewindTarget s lastSeedNoteTime.
Let rs : Q := replaySeconds s.
Let committed : History.t :=
  commit_all (store s) (target + rs) (noteQueue s) (History.copy h).
Let kept : list NoteRef :=
  History.removeHistory (time_lt (store s)) (History.noteHistory committed)
                        target.
Let replayNotes : list NoteRef :=
  History.removeHistory (time_lt (store s))
    (History.getRecentHistory (time_ge (store s))
       (History.noteHistory committed) target)
    (target + rs).

Lemma rewind_runs :
  exists s',
    Piano.rewind s = Returns true s'
    /\ transportSeconds s' = target
    /\ callModelEnd s' = target + rs
    /\ currHistory s' = Some (History.set_noteHistory kept committed)
    /\ Forall2 (replayed (store s) (store s') (transportEvents s'))
               (noteQueue s') replayNotes
    /\ store_extends (store s) (store s')
    /\ modelStartTime s' = None
    /\ activeNotes s' = []
    /\ noteBuffer s' = []
    /\ allHistories s'
       = allHistories s ++ (if History.isNew h then [h] else [])
    /\ toneStarted s' = true
    /\ startModelScheduleId s' = Some (nextTimerId s)
    /\ In (mkTimer (nextTimerId s) 800 false
                   (StartModelTask (rs * 1000 - 800))) (timers s')
    /\ (forall t, In t (timers s') ->
                  t = mkTimer (nextTimerId s) 800 false
                              (StartModelTask (rs * 1000 - 800))
                  \/ In t (timers s)
                     /\ callModelIntervalId s <> Some (timerId t)
                     /\ checkActivityIntervalId s <> Some (timerId t)).
Proof.
  rewrite rewind_rewindTo, Hstarted, Hawaiting. cbn [negb orb].
  rewrite Hhistory.
  erewrite bind_returns by (apply addToHistoryList_archived; exact Harchive).
  rewrite archived_state.
  erewrite bind_returns by (apply stopModel_stopped; exact Hqueue).
  destruct (stopped_state
              (set_allHistories
                 (allHistories s ++ (if History.isNew h then [h] else []))
                 s)) as (ev & tm & -> & Hev & Htm).
  fields in Htm.
  exec. fields. rewrite Hhistory. exec. fields.
  cbn [History.copy History.lastSeedNoteTime mbind option_bind].
  rewrite Hseed.
  match goal with
  | |- context [rewindTo _ _ _ ?X] =>
      rewrite (rewindTarget_ext s X) by reflexivity;
      rewrite (replaySeconds_ext s X) by reflexivity;
      destruct (rewindTo_runs X target rs (noteQueue s) (History.copy h))
        as (s' & Hrun & T1 & T2 & T3 & T4 & T5 & T6 & T7 & T8 & T9 & T10
            & T11 & T12)
  end.
  - reflexivity.
  - exact Hqueue.
  - exact Hnotes.
  - reflexivity.
  - fields in T3. fields in T4. fields in T5. fields in T6. fields in T7.
    fields in T8. fields in T9. fields in T10. fields in T11. fields in T12.
    rewrite Hstarted in T10.
    exists s'. split; [exact Hrun |].
    repeat (split; [assumption |]).
    split; [rewrite T12; apply in_or_app; right; left; reflexivity |].
    intros t Ht. rewrite T12 in Ht. apply in_app_or in Ht as [Ht | Ht].
    + right. apply List.filter_In in Ht as [Ht _]. apply Htm. exact Ht.
    + left. destruct Ht as [<- | []]. reflexivity.
Qed.
End Rewind.

(** Line 930: on a new History without notes the length label of
    [addToHistoryList] throws, after the push of line 983 and before
    [stopModel]. *)
Lemma rewind_on_an_empty_new_History (s : State) (h : History.t) :
  toneStarted s = true -> awaitingInput s = false ->
  currHistory s = Some h ->
  History.isNew h = true -> History.noteHistory h = [] ->
  Piano.rewind s
  = Throws Js.TypeError (set_allHistories (allHistories s ++ [h]) s).
Proof.
  intros Hstarted Hawaiting Hhistory Hnew Hempty.
  rewrite rewind_rewindTo, Hstarted, Hawaiting. cbn [negb orb].
  rewrite Hhistory. unfold Piano.addToHistoryList.
  rewrite Hnew, Hempty. reflexivity.
Qed.

(** X20.  Where [rewind] lands (lines 924-943 and 973-978).  On a
    started piano that is not awaiting seed input, with a current
    History whose seed has been frozen, whose notes exist, as the queued
    notes do: when the History is already archived or has a note,
    [rewind] returns [true], the transport is at
    [roundToOffset(max(now - 8, lastSeedNoteTime - replaySeconds))] and
    [callModelEnd] is that position plus [replaySeconds], with
    [replaySeconds] the seconds of [ceil(ticksPerBeat * 3 * bpm / 60)]
    ticks; the model is stopped, no note is left active, and one timeout
    of 800 ms is armed that starts the model with a glow delay of
    [replaySeconds * 1000 - 800].  When the History is new and has no
    note, [rewind] throws a [TypeError] at line 998 instead: the empty
    History is in the archive and nothing else has changed. *)
Theorem rewind_position
        (s : State) (h : History.t) (lastSeedNoteTime : Q) :
  toneStarted s = true -> awaitingInput s = false ->
  currHistory s = Some h ->
  History.lastSeedNoteTime h = Some lastSeedNoteTime ->
  allocated (store s) (noteQueue s) ->
  allocated (store s) (History.noteHistory h) ->
  (History.isNew h = false \/ History.noteHistory h <> [] ->
   exists s',
     Piano.rewind s = Returns true s'
     /\ transportSeconds s'
        = Piano.roundToOffset s
            (Js.max (transportSeconds s - 8)
                    (lastSeedNoteTime - replaySeconds s))
     /\ callModelEnd s' = transportSeconds s' + replaySeconds s
     /\ replaySeconds s
        = Piano.beatsToSeconds s
            (inject_Z (Js.ceil (ticksPerBeat s * 3 * bpm s / 60))
             / ticksPerBeat s)
     /\ modelStartTime s' = None /\ activeNotes s' = []
     /\ startModelScheduleId s' = Some (nextTimerId s)
     /\ In (mkTimer (nextTimerId s) 800 false
                    (StartModelTask (replaySeconds s * 1000 - 800)))
           (timers s'))
  /\ (History.isNew h = true -> History.noteHistory h = [] ->
      Piano.rewind s
      = Throws Js.TypeError (set_allHistories (allHistories s ++ [h]) s)).
Proof.
  intros Hstarted Hawaiting Hhistory Hseed Hqueue Hnotes.
  split; [| apply rewind_on_an_empty_new_History; assumption].
  intros Harchive.
  destruct (rewind_runs s h lastSeedNoteTime Hstarted Hawaiting Hhistory
              Hseed Harchive Hqueue Hnotes)
    as (s' & Hrun & T1 & T2 & _ & _ & _ & T6 & T7 & _ & _ & _ & T11 & T12 & _).
  exists s'. split; [exact Hrun |].
  unfold rewindTarget in T1. cbv zeta in T1.
  split; [exact T1 |].
  split; [rewrite T2, T1; reflexivity |].
  split; [reflexivity |].
  repeat (split; [assumption |]). exact T12.
Qed.

Lemma rewind_position_witness :
  exists s',
    Piano.rewind model_later = Returns true s'
    /\ transportSeconds s'
       = Piano.roundToOffset model_later
           (Js.max (transportSeconds model_later - 8)
                   ((1 # 2) - replaySeconds model_later))
    /\ callModelEnd s' = transportSeconds s' + replaySeconds model_later.
Proof.
  assert (Hh : exists h,
             currHistory model_later = Some h
             /\ History.lastSeedNoteTime h = Some (1 # 2)
             /\ History.noteHistory h = [0%nat; 1%nat])
    by (vm_compute; eexists; repeat split).
  destruct Hh as (h & Hh & Hseed & Hnotes).
  destruct (rewind_position model_later h (1 # 2)) as [Hreturns _].
  - vm_compute. reflexivity.
  - vm_compute. reflexivity.
  - exact Hh.
  - exact Hseed.
  - vm_compute. repeat constructor.
  - rewrite Hnotes. vm_compute. repeat constructor.
  - destruct Hreturns as (s' & Hrun & H1 & H2 & _).
    + right. rewrite Hnotes. discriminate.
    + exists s'. split; [exact Hrun |]. split; [exact H1 | exact H2].
Defined.

Lemma commit_all_In_inv (σ : Store) (c : Q) (queued : list NoteRef)
      (h : History.t) (x : NoteRef) :
  In x (History.noteHistory (commit_all σ c queued h)) ->
  In x (History.noteHistory h)
  \/ (In x queued /\ time_le σ x c = true).
Proof.
  unfold commit_all. revert h.
  induction queued as [| r queued IH]; intros h H; [left; exact H |].
  cbn [fold_left] in H. apply IH in H as [H | [H1 H2]].
  - destruct (time_le σ r c) eqn:E; [| left; exact H].
    cbn in H. apply insert_by_time_In in H as [<- | H].
    + right. split; [left; reflexivity | exact E].
    + left. exact H.
  - right. split; [right; exact H1 | exact H2].
Qed.

Lemma commit_all_parent (σ : Store) (c : Q) (queued : list NoteRef)
      (h : History.t) :
  History.parentHistory (commit_all σ c queued h) = History.parentHistory h
  /\ History.lastSeedNoteTime (commit_all σ c queued h)
     = History.lastSeedNoteTime h
  /\ History.bpm (commit_all σ c queued h) = History.bpm h.
Proof.
  unfold commit_all. revert h.
  induction queued as [| r queued IH]; intros h; [repeat split |].
  cbn [fold_left]. destruct (IH (if time_le σ r c then History.add σ r h else h))
    as (-> & -> & ->).
  destruct (time_le σ r c); repeat split.
Qed.

(** X21.  What [rewind] does with the notes (lines 924-957).  On a
    started piano that is not awaiting seed input, with a current
    History whose seed has been frozen and that is already archived or
    has a note (on a new History without notes [rewind] throws at line
    998), the notes of the History and the queued notes being notes of
    the store: [rewind] returns [true]; the branch that becomes the
    current History is a copy whose parent is the History rewound from;
    the queued notes that start no later than the new [callModelEnd]
    are committed to it, and no other note is: the branch holds exactly
    the notes of the original and those queued notes.  The current
    History is then cut by [History.removeHistory] at the new position,
    and each note of the replay window - [History.getRecentHistory]
    from the new position, cut at [callModelEnd] - is copied into a
    fresh rewind note that is scheduled on the transport and queued, in
    order: the queue after the rewind is exactly these copies.  The
    History rewound from is archived when it is new.  The History class
    is modelled from the spec. *)
Theorem rewind_commits_and_replays
        (s : State) (h : History.t) (lastSeedNoteTime : Q) :
  toneStarted s = true -> awaitingInput s = false ->
  currHistory s = Some h ->
  History.lastSeedNoteTime h = Some lastSeedNoteTime ->
  History.isNew h = false \/ History.noteHistory h <> [] ->
  allocated (store s) (noteQueue s) ->
  allocated (store s) (History.noteHistory h) ->
  let target := rewindTarget s lastSeedNoteTime in
  let callModelEnd' := target + replaySeconds s in
  let committed :=
    commit_all (store s) callModelEnd' (noteQueue s) (History.copy h) in
  exists s',
    Piano.rewind s = Returns true s'
    /\ transportSeconds s' = target /\ callModelEnd s' = callModelEnd'
    /\ (forall note,
          In note (History.noteHistory committed)
          <-> In note (History.noteHistory h)
              \/ (In note (noteQueue s)
                  /\ time_le (store s) note callModelEnd' = true))
    /\ History.parentHistory committed = Some h
    /\ currHistory s'
       = Some (History.set_noteHistory
                 (History.removeHistory (time_lt (store s))
                    (History.noteHistory committed) target)
                 committed)
    /\ Forall2 (replayed (store s) (store s') (transportEvents s'))
               (noteQueue s')
               (History.removeHistory (time_lt (store s))
                  (History.getRecentHistory (time_ge (store s))
                     (History.noteHistory committed) target)
                  callModelEnd')
    /\ allHistories s'
       = allHistories s ++ (if History.isNew h then [h] else []).
Proof.
  intros Hstarted Hawaiting Hhistory Hseed Harchive Hqueue Hnotes
         target cme committed.
  destruct (rewind_runs s h lastSeedNoteTime Hstarted Hawaiting Hhistory
              Hseed Harchive Hqueue Hnotes)
    as (s' & Hrun & T1 & T2 & T3 & T4 & _ & _ & _ & _ & T9 & _).
  exists s'. split; [exact Hrun |].
  split; [exact T1 |]. split; [exact T2 |].
  split.
  { intros note.
    change (History.noteHistory h)
      with (History.noteHistory (History.copy h)).
    split; [apply commit_all_In_inv | apply commit_all_In]. }
  split; [apply commit_all_parent |].
  split; [exact T3 |]. split; [exact T4 | exact T9].
Qed.

Lemma rewind_commits_and_replays_witness :
  exists s' h,
    currHistory model_later = Some h
    /\ Piano.rewind model_later = Returns true s'
    /\ allHistories s'
       = allHistories model_later ++ (if History.isNew h then [h] else []).
Proof.
  assert (Hh : exists h,
             currHistory model_later = Some h
             /\ History.lastSeedNoteTime h = Some (1 # 2)
             /\ History.noteHistory h = [0%nat; 1%nat])
    by (vm_compute; eexists; repeat split).
  destruct Hh as (h & Hh & Hseed & Hnotes).
  destruct (rewind_commits_and_replays model_later h (1 # 2))
    as (s' & Hrun & _ & _ & _ & _ & _ & _ & Hall).
  - vm_compute. reflexivity.
  - vm_compute. reflexivity.
  - exact Hh.
  - exact Hseed.
  - right. rewrite Hnotes. discriminate.
  - vm_compute. repeat constructor.
  - rewrite Hnotes. vm_compute. repeat constructor.
  - exists s', h. repeat split; assumption.
Defined.

(** * The order of the History *)

Local Open Scope Q_scope.

Lemma allocated_timeOf (σ : Store) (r : NoteRef) :
  (r < length σ)%nat -> exists t, timeOf σ r = Some t.
Proof.
  intros Hr. apply lookup_lt_is_Some_2 in Hr as [n Hn].
  exists (Note.time n). unfold timeOf. rewrite Hn. reflexivity.
Qed.

Lemma leb_total (a b : Q) : Js.leb a b = false -> b <= a.
Proof.
  unfold Js.leb. intros H.
  assert (N : ~ a <= b) by (rewrite <- Qle_bool_iff; congruence). lra.
Qed.

(** [add] keeps a History in order of time. *)
Lemma insert_by_time_sorted (σ : Store) (note : NoteRef)
      (notes : list NoteRef) :
  (note < length σ)%nat ->
  sorted_by_time σ notes ->
  sorted_by_time σ (History.insert_by_time σ note notes).
Proof.
  intros Hnote [Halloc Hsorted]. split.
  { apply insert_by_time_Forall; assumption. }
  destruct (allocated_timeOf σ note Hnote) as [tn Htn].
  induction Hsorted as [| x rest Hrest IH Hx]; cbn.
  - repeat constructor.
  - inversion Halloc as [| ? ? Hxlen Hrest_alloc]; subst.
    destruct (allocated_timeOf σ x Hxlen) as [tx Htx].
    rewrite Htx, Htn. destruct (Js.leb tx tn) eqn:Hle.
    + constructor; [apply IH, Hrest_alloc |].
      apply List.Forall_forall. intros y Hy.
      apply insert_by_time_In in Hy as [<- | Hy].
      * intros ta tb Ha Hb. rewrite Htx in Ha. rewrite Htn in Hb.
        injection Ha as <-. injection Hb as <-.
        apply Qle_bool_iff. exact Hle.
      * rewrite List.Forall_forall in Hx. apply Hx, Hy.
    + apply leb_total in Hle.
      constructor; [constructor; assumption |].
      constructor.
      * intros ta tb Ha Hb. rewrite Htn in Ha. rewrite Htx in Hb.
        injection Ha as <-. injection Hb as <-. exact Hle.
      * apply List.Forall_forall. intros y Hy.
        rewrite List.Forall_forall in Hx.
        intros ta tb Ha Hb. rewrite Htn in Ha. injection Ha as <-.
        pose proof (Hx y Hy tx tb Htx Hb). lra.
Qed.

Lemma commit_all_sorted (σ : Store) (c : Q) (queued : list NoteRef)
      (h : History.t) :
  allocated σ queued ->
  sorted_by_time σ (History.noteHistory h) ->
  sorted_by_time σ (History.noteHistory (commit_all σ c queued h)).
Proof.
  intros Hq. revert h.
  induction Hq as [| r queued Hr _ IH]; intros h Hh; [exact Hh |].
  unfold commit_all. cbn [fold_left]. apply IH.
  destruct (time_le σ r c); [| exact Hh].
  cbn. apply insert_by_time_sorted; assumption.
Qed.

Lemma sorted_by_time_app_r (σ : Store) (xs ys : list NoteRef) :
  sorted_by_time σ (xs ++ ys) -> sorted_by_time σ ys.
Proof.
  intros [Halloc Hsorted]. split.
  - unfold allocated in *. apply List.Forall_app in Halloc. apply Halloc.
  - induction xs as [| x xs IH]; [exact Hsorted |].
    cbn in *. inversion Hsorted; subst. inversion Halloc; subst.
    apply IH; assumption.
Qed.

(** On a History in order of time, the two queries of lines 951 and 952
    select by time. *)
Lemma queries_select (σ : Store) (notes : list NoteRef) (from to : Q) :
  sorted_by_time σ notes ->
  History.removeHistory (time_lt σ) notes from
  = List.filter (fun r => time_lt σ r from) notes
  /\ History.removeHistory (time_lt σ)
       (History.getRecentHistory (time_ge σ) notes from) to
     = List.filter (fun r => time_ge σ r from && time_lt σ r to) notes.
Proof.
  intros Hsorted.
  destruct (sorted_by_time_cut σ from notes Hsorted)
    as (xs & ys & -> & Hxs & Hys).
  destruct (queries_on_cut (time_lt σ) (time_ge σ) from xs ys Hxs Hys)
    as (-> & -> & -> & _).
  split; [reflexivity |].
  apply sorted_by_time_app_r in Hsorted.
  destruct (sorted_by_time_cut σ to ys Hsorted)
    as (us & vs & -> & Hus & Hvs).
  destruct (queries_on_cut (time_lt σ) (time_ge σ) to us vs Hus Hvs)
    as (-> & _ & _ & _).
  apply List.Forall_app in Hys as [Hys1 Hys2].
  rewrite !List.filter_app.
  rewrite (filter_none _ xs), (filter_all _ us), (filter_none _ vs).
  - rewrite app_nil_r. reflexivity.
  - rewrite List.Forall_forall in Hvs |- *. intros r Hr.
    destruct (Hvs r Hr) as [-> _]. apply andb_false_r.
  - rewrite List.Forall_forall in Hus, Hys1 |- *. intros r Hr.
    destruct (Hus r Hr) as [-> _]. destruct (Hys1 r Hr) as [_ ->].
    reflexivity.
  - rewrite List.Forall_forall in Hxs |- *. intros r Hr.
    destruct (Hxs r Hr) as [_ ->]. reflexivity.
Qed.


(** The prefix that [removeHistory] returns is in order. *)
Lemma sorted_by_time_app_l (σ : Store) (xs ys : list NoteRef) :
  sorted_by_time σ (xs ++ ys) -> sorted_by_time σ xs.
Proof.
  intros [Halloc Hsorted]. split.
  - unfold allocated in *. apply List.Forall_app in Halloc. apply Halloc.
  - induction xs as [| x xs IH]; [constructor |].
    cbn in *. inversion Hsorted as [| ? ? Hs Hx]; subst.
    inversion Halloc; subst.
    constructor; [apply IH; assumption |].
    apply List.Forall_app in Hx. apply Hx.
Qed.

Lemma take_while_prefix {A : Type} (keep : A -> bool) (l : list A) :
  exists rest, l = History.take_while keep l ++ rest.
Proof.
  induction l as [| x l [rest E]]; [exists []; reflexivity |].
  cbn. destruct (keep x).
  - exists rest. cbn. f_equal. exact E.
  - exists (x :: l). reflexivity.
Qed.

Lemma removeHistory_sorted (σ : Store) (notes : list NoteRef) (cutoff : Q) :
  sorted_by_time σ notes ->
  sorted_by_time σ (History.removeHistory (time_lt σ) notes cutoff).
Proof.
  intros H. unfold History.removeHistory.
  destruct (take_while_prefix (fun n => time_lt σ n cutoff) notes)
    as [rest E].
  rewrite E in H. apply sorted_by_time_app_l in H. exact H.
Qed.

(** Notes keep their time, so a History stays in order when the store
    changes. *)
Lemma sorted_by_time_extends (σ σ' : Store) (notes : list NoteRef) :
  store_extends σ σ' -> sorted_by_time σ notes -> sorted_by_time σ' notes.
Proof.
  intros Hext [Halloc Hsorted]. split.
  - eapply allocated_extends; eassumption.
  - induction Hsorted as [| x rest Hrest IH Hx]; [constructor |].
    inversion Halloc as [| ? ? Hxlen Hrest_alloc]; subst.
    constructor; [apply IH, Hrest_alloc |].
    rewrite List.Forall_forall in Hx, Hrest_alloc |- *. intros y Hy.
    destruct (allocated_timeOf σ x Hxlen) as [tx Htx].
    destruct (allocated_timeOf σ y (Hrest_alloc y Hy)) as [ty Hty].
    intros ta tb Ha Hb.
    rewrite (store_extends_timeOf σ σ' x tx Hext Htx) in Ha.
    rewrite (store_extends_timeOf σ σ' y ty Hext Hty) in Hb.
    injection Ha as <-. injection Hb as <-.
    exact (Hx y Hy tx ty Htx Hty).
Qed.

(** ** The methods that leave the notes alone *)

#[global] Instance notes_frame_refl : Reflexive notes_frame.
Proof. intros s. repeat split. reflexivity. Qed.

#[global] Instance notes_frame_trans : Transitive notes_frame.
Proof.
  intros a b c (H1 & H2 & H3 & H4) (K1 & K2 & K3 & K4).
  split; [congruence |]. split; [congruence |]. split; [congruence |].
  etransitivity; eassumption.
Qed.

Lemma notes_frame_keeps (s s' : State) :
  notes_frame s s' -> keeps notes_inv s s'.
Proof.
  intros (Hh & Hq & Hb & Hext) (I1 & I2 & I3).
  split; [| split].
  - intros h' Eh'. rewrite Eh' in Hh.
    destruct (currHistory s) as [h |]; [| discriminate Hh].
    injection Hh as Hh. rewrite Hh.
    eapply sorted_by_time_extends; [exact Hext |]. apply I1. reflexivity.
  - rewrite Hq. eapply allocated_extends; eassumption.
  - rewrite Hb. eapply allocated_extends; eassumption.
Qed.

Lemma notes_frame_keeps_with (note : NoteRef) (s s' : State) :
  notes_frame s s' -> keeps (notes_inv_with note) s s'.
Proof.
  intros H [I Hn]. split; [apply (notes_frame_keeps s s' H I) |].
  destruct H as (_ & _ & _ & Hext).
  eapply store_extends_length; eassumption.
Qed.

Create HintDb nframe discriminated.

Ltac nframe_now :=
  unfold notes_frame; fields;
  split; [reflexivity |]; split; [reflexivity |]; split; [reflexivity |];
  first [ reflexivity
        | apply store_extends_app
        | apply store_extends_alter; intros ?; repeat split ].

Ltac nframe_modify := apply respects_modify; intros ?; nframe_now.

Ltac nframe_auto :=
  repeat first
    [ solve [auto with nframe nocore]
    | nframe_modify
    | respects_step ].

Lemma nframe_emit (c : Command) : respects notes_frame (emit c).
Proof. unfold emit. nframe_modify. Qed.

Lemma nframe_deref (r : NoteRef) : respects notes_frame (deref r).
Proof.
  intros s. unfold deref. destruct (store s !! r); [reflexivity | exact I].
Qed.

Lemma nframe_update_duration (r : NoteRef) (d : Q) :
  respects notes_frame (update_note r (Note.set_duration d)).
Proof. unfold update_note. nframe_modify. Qed.

Lemma nframe_update_scheduleId (r : NoteRef) (id : option nat) :
  respects notes_frame (update_note r (Note.set_scheduleId id)).
Proof. unfold update_note. nframe_modify. Qed.

Lemma nframe_newNote key velocity duration time actor scheduleId isRewind :
  respects notes_frame
    (newNote key velocity duration time actor scheduleId isRewind).
Proof. intros s. unfold newNote. nframe_now. Qed.

Lemma nframe_transportScheduleOnce (cb : Callback) (time : Q) :
  respects notes_frame (transportScheduleOnce cb time).
Proof. intros s. unfold transportScheduleOnce. nframe_now. Qed.

Lemma nframe_transportClear (id : option nat) :
  respects notes_frame (transportClear id).
Proof. unfold transportClear. nframe_modify. Qed.

Lemma nframe_transportCancel : respects notes_frame transportCancel.
Proof. unfold transportCancel. nframe_modify. Qed.

Lemma nframe_setTimer (r : bool) (k : TimerTask) (d : Q) :
  respects notes_frame (setTimer r k d).
Proof. intros s. unfold setTimer. nframe_now. Qed.

Lemma nframe_setInterval (k : TimerTask) (d : Q) :
  respects notes_frame (setInterval k d).
Proof. apply nframe_setTimer. Qed.

Lemma nframe_setTimeout (k : TimerTask) (d : Q) :
  respects notes_frame (setTimeout k d).
Proof. apply nframe_setTimer. Qed.

Lemma nframe_clearTimer (id : option nat) :
  respects notes_frame (clearTimer id).
Proof. unfold clearTimer. nframe_modify. Qed.

Lemma nframe_keyName_of (k : option PianoKey.t) :
  respects notes_frame (keyName_of k).
Proof. unfold keyName_of. nframe_auto. Qed.

#[global] Hint Resolve nframe_emit nframe_deref nframe_update_duration
  nframe_update_scheduleId nframe_newNote nframe_transportScheduleOnce
  nframe_transportClear nframe_transportCancel nframe_setInterval
  nframe_setTimeout nframe_clearTimer nframe_keyName_of : nframe.

Lemma nframe_releaseNote (k : option PianoKey.t) (t : Q) :
  respects notes_frame (Piano.releaseNote k t).
Proof. unfold Piano.releaseNote. nframe_auto. Qed.
#[global] Hint Resolve nframe_releaseNote : nframe.

Lemma nframe_releaseAllNotes : respects notes_frame Piano.releaseAllNotes.
Proof. unfold Piano.releaseAllNotes, Piano.releaseActive. nframe_auto. Qed.
#[global] Hint Resolve nframe_releaseAllNotes : nframe.

Lemma nframe_callModel_call (b : bool) :
  respects notes_frame (Piano.callModel_call b).
Proof. unfold Piano.callModel_call. nframe_auto. Qed.
#[global] Hint Resolve nframe_callModel_call : nframe.

Lemma nframe_addToHistoryList (h : option History.t) :
  respects notes_frame (Piano.addToHistoryList h).
Proof. unfold Piano.addToHistoryList. nframe_auto. Qed.
#[global] Hint Resolve nframe_addToHistoryList : nframe.

Lemma nframe_scheduleStartModel (t : Q) :
  respects notes_frame (Piano.scheduleStartModel t).
Proof. unfold Piano.scheduleStartModel. nframe_auto. Qed.
#[global] Hint Resolve nframe_scheduleStartModel : nframe.

Lemma nframe_setBPM (b : Q) : respects notes_frame (Piano.setBPM b).
Proof. unfold Piano.setBPM. nframe_auto. Qed.

Lemma nframe_startTone : respects notes_frame Piano.startTone.
Proof. unfold Piano.startTone. nframe_auto. Qed.

Lemma nframe_startModel (glowDelayMs : Q) :
  respects notes_frame (Piano.startModel glowDelayMs).
Proof. unfold Piano.startModel. nframe_auto. Qed.

Lemma nframe_clearScheduled (note : NoteRef) :
  respects notes_frame (Piano.clearScheduled note).
Proof. unfold Piano.clearScheduled. nframe_auto. Qed.

Lemma nframe_redrawNote (note : NoteRef) :
  respects notes_frame (Piano.redrawNote note).
Proof. unfold Piano.redrawNote. nframe_auto. Qed.
#[global] Hint Resolve nframe_setBPM nframe_startTone nframe_startModel
  nframe_clearScheduled nframe_redrawNote : nframe.

(** ** The methods that add and remove notes *)

Create HintDb nkeeps discriminated.

Lemma nkeeps_frame {A} (m : M A) :
  respects notes_frame m -> respects (keeps notes_inv) m.
Proof. apply respects_weaken. exact notes_frame_keeps. Qed.

Lemma nkeeps_frame_with {A} (note : NoteRef) (m : M A) :
  respects notes_frame m -> respects (keeps (notes_inv_with note)) m.
Proof. apply respects_weaken. apply notes_frame_keeps_with. Qed.

(** Lines 822-823 and 838, and the empty History of lines 851 and
    1033. *)
Lemma nkeeps_empty_queue :
  respects (keeps notes_inv) (modify (set_noteQueue [])).
Proof.
  apply respects_modify. intros s (I1 & I2 & I3).
  split; [exact I1 |]. split; [constructor | exact I3].
Qed.

Lemma nkeeps_empty_buffer :
  respects (keeps notes_inv) (modify (set_noteBuffer [])).
Proof.
  apply respects_modify. intros s (I1 & I2 & I3).
  split; [exact I1 |]. split; [exact I2 | constructor].
Qed.

Lemma nkeeps_no_history :
  respects (keeps notes_inv) (modify (set_currHistory None)).
Proof.
  apply respects_modify. intros s (I1 & I2 & I3).
  split; [intros h E; discriminate E |]. split; assumption.
Qed.

Lemma nkeeps_new_history (h : History.t) :
  History.noteHistory h = [] ->
  respects (keeps notes_inv) (modify (set_currHistory (Some h))).
Proof.
  intros Hh. apply respects_modify. intros s (I1 & I2 & I3).
  split; [| split; assumption].
  intros h' [= <-]. rewrite Hh. split; constructor.
Qed.

Lemma nkeeps_player_prompt :
  respects (keeps notes_inv)
    (modify (fun s =>
       set_currHistory (Some (History.new (bpm s) "Player Prompt")) s)).
Proof.
  apply respects_modify. intros s (I1 & I2 & I3).
  split; [| split; assumption].
  intros h' [= <-]. split; constructor.
Qed.

#[global] Hint Resolve nkeeps_empty_queue nkeeps_empty_buffer
  nkeeps_no_history nkeeps_player_prompt : nkeeps.

(** Lines 755-758: a note that is scheduled is a note of the store. *)
Lemma nkeeps_scheduleNote (note : NoteRef) :
  respects (keeps notes_inv) (Piano.scheduleNote note).
Proof.
  intros s. unfold Piano.scheduleNote.
  unfold bind at 1. unfold deref at 1.
  destruct (store s !! note) as [n |] eqn:Hn; [| exact I].
  unfold transportScheduleOnce, update_note. exec. unfold modify.
  intros (I1 & I2 & I3).
  assert (Hext : store_extends
                   (store s)
                   (alter (Note.set_scheduleId (Some (nextEventId s))) note
                          (store s)))
    by (apply store_extends_alter; intros ?; repeat split).
  split; [| split]; fields.
  - intros h Eh. eapply sorted_by_time_extends; [exact Hext |].
    apply I1, Eh.
  - apply List.Forall_app. split.
    + eapply allocated_extends; eassumption.
    + constructor; [| constructor]. rewrite length_alter.
      eapply lookup_lt_Some. exact Hn.
  - eapply allocated_extends; eassumption.
Qed.
#[global] Hint Resolve nkeeps_scheduleNote : nkeeps.

(** [currHistory.add(note)] keeps the order, for a note of the store. *)
Lemma nkeeps_currHistory_add (note : NoteRef) :
  respects (keeps (notes_inv_with note)) (Piano.currHistory_add note).
Proof.
  intros s. unfold Piano.currHistory_add. rewrite bind_get.
  cbv beta delta [id].
  destruct (currHistory s) as [h |] eqn:Eh; [| intros H; exact H].
  unfold modify. intros [(I1 & I2 & I3) Hn].
  split; [| exact Hn]. split; [| split; assumption]. fields.
  intros h' [= <-]. cbn. apply insert_by_time_sorted; [exact Hn |].
  apply I1. exact Eh.
Qed.

Lemma nkeeps_dequeue (note note' : NoteRef) :
  respects (keeps (notes_inv_with note'))
    (modify (fun s => set_noteQueue (Js.remove_first note (noteQueue s)) s)).
Proof.
  apply respects_modify. intros s [(I1 & I2 & I3) Hn].
  split; [| exact Hn]. split; [exact I1 |].
  split; [apply remove_first_Forall; exact I2 | exact I3].
Qed.

Ltac nkeeps_with_auto :=
  repeat first
    [ solve [apply nkeeps_currHistory_add]
    | solve [apply nkeeps_dequeue]
    | solve [apply nkeeps_frame_with; auto with nframe nocore]
    | solve [apply nkeeps_frame_with; nframe_modify]
    | respects_step ].

(** Lines 704-728. *)
Lemma nkeeps_playNote (note : NoteRef) (contextTime : Q) :
  respects (keeps notes_inv) (Piano.playNote note contextTime).
Proof.
  intros s. unfold Piano.playNote.
  unfold bind at 1. unfold deref at 1.
  destruct (store s !! note) as [n |] eqn:Hn; [| exact I].
  match goal with
  | |- match ?m s with _ => _ end =>
      assert (H : respects (keeps (notes_inv_with note)) m)
        by nkeeps_with_auto;
      specialize (H s); destruct (m s) as [a s' | e s' |]; try exact I
  end;
    intros Hinv;
    apply H; (split; [exact Hinv | eapply lookup_lt_Some; exact Hn]).
Qed.
#[global] Hint Resolve nkeeps_playNote : nkeeps.

Ltac nkeeps_auto :=
  repeat first
    [ solve [auto with nkeeps nocore]
    | solve [apply nkeeps_frame; auto with nframe nocore]
    | solve [apply nkeeps_frame; nframe_modify]
    | solve [apply nkeeps_new_history; reflexivity]
    | respects_step ].

(** Lines 775-782: a note made of the result of the model is a note of
    the store. *)
Lemma nkeeps_applyGenerated (c : ModelCall) (gen : Generated) :
  respects (keeps notes_inv) (Piano.applyGenerated c gen).
Proof.
  intros s. unfold Piano.applyGenerated. rewrite bind_get.
  unfold bind at 1. unfold newNote at 1.
  set (n := Note.mk _ _ _ _ _ _ _).
  set (s1 := set_store (store s ++ [n]) s).
  assert (H1 : notes_inv s -> notes_inv s1).
  { apply notes_frame_keeps. subst s1. nframe_now. }
  assert (Hlen : (length (store s) < length (store s1))%nat).
  { subst s1. fields. rewrite length_app. cbn. lia. }
  destruct (scheduleImmediately c).
  - pose proof (nkeeps_scheduleNote (length (store s)) s1) as H.
    destruct (Piano.scheduleNote (length (store s)) s1); try exact I;
      intros Hinv; apply H, H1, Hinv.
  - unfold modify. intros Hinv. destruct (H1 Hinv) as (I1 & I2 & I3).
    split; [exact I1 |]. split; [exact I2 |]. fields.
    apply List.Forall_app. split; [exact I3 |].
    constructor; [exact Hlen | constructor].
Qed.
#[global] Hint Resolve nkeeps_applyGenerated : nkeeps.

Lemma nkeeps_callModel_resume (c : ModelCall) (generated : list Generated) :
  respects (keeps notes_inv) (Piano.callModel_resume c generated).
Proof. unfold Piano.callModel_resume. nkeeps_auto. Qed.

Lemma nkeeps_stopModel : respects (keeps notes_inv) Piano.stopModel.
Proof. unfold Piano.stopModel. nkeeps_auto. Qed.

Lemma nkeeps_replayNote (note : NoteRef) :
  respects (keeps notes_inv) (Piano.replayNote note).
Proof. unfold Piano.replayNote. nkeeps_auto. Qed.

Lemma nkeeps_seedInputListener :
  respects (keeps notes_inv) Piano.seedInputListener.
Proof. unfold Piano.seedInputListener. nkeeps_auto. Qed.
#[global] Hint Resolve nkeeps_callModel_resume nkeeps_stopModel
  nkeeps_replayNote nkeeps_seedInputListener : nkeeps.

Lemma nkeeps_resetAll : respects (keeps notes_inv) Piano.resetAll.
Proof. unfold Piano.resetAll. nkeeps_auto. Qed.
#[global] Hint Resolve nkeeps_resetAll : nkeeps.

Lemma nkeeps_checkActivity : respects (keeps notes_inv) Piano.checkActivity.
Proof. unfold Piano.checkActivity. nkeeps_auto. Qed.

Lemma nkeeps_keyPressed (keyNum : Z) :
  respects (keeps notes_inv) (Piano.keyPressed keyNum).
Proof. unfold Piano.keyPressed. nkeeps_auto. Qed.

Lemma nkeeps_keyUp (key : string) :
  respects (keeps notes_inv) (Piano.keyUp key).
Proof. unfold Piano.keyUp. nkeeps_auto. Qed.

Lemma nkeeps_replayHistory (idx : Z) :
  respects (keeps notes_inv) (Piano.replayHistory idx).
Proof. unfold Piano.replayHistory. nkeeps_auto. Qed.
#[global] Hint Resolve nkeeps_checkActivity nkeeps_keyPressed nkeeps_keyUp
  nkeeps_replayHistory : nkeeps.

(** Lines 877-882: the awaiter stores the tempo and the seed in the
    current History, whose notes stay as they are. *)
Lemma nkeeps_seedInputAwaiter detectBpm :
  respects (keeps notes_inv) (Piano.seedInputAwaiter detectBpm).
Proof.
  intros s. unfold Piano.seedInputAwaiter. rewrite bind_get.
  cbv beta zeta delta [id].
  destruct (modelStartTime s) as [started |].
  - match goal with
    | |- match ?m s with _ => _ end =>
        assert (H : respects (keeps notes_inv) m) by nkeeps_auto;
        exact (H s)
    end.
  - destruct (_ && _); [| intros H; exact H].
    destruct (currHistory s) as [h |] eqn:Eh; [| intros H; exact H].
    rewrite !bind_modify.
    set (d := detectBpm _ _ _).
    destruct (Js.at_last (History.noteHistory h)) as [lastNote |].
    + unfold bind at 1. unfold deref at 1. fields.
      destruct (store s !! lastNote) as [n |]; [| exact I].
      rewrite !bind_modify.
      match goal with
      | |- match Piano.callModel_call false ?s' with _ => _ end =>
          set (s1 := s');
          pose proof (nkeeps_frame _ (nframe_callModel_call false) s1) as H;
          destruct (Piano.callModel_call false s1); try exact I;
          intros Hinv; apply H
      end;
        destruct Hinv as (I1 & I2 & I3);
        (split; [| split; assumption]);
        intros h' [= <-]; apply (I1 h Eh).
    + intros (I1 & I2 & I3). split; [| split; assumption].
      intros h' [= <-]. apply (I1 h Eh).
Qed.
#[global] Hint Resolve nkeeps_seedInputAwaiter : nkeeps.

(** Line 932: the branch has the notes of the History rewound from. *)
Lemma nkeeps_copy :
  respects (keeps notes_inv)
    (h <- get currHistory ;;
     match h with
     | None => throw Js.TypeError
     | Some h => modify (set_currHistory (Some (History.copy h)))
     end).
Proof.
  intros s. rewrite bind_get.
  destruct (currHistory s) as [h |] eqn:Eh; [| intros H; exact H].
  intros (I1 & I2 & I3). split; [| split; assumption].
  intros h' [= <-]. apply (I1 h Eh).
Qed.

(** Lines 946-948: a queued note that is committed has a time, and is
    a note of the store. *)
Lemma nkeeps_commitQueued (note : NoteRef) :
  respects (keeps notes_inv) (Piano.commitQueued note).
Proof.
  intros s. unfold Piano.commitQueued. rewrite bind_get.
  cbv beta delta [id].
  destruct (time_le (store s) note (callModelEnd s)) eqn:Hle;
    [| intros H; exact H].
  assert (Hn : (note < length (store s))%nat).
  { unfold time_le, timeOf in Hle.
    destruct (store s !! note) as [n |] eqn:Hn; [| discriminate Hle].
    eapply lookup_lt_Some. exact Hn. }
  pose proof (nkeeps_currHistory_add note s) as H.
  destruct (Piano.currHistory_add note s); try exact I;
    intros Hinv; apply H; split; assumption.
Qed.
#[global] Hint Resolve nkeeps_copy nkeeps_commitQueued : nkeeps.

(** Lines 951-978: the History is cut to a prefix, and the notes that
    are replayed are new notes of the store. *)
Lemma nkeeps_cut_and_replay (newTransportSeconds replaySeconds : Q) :
  respects (keeps notes_inv)
    (s <- get id ;;
     match currHistory s with
     | None => throw Js.TypeError
     | Some h =>
         let replayNotes :=
           History.removeHistory (time_lt (store s))
             (History.getRecentHistory (time_ge (store s))
                (History.noteHistory h) newTransportSeconds)
             (callModelEnd s) in
         let kept :=
           History.removeHistory (time_lt (store s))
             (History.noteHistory h) newTransportSeconds in
         modify (set_currHistory (Some (History.set_noteHistory kept h))) ;;
         for_each replayNotes Piano.replayNote ;;
         s <- get id ;;
         match currHistory s with
         | None => throw Js.TypeError
         | Some h =>
             let redrawSeconds := 6 in
             let redrawNotes :=
               History.getRecentHistory (time_ge (store s))
                 (History.noteHistory h)
                 (newTransportSeconds - redrawSeconds) in
             for_each redrawNotes Piano.redrawNote
         end ;;
         let startModelDelayMs := 800 in
         (id <- get startModelScheduleId ;;
          when (Js.truthy id) (clearTimer id)) ;;
         id <- setTimeout
                 (StartModelTask
                    (replaySeconds * 1000 - startModelDelayMs))
                 startModelDelayMs ;;
         modify (set_startModelScheduleId (Some id)) ;;
         ret true
     end).
Proof.
  intros s. rewrite bind_get. cbv beta zeta delta [id].
  destruct (currHistory s) as [h |] eqn:Eh; [| intros H; exact H].
  rewrite bind_modify.
  match goal with
  | |- match ?m ?s' with _ => _ end =>
      set (s1 := s');
      assert (H : respects (keeps notes_inv) m) by nkeeps_auto;
      specialize (H s1); destruct (m s1) as [a s2 | e s2 |]; try exact I
  end;
    intros (I1 & I2 & I3); apply H;
    (split; [| split; assumption]);
    intros h' [= <-]; cbn [History.noteHistory History.set_noteHistory];
    apply removeHistory_sorted, (I1 h Eh).
Qed.
#[global] Hint Resolve nkeeps_cut_and_replay : nkeeps.

Lemma respects_get_assoc {A B C} (R : State -> State -> Prop)
      (f : State -> A) (k1 : A -> M B) (k2 : B -> M C) :
  respects R (bind (bind (get f) k1) k2) ->
  respects R (bind (get f) (fun a => bind (k1 a) k2)).
Proof. intros H s. exact (H s). Qed.

Lemma nkeeps_rewind : respects (keeps notes_inv) Piano.rewind.
Proof.
  unfold Piano.rewind.
  apply respects_bind; try exact _; [nkeeps_auto | intros a].
  destruct (negb (toneStarted a) || awaitingInput a); [nkeeps_auto |].
  cbv zeta.
  do 3 (apply respects_bind; try exact _; [nkeeps_auto | intros ?]).
  apply respects_get_assoc. nkeeps_auto.
Qed.
#[global] Hint Resolve nkeeps_rewind : nkeeps.

Lemma nkeeps_keyDown (repeat : bool) (key : string) :
  respects (keeps notes_inv) (Piano.keyDown repeat key).
Proof. unfold Piano.keyDown. nkeeps_auto. Qed.
#[global] Hint Resolve nkeeps_keyDown : nkeeps.

Lemma nkeeps_handle detectBpm (i : Piano.Input) :
  respects (keeps notes_inv) (Piano.handle detectBpm i).
Proof.
  destruct i; cbn [Piano.handle]; try solve [nkeeps_auto].
  - nkeeps_auto.
    unfold Piano.run_task, Piano.updateContextDateTime. nkeeps_auto.
  - nkeeps_auto. unfold Piano.run_callback. nkeeps_auto.
Qed.

Lemma notes_inv_reachable detectBpm (s : State) :
  Piano.reachable detectBpm s -> notes_inv s.
Proof.
  induction 1 as [n tpb c s Hnew | i s s' _ IH Hstep].
  - unfold Piano.constructor in Hnew.
    destruct (_ || _); [discriminate |]. injection Hnew as <-.
    split; [intros h E; discriminate E |]. split; constructor.
  - pose proof (nkeeps_handle detectBpm i s) as H.
    destruct (Piano.handle detectBpm i s); cbn in Hstep;
      try discriminate; injection Hstep as <-; apply H, IH.
Qed.

(** X32.  In every state that the engine can reach - after any key
    events, timers and transport callbacks that fire, model calls that
    resolve, replays, rewinds and handlers that throw - the notes of
    the current History are in non-decreasing order of time, and they,
    the queued notes and the buffered notes are notes that exist.
    [playNote] and the first loop of [rewind] add to the History with
    [add], [rewind] cuts it to a prefix, and no method changes the time
    of a note.  The History class is modelled from the spec: [add]
    inserts a note after the notes that are not later. *)
Theorem history_in_order_of_time detectBpm (s : State) :
  Piano.reachable detectBpm s ->
  (forall h, currHistory s = Some h ->
     StronglySorted
       (fun a b => forall ta tb,
          timeOf (store s) a = Some ta -> timeOf (store s) b = Some tb ->
          ta <= tb)
       (History.noteHistory h)
     /\ Forall (fun note => exists n, store s !! note = Some n)
               (History.noteHistory h))
  /\ Forall (fun note => exists n, store s !! note = Some n) (noteQueue s)
  /\ Forall (fun note => exists n, store s !! note = Some n) (noteBuffer s).
Proof.
  intros Hreach.
  destruct (notes_inv_reachable _ _ Hreach) as (I1 & I2 & I3).
  assert (Hex : forall l, allocated (store s) l ->
                  Forall (fun note => exists n, store s !! note = Some n) l).
  { intros l. apply List.Forall_impl. intros r Hr.
    apply lookup_lt_is_Some_2. exact Hr. }
  split; [| split; apply Hex; assumption].
  intros h Eh. destruct (I1 h Eh) as [Halloc Hsorted].
  split; [exact Hsorted | apply Hex, Halloc].
Qed.

Lemma history_in_order_of_time_witness :
  Piano.reachable sample_detectBpm model_note_sounding
  /\ History.noteHistory <$> currHistory model_note_sounding
     = Some [0%nat; 1%nat]
  /\ Forall (fun note =>
               exists n, store model_note_sounding !! note = Some n)
            (noteQueue model_note_sounding)
  /\ noteQueue model_note_sounding = [2%nat].
Proof.
  assert (H : Piano.reachable sample_detectBpm model_note_sounding)
    by (do 4 apply reachable_after; apply reachable_new_engine).
  split; [exact H |]. split; [vm_compute; reflexivity |].
  split; [| vm_compute; reflexivity].
  exact (proj1 (proj2 (history_in_order_of_time sample_detectBpm
                         model_note_sounding H))).
Defined.

(** * The rewind and the order of the History *)

Local Open Scope Q_scope.

(** C4.  In every state that the engine can reach, on a started piano
    that is not awaiting seed input, whose current History has a frozen
    seed and is already archived or has a note, [rewind] returns
    [true], and with [newPosition] and [callModelEnd] as it has set
    them: the branch that becomes the current History first holds the
    notes of the History rewound from and every queued note with
    [time <= callModelEnd], and no other note, in order of time; the
    current History is left with exactly those of these notes that have
    [time < newPosition], in their order; and the notes of this set
    with [newPosition <= time < callModelEnd], in their order, are each
    copied into a new note with the same key, velocity, duration, time
    and actor and [isRewind = true], scheduled on the transport at that
    time and queued: the queue after the rewind holds these copies and
    nothing else.  Times are read before the rewind, which changes no
    time of a note.  The History class is modelled from the spec. *)
Theorem rewind_truncates_and_replays detectBpm
        (s : State) (h : History.t) (lastSeedNoteTime : Q) :
  Piano.reachable detectBpm s ->
  toneStarted s = true -> awaitingInput s = false ->
  currHistory s = Some h ->
  History.lastSeedNoteTime h = Some lastSeedNoteTime ->
  History.isNew h = false \/ History.noteHistory h <> [] ->
  exists s' committed,
    Piano.rewind s = Returns true s'
    /\ (forall note,
          In note committed
          <-> In note (History.noteHistory h)
              \/ (In note (noteQueue s)
                  /\ time_le (store s) note (callModelEnd s') = true))
    /\ sorted_by_time (store s) committed
    /\ History.noteHistory <$> currHistory s'
       = Some (List.filter
                 (fun note => time_lt (store s) note (transportSeconds s'))
                 committed)
    /\ Forall2
         (fun note' note =>
            exists n id,
              store s !! note = Some n
              /\ store s' !! note'
                 = Some (Note.mk (Note.key n) (Note.velocity n)
                                 (Note.duration n) (Note.time n)
                                 (Note.actor n) (Some id) true)
              /\ In (mkEvent id (Note.time n) (PlayNoteCb note'))
                    (transportEvents s'))
         (noteQueue s')
         (List.filter
            (fun note =>
               time_ge (store s) note (transportSeconds s')
               && time_lt (store s) note (callModelEnd s'))
            committed)
    /\ (forall note n,
          store s !! note = Some n ->
          exists n',
            store s' !! note = Some n' /\ Note.time n' = Note.time n).
Proof.
  intros Hreach Hstarted Hawaiting Hhistory Hseed Harchive.
  destruct (notes_inv_reachable _ _ Hreach) as (Hsorted & Hqueue & _).
  specialize (Hsorted h Hhistory).
  destruct (rewind_runs s h lastSeedNoteTime Hstarted Hawaiting Hhistory
              Hseed Harchive Hqueue (proj1 Hsorted))
    as (s' & Hrun & T1 & T2 & T3 & T4 & T5 & _).
  set (target := rewindTarget s lastSeedNoteTime) in *.
  set (cme := target + replaySeconds s) in *.
  set (committed := commit_all (store s) cme (noteQueue s) (History.copy h))
    in *.
  assert (Hcs : sorted_by_time (store s) (History.noteHistory committed))
    by (apply commit_all_sorted; [exact Hqueue | exact Hsorted]).
  destruct (queries_select (store s) (History.noteHistory committed)
              target cme Hcs) as [Ekept Ereplay].
  exists s', (History.noteHistory committed).
  split; [exact Hrun |]. rewrite T1, T2.
  split; [| split; [exact Hcs | split; [| split]]].
  - intros note.
    change (History.noteHistory h)
      with (History.noteHistory (History.copy h)).
    split; [apply commit_all_In_inv | apply commit_all_In].
  - rewrite T3, <- Ekept. reflexivity.
  - rewrite <- Ereplay. eapply Forall2_impl; [exact T4 |].
    intros note' note (n & id & Hn & Hn' & Hev).
    exists n, id. repeat split; assumption.
  - intros note n Hn. destruct (T5 note n Hn) as (n' & Hn' & _ & _ & Ht & _).
    exists n'. split; [exact Hn' | exact Ht].
Qed.

Lemma rewind_truncates_and_replays_witness :
  exists s',
    Piano.rewind model_note_sounding = Returns true s'
    /\ History.noteHistory <$> currHistory model_note_sounding
       = Some [0%nat; 1%nat]
    /\ History.noteHistory <$> currHistory s' = Some []
    /\ noteQueue s' = [3%nat]
    /\ Note.time <$> store s' !! 3%nat = Some (1 # 2)
    /\ Note.isRewind <$> store s' !! 3%nat = Some true.
Proof.
  assert (Hh : exists h,
             currHistory model_note_sounding = Some h
             /\ History.lastSeedNoteTime h = Some (1 # 2)
             /\ History.noteHistory h = [0%nat; 1%nat])
    by (vm_compute; eexists; repeat split).
  destruct Hh as (h & Hh & Hseed & Hnotes).
  assert (Hreach : Piano.reachable sample_detectBpm model_note_sounding)
    by (do 4 apply reachable_after; apply reachable_new_engine).
  destruct (rewind_truncates_and_replays sample_detectBpm
              model_note_sounding h (1 # 2) Hreach)
    as (s' & committed & Hrun & _).
  - vm_compute. reflexivity.
  - vm_compute. reflexivity.
  - exact Hh.
  - exact Hseed.
  - right. rewrite Hnotes. discriminate.
  - exists s'. split; [exact Hrun |].
    assert (E : state_after (Piano.rewind model_note_sounding) = Some s')
      by (rewrite Hrun; reflexivity).
    vm_compute in E. injection E as <-.
    vm_compute. repeat split.
Defined.

(** * The rewind target *)

Local Open Scope Q_scope.


(** The doubles of one tenth and of one third, and two ties: beyond
    [2^53] only the even integers are doubles. *)
Example double_tenth :
  Double.round (1 # 10) = 3602879701896397 # 36028797018963968
  /\ Double.round (1 # 3) = 6004799503160661 # 18014398509481984.
Proof. split; vm_compute; reflexivity. Qed.

Example double_ties_to_even :
  Double.round (inject_Z (2 ^ 53 + 1)) = inject_Z (2 ^ 53)
  /\ Double.round (inject_Z (2 ^ 53 + 3)) = inject_Z (2 ^ 53 + 4)
  /\ Double.add (1 # 10) (2 # 10) <> 3 # 10.
Proof. repeat split; vm_compute; discriminate || reflexivity. Qed.

Example double_tick_lengths :
  Double.getInterval 60 4 = 1 # 4
  /\ Double.getInterval 75 4 = 3602879701896397 # 18014398509481984
  /\ Double.roundToOffset 60 4 (-2) = - (13 # 8).
Proof. repeat split; vm_compute; reflexivity. Qed.

(** X31.  In the arithmetic of the code [roundToOffset] does not always
    move a time: at 52 bpm and 4 ticks per beat, [roundToOffset(2.25)] is
    [2.451923076923077], and [roundToOffset] of that time is the same
    time again, where exact arithmetic gives a whole tick more.  Line
    666 finds the remainder [0.2884615384615383] of [2.5961538461538463]
    by the tick [0.2884615384615385], and line 667 rounds
    [2.451923076923077 - 0.2884615384615383 + 0.2884615384615385] back
    to [2.451923076923077]. *)
Theorem roundToOffset_can_return_its_argument :
  let r := 5521239927785945 # 2251799813685248 in
  Double.roundToOffset 52 4 (9 # 4) = r
  /\ Double.getInterval 52 4 = 5196461108504419 # 18014398509481984
  /\ Double.rem (Double.add r (Double.div (Double.getInterval 52 4) 2))
                (Double.getInterval 52 4)
     = 162389409640763 # 562949953421312
  /\ Double.roundToOffset 52 4 r = r.
Proof. repeat split; vm_compute; reflexivity. Qed.



(** * The timers of the engine *)

Local Open Scope Q_scope.

#[global] Instance timers_frame_refl : Reflexive timers_frame.
Proof. intros s. repeat split. Qed.

#[global] Instance timers_frame_trans : Transitive timers_frame.
Proof.
  intros a b c (H1 & H2 & H3 & H4 & H5 & H6 & H7)
         (K1 & K2 & K3 & K4 & K5 & K6 & K7).
  repeat split; etransitivity; eassumption.
Qed.

Lemma recorded_id_same (s : State) (a b : TimerTask) :
  same_task a b = true -> recorded_id s a = recorded_id s b.
Proof. destruct a, b; cbn; intros H; first [discriminate H | reflexivity]. Qed.

Lemma same_task_trans (a b c : TimerTask) :
  same_task a b = true -> same_task a c = false -> same_task b c = false.
Proof. destruct a, b, c; cbn; intros H K; first [discriminate | reflexivity]. Qed.

Section TimersOk.
Variables (rec : TimerTask -> option nat) (next : nat) (started : bool)
          (ts : list Timer).
Hypothesis Hrec : forall a b, same_task a b = true -> rec a = rec b.
Hypothesis Hok : timers_ok rec next started ts.

Lemma timers_ok_filter (p : Timer -> bool) :
  p context_timer = true ->
  timers_ok rec next started (List.filter p ts).
Proof.
  intros Hp. destruct Hok as (H1 & Hc & H2 & H3 & H5 & H4).
  split; [exact H1 |]. split; [| split; [| split; [| split]]].
  - apply List.filter_In. split; [exact Hc | exact Hp].
  - apply List.Forall_forall. intros t Ht.
    apply List.filter_In in Ht as [Ht _].
    rewrite List.Forall_forall in H2. apply H2, Ht.
  - clear - H3. induction ts as [| t l IH]; [constructor |].
    cbn in *. inversion H3 as [| ? ? Hn Hl]; subst.
    destruct (p t); [| apply IH, Hl].
    cbn. constructor; [| apply IH, Hl].
    intros Hin. apply Hn. apply List.in_map_iff in Hin as (t' & E & Ht').
    apply List.filter_In in Ht' as [Ht' _].
    apply List.in_map_iff. exists t'. split; assumption.
  - exact H5.
  - intros E. specialize (H4 E). apply List.Forall_forall. intros t Ht.
    apply List.filter_In in Ht as [Ht _].
    rewrite List.Forall_forall in H4. apply H4, Ht.
Qed.

(** [clearInterval(id)] and [clearTimeout(id)] leave the interval of
    the constructor alone when [id] is not its identifier. *)
Lemma timers_ok_clear (id : option nat) :
  same_id id (timerId context_timer) = false ->
  timers_ok rec next started
    (List.filter (fun t => negb (same_id id (timerId t))) ts).
Proof. intros H. apply timers_ok_filter. rewrite H. reflexivity. Qed.

(** No identifier that the engine keeps is the one of the interval of
    the constructor. *)
Lemma kept_spares (k : TimerTask) :
  same_id (rec k) (timerId context_timer) = false.
Proof.
  destruct Hok as (_ & _ & _ & _ & H5 & _).
  destruct (rec k) as [i |] eqn:E; [| reflexivity].
  apply H5 in E. cbn. apply Nat.eqb_neq. lia.
Qed.

(** After [clearInterval] of the identifier kept for a task, no timer
    of that task is left. *)
Lemma timers_ok_cleared (k : TimerTask) :
  same_task k UpdateContextDateTimeTask = false ->
  Forall (fun t => same_task k (task t) = false)
         (List.filter (fun t => negb (same_id (rec k) (timerId t))) ts).
Proof.
  intros Hk. destruct Hok as (_ & _ & H2 & _).
  apply List.Forall_forall. intros t Ht.
  apply List.filter_In in Ht as [Ht Hp].
  rewrite List.Forall_forall in H2. destruct (H2 t Ht) as [-> | [_ Hr]].
  - exact Hk.
  - destruct (same_task k (task t)) eqn:E; [| reflexivity].
    rewrite (Hrec _ _ E), Hr in Hp. cbn in Hp.
    rewrite Nat.eqb_refl in Hp. discriminate Hp.
Qed.

(** When the identifier kept for a task is [undefined] or falsy, no
    timer of that task is live. *)
Lemma timers_ok_not_truthy (k : TimerTask) :
  same_task k UpdateContextDateTimeTask = false ->
  Js.truthy (rec k) = false ->
  Forall (fun t => same_task k (task t) = false) ts.
Proof.
  intros Hc Hk. destruct Hok as (_ & _ & H2 & _).
  apply List.Forall_forall. intros t Ht.
  rewrite List.Forall_forall in H2. destruct (H2 t Ht) as [-> | [Hid Hr]].
  - exact Hc.
  - destruct (same_task k (task t)) eqn:E; [| reflexivity].
    rewrite (Hrec _ _ E), Hr in Hk.
    destruct (timerId t); [lia | discriminate Hk].
Qed.

Lemma timers_ok_started : timers_ok rec next true ts.
Proof.
  destruct Hok as (H1 & Hc & H2 & H3 & H5 & _).
  repeat (split; [assumption |]). intros E. discriminate E.
Qed.

Lemma timers_ok_stopped :
  Forall (fun t => same_task SeedInputAwaiterTask (task t) = false) ts ->
  timers_ok rec next false ts.
Proof.
  intros H. destruct Hok as (H1 & Hc & H2 & H3 & H5 & _).
  repeat (split; [assumption |]). intros _. exact H.
Qed.

Lemma timers_ok_ext (rec' : TimerTask -> option nat) :
  (forall k, rec' k = rec k) -> timers_ok rec' next started ts.
Proof.
  intros E. destruct Hok as (H1 & Hc & H2 & H3 & H5 & H4).
  split; [exact H1 |]. split; [exact Hc |].
  split; [| split; [exact H3 | split; [| exact H4]]].
  - eapply List.Forall_impl; [| exact H2].
    intros t [-> | [Hid Hr]]; [left; reflexivity | right].
    split; [exact Hid |]. rewrite E. exact Hr.
  - intros k i. rewrite E. apply H5.
Qed.

(** A new timer for a task that has no live timer, its identifier kept. *)
Lemma timers_ok_add (rec' : TimerTask -> option nat) (d : Q) (r : bool)
      (k : TimerTask) :
  Forall (fun t => same_task k (task t) = false) ts ->
  (forall k', same_task k k' = false -> rec' k' = rec k') ->
  (forall k', same_task k k' = true -> rec' k' = Some next) ->
  (same_task SeedInputAwaiterTask k = true -> started = true) ->
  timers_ok rec' (S next) started (ts ++ [mkTimer next d r k]).
Proof.
  intros Hnone Hother Hk Hseed.
  destruct Hok as (H1 & Hc & H2 & H3 & H5 & H4).
  assert (Hkk : same_task k k = true) by (destruct k; reflexivity).
  split; [lia |]. split; [| split; [| split; [| split]]].
  - apply List.in_or_app. left. exact Hc.
  - apply List.Forall_app. split.
    + rewrite List.Forall_forall in H2, Hnone |- *. intros t Ht.
      destruct (H2 t Ht) as [-> | [Hid Hr]]; [left; reflexivity | right].
      split; [lia |].
      rewrite Hother; [exact Hr | apply Hnone, Ht].
    + constructor; [| constructor]. right. cbn.
      split; [lia | apply Hk, Hkk].
  - rewrite List.map_app. cbn.
    apply List.NoDup_app; [exact H3 | repeat constructor; intros [] |].
    intros i Hi [<- | []].
    apply List.in_map_iff in Hi as (t & E & Ht).
    rewrite List.Forall_forall in H2.
    destruct (H2 t Ht) as [-> | [Hid _]]; [cbn in E |]; lia.
  - intros k' i Hi. destruct (same_task k k') eqn:Ek.
    + rewrite (Hk _ Ek) in Hi. injection Hi as <-. lia.
    + rewrite (Hother _ Ek) in Hi. apply H5 in Hi. exact Hi.
  - intros E. apply List.Forall_app. split; [apply H4, E |].
    constructor; [| constructor]. cbn [task].
    destruct (same_task SeedInputAwaiterTask k) eqn:Ek; [| reflexivity].
    rewrite (Hseed eq_refl) in E. discriminate E.
Qed.

End TimersOk.

(** ** The methods that set and clear no timer *)

Lemma timers_frame_keeps (s s' : State) :
  timers_frame s s' -> keeps timers_inv s s'.
Proof.
  intros (H1 & H2 & H3 & H4 & H5 & H6 & H7) Hinv. unfold timers_inv in *.
  rewrite H1, H2, H3.
  apply timers_ok_ext with (rec := recorded_id s); [exact Hinv |].
  intros [| | | g |]; cbn; first [assumption | reflexivity].
Qed.

Create HintDb tframe discriminated.

Ltac tframe_modify :=
  apply respects_modify; intros ?; unfold timers_frame; fields;
  repeat split.

Ltac tframe_auto :=
  repeat first
    [ solve [auto with tframe nocore]
    | tframe_modify
    | respects_step ].

Lemma tframe_emit (c : Command) : respects timers_frame (emit c).
Proof. unfold emit. tframe_modify. Qed.

Lemma tframe_deref (r : NoteRef) : respects timers_frame (deref r).
Proof.
  intros s. unfold deref. destruct (store s !! r); [reflexivity | exact I].
Qed.

Lemma tframe_update_note (r : NoteRef) (f : Note.t -> Note.t) :
  respects timers_frame (update_note r f).
Proof. unfold update_note. tframe_modify. Qed.

Lemma tframe_newNote key velocity duration time actor scheduleId isRewind :
  respects timers_frame
    (newNote key velocity duration time actor scheduleId isRewind).
Proof. intros s. unfold newNote, timers_frame. fields. repeat split. Qed.

Lemma tframe_transportScheduleOnce (cb : Callback) (time : Q) :
  respects timers_frame (transportScheduleOnce cb time).
Proof.
  intros s. unfold transportScheduleOnce, timers_frame. fields. repeat split.
Qed.

Lemma tframe_transportClear (id : option nat) :
  respects timers_frame (transportClear id).
Proof. unfold transportClear. tframe_modify. Qed.

Lemma tframe_transportCancel : respects timers_frame transportCancel.
Proof. unfold transportCancel. tframe_modify. Qed.

Lemma tframe_keyName_of (k : option PianoKey.t) :
  respects timers_frame (keyName_of k).
Proof. unfold keyName_of. tframe_auto. Qed.

#[global] Hint Resolve tframe_emit tframe_deref tframe_update_note
  tframe_newNote tframe_transportScheduleOnce tframe_transportClear
  tframe_transportCancel tframe_keyName_of : tframe.

Lemma tframe_releaseNote (k : option PianoKey.t) (t : Q) :
  respects timers_frame (Piano.releaseNote k t).
Proof. unfold Piano.releaseNote. tframe_auto. Qed.
#[global] Hint Resolve tframe_releaseNote : tframe.

Lemma tframe_currHistory_add (note : NoteRef) :
  respects timers_frame (Piano.currHistory_add note).
Proof. unfold Piano.currHistory_add. tframe_auto. Qed.
#[global] Hint Resolve tframe_currHistory_add : tframe.

Lemma tframe_playNote (note : NoteRef) (contextTime : Q) :
  respects timers_frame (Piano.playNote note contextTime).
Proof. unfold Piano.playNote. tframe_auto. Qed.
#[global] Hint Resolve tframe_playNote : tframe.

Lemma tframe_releaseAllNotes : respects timers_frame Piano.releaseAllNotes.
Proof. unfold Piano.releaseAllNotes, Piano.releaseActive. tframe_auto. Qed.
#[global] Hint Resolve tframe_releaseAllNotes : tframe.

Lemma tframe_scheduleNote (note : NoteRef) :
  respects timers_frame (Piano.scheduleNote note).
Proof. unfold Piano.scheduleNote. tframe_auto. Qed.
#[global] Hint Resolve tframe_scheduleNote : tframe.

Lemma tframe_callModel_call (b : bool) :
  respects timers_frame (Piano.callModel_call b).
Proof. unfold Piano.callModel_call. tframe_auto. Qed.
#[global] Hint Resolve tframe_callModel_call : tframe.

Lemma tframe_callModel_resume (c : ModelCall) (generated : list Generated) :
  respects timers_frame (Piano.callModel_resume c generated).
Proof. unfold Piano.callModel_resume, Piano.applyGenerated. tframe_auto. Qed.
#[global] Hint Resolve tframe_callModel_resume : tframe.

Lemma tframe_addToHistoryList (h : option History.t) :
  respects timers_frame (Piano.addToHistoryList h).
Proof. unfold Piano.addToHistoryList. tframe_auto. Qed.
#[global] Hint Resolve tframe_addToHistoryList : tframe.

Lemma tframe_scheduleStartModel (t : Q) :
  respects timers_frame (Piano.scheduleStartModel t).
Proof. unfold Piano.scheduleStartModel. tframe_auto. Qed.
#[global] Hint Resolve tframe_scheduleStartModel : tframe.

Lemma tframe_setBPM (b : Q) : respects timers_frame (Piano.setBPM b).
Proof. unfold Piano.setBPM. tframe_auto. Qed.
#[global] Hint Resolve tframe_setBPM : tframe.

Lemma tframe_rewind_loops (note : NoteRef) :
  respects timers_frame (Piano.commitQueued note)
  /\ respects timers_frame (Piano.replayNote note)
  /\ respects timers_frame (Piano.redrawNote note)
  /\ respects timers_frame (Piano.clearScheduled note).
Proof.
  unfold Piano.commitQueued, Piano.replayNote, Piano.redrawNote,
    Piano.clearScheduled.
  repeat split; tframe_auto.
Qed.

Lemma tframe_commitQueued (note : NoteRef) :
  respects timers_frame (Piano.commitQueued note).
Proof. apply tframe_rewind_loops. Qed.

Lemma tframe_replayNote (note : NoteRef) :
  respects timers_frame (Piano.replayNote note).
Proof. apply tframe_rewind_loops. Qed.

Lemma tframe_redrawNote (note : NoteRef) :
  respects timers_frame (Piano.redrawNote note).
Proof. apply tframe_rewind_loops. Qed.

Lemma tframe_clearScheduled (note : NoteRef) :
  respects timers_frame (Piano.clearScheduled note).
Proof. apply tframe_rewind_loops. Qed.
#[global] Hint Resolve tframe_commitQueued tframe_replayNote
  tframe_redrawNote tframe_clearScheduled : tframe.

(** ** The methods that set and clear timers *)

Create HintDb tkeeps discriminated.

Lemma tkeeps_frame {A} (m : M A) :
  respects timers_frame m -> respects (keeps timers_inv) m.
Proof. apply respects_weaken. exact timers_frame_keeps. Qed.

Lemma timers_inv_cleared (s : State) (id : option nat) :
  same_id id (timerId context_timer) = false ->
  timers_inv s ->
  timers_inv
    (set_timers
       (List.filter (fun t => negb (same_id id (timerId t))) (timers s)) s).
Proof.
  intros Hid H. unfold timers_inv. fields.
  apply timers_ok_ext with (rec := recorded_id s);
    [apply timers_ok_clear; [exact H | exact Hid] | intros []; reflexivity].
Qed.

Lemma timers_inv_cleared_kept (s : State) (k : TimerTask) :
  timers_inv s ->
  timers_inv
    (set_timers
       (List.filter (fun t => negb (same_id (recorded_id s k) (timerId t)))
                    (timers s)) s).
Proof.
  intros H. apply timers_inv_cleared; [| exact H].
  apply (kept_spares _ _ _ _ H).
Qed.

(** [clearInterval] or [clearTimeout] of an identifier that the engine
    keeps, with or without a test of it before. *)
Lemma tkeeps_clear_kept (k : TimerTask) (guard : option nat -> bool) :
  respects (keeps timers_inv)
    (id <- get (fun s => recorded_id s k) ;;
     when (guard id) (clearTimer id)).
Proof.
  intros s. rewrite bind_get. destruct (guard (recorded_id s k)).
  - unfold when, clearTimer, modify. intros H.
    apply timers_inv_cleared_kept, H.
  - intros H. exact H.
Qed.

Lemma tkeeps_clear_listener (guard : option nat -> bool) :
  respects (keeps timers_inv)
    (id <- get listenerIntervalId ;; when (guard id) (clearTimer id)).
Proof. exact (tkeeps_clear_kept SeedInputAwaiterTask guard). Qed.

Lemma tkeeps_clear_callModel (guard : option nat -> bool) :
  respects (keeps timers_inv)
    (id <- get callModelIntervalId ;; when (guard id) (clearTimer id)).
Proof. exact (tkeeps_clear_kept CallModelTask guard). Qed.

Lemma tkeeps_clear_checkActivity (guard : option nat -> bool) :
  respects (keeps timers_inv)
    (id <- get checkActivityIntervalId ;; when (guard id) (clearTimer id)).
Proof. exact (tkeeps_clear_kept CheckActivityTask guard). Qed.

Lemma tkeeps_clear_startModel (guard : option nat -> bool) :
  respects (keeps timers_inv)
    (id <- get startModelScheduleId ;; when (guard id) (clearTimer id)).
Proof. exact (tkeeps_clear_kept (StartModelTask 0) guard). Qed.

(** Line 901: the seed awaiter clears its own interval. *)
Lemma tkeeps_clear_awaiter :
  respects (keeps timers_inv)
    (id <- get listenerIntervalId ;; clearTimer id).
Proof. exact (tkeeps_clear_kept SeedInputAwaiterTask (fun _ => true)). Qed.

Lemma tkeeps_tone_started :
  respects (keeps timers_inv) (modify (set_toneStarted true)).
Proof.
  apply respects_modify. intros s H. unfold timers_inv. fields.
  apply timers_ok_ext with (rec := recorded_id s);
    [apply (timers_ok_started _ _ _ _ H) | intros []; reflexivity].
Qed.
#[global] Hint Resolve tkeeps_clear_listener tkeeps_clear_callModel
  tkeeps_clear_checkActivity tkeeps_clear_startModel tkeeps_clear_awaiter
  tkeeps_tone_started : tkeeps.

Ltac tkeeps_auto :=
  repeat first
    [ solve [auto with tkeeps nocore]
    | solve [apply tkeeps_frame; auto with tframe nocore]
    | solve [apply tkeeps_frame; tframe_modify]
    | respects_step ].

Lemma tkeeps_stopModel : respects (keeps timers_inv) Piano.stopModel.
Proof. unfold Piano.stopModel. tkeeps_auto. Qed.
#[global] Hint Resolve tkeeps_stopModel : tkeeps.

Lemma tkeeps_startTone : respects (keeps timers_inv) Piano.startTone.
Proof. unfold Piano.startTone. tkeeps_auto. Qed.
#[global] Hint Resolve tkeeps_startTone : tkeeps.

(** [if (guard(id)) clearInterval(id)] on the identifier kept for a
    task. *)
Lemma clear_kept_runs {B} (f : State -> option nat)
      (guard : option nat -> bool) (k : unit -> M B) (s : State) :
  bind (bind (get f) (fun id => when (guard id) (clearTimer id))) k s
  = k tt (if guard (f s)
          then set_timers
                 (List.filter (fun t => negb (same_id (f s) (timerId t)))
                              (timers s)) s
          else s).
Proof.
  rewrite bind_assoc, bind_get, bind_when.
  destruct (guard (f s)); [apply bind_clearTimer | reflexivity].
Qed.

Lemma cleared_kept (s : State) (k : TimerTask) (guard : option nat -> bool)
      (s1 : State) :
  (forall id, guard id = false -> Js.truthy id = false) ->
  same_task k UpdateContextDateTimeTask = false ->
  timers_inv s ->
  s1 = (if guard (recorded_id s k)
        then set_timers
               (List.filter
                  (fun t => negb (same_id (recorded_id s k) (timerId t)))
                  (timers s)) s
        else s) ->
  timers_inv s1
  /\ Forall (fun t => same_task k (task t) = false) (timers s1)
  /\ (forall k', Forall (fun t => same_task k' (task t) = false) (timers s) ->
                 Forall (fun t => same_task k' (task t) = false) (timers s1)).
Proof.
  intros Hguard Hk Hinv ->. destruct (guard (recorded_id s k)) eqn:E.
  - split; [apply timers_inv_cleared_kept, Hinv |]. fields. split.
    + apply (timers_ok_cleared _ _ _ _ (recorded_id_same s) Hinv _ Hk).
    + intros k' H. apply List.Forall_forall. intros t Ht.
      apply List.filter_In in Ht as [Ht _].
      rewrite List.Forall_forall in H. apply H, Ht.
  - split; [exact Hinv |]. split; [| intros k' H; exact H].
    apply (timers_ok_not_truthy _ _ _ _ (recorded_id_same s) Hinv _ Hk).
    apply Hguard, E.
Qed.

Lemma defined_truthy (id : option nat) :
  Js.defined id = false -> Js.truthy id = false.
Proof. destruct id; [discriminate | reflexivity]. Qed.

(** Lines 800-804: [startModel] clears the two intervals it keeps
    before it sets them again. *)
Lemma tkeeps_restart_intervals (glowDelayMs : Q) :
  respects (keeps timers_inv)
    ((id <- get callModelIntervalId ;;
      when (Js.truthy id) (clearTimer id)) ;;
     (id <- get checkActivityIntervalId ;;
      when (Js.truthy id) (clearTimer id)) ;;
     period <- get (fun s =>
                 Piano.beatsToSeconds s (bufferBeats s) * 1000) ;;
     id <- setInterval CallModelTask period ;;
     modify (set_callModelIntervalId (Some id)) ;;
     id <- setInterval CheckActivityTask 5000 ;;
     modify (set_checkActivityIntervalId (Some id)) ;;
     emit (StartGlow glowDelayMs)).
Proof.
  intros s. unfold setInterval.
  rewrite clear_kept_runs.
  set (s1 := if Js.truthy (callModelIntervalId s) then _ else s).
  rewrite clear_kept_runs.
  set (s2 := if Js.truthy (checkActivityIntervalId s1) then _ else s1).
  exec. unfold emit, modify. intros Hinv.
  destruct (cleared_kept s CallModelTask Js.truthy s1 (fun _ H => H)
              eq_refl Hinv eq_refl) as (I1 & N1 & _).
  destruct (cleared_kept s1 CheckActivityTask Js.truthy s2 (fun _ H => H)
              eq_refl I1 eq_refl) as (I2 & N2 & P2).
  specialize (P2 _ N1). clearbody s2. clear s1 I1 N1 Hinv.
  unfold timers_inv. fields.
  apply timers_ok_add
    with (rec := recorded_id
                   (set_callModelIntervalId (Some (nextTimerId s2)) s2)).
  - apply timers_ok_add with (rec := recorded_id s2).
    + exact I2.
    + exact P2.
    + intros [| | | g |] H; first [discriminate H | reflexivity].
    + intros [| | | g |] H; first [discriminate H | reflexivity].
    + intros H. discriminate H.
  - apply List.Forall_app. split; [exact N2 | repeat constructor].
  - intros [| | | g |] H; first [discriminate H | reflexivity].
  - intros [| | | g |] H; first [discriminate H | reflexivity].
  - intros H. discriminate H.
Qed.

(** Lines 974-978: [rewind] clears the timeout it keeps before it sets
    it again. *)
Lemma tkeeps_rearm_startModel (glowDelayMs delay : Q) (b : bool) :
  respects (keeps timers_inv)
    ((id <- get startModelScheduleId ;;
      when (Js.truthy id) (clearTimer id)) ;;
     id <- setTimeout (StartModelTask glowDelayMs) delay ;;
     modify (set_startModelScheduleId (Some id)) ;;
     ret b).
Proof.
  intros s. unfold setTimeout.
  rewrite clear_kept_runs.
  set (s1 := if Js.truthy (startModelScheduleId s) then _ else s).
  exec. unfold ret. intros Hinv.
  destruct (cleared_kept s (StartModelTask glowDelayMs) Js.truthy s1
              (fun _ H => H) eq_refl Hinv eq_refl) as (I1 & N1 & _).
  clearbody s1. clear Hinv.
  unfold timers_inv. fields.
  apply timers_ok_add with (rec := recorded_id s1).
  - exact I1.
  - exact N1.
  - intros [| | | g |] H; first [discriminate H | reflexivity].
  - intros [| | | g |] H; first [discriminate H | reflexivity].
  - intros H. discriminate H.
Qed.

(** Lines 840-846: [resetAll] stops tone and clears the interval of the
    seed awaiter. *)
Lemma tkeeps_stop_listening :
  respects (keeps timers_inv)
    (modify (set_toneStarted false) ;;
     (id <- get listenerIntervalId ;;
      when (Js.defined id) (clearTimer id))).
Proof.
  intros s. rewrite bind_modify, bind_get. fields.
  destruct (listenerIntervalId s) as [id |] eqn:E; cbn [Js.defined when].
  - unfold clearTimer, modify. fields. intros Hinv.
    unfold timers_inv. fields.
    apply timers_ok_ext with (rec := recorded_id s);
      [| intros []; reflexivity].
    rewrite <- E.
    apply (timers_ok_stopped _ _ (toneStarted s)).
    + apply (timers_inv_cleared_kept s SeedInputAwaiterTask Hinv).
    + apply (timers_ok_cleared _ _ _ _ (recorded_id_same s) Hinv
                               SeedInputAwaiterTask eq_refl).
  - unfold ret. intros Hinv. unfold timers_inv. fields.
    apply timers_ok_ext with (rec := recorded_id s);
      [| intros []; reflexivity].
    apply (timers_ok_stopped _ _ (toneStarted s)); [exact Hinv |].
    apply (timers_ok_not_truthy _ _ _ _ (recorded_id_same s) Hinv
                                SeedInputAwaiterTask eq_refl).
    cbn. rewrite E. reflexivity.
Qed.

(** Lines 671-673: the seed awaiter is started when tone starts, and
    only then. *)
Lemma tkeeps_start_listening {B} (k : M B) :
  respects (keeps timers_inv) k ->
  respects (keeps timers_inv)
    (started <- Piano.startTone ;;
     when started Piano.seedInputListener ;;
     k).
Proof.
  intros Hk s. unfold Piano.startTone. rewrite bind_assoc, bind_get.
  cbv beta delta [id]. destruct (toneStarted s) eqn:Estarted.
  - rewrite bind_ret. cbn [when]. rewrite bind_ret. apply Hk.
  - unfold Piano.seedInputListener, setInterval. exec. cbn [when]. exec.
    match goal with |- match k ?s' with _ => _ end => set (s1 := s') end.
    assert (H1 : timers_inv s -> timers_inv s1).
    { intros Hinv. unfold timers_inv, s1. fields.
      apply timers_ok_add with (rec := recorded_id s).
      - apply (timers_ok_started _ _ _ _ Hinv).
      - destruct Hinv as (_ & _ & _ & _ & _ & H4). apply H4, Estarted.
      - intros [| | | g |] H; first [discriminate H | reflexivity].
      - intros [| | | g |] H; first [discriminate H | reflexivity].
      - reflexivity. }
    clearbody s1. specialize (Hk s1).
    destruct (k s1); try exact I; intros Hinv; apply Hk, H1, Hinv.
Qed.

#[global] Hint Resolve tkeeps_restart_intervals tkeeps_rearm_startModel
  tkeeps_stop_listening : tkeeps.

Ltac tkeeps_all :=
  repeat first
    [ solve [auto with tkeeps nocore]
    | solve [apply tkeeps_frame; auto with tframe nocore]
    | solve [apply tkeeps_frame; tframe_modify]
    | apply tkeeps_start_listening
    | respects_step ].

Lemma tkeeps_startModel (glowDelayMs : Q) :
  respects (keeps timers_inv) (Piano.startModel glowDelayMs).
Proof. unfold Piano.startModel. tkeeps_all. Qed.
#[global] Hint Resolve tkeeps_startModel : tkeeps.

Lemma tkeeps_resetAll : respects (keeps timers_inv) Piano.resetAll.
Proof. unfold Piano.resetAll. tkeeps_all. Qed.
#[global] Hint Resolve tkeeps_resetAll : tkeeps.

Lemma tkeeps_checkActivity : respects (keeps timers_inv) Piano.checkActivity.
Proof. unfold Piano.checkActivity. tkeeps_all. Qed.
#[global] Hint Resolve tkeeps_checkActivity : tkeeps.

Lemma tkeeps_rewind : respects (keeps timers_inv) Piano.rewind.
Proof. unfold Piano.rewind. tkeeps_all. Qed.
#[global] Hint Resolve tkeeps_rewind : tkeeps.

Lemma tkeeps_keyPressed (keyNum : Z) :
  respects (keeps timers_inv) (Piano.keyPressed keyNum).
Proof. unfold Piano.keyPressed. tkeeps_all. Qed.
#[global] Hint Resolve tkeeps_keyPressed : tkeeps.

Lemma tkeeps_keyDown (repeat : bool) (key : string) :
  respects (keeps timers_inv) (Piano.keyDown repeat key).
Proof. unfold Piano.keyDown. tkeeps_all. Qed.

Lemma tkeeps_keyUp (key : string) :
  respects (keeps timers_inv) (Piano.keyUp key).
Proof. unfold Piano.keyUp. tkeeps_all. Qed.

Lemma tkeeps_seedInputAwaiter detectBpm :
  respects (keeps timers_inv) (Piano.seedInputAwaiter detectBpm).
Proof. unfold Piano.seedInputAwaiter. tkeeps_all. Qed.

Lemma tkeeps_replayHistory (idx : Z) :
  respects (keeps timers_inv) (Piano.replayHistory idx).
Proof. unfold Piano.replayHistory. tkeeps_all. Qed.
#[global] Hint Resolve tkeeps_keyDown tkeeps_keyUp tkeeps_seedInputAwaiter
  tkeeps_replayHistory : tkeeps.

Lemma tkeeps_run_task detectBpm (k : TimerTask) :
  respects (keeps timers_inv) (Piano.run_task detectBpm k).
Proof. unfold Piano.run_task, Piano.updateContextDateTime. tkeeps_all. Qed.

(** A timeout that fires is not the interval of the constructor. *)
Lemma fired_timeout (s : State) (timer : nat) (t : Timer) :
  timers_inv s ->
  List.find (fun t => Nat.eqb (timerId t) timer) (timers s) = Some t ->
  repeats t = false ->
  same_id (Some timer) (timerId context_timer) = false.
Proof.
  intros (_ & _ & H2 & _) Hfind Hrep.
  apply List.find_some in Hfind as [Hin Hid]. apply Nat.eqb_eq in Hid.
  rewrite List.Forall_forall in H2.
  destruct (H2 t Hin) as [-> | [Hn _]]; [discriminate Hrep |].
  cbn. apply Nat.eqb_neq. lia.
Qed.

Lemma tkeeps_handle detectBpm (i : Piano.Input) :
  respects (keeps timers_inv) (Piano.handle detectBpm i).
Proof.
  destruct i; cbn [Piano.handle]; try solve [tkeeps_all].
  - intros s. rewrite bind_get. cbv beta delta [id].
    destruct (List.find _ (timers s)) as [t |] eqn:Hfind;
      [| intros H; exact H].
    destruct (repeats t) eqn:Hrep; cbn [negb when].
    + rewrite bind_ret. apply tkeeps_run_task.
    + rewrite bind_clearTimer.
      match goal with
      | |- match Piano.run_task _ _ ?s' with _ => _ end => set (s1 := s')
      end.
      assert (H1 : timers_inv s -> timers_inv s1).
      { intros Hinv. apply timers_inv_cleared; [| exact Hinv].
        exact (fired_timeout s timer t Hinv Hfind Hrep). }
      clearbody s1. pose proof (tkeeps_run_task detectBpm (task t) s1) as Hk.
      destruct (Piano.run_task detectBpm (task t) s1); try exact I;
        intros Hinv; apply Hk, H1, Hinv.
  - tkeeps_all. unfold Piano.run_callback. tkeeps_all.
Qed.

Lemma timers_inv_reachable detectBpm (s : State) :
  Piano.reachable detectBpm s -> timers_inv s.
Proof.
  induction 1 as [n tpb c s Hnew | i s s' _ IH Hstep].
  - unfold Piano.constructor in Hnew.
    destruct (_ || _); [discriminate |]. injection Hnew as <-.
    unfold timers_inv. cbn.
    split; [lia |]. split; [left; reflexivity |].
    split; [repeat constructor |].
    split; [repeat constructor; intros [] |].
    split; [intros [] i; discriminate |].
    intros _. repeat constructor.
  - pose proof (tkeeps_handle detectBpm i s) as H.
    destruct (Piano.handle detectBpm i s); cbn in Hstep;
      try discriminate; injection Hstep as <-; apply H, IH.
Qed.

Lemma one_of_a_kind {A : Type} (f : A -> nat) (p : A -> bool) (c : nat)
      (l : list A) :
  List.NoDup (List.map f l) ->
  (forall x, In x l -> p x = true -> f x = c) ->
  (length (List.filter p l) <= 1)%nat.
Proof.
  induction l as [| x l IH]; intros Hnd Hc; [cbn; lia |].
  cbn [List.map] in Hnd. inversion Hnd as [| ? ? Hx Hl]; subst.
  cbn [List.filter]. destruct (p x) eqn:Ex.
  - assert (Hnone : List.filter p l = []).
    { destruct (List.filter p l) as [| y l'] eqn:El; [reflexivity |].
      exfalso. apply Hx.
      assert (Hy : In y (List.filter p l)) by (rewrite El; left; reflexivity).
      apply List.filter_In in Hy as [Hy Hp].
      rewrite (Hc x (or_introl eq_refl) Ex),
        <- (Hc y (or_intror Hy) Hp).
      apply List.in_map, Hy. }
    rewrite Hnone. cbn. lia.
  - apply IH; [exact Hl |]. intros y Hy. apply Hc. right. exact Hy.
Qed.

(** X22.  The engine never runs two timers for the same task, and never
    loses one.  In every state it can reach - after any key events,
    timers and transport callbacks that fire, model calls that resolve,
    replays, and handlers that throw - at most one live timer runs
    [seedInputAwaiter], at most one runs [callModel], at most one runs
    [checkActivity], at most one [startModel] timeout is pending and
    one interval runs [updateContextDateTime]; the interval that the
    constructor sets for [updateContextDateTime] (line 650), whose
    identifier the engine does not keep, is live for ever; every other
    live timer is the one whose identifier the engine keeps for its task
    ([listenerIntervalId], [callModelIntervalId],
    [checkActivityIntervalId], [startModelScheduleId]), so that
    [stopModel], [resetAll] and [rewind] can clear it; and while tone
    has not started no seed awaiter runs. *)
Theorem one_timer_per_task detectBpm (s : State) :
  Piano.reachable detectBpm s ->
  (forall kind,
     (length (List.filter (fun t => same_task kind (task t)) (timers s))
      <= 1)%nat)
  /\ In (mkTimer 1 1000 true UpdateContextDateTimeTask) (timers s)
  /\ (forall t, In t (timers s) ->
                t = mkTimer 1 1000 true UpdateContextDateTimeTask
                \/ (task t <> UpdateContextDateTimeTask
                    /\ recorded_id s (task t) = Some (timerId t)))
  /\ (toneStarted s = false ->
      forall t, In t (timers s) ->
                same_task SeedInputAwaiterTask (task t) = false).
Proof.
  intros Hreach.
  destruct (timers_inv_reachable _ _ Hreach) as (_ & Hc & H2 & H3 & H5 & H4).
  rewrite List.Forall_forall in H2. split; [| split; [| split]].
  - intros k.
    destruct (recorded_id s k) as [c |] eqn:Ek.
    + apply one_of_a_kind with (f := timerId) (c := c); [exact H3 |].
      intros t Ht Hp. destruct (H2 t Ht) as [-> | [_ Hr]].
      * destruct k; discriminate.
      * rewrite <- (recorded_id_same s _ _ Hp), Ek in Hr.
        injection Hr as ->. reflexivity.
    + apply one_of_a_kind with (f := timerId) (c := 1%nat); [exact H3 |].
      intros t Ht Hp. destruct (H2 t Ht) as [-> | [_ Hr]]; [reflexivity |].
      rewrite <- (recorded_id_same s _ _ Hp), Ek in Hr. discriminate Hr.
  - exact Hc.
  - intros t Ht. destruct (H2 t Ht) as [-> | [_ Hr]];
      [left; reflexivity | right].
    split; [| exact Hr]. intros E. rewrite E in Hr. discriminate Hr.
  - intros E t Ht. specialize (H4 E). rewrite List.Forall_forall in H4.
    apply H4, Ht.
Qed.

Lemma one_timer_per_task_witness :
  Piano.reachable sample_detectBpm model_active
  /\ (length (List.filter (fun t => same_task CallModelTask (task t))
                          (timers model_active)) <= 1)%nat
  /\ In (mkTimer 1 1000 true UpdateContextDateTimeTask) (timers model_active)
  /\ (2 <= length (timers model_active))%nat.
Proof.
  assert (H : Piano.reachable sample_detectBpm model_active)
    by (do 3 apply reachable_after; apply reachable_new_engine).
  split; [exact H |]. split; [| split].
  - exact (proj1 (one_timer_per_task sample_detectBpm model_active H)
                 CallModelTask).
  - exact (proj1 (proj2 (one_timer_per_task sample_detectBpm model_active
                           H))).
  - vm_compute. lia.
Defined.
(** * Results of the model *)

Local Open Scope Q_scope.

Lemma applyGenerated_runs (c : ModelCall) (gen : Generated) (s : State) :
  Piano.applyGenerated c gen s = Returns tt (apply_one c s gen).
Proof.
  unfold Piano.applyGenerated, apply_one. rewrite bind_get.
  erewrite bind_returns by (unfold newNote; reflexivity).
  destruct (scheduleImmediately c).
  - apply scheduleNote_scheduled. fields.
    rewrite lookup_app_r by lia. rewrite Nat.sub_diag. reflexivity.
  - reflexivity.
Qed.

Lemma for_each_applyGenerated (c : ModelCall) (generated : list Generated)
      (s : State) :
  for_each generated (Piano.applyGenerated c) s
  = Returns tt (fold_left (apply_one c) generated s).
Proof.
  revert s. induction generated as [| gen generated IH]; intros s;
    [reflexivity |].
  cbn [for_each fold_left].
  erewrite bind_returns by apply applyGenerated_runs. apply IH.
Qed.

Lemma alter_last {A} (f : A -> A) (l : list A) (x : A) :
  alter f (length l) (l ++ [x]) = l ++ [f x].
Proof.
  replace (length l) with (length l + 0)%nat by lia.
  rewrite alter_app_r. reflexivity.
Qed.

Lemma apply_one_scheduled (c : ModelCall) (s : State) (gen : Generated) :
  scheduleImmediately c = true ->
  let s1 := apply_one c s gen in
  store s1 = store s ++ [made true (pianoKeys s) (nextEventId s) 0 gen]
  /\ noteQueue s1 = noteQueue s ++ [length (store s)]
  /\ noteBuffer s1 = noteBuffer s
  /\ transportEvents s1
     = transportEvents s
       ++ [made_event (length (store s)) (nextEventId s) 0 gen]
  /\ nextEventId s1 = S (nextEventId s).
Proof.
  intros E. unfold apply_one, scheduled, made, made_event. rewrite E.
  fields. rewrite alter_last, !Nat.add_0_r. repeat split.
Qed.

Lemma apply_one_buffered (c : ModelCall) (s : State) (gen : Generated) :
  scheduleImmediately c = false ->
  let s1 := apply_one c s gen in
  store s1 = store s ++ [made false (pianoKeys s) (nextEventId s) 0 gen]
  /\ noteQueue s1 = noteQueue s
  /\ noteBuffer s1 = noteBuffer s ++ [length (store s)]
  /\ transportEvents s1 = transportEvents s
  /\ nextEventId s1 = nextEventId s.
Proof.
  intros E. unfold apply_one, made. rewrite E. fields. repeat split.
Qed.

Lemma apply_one_frame (c : ModelCall) (s : State) (gen : Generated) :
  let s1 := apply_one c s gen in
  pianoKeys s1 = pianoKeys s /\ currHistory s1 = currHistory s
  /\ activeNotes s1 = activeNotes s /\ modelStartTime s1 = modelStartTime s
  /\ callModelEnd s1 = callModelEnd s /\ bpm s1 = bpm s
  /\ bufferBeats s1 = bufferBeats s /\ timers s1 = timers s
  /\ trace s1 = trace s.
Proof.
  unfold apply_one, scheduled.
  destruct (scheduleImmediately c); fields; repeat split.
Qed.

Lemma fold_apply_one_frame (c : ModelCall) (generated : list Generated)
      (s : State) :
  let s' := fold_left (apply_one c) generated s in
  pianoKeys s' = pianoKeys s /\ currHistory s' = currHistory s
  /\ activeNotes s' = activeNotes s /\ modelStartTime s' = modelStartTime s
  /\ callModelEnd s' = callModelEnd s /\ bpm s' = bpm s
  /\ bufferBeats s' = bufferBeats s /\ timers s' = timers s
  /\ trace s' = trace s.
Proof.
  revert s. induction generated as [| gen generated IH]; intros s;
    [repeat split |].
  cbn [fold_left]. cbv zeta in *.
  destruct (IH (apply_one c s gen))
    as (-> & -> & -> & -> & -> & -> & -> & -> & ->).
  apply apply_one_frame.
Qed.

Lemma seq_snoc_cons (a n : nat) : [a] ++ seq (S a) n = seq a (S n).
Proof. reflexivity. Qed.

Lemma fold_apply_one_scheduled (c : ModelCall) (generated : list Generated)
      (s : State) :
  scheduleImmediately c = true ->
  let s' := fold_left (apply_one c) generated s in
  store s'
  = store s ++ imap (made true (pianoKeys s) (nextEventId s)) generated
  /\ noteQueue s'
     = noteQueue s ++ seq (length (store s)) (length generated)
  /\ noteBuffer s' = noteBuffer s
  /\ transportEvents s'
     = transportEvents s
       ++ imap (made_event (length (store s)) (nextEventId s)) generated.
Proof.
  intros E. revert s. induction generated as [| gen generated IH]; intros s.
  - cbn. rewrite !app_nil_r. repeat split.
  - cbn [fold_left]. cbv zeta in *.
    destruct (IH (apply_one c s gen)) as (-> & -> & -> & ->).
    destruct (apply_one_scheduled c s gen E) as (-> & -> & -> & -> & ->).
    destruct (apply_one_frame c s gen) as (-> & _).
    rewrite length_app. cbn [length imap].
    rewrite <- !app_assoc. cbn [app].
    repeat split.
    + f_equal. f_equal. apply imap_ext. intros i g _.
      unfold made. cbn. do 2 f_equal. lia.
    + f_equal. rewrite Nat.add_1_r. reflexivity.
    + f_equal. f_equal. apply imap_ext. intros i g _.
      unfold made_event. cbn. f_equal; [lia | f_equal; lia].
Qed.

Lemma fold_apply_one_buffered (c : ModelCall) (generated : list Generated)
      (s : State) :
  scheduleImmediately c = false ->
  let s' := fold_left (apply_one c) generated s in
  store s'
  = store s ++ imap (made false (pianoKeys s) (nextEventId s)) generated
  /\ noteQueue s' = noteQueue s
  /\ noteBuffer s'
     = noteBuffer s ++ seq (length (store s)) (length generated)
  /\ transportEvents s' = transportEvents s.
Proof.
  intros E. revert s. induction generated as [| gen generated IH]; intros s.
  - cbn. rewrite !app_nil_r. repeat split.
  - cbn [fold_left]. cbv zeta in *.
    destruct (IH (apply_one c s gen)) as (-> & -> & -> & ->).
    destruct (apply_one_buffered c s gen E) as (-> & -> & -> & -> & ->).
    destruct (apply_one_frame c s gen) as (-> & _).
    rewrite length_app. cbn [length imap].
    rewrite <- !app_assoc. cbn [app].
    repeat split.
    f_equal. rewrite Nat.add_1_r. reflexivity.
Qed.

(** X23.  A result of the model that is not stale is taken in (lines
    773-784).  When the engine has been started no later than the call
    was issued, [callModel] makes of every element of the result a new
    note of the actor Model with the key [pianoKeys[keyNum]] - no key
    when [keyNum] is off the keyboard, which raises no error here - and
    the velocity, duration and time of the element, in the order of the
    result.  With [scheduleImmediately] each note gets a callback on the
    transport at its time, keeps its identifier and joins the queue;
    without it the notes join the buffer and the transport is left
    alone.  [callModelEnd] advances by one buffer period.  The current
    History, the active notes and the timers are unchanged and no
    command is sent: a generated note reaches the History only when it
    is played. *)
Theorem fresh_model_result_is_scheduled
        (s : State) (c : ModelCall) (generated : list Generated)
        (started : Z) :
  modelStartTime s = Some started ->
  (started <= initiatedTime c)%Z ->
  exists s',
    Piano.callModel_resume c generated s = Returns tt s'
    /\ callModelEnd s'
       = callModelEnd s + Piano.beatsToSeconds s (bufferBeats s)
    /\ store s'
       = store s
         ++ imap (made (scheduleImmediately c) (pianoKeys s) (nextEventId s))
                 generated
    /\ (if scheduleImmediately c
        then noteQueue s'
             = noteQueue s ++ seq (length (store s)) (length generated)
             /\ noteBuffer s' = noteBuffer s
             /\ transportEvents s'
                = transportEvents s
                  ++ imap (made_event (length (store s)) (nextEventId s))
                          generated
        else noteBuffer s'
             = noteBuffer s ++ seq (length (store s)) (length generated)
             /\ noteQueue s' = noteQueue s
             /\ transportEvents s' = transportEvents s)
    /\ currHistory s' = currHistory s
    /\ activeNotes s' = activeNotes s
    /\ modelStartTime s' = modelStartTime s
    /\ timers s' = timers s
    /\ trace s' = trace s.
Proof.
  intros Hstarted Hfresh.
  set (s1 := fold_left (apply_one c) generated s).
  exists (set_callModelEnd
            (callModelEnd s1 + Piano.beatsToSeconds s1 (bufferBeats s1)) s1).
  destruct (fold_apply_one_frame c generated s)
    as (F1 & F2 & F3 & F4 & F5 & F6 & F7 & F8 & F9).
  fold s1 in F1, F2, F3, F4, F5, F6, F7, F8, F9.
  split.
  { unfold Piano.callModel_resume. rewrite bind_get. cbv beta delta [id].
    rewrite Hstarted.
    destruct (Z.geb_spec (initiatedTime c) started) as [_ | Hlt]; [| lia].
    erewrite bind_returns by apply for_each_applyGenerated.
    reflexivity. }
  fields. unfold Piano.beatsToSeconds. rewrite F5, F6, F7.
  split; [reflexivity |].
  destruct (scheduleImmediately c) eqn:E.
  - destruct (fold_apply_one_scheduled c generated s E) as (G1 & G2 & G3 & G4).
    fold s1 in G1, G2, G3, G4. repeat split; assumption.
  - destruct (fold_apply_one_buffered c generated s E) as (G1 & G2 & G3 & G4).
    fold s1 in G1, G2, G3, G4. repeat split; assumption.
Qed.

Lemma fresh_model_result_is_scheduled_witness :
  exists s',
    Piano.callModel_resume
      (mkModelCall [] 0 1 (1 # 4) 24 3 1 2200 false) two_generated
      model_pending = Returns tt s'
    /\ noteBuffer s'
       = noteBuffer model_pending
         ++ seq (length (store model_pending)) (length two_generated)
    /\ currHistory s' = currHistory model_pending.
Proof.
  assert (Hstarted : modelStartTime model_pending = Some 2200%Z)
    by (vm_compute; reflexivity).
  destruct (fresh_model_result_is_scheduled
              model_pending (mkModelCall [] 0 1 (1 # 4) 24 3 1 2200 false)
              two_generated 2200 Hstarted)
    as (s' & Hrun & _ & _ & Hq & Hh & _).
  - cbn. lia.
  - exists s'. cbn [scheduleImmediately] in Hq. destruct Hq as (Hb & _).
    repeat split; assumption.
Defined.
(** * Freezing the seed *)

Local Open Scope Q_scope.

(** X24.  When the seed is frozen (lines 862-883).  With no model cycle
    started ([modelStartTime] is [null]), the awaiter leaves the engine
    as it is as long as the last activity is less than 1500 ms old or a
    key is still held.  Once 1500 ms have passed and no note is active, it takes the
    tempo that [PianoAudio.detectBpm] finds in the notes of the current
    History, stores it in the audio engine and in the History, freezes
    the seed at the time of the last note of the History, sets
    [callModelEnd] to that time rounded by [roundToOffset] on the tick
    grid of the detected tempo, records the current time as
    [modelStartTime] and issues one model call that is not scheduled
    immediately, for the window that ends at [callModelEnd]; the
    transport, the queue, the buffer and the timers are left alone.
    When the current History is [null] or has no note, it throws a
    [TypeError] instead and no model cycle is started. *)
Theorem seed_is_frozen_after_the_wait detectBpm (s : State) :
  modelStartTime s = None ->
  let idle := (wallClock (clocks s) - lastActivity s)%Z in
  ((idle < 1500)%Z \/ activeNotes s <> [] ->
   Piano.seedInputAwaiter detectBpm s = Returns tt s)
  /\ ((1500 <= idle)%Z -> activeNotes s = [] ->
      forall h lastNote n,
        currHistory s = Some h ->
        Js.at_last (History.noteHistory h) = Some lastNote ->
        store s !! lastNote = Some n ->
        let detected :=
          detectBpm (Piano.notes_of (store s) (History.noteHistory h)) 52 100 in
        exists s' c,
          Piano.seedInputAwaiter detectBpm s = Returns tt s'
          /\ bpm s' = detected
          /\ currHistory s'
             = Some (History.set_lastSeedNoteTime (Some (Note.time n))
                       (History.set_bpm detected h))
          /\ callModelEnd s' = Piano.roundToOffset s' (Note.time n)
          /\ modelStartTime s' = Some (wallClock (clocks s))
          /\ modelCalls s' = modelCalls s ++ [c]
          /\ scheduleImmediately c = false
          /\ initiatedTime c = wallClock (clocks s)
          /\ windowEnd c = callModelEnd s'
          /\ windowStart c
             = Js.max (callModelEnd s'
                       - Piano.beatsToSeconds s' (historyWindowBeats s'))
                      (- Piano.getInterval s' / 2)
          /\ context c
             = History.getRecentHistory (time_ge (store s))
                 (History.noteHistory h) (windowStart c)
               ++ History.getRecentHistory (time_ge (store s))
                    (noteQueue s) (windowStart c)
          /\ store s' = store s /\ noteQueue s' = noteQueue s
          /\ noteBuffer s' = noteBuffer s
          /\ transportSeconds s' = transportSeconds s
          /\ transportEvents s' = transportEvents s
          /\ timers s' = timers s)
  /\ ((1500 <= idle)%Z -> activeNotes s = [] ->
      currHistory s = None
      \/ (exists h, currHistory s = Some h /\ History.noteHistory h = []) ->
      exists s',
        Piano.seedInputAwaiter detectBpm s = Throws Js.TypeError s'
        /\ modelStartTime s' = None /\ modelCalls s' = modelCalls s).
Proof.
  intros Hidle0 idle. split; [| split].
  - intros H. unfold Piano.seedInputAwaiter. rewrite bind_get.
    cbv beta zeta delta [id]. rewrite Hidle0. fold idle.
    destruct H as [H | H].
    + destruct (Z.geb_spec idle 1500); [lia | reflexivity].
    + destruct (activeNotes s); [contradiction H; reflexivity |].
      rewrite andb_false_r. reflexivity.
  - intros Hidle Hactive h lastNote n Hh Hlast Hn detected.
    unfold Piano.seedInputAwaiter. rewrite bind_get.
    cbv beta zeta delta [id]. rewrite Hidle0, Hactive, Hh, Hlast. fold idle.
    destruct (Z.geb_spec idle 1500); [| lia]. cbn [andb length Nat.eqb].
    fold detected. exec.
    erewrite bind_returns; cycle 1.
    { unfold deref. fields. rewrite Hn. reflexivity. }
    exec. unfold Piano.callModel_call. rewrite bind_get.
    cbv beta zeta delta [id]. fields. unfold modify.
    eexists. eexists. split; [reflexivity |].
    fields. repeat split.
  - intros Hidle Hactive Hnone.
    unfold Piano.seedInputAwaiter. rewrite bind_get.
    cbv beta zeta delta [id]. rewrite Hidle0, Hactive. fold idle.
    destruct (Z.geb_spec idle 1500); [| lia]. cbn [andb length Nat.eqb].
    destruct Hnone as [-> | (h & -> & Hempty)].
    + exists s. repeat split. exact Hidle0.
    + rewrite Hempty. cbn [Js.at_last List.map List.last]. exec.
      eexists. split; [reflexivity |]. fields. split; [exact Hidle0 | reflexivity].
Qed.

Lemma seed_is_frozen_after_the_wait_witness :
  exists s' c,
    Piano.seedInputAwaiter sample_detectBpm seed_played = Returns tt s'
    /\ bpm s' = 60
    /\ modelStartTime s' = Some 2200%Z
    /\ modelCalls s' = modelCalls seed_played ++ [c]
    /\ scheduleImmediately c = false.
Proof.
  assert (Hidle0 : modelStartTime seed_played = None)
    by (vm_compute; reflexivity).
  assert (Hidle : (1500 <= wallClock (clocks seed_played)
                           - lastActivity seed_played)%Z)
    by (vm_compute; discriminate).
  assert (Hactive : activeNotes seed_played = [])
    by (vm_compute; reflexivity).
  assert (Hh : exists h lastNote n,
             currHistory seed_played = Some h
             /\ Js.at_last (History.noteHistory h) = Some lastNote
             /\ store seed_played !! lastNote = Some n)
    by (vm_compute; do 3 eexists; repeat split).
  destruct Hh as (h & lastNote & n & Hh & Hlast & Hn).
  destruct (proj1 (proj2 (seed_is_frozen_after_the_wait
                            sample_detectBpm seed_played Hidle0))
                  Hidle Hactive h lastNote n Hh Hlast Hn)
    as (s' & c & Hrun & Hbpm & _ & _ & Hstart & Hcalls & Hsched & _).
  exists s', c. repeat split; assumption.
Defined.
(** * Replaying an archived History *)

Local Open Scope Q_scope.

(** [replayHistory] after its [resetAll] has returned. *)
Lemma replayHistory_after (s s1 : State) (idx : Z) :
  Piano.resetAll s = Returns tt s1 ->
  toneStarted s1 = false -> noteQueue s1 = [] ->
  (Js.at_index (allHistories s1) idx = None ->
   Piano.replayHistory idx s = Throws Js.TypeError s1)
  /\ (forall history,
        Js.at_index (allHistories s1) idx = Some history ->
        History.noteHistory history = [] ->
        Piano.replayHistory idx s
        = Throws Js.TypeError
            (set_currHistory
               (Some (History.new (History.bpm history)
                                  (History.name history))) s1))
  /\ (forall history lastNote last,
        Js.at_index (allHistories s1) idx = Some history ->
        Js.at_last (History.noteHistory history) = Some lastNote ->
        store s1 !! lastNote = Some last ->
        allocated (store s1) (History.noteHistory history) ->
        exists s',
          Piano.replayHistory idx s = Returns tt s'
          /\ currHistory s'
             = Some (History.set_parentHistory (Some history)
                       (History.set_lastSeedNoteTime (Some (Note.time last))
                          (History.new (History.bpm history)
                                       (History.name history))))
          /\ bpm s' = History.bpm history
          /\ toneStarted s' = true
          /\ Forall2 (replayed (store s1) (store s') (transportEvents s'))
                     (noteQueue s') (History.noteHistory history)
          /\ callModelEnd s' = Piano.roundToOffset s' (Note.time last)
          /\ (exists id,
                In (mkEvent id
                      (Js.max 0 (callModelEnd s'
                                 - Piano.beatsToSeconds s' (bufferBeats s')))
                      (StartModelCb
                         (Piano.beatsToSeconds s' (bufferBeats s') * 1000)))
                   (transportEvents s'))
          /\ modelStartTime s' = modelStartTime s1
          /\ activeNotes s' = activeNotes s1
          /\ noteBuffer s' = noteBuffer s1
          /\ awaitingInput s' = awaitingInput s1
          /\ timers s' = timers s1
          /\ allHistories s' = allHistories s1
          /\ transportSeconds s' = transportSeconds s1).
Proof.
  intros Hreset Hstopped Hempty.
  assert (Hrun : forall k : unit -> M unit,
             bind Piano.resetAll k s = k tt s1).
  { intros k. apply bind_returns. exact Hreset. }
  split; [| split].
  - intros Hat. unfold Piano.replayHistory. rewrite Hrun, bind_get.
    cbv beta delta [id]. rewrite Hat. reflexivity.
  - intros history Hat Hno. unfold Piano.replayHistory.
    rewrite Hrun, bind_get. cbv beta delta [id]. rewrite Hat, Hno.
    reflexivity.
  - intros history lastNote last Hat Hlast Hl Hnotes.
    unfold Piano.replayHistory. rewrite Hrun, bind_get.
    cbv beta delta [id]. rewrite Hat, Hlast. clear Hrun Hreset Hat.
    exec.
    erewrite bind_returns; cycle 1.
    { unfold deref. fields. rewrite Hl. reflexivity. }
    clear Hl. unfold Piano.setBPM, Piano.startTone. exec. fields. rewrite Hstopped.
    exec.
    erewrite bind_returns; cycle 1.
    { apply for_each_replayNote. fields. exact Hnotes. }
    set (x := set_trace _ _).
    assert (Hx : allocated (store x) (History.noteHistory history))
      by exact Hnotes.
    destruct (replay_fold (History.noteHistory history) x Hx)
      as (news & ext & evs & Hq & Hs & He & Hall).
    cbv zeta in Hq, Hs, He, Hall.
    set (sr := fold_left replay_one (History.noteHistory history) x) in *.
    assert (Fr : currHistory sr = currHistory x /\ bpm sr = bpm x
                 /\ toneStarted sr = toneStarted x
                 /\ modelStartTime sr = modelStartTime x
                 /\ activeNotes sr = activeNotes x
                 /\ noteBuffer sr = noteBuffer x
                 /\ awaitingInput sr = awaitingInput x
                 /\ timers sr = timers x
                 /\ allHistories sr = allHistories x
                 /\ transportSeconds sr = transportSeconds x
                 /\ ticksPerBeat sr = ticksPerBeat x
                 /\ bufferBeats sr = bufferBeats x).
    { repeat split; subst sr; through_loops; reflexivity. }
    destruct Fr as (R1 & R2 & R3 & R4 & R5 & R6 & R7 & R8 & R9 & R10 & R11
                    & R12).
    change (noteQueue x) with (noteQueue s1) in Hq. rewrite Hempty in Hq.
    cbn [app] in Hq.
    change (store x) with (store s1) in Hs, Hall.
    change (currHistory x)
      with (Some (History.set_parentHistory (Some history)
                    (History.set_lastSeedNoteTime (Some (Note.time last))
                       (History.new (History.bpm history)
                                    (History.name history))))) in R1.
    change (bpm x) with (History.bpm history) in R2.
    change (toneStarted x) with true in R3.
    change (modelStartTime x) with (modelStartTime s1) in R4.
    change (activeNotes x) with (activeNotes s1) in R5.
    change (noteBuffer x) with (noteBuffer s1) in R6.
    change (awaitingInput x) with (awaitingInput s1) in R7.
    change (timers x) with (timers s1) in R8.
    change (allHistories x) with (allHistories s1) in R9.
    change (transportSeconds x) with (transportSeconds s1) in R10.
    clearbody sr. clear x Hx He R11 R12.
    unfold Piano.scheduleStartModel. exec.
    erewrite bind_returns; cycle 1.
    { unfold transportScheduleOnce. reflexivity. }
    unfold ret. eexists. split; [reflexivity |]. fields.
    unfold Piano.roundToOffset, Piano.beatsToSeconds. fields.
    rewrite Hq.
    repeat (split; [first [reflexivity | assumption] |]).
    split.
    { eapply Forall2_impl_Forall with (P := fun _ => True);
        [apply Forall_forall; intros; exact I | exact Hall |].
      intros note' note _ (n & id & H1 & H2 & H3).
      exists n, id. split; [exact H1 |]. split; [exact H2 |].
      apply List.in_or_app. left. exact H3. }
    split; [reflexivity |].
    split.
    { eexists. apply List.in_or_app. right. left. reflexivity. }
    repeat (split; [first [reflexivity | assumption] |]). assumption.
Qed.

(** X25.  Replaying an archived History (lines 1030-1045).  When
    [resetAll] returns, it has archived the current History
    if it was new, and then: for an index beyond the archive,
    [replayHistory] throws a [TypeError] and leaves the engine reset,
    with nothing replayed; for an archived History without notes it
    throws after it has opened a new current History; for an archived
    History with notes it returns with a new, empty current History
    that has the tempo and the name of the archived one, the archived
    one as parent and the time of its last note as frozen seed; the
    engine takes that tempo and marks the tone as started; every note
    of the archived History, as [resetAll] left it, is copied into a
    fresh rewind note that is scheduled on the transport and queued,
    in order; [callModelEnd] is the time of the last note rounded by
    [roundToOffset], and one transport callback is registered that
    starts the model one buffer period before [callModelEnd], but not
    before time 0.  No model cycle is running yet, no note is active or
    buffered, and the timers are those that [resetAll] left.  [resetAll]
    leaves [awaitingInput] as it was: after a replay started while the
    awaiter was listening, [rewind] returns [false]. *)
Theorem replayHistory_replays (s : State) (idx : Z) :
  one_entry_per_key s -> keyed s ->
  allocated (store s) (noteQueue s) ->
  (forall h, currHistory s = Some h ->
             History.isNew h = false \/ History.noteHistory h <> []) ->
  exists s1,
    Piano.resetAll s = Returns tt s1
    /\ allHistories s1
       = allHistories s
         ++ match currHistory s with
            | Some h => if History.isNew h then [h] else []
            | None => []
            end
    /\ store_extends (store s) (store s1)
    /\ (Js.at_index (allHistories s1) idx = None ->
        Piano.replayHistory idx s = Throws Js.TypeError s1)
    /\ (forall history,
          Js.at_index (allHistories s1) idx = Some history ->
          History.noteHistory history = [] ->
          Piano.replayHistory idx s
          = Throws Js.TypeError
              (set_currHistory
                 (Some (History.new (History.bpm history)
                                    (History.name history))) s1))
    /\ (forall history lastNote last,
          Js.at_index (allHistories s1) idx = Some history ->
          Js.at_last (History.noteHistory history) = Some lastNote ->
          store s1 !! lastNote = Some last ->
          allocated (store s1) (History.noteHistory history) ->
          exists s',
            Piano.replayHistory idx s = Returns tt s'
            /\ currHistory s'
               = Some (History.set_parentHistory (Some history)
                         (History.set_lastSeedNoteTime
                            (Some (Note.time last))
                            (History.new (History.bpm history)
                                         (History.name history))))
            /\ bpm s' = History.bpm history
            /\ toneStarted s' = true
            /\ Forall2 (replayed (store s1) (store s') (transportEvents s'))
                       (noteQueue s') (History.noteHistory history)
            /\ callModelEnd s' = Piano.roundToOffset s' (Note.time last)
            /\ (exists id,
                  In (mkEvent id
                        (Js.max 0
                           (callModelEnd s'
                            - Piano.beatsToSeconds s' (bufferBeats s')))
                        (StartModelCb
                           (Piano.beatsToSeconds s' (bufferBeats s') * 1000)))
                     (transportEvents s'))
            /\ modelStartTime s' = None
            /\ activeNotes s' = [] /\ noteBuffer s' = []
            /\ timers s' = timers s1
            /\ allHistories s' = allHistories s1
            /\ awaitingInput s' = awaitingInput s
            /\ (awaitingInput s = true -> Piano.rewind s' = Returns false s')).
Proof.
  intros Hone Hk Hq Harch.
  destruct (resetAll_runs s Hone Hk Hq Harch)
    as (s1 & Hrun & H1 & H2 & H3 & H4 & H5 & H6 & H7 & H8 & H9 & H10 & H11
        & H12).
  destruct (replayHistory_after s s1 idx Hrun H1 H4) as (R1 & R2 & R3).
  exists s1. split; [exact Hrun |]. split; [exact H9 |].
  split; [exact H10 |]. split; [exact R1 |]. split; [exact R2 |].
  intros history lastNote last Hat Hlast Hl Hnotes.
  destruct (R3 history lastNote last Hat Hlast Hl Hnotes)
    as (s' & Hrun' & T1 & T2 & T3 & T4 & T5 & T6 & T7 & T8 & T9 & T10 & T11
        & T12 & T13).
  exists s'. split; [exact Hrun' |].
  rewrite H6 in T7. rewrite H3 in T8. rewrite H5 in T9.
  rewrite H11 in T10. clear T13.
  repeat (split; [assumption |]).
  intros Hw. unfold Piano.rewind. rewrite bind_get. cbv beta delta [id].
  rewrite T10, Hw, orb_true_r. reflexivity.
Qed.

Lemma replayHistory_replays_witness :
  exists s',
    Piano.replayHistory 0 rewound = Returns tt s'
    /\ toneStarted s' = true
    /\ length (noteQueue s') = 2%nat.
Proof.
  assert (Hreach : Piano.reachable sample_detectBpm rewound)
    by (do 6 apply reachable_after; apply reachable_new_engine).
  assert (Hone : one_entry_per_key rewound)
    by exact (proj1 (tracker_inv_reachable _ _ Hreach)).
  assert (Hk : keyed rewound) by (vm_compute; constructor).
  assert (Hq : allocated (store rewound) (noteQueue rewound))
    by (vm_compute; repeat constructor).
  assert (Hcur : exists h,
             currHistory rewound = Some h
             /\ History.noteHistory h = [0%nat; 1%nat; 2%nat])
    by (vm_compute; eexists; split; reflexivity).
  destruct Hcur as (h & Hcur & Hnotes).
  assert (Hold : exists h0 rest,
             allHistories rewound = h0 :: rest
             /\ History.noteHistory h0 = [0%nat; 1%nat])
    by (vm_compute; do 2 eexists; split; reflexivity).
  destruct Hold as (h0 & rest & Hall & Hnotes0).
  assert (Ha0 : allocated (store rewound) [0%nat; 1%nat])
    by (vm_compute; repeat constructor).
  assert (Hn : exists n, store rewound !! 1%nat = Some n)
    by (vm_compute; eexists; reflexivity).
  destruct (replayHistory_replays rewound 0 Hone Hk Hq)
    as (s1 & _ & Hall1 & Hext & _ & _ & Hreplay).
  { intros h' Eh. right. rewrite Hcur in Eh. injection Eh as <-.
    rewrite Hnotes. discriminate. }
  assert (Halloc : allocated (store s1) (History.noteHistory h0)).
  { apply allocated_extends with (σ := store rewound); [exact Hext |].
    rewrite Hnotes0. exact Ha0. }
  assert (Hl : exists last, store s1 !! 1%nat = Some last).
  { destruct Hn as [n Hn].
    destruct (Hext _ _ Hn) as (n' & Hn' & _). exists n'. exact Hn'. }
  destruct Hl as (last & Hl).
  destruct (Hreplay h0 1%nat last) as (s' & Hrun & _ & _ & Hs & Hf & _).
  - rewrite Hall1, Hall. reflexivity.
  - rewrite Hnotes0. reflexivity.
  - exact Hl.
  - exact Halloc.
  - exists s'. split; [exact Hrun |]. split; [exact Hs |].
    rewrite (Forall2_length _ _ _ Hf), Hnotes0. reflexivity.
Defined.
(** * The active keys of the Piano class of lines 1-287 *)

Section Piano1ActiveKeys.
Import Piano1.
Local Open Scope Q_scope.
Context {Position : Type}.
Variable toSeconds : Position -> Q.
Implicit Types (s : State Position) (l : list (ActiveKey Position)).

Lemma is_key_true (k : PianoKey.t) (obj : ActiveKey Position) :
  is_key (Some k) obj = true <-> key obj = k.
Proof.
  unfold is_key. rewrite bool_decide_eq_true.
  split; [intros [= H]; exact H | intros ->; reflexivity].
Qed.

Lemma is_key_false (k : PianoKey.t) (obj : ActiveKey Position) :
  is_key (Some k) obj = false <-> key obj <> k.
Proof.
  rewrite <- is_key_true. destruct (is_key (Some k) obj); split;
    intros H; first [discriminate | reflexivity | intros H'; discriminate H'
                    | exfalso; apply H; reflexivity].
Qed.

Lemma is_key_undefined (obj : ActiveKey Position) : is_key None obj = false.
Proof. reflexivity. Qed.

Lemma find_is_key_none (k : PianoKey.t) l :
  List.find (is_key (Some k)) l = None <-> ~ In k (List.map key l).
Proof.
  induction l as [| obj l IH]; cbn; [tauto |].
  destruct (is_key (Some k) obj) eqn:E.
  - apply is_key_true in E. split; [discriminate | intros H; exfalso; tauto].
  - apply is_key_false in E. rewrite IH. tauto.
Qed.

Lemma find_is_key_some (k : PianoKey.t) l obj :
  List.find (is_key (Some k)) l = Some obj -> In obj l /\ key obj = k.
Proof.
  intros H. apply List.find_some in H as [H1 H2].
  split; [exact H1 | apply is_key_true, H2].
Qed.

Lemma overwrite_keys pk v p t a l :
  List.map key (overwrite pk v p t a l) = List.map key l.
Proof.
  induction l as [| obj l IH]; cbn; [reflexivity |].
  destruct (is_key pk obj); cbn; [reflexivity | rewrite IH; reflexivity].
Qed.

Lemma overwrite_others pk v p t a l :
  List.filter (fun obj => negb (is_key pk obj)) (overwrite pk v p t a l)
  = List.filter (fun obj => negb (is_key pk obj)) l.
Proof.
  induction l as [| obj l IH]; cbn; [reflexivity |].
  destruct (is_key pk obj) eqn:E; cbn.
  - unfold is_key at 1. cbn [key]. fold (is_key pk obj). rewrite E.
    reflexivity.
  - rewrite E. cbn. rewrite IH. reflexivity.
Qed.

Lemma overwrite_In (k : PianoKey.t) v p t a l :
  In k (List.map key l) ->
  In (mkActiveKey k v p t a) (overwrite (Some k) v p t a l).
Proof.
  induction l as [| obj l IH]; cbn; [tauto |].
  destruct (is_key (Some k) obj) eqn:E.
  - apply is_key_true in E. rewrite E. intros _. left. reflexivity.
  - apply is_key_false in E. intros [H | H]; [contradiction |].
    right. apply IH, H.
Qed.

Lemma filter_others_all (k : PianoKey.t) l :
  ~ In k (List.map key l) ->
  List.filter (fun obj => negb (is_key (Some k) obj)) l = l.
Proof.
  induction l as [| obj l IH]; cbn; [reflexivity |]. intros H.
  destruct (is_key (Some k) obj) eqn:E.
  - apply is_key_true in E. tauto.
  - cbn. rewrite IH by tauto. reflexivity.
Qed.

(** With one entry per key, removing the first entry of a key removes
    every entry of the key. *)
Lemma splice_key_filter (k : PianoKey.t) l :
  List.NoDup (List.map key l) ->
  splice_key (Some k) l
  = List.filter (fun obj => negb (is_key (Some k) obj)) l.
Proof.
  induction l as [| obj l IH]; cbn; [reflexivity |]. intros H.
  inversion H as [| ? ? Hn Hl]; subst.
  destruct (is_key (Some k) obj) eqn:E; cbn.
  - apply is_key_true in E. subst k.
    symmetry. apply filter_others_all, Hn.
  - rewrite IH by exact Hl. reflexivity.
Qed.

Lemma NoDup_filter_keys (p : ActiveKey Position -> bool) l :
  List.NoDup (List.map key l) -> List.NoDup (List.map key (List.filter p l)).
Proof.
  induction l as [| obj l IH]; cbn; [intros H; exact H |]. intros H.
  inversion H as [| ? ? Hn Hl]; subst.
  destruct (p obj); [| apply IH, Hl]. cbn. constructor; [| apply IH, Hl].
  intros Hin. apply Hn. apply List.in_map_iff in Hin as (o & E & Ho).
  apply List.filter_In in Ho as [Ho _]. apply List.in_map_iff.
  exists o. split; assumption.
Qed.

Lemma find_filter_others (k : PianoKey.t) l :
  List.find (is_key (Some k))
            (List.filter (fun obj => negb (is_key (Some k) obj)) l) = None.
Proof.
  apply find_is_key_none. intros Hin.
  apply List.in_map_iff in Hin as (o & E & Ho).
  apply List.filter_In in Ho as [_ Ho].
  apply negb_true_iff, is_key_false in Ho. contradiction.
Qed.

Lemma playNote_entries (k : PianoKey.t) v p t a l :
  List.NoDup (List.map key l) ->
  let entries :=
    match List.find (is_key (Some k)) l with
    | None => l ++ [mkActiveKey k v p t a]
    | Some _ => overwrite (Some k) v p t a l
    end in
  List.NoDup (List.map key entries)
  /\ In (mkActiveKey k v p t a) entries
  /\ List.filter (fun obj => negb (is_key (Some k) obj)) entries
     = List.filter (fun obj => negb (is_key (Some k) obj)) l.
Proof.
  intros Hnd. destruct (List.find (is_key (Some k)) l) as [obj |] eqn:E;
    cbv zeta.
  - rewrite overwrite_keys, overwrite_others.
    split; [exact Hnd |]. split; [| reflexivity].
    apply overwrite_In. apply find_is_key_some in E as [E1 <-].
    apply List.in_map, E1.
  - apply find_is_key_none in E. split; [| split].
    + rewrite List.map_app. cbn.
      apply List.NoDup_app; [exact Hnd | repeat constructor; intros [] |].
      intros x Hx [<- | []]. contradiction.
    + apply List.in_or_app. right. left. reflexivity.
    + rewrite List.filter_app. cbn.
      assert (Ek : is_key (Some k) (mkActiveKey k v p t a) = true)
        by (apply is_key_true; reflexivity).
      rewrite Ek. cbn. apply app_nil_r.
Qed.

(** X26.  The active keys of the Piano class of lines 1-287 hold one
    entry per key.  When no two entries of [activeKeys] have the same
    key: [playNote] on an undefined key throws a [TypeError]; on a key
    it returns the transport position it was given and leaves one entry
    for that key, with the velocity, start position and actor of the
    call and an end time that is [-1] exactly when the duration is
    [-1], the other entries being as they were, in their order; a note
    with a duration is recorded in [noteHistory] at once, a held note
    is not.  [releaseNote] leaves no entry for its key, the other
    entries as they were, and stamps the activity; the note of a player
    is recorded then, from its start position, with the elapsed
    transport seconds turned into sixteenth notes at the current tempo;
    the note of another actor is not recorded, and a key that is not
    active changes nothing else.  Both keep one entry per key. *)
Theorem early_active_keys_one_entry_per_key
        (s : State Position) (e : Env Position) :
  List.NoDup (List.map key (activeKeys s)) ->
  (forall v d a time pos,
      playNote None v d a time pos e s = inl Js.TypeError)
  /\ (forall k v d a time pos,
        exists s' endTime,
          playNote (Some k) v d a time pos e s = inr (pos, s')
          /\ List.NoDup (List.map key (activeKeys s'))
          /\ In (mkActiveKey k v pos endTime a) (activeKeys s')
          /\ List.filter (fun obj => negb (is_key (Some k) obj))
                         (activeKeys s')
             = List.filter (fun obj => negb (is_key (Some k) obj))
                           (activeKeys s)
          /\ (endTime = None <-> Js.eqb d (-1) = true)
          /\ noteHistory s'
             = (if Js.eqb d (-1) then noteHistory s
                else noteHistory s ++ [mkNote (PianoKey.keyNum k) v d pos])
          /\ lastActivity s' = lastActivity s /\ bpm s' = bpm s)
  /\ (forall pianoKey,
        let s' := releaseNote toSeconds pianoKey e s in
        List.NoDup (List.map key (activeKeys s'))
        /\ List.find (is_key pianoKey) (activeKeys s') = None
        /\ activeKeys s'
           = List.filter (fun obj => negb (is_key pianoKey obj))
                         (activeKeys s)
        /\ lastActivity s' = now e /\ bpm s' = bpm s
        /\ match List.find (is_key pianoKey) (activeKeys s) with
           | Some obj =>
               noteHistory s'
               = noteHistory s
                 ++ match actor obj with
                    | Player =>
                        [mkNote (PianoKey.keyNum (key obj)) (velocity obj)
                                ((toSeconds (transportPosition e)
                                  - toSeconds (startPosition obj))
                                 * (bpm s / 60) * 4)
                                (startPosition obj)]
                    | _ => []
                    end
           | None => noteHistory s' = noteHistory s /\ trace s' = trace s
           end).
Proof.
  intros Hnd. split; [reflexivity |]. split.
  - intros k v d a time pos. unfold playNote.
    destruct (Js.eqb d (-1)) eqn:Ed; cbn [activeKeys send bpm noteHistory
                                          lastActivity trace].
    + destruct (playNote_entries k v pos None a (activeKeys s) Hnd)
        as (H1 & H2 & H3).
      eexists. exists None. split; [reflexivity |].
      cbn [activeKeys send bpm noteHistory lastActivity trace].
      repeat split; assumption.
    + set (endTime := Some _).
      destruct (playNote_entries k v pos endTime a (activeKeys s) Hnd)
        as (H1 & H2 & H3).
      eexists. exists endTime. split; [reflexivity |].
      cbn [activeKeys send bpm noteHistory lastActivity trace].
      repeat split; try assumption; intros H; discriminate H.
  - intros pk. cbv zeta. unfold releaseNote.
    cbn [activeKeys send bpm noteHistory lastActivity trace].
    destruct pk as [k |].
    + destruct (List.find (is_key (Some k)) (activeKeys s)) as [obj |] eqn:E.
      * rewrite splice_key_filter by exact Hnd.
        destruct (actor obj);
          cbn [activeKeys send bpm noteHistory lastActivity trace];
          rewrite ?app_nil_r;
          (split; [apply NoDup_filter_keys, Hnd |]);
          (split; [apply find_filter_others |]); repeat split.
      * cbn [activeKeys send bpm noteHistory lastActivity trace].
        apply find_is_key_none in E.
        rewrite (filter_others_all k _ E).
        split; [exact Hnd |]. split; [apply find_is_key_none, E |].
        repeat split.
    + cbn [List.find]. assert (Hf : forall l : list (ActiveKey Position),
                 List.find (is_key None) l = None
                 /\ List.filter (fun obj => negb (is_key None obj)) l = l).
      { induction l as [| o l [IH1 IH2]]; [split; reflexivity |].
        cbn. rewrite IH1, IH2. split; reflexivity. }
      destruct (Hf (activeKeys s)) as [-> ->].
      cbn [activeKeys send bpm noteHistory lastActivity trace].
      destruct (Hf (activeKeys s)) as [-> _]. repeat split. exact Hnd.
Qed.

Lemma one_entry_unique (x y : ActiveKey Position) l :
  List.NoDup (List.map key l) ->
  In x l -> In y l -> key x = key y -> x = y.
Proof.
  induction l as [| obj l IH]; cbn; [tauto |]. intros Hnd Hx Hy E.
  apply List.NoDup_cons_iff in Hnd as [Hn Hl].
  destruct Hx as [Hx | Hx], Hy as [Hy | Hy].
  - congruence.
  - exfalso. apply Hn. rewrite Hx, E. apply List.in_map, Hy.
  - exfalso. apply Hn. rewrite Hy, <- E. apply List.in_map, Hx.
  - apply IH; assumption.
Qed.

Lemma find_app_new (k : PianoKey.t) l (x : ActiveKey Position) :
  ~ In k (List.map key l) ->
  List.find (is_key (Some k)) (l ++ [x])
  = if is_key (Some k) x then Some x else None.
Proof.
  induction l as [| o l IH]; cbn; [reflexivity |]. intros H.
  destruct (is_key (Some k) o) eqn:E.
  - apply is_key_true in E. tauto.
  - apply IH. tauto.
Qed.

Lemma splice_app_new (k : PianoKey.t) l (x : ActiveKey Position) :
  ~ In k (List.map key l) ->
  is_key (Some k) x = true ->
  splice_key (Some k) (l ++ [x]) = l.
Proof.
  intros H Hx. induction l as [| o l IH]; cbn.
  - rewrite Hx. reflexivity.
  - cbn in H. destruct (is_key (Some k) o) eqn:E.
    + apply is_key_true in E. tauto.
    + f_equal. apply IH. tauto.
Qed.

(** X27.  Pressing and releasing a key in the Piano class of lines
    1-287.  For a key without active entry, [playNote] as [keyPressed]
    calls it (velocity 0.8, duration [-1], the player, at the current
    transport position) followed later by [releaseNote] on the same key
    leaves [activeKeys] as it was before the press; the press records
    nothing in [noteHistory] and the release records one note of the
    key: velocity 0.8, at the position of the press, lasting the
    transport seconds between press and release turned into sixteenth
    notes at the tempo; the sampler gets one attack and one release. *)
Theorem early_press_and_release
        (s : State Position) (k : PianoKey.t) (e e' : Env Position) :
  ~ In k (List.map key (activeKeys s)) ->
  exists s1,
    playNote (Some k) (8 # 10) (-1) Player None (transportPosition e) e s
    = inr (transportPosition e, s1)
    /\ noteHistory s1 = noteHistory s
    /\ let s2 := releaseNote toSeconds (Some k) e' s1 in
       activeKeys s2 = activeKeys s
       /\ noteHistory s2
          = noteHistory s
            ++ [mkNote (PianoKey.keyNum k) (8 # 10)
                       ((toSeconds (transportPosition e')
                         - toSeconds (transportPosition e))
                        * (bpm s / 60) * 4)
                       (transportPosition e)]
       /\ trace s2
          = trace s
            ++ [TriggerAttack k None (8 # 10); TriggerDraw;
                AddNoteBar (PianoKey.keyNum k) (now e) None Player;
                TriggerRelease k (toneNow e' + (1 # 10));
                CanvasReleaseNote (PianoKey.keyNum k) (now e')]
       /\ lastActivity s2 = now e'.
Proof.
  intros Hk. pose proof Hk as Hfind. apply find_is_key_none in Hfind.
  assert (Ek : forall v p t a,
             is_key (Some k) (mkActiveKey k v p t a) = true)
    by (intros; apply is_key_true; reflexivity).
  eexists. split.
  { unfold playNote. cbn [Js.eqb]. replace (Js.eqb (-1) (-1)) with true
      by reflexivity.
    cbn [activeKeys send bpm noteHistory lastActivity trace].
    rewrite Hfind. reflexivity. }
  cbn [activeKeys send bpm noteHistory lastActivity trace].
  split; [reflexivity |]. cbv zeta. unfold releaseNote.
  cbn [activeKeys send bpm noteHistory lastActivity trace].
  rewrite (find_app_new k _ _ Hk), Ek. cbn [actor key velocity startPosition].
  cbn [activeKeys send bpm noteHistory lastActivity trace].
  rewrite (splice_app_new k _ _ Hk) by apply Ek.
  rewrite <- !app_assoc. repeat split.
Qed.

(** The entries that [releaseAllNotes] releases are recorded like
    this. *)
Lemma fold_release (e : Env Position) (hs : list (ActiveKey Position)) s :
  List.NoDup (List.map key (activeKeys s)) ->
  List.NoDup (List.map key hs) ->
  Forall (fun h => In h (activeKeys s)) hs ->
  let s' :=
    fold_left (fun s heldKey => releaseNote toSeconds (Some (key heldKey)) e s)
              hs s in
  activeKeys s'
  = List.filter
      (fun obj => negb (existsb (fun h => is_key (Some (key h)) obj) hs))
      (activeKeys s)
  /\ noteHistory s'
     = noteHistory s
       ++ List.flat_map (fun h => released_note toSeconds e (bpm s) h) hs
  /\ bpm s' = bpm s.
Proof.
  revert s. induction hs as [| h hs IH]; intros s Hnd Hhs Hin; cbv zeta.
  - cbn. rewrite app_nil_r. split; [| split; reflexivity].
    symmetry. clear. induction (activeKeys s) as [| o l IHl];
      [reflexivity | cbn; f_equal; exact IHl].
  - cbn [fold_left]. cbn [List.map] in Hhs.
    apply List.NoDup_cons_iff in Hhs as [Hh Hhs].
    apply Forall_cons in Hin as [Hinh Hin].
    set (s1 := releaseNote toSeconds (Some (key h)) e s).
    assert (F : activeKeys s1
                = List.filter (fun obj => negb (is_key (Some (key h)) obj))
                              (activeKeys s)
                /\ noteHistory s1
                   = noteHistory s ++ released_note toSeconds e (bpm s) h
                /\ bpm s1 = bpm s).
    { subst s1. unfold releaseNote.
      cbn [activeKeys send bpm noteHistory lastActivity trace].
      destruct (List.find (is_key (Some (key h))) (activeKeys s))
        as [obj |] eqn:E.
      - apply find_is_key_some in E as [E1 E2].
        assert (obj = h)
          by exact (one_entry_unique obj h (activeKeys s) Hnd E1 Hinh E2).
        subst obj. rewrite splice_key_filter by exact Hnd.
        unfold released_note. destruct (actor h);
          cbn [activeKeys send bpm noteHistory lastActivity trace];
          rewrite ?app_nil_r; repeat split.
      - exfalso. apply find_is_key_none in E. apply E.
        apply List.in_map, Hinh. }
    destruct F as (F1 & F2 & F3).
    destruct (IH s1) as (G1 & G2 & G3).
    + rewrite F1. apply NoDup_filter_keys, Hnd.
    + exact Hhs.
    + rewrite F1. apply List.Forall_forall. intros h' Hh'.
      apply List.filter_In. split.
      * rewrite List.Forall_forall in Hin. apply Hin, Hh'.
      * apply negb_true_iff, is_key_false. intros E. apply Hh.
        rewrite <- E. apply List.in_map, Hh'.
    + cbv zeta in G1, G2, G3. rewrite G1, G2, G3, F1, F2, F3.
      split; [| split; [| reflexivity]].
      * clear. induction (activeKeys s) as [| o l IHl]; [reflexivity |].
        cbn. destruct (is_key (Some (key h)) o); cbn; [exact IHl |].
        destruct (existsb _ hs); cbn; [exact IHl | rewrite IHl; reflexivity].
      * cbn [List.flat_map]. rewrite <- app_assoc. reflexivity.
Qed.

(** X28.  [releaseAllNotes] of the Piano class of lines 1-287 releases
    the held keys and only them.  When no two entries of [activeKeys]
    have the same key, it leaves exactly the entries whose end time is
    not [-1], in their order, and records in [noteHistory], in the
    order of [activeKeys], one note for every held entry of the player
    and none for the held entries of another actor. *)
Theorem early_releaseAllNotes_releases_the_held_keys
        (s : State Position) (e : Env Position) :
  List.NoDup (List.map key (activeKeys s)) ->
  let s' := releaseAllNotes toSeconds e s in
  activeKeys s'
  = List.filter (fun obj => Js.defined (endTime obj)) (activeKeys s)
  /\ noteHistory s'
     = noteHistory s
       ++ List.flat_map
            (fun h => released_note toSeconds e (bpm s) h)
            (List.filter (fun obj => negb (Js.defined (endTime obj)))
                         (activeKeys s))
  /\ bpm s' = bpm s.
Proof.
  intros Hnd. cbv zeta. unfold releaseAllNotes.
  set (held := fun obj : ActiveKey Position => negb (Js.defined (endTime obj))).
  destruct (fold_release e (List.filter held (activeKeys s)) s Hnd)
    as (H1 & H2 & H3).
  - apply NoDup_filter_keys, Hnd.
  - apply List.Forall_forall. intros h Hh. apply List.filter_In in Hh as [Hh _].
    exact Hh.
  - cbv zeta in H1, H2, H3. rewrite H1, H2, H3.
    split; [| split; reflexivity].
    apply List.filter_ext_in. intros obj Hobj.
    destruct (existsb _ _) eqn:Ex.
    + apply List.existsb_exists in Ex as (h & Hh & Ek).
      apply List.filter_In in Hh as [Hh Hheld].
      apply is_key_true in Ek.
      assert (obj = h)
        by exact (one_entry_unique obj h (activeKeys s) Hnd Hobj Hh Ek).
      subst h. unfold held in Hheld.
      destruct (Js.defined (endTime obj)); [discriminate Hheld | reflexivity].
    + cbn. destruct (Js.defined (endTime obj)) eqn:Ed; [reflexivity |].
      exfalso. apply Bool.not_true_iff_false in Ex. apply Ex.
      apply List.existsb_exists. exists obj. split.
      * apply List.filter_In. split; [exact Hobj |]. unfold held.
        rewrite Ed. reflexivity.
      * apply is_key_true. reflexivity.
Qed.

End Piano1ActiveKeys.

Lemma early_active_keys_one_entry_per_key_witness :
  List.find (Piano1.is_key (Some (PianoKey.new 15 48)))
            (Piano1.activeKeys
               (Piano1.releaseNote early_seconds (Some (PianoKey.new 15 48))
                                   (early_env 3000 3) early_playing))
  = None.
Proof.
  assert (H : List.NoDup
                (List.map Piano1.key (Piano1.activeKeys early_playing))).
  { cbn. repeat constructor; cbn; [intros [H | []]; discriminate H | tauto]. }
  exact (proj1 (proj2 (proj2 (proj2 (early_active_keys_one_entry_per_key
                                       early_seconds early_playing
                                       (early_env 3000 3) H))
                             (Some (PianoKey.new 15 48))))).
Defined.

Lemma early_press_and_release_witness :
  exists s1,
    Piano1.playNote (Some (PianoKey.new 17 50)) (8 # 10) (-1) Player None 3%Z
                    (early_env 3000 3) early_playing
    = inr (3%Z, s1)
    /\ Piano1.activeKeys
         (Piano1.releaseNote early_seconds (Some (PianoKey.new 17 50))
                             (early_env 4000 4) s1)
       = Piano1.activeKeys early_playing.
Proof.
  destruct (early_press_and_release early_seconds early_playing
              (PianoKey.new 17 50) (early_env 3000 3) (early_env 4000 4))
    as (s1 & Hrun & _ & Hact & _).
  - cbn. intros [H | [H | []]]; discriminate H.
  - exists s1. split; [exact Hrun | exact Hact].
Defined.

Lemma early_releaseAllNotes_releases_the_held_keys_witness :
  length (Piano1.activeKeys
            (Piano1.releaseAllNotes early_seconds (early_env 3000 3)
                                    early_playing)) = 1%nat
  /\ length (Piano1.noteHistory
               (Piano1.releaseAllNotes early_seconds (early_env 3000 3)
                                       early_playing)) = 2%nat.
Proof.
  assert (H : List.NoDup
                (List.map Piano1.key (Piano1.activeKeys early_playing))).
  { cbn. repeat constructor; cbn; [intros [H | []]; discriminate H | tauto]. }
  destruct (early_releaseAllNotes_releases_the_held_keys
              early_seconds early_playing (early_env 3000 3) H)
    as (H1 & H2 & _).
  rewrite H1, H2. split; reflexivity.
Defined.
(** * The hotkey labels of the keyboard *)

Local Open Scope Z_scope.

Lemma hotkeyOf_undefined : HotkeyLabels.hotkeyOf None = None.
Proof. vm_compute. reflexivity. Qed.

Lemma hotkeyOf_In (key : string) (keyNum : Z) :
  HotkeyLabels.hotkeyOf (Some keyNum) = Some key <->
  In (key, keyNum) Piano.keyMap.
Proof.
  split.
  - intros H. apply List.find_some in H as [_ H].
    apply keyMap_lookup_In. unfold Piano.keyMap_lookup.
    change (snd <$> List.find (fun kv => String.eqb (fst kv) key) Piano.keyMap)
      with (Js.property Piano.keyMap key).
    destruct (Js.property Piano.keyMap key) as [v |]; [| discriminate H].
    apply Z.eqb_eq in H. rewrite H. reflexivity.
  - intros H.
    assert (HF : Forall (fun kv => HotkeyLabels.hotkeyOf (Some (snd kv))
                                  = Some (fst kv)) Piano.keyMap)
      by (repeat constructor).
    rewrite List.Forall_forall in HF. exact (HF _ H).
Qed.

Lemma keyMap_colours (key : string) (keyNum : Z) :
  In (key, keyNum) Piano.keyMap ->
  PianoKey.calcKeyNumFromColourKeyNum
    (PianoKey.calcColourKeyNum keyNum) (PianoKey.calcIsWhiteKey keyNum)
  = Some keyNum
  /\ 0 <= PianoKey.calcColourKeyNum keyNum
     < (if PianoKey.calcIsWhiteKey keyNum then 31 else 21).
Proof.
  intros H.
  assert (HF : Forall
                 (fun kv =>
                    PianoKey.calcKeyNumFromColourKeyNum
                      (PianoKey.calcColourKeyNum (snd kv))
                      (PianoKey.calcIsWhiteKey (snd kv)) = Some (snd kv)
                    /\ 0 <= PianoKey.calcColourKeyNum (snd kv)
                       < (if PianoKey.calcIsWhiteKey (snd kv)
                          then 31 else 21))
                 Piano.keyMap)
    by (repeat constructor; vm_compute; congruence).
  rewrite List.Forall_forall in HF. exact (HF _ H).
Qed.

Lemma keyMap_values_NoDup : List.NoDup (List.map snd Piano.keyMap).
Proof.
  let l := eval vm_compute in (List.map snd Piano.keyMap) in
  change (List.NoDup l).
  repeat (constructor; [cbn; lia |]). constructor.
Qed.

(** X29.  The labels that the keyboard canvas draws on its keys.  For
    either colour, [getHotkeyMap] gives the key with colour-relative
    number [i] a label exactly when [i] is below the number of keys of
    that colour and some hotkey of [keyMap] plays the key that
    [calcKeyNumFromColourKeyNum] finds for [i]; the label is then that
    hotkey in upper case, and no index has two labels.  On a keyboard
    of four or more octaves every hotkey of [keyMap] is the label of
    the key that it plays: it is found in the map of the colour of its
    key, at the colour-relative number of its key. *)
Theorem hotkey_labels (c : PianoCanvas.t) (isWhite : bool) :
  let numKeys :=
    if isWhite then PianoCanvas.numWhiteKeys c
    else PianoCanvas.numBlackKeys c in
  (forall i label,
      In (i, label) (HotkeyLabels.getHotkeyMap c isWhite) <->
      0 <= i < numKeys
      /\ exists key keyNum,
           PianoKey.calcKeyNumFromColourKeyNum i isWhite = Some keyNum
           /\ In (key, keyNum) Piano.keyMap
           /\ label = Js.toUpperCase key)
  /\ (forall i label label',
        In (i, label) (HotkeyLabels.getHotkeyMap c isWhite) ->
        In (i, label') (HotkeyLabels.getHotkeyMap c isWhite) ->
        label = label')
  /\ (4 <= PianoCanvas.octaves c ->
      forall key keyNum,
        In (key, keyNum) Piano.keyMap ->
        PianoKey.calcIsWhiteKey keyNum = isWhite ->
        In (PianoKey.calcColourKeyNum keyNum, Js.toUpperCase key)
           (HotkeyLabels.getHotkeyMap c isWhite)).
Proof.
  intros numKeys.
  assert (Hiff : forall i label,
             In (i, label) (HotkeyLabels.getHotkeyMap c isWhite) <->
             0 <= i < numKeys
             /\ exists key keyNum,
                  PianoKey.calcKeyNumFromColourKeyNum i isWhite = Some keyNum
                  /\ In (key, keyNum) Piano.keyMap
                  /\ label = Js.toUpperCase key).
  { intros i label. unfold HotkeyLabels.getHotkeyMap. fold numKeys.
    rewrite <- list_elem_of_In, list_elem_of_omap. split.
    - intros (x & Hx & Hf).
      apply list_elem_of_fmap in Hx as (j & -> & Hj).
      apply elem_of_seq in Hj.
      destruct (HotkeyLabels.hotkeyOf _) as [hotkey |] eqn:Eh;
        [| discriminate Hf].
      injection Hf as <- <-. split; [lia |].
      destruct (PianoKey.calcKeyNumFromColourKeyNum (Z.of_nat j) isWhite)
        as [keyNum |] eqn:Ek.
      + exists hotkey, keyNum. split; [reflexivity |].
        split; [apply hotkeyOf_In, Eh | reflexivity].
      + rewrite hotkeyOf_undefined in Eh. discriminate Eh.
    - intros (Hi & key & keyNum & Ek & Hin & ->).
      exists i. split.
      + apply list_elem_of_fmap. exists (Z.to_nat i).
        split; [lia |]. apply elem_of_seq. lia.
      + rewrite Ek. apply hotkeyOf_In in Hin. rewrite Hin. reflexivity. }
  split; [exact Hiff |]. split.
  - intros i label label' H H'.
    apply Hiff in H as (_ & key & keyNum & Ek & Hin & ->).
    apply Hiff in H' as (_ & key' & keyNum' & Ek' & Hin' & ->).
    rewrite Ek in Ek'. injection Ek' as <-. f_equal.
    exact (NoDup_snd_inj _ _ _ _ keyMap_values_NoDup Hin Hin').
  - intros Ho key keyNum Hin Hw. apply Hiff.
    destruct (keyMap_colours key keyNum Hin) as (Hrt & Hc).
    rewrite Hw in Hrt, Hc. split.
    + unfold numKeys, PianoCanvas.numWhiteKeys, PianoCanvas.numBlackKeys.
      destruct isWhite; lia.
    + exists key, keyNum. repeat split; assumption.
Qed.
